(** * Exoscript text analysis engine: lexer, parser, bracket validator, lint

    A shallow embedding of the TypeScript sources of the Exoscript language
    server (lexer.ts, parser.ts, diagnostics.ts, types.ts, and of folding.ts,
    hover.ts and server.ts the folding ranges, the word under the cursor, the
    go-to-definition handler and the parse cache) together with the
    properties of the specification that are checked against them and
    further properties of the code.

    Modelling conventions.
    - A JavaScript string is a [string]; its code units are the 8-bit
      characters of [ascii] (documents whose code units are all below 256).
    - JavaScript numbers used as line and character offsets are [Z]
      ([indexOf] answers [-1] when nothing is found).
    - Regular expressions are values of [regex], run by a backtracking
      matcher that follows the ECMAScript rules for greedy quantifiers,
      captures and anchors.  In comments a pattern is quoted with blanks
      around a star that touches a parenthesis.
    - Objects that the parser mutates through several references (the
      ChoiceNode objects held at once by the tree, by [choiceStack] and by
      [currentChoice]) live in a heap addressed by index. *)

From Stdlib Require Import ZArith Ascii String List Bool Lia Sorted.
From stdpp Require Import base option list strings gmap pretty.
Import ListNotations.
Open Scope Z_scope.

(** ** JavaScript strings *)

Module JS.

Definition chars (s : string) : list ascii := list_ascii_of_string s.
Definition str (l : list ascii) : string := string_of_list_ascii l.

Definition len (s : string) : Z := Z.of_nat (String.length s).

Definition code (a : ascii) : nat := nat_of_ascii a.

(** [\s] of a regular expression and the characters removed by [trim]:
    TAB, LF, VT, FF, CR, SPACE and NBSP (the only ones below 256). *)
Definition isSpace (a : ascii) : bool :=
  let n := code a in
  ((9 <=? n) && (n <=? 13))%nat || (n =? 32)%nat || (n =? 160)%nat.

(** Line terminators, which [.] does not match: LF and CR. *)
Definition isLineTerminator (a : ascii) : bool :=
  let n := code a in (n =? 10)%nat || (n =? 13)%nat.

(** [\w] is [[A-Za-z0-9_]]. *)
Definition isWord (a : ascii) : bool :=
  let n := code a in
  ((48 <=? n) && (n <=? 57))%nat || ((65 <=? n) && (n <=? 90))%nat
  || ((97 <=? n) && (n <=? 122))%nat || (n =? 95)%nat.

Definition lowerChar (a : ascii) : ascii :=
  let n := code a in
  if ((65 <=? n) && (n <=? 90))%nat then ascii_of_nat (n + 32)
  else if ((192 <=? n) && (n <=? 222) && negb (n =? 215))%nat
       then ascii_of_nat (n + 32)
  else a.

Definition toLowerCase (s : string) : string := str (map lowerChar (chars s)).

Fixpoint dropSpaces (l : list ascii) : list ascii :=
  match l with
  | a :: l' => if isSpace a then dropSpaces l' else l
  | [] => []
  end.

Definition trimChars (l : list ascii) : list ascii :=
  rev (dropSpaces (rev (dropSpaces l))).

Definition trim (s : string) : string := str (trimChars (chars s)).

Fixpoint isPrefix (p l : list ascii) : bool :=
  match p, l with
  | [], _ => true
  | a :: p', b :: l' => Ascii.eqb a b && isPrefix p' l'
  | _ :: _, [] => false
  end.

Definition startsWith (s p : string) : bool := isPrefix (chars p) (chars s).

(** [indexOfFrom p l i]: index of the first occurrence of [p] in [l], the
    positions of [l] being numbered from [i]. *)
Fixpoint indexOfFrom (p l : list ascii) (i : Z) : Z :=
  if isPrefix p l then i
  else match l with
       | [] => -1
       | _ :: l' => indexOfFrom p l' (i + 1)
       end.

(** [s.indexOf(p, from)]; [from] is clamped to [0 .. s.length]. *)
Definition indexOf (s p : string) (from : Z) : Z :=
  let n := Z.to_nat (Z.min (Z.max from 0) (len s)) in
  indexOfFrom (chars p) (skipn n (chars s)) (Z.of_nat n).

Definition includes (s p : string) : bool := negb (indexOf s p 0 =? -1).

(** [s.substring(a, b)]: arguments clamped to [0 .. s.length] and swapped
    when [a > b]. *)
Definition substring (s : string) (a b : Z) : string :=
  let clamp x := Z.to_nat (Z.min (Z.max x 0) (len s)) in
  let a' := Nat.min (clamp a) (clamp b) in
  let b' := Nat.max (clamp a) (clamp b) in
  str (firstn (b' - a') (skipn a' (chars s))).

(** [s.substring(a)]. *)
Definition substringFrom (s : string) (a : Z) : string :=
  substring s a (len s).

(** [s[i]], [None] standing for [undefined]. *)
Definition charAt (s : string) (i : nat) : option ascii := chars s !! i.

(** JavaScript truthiness of a string: [s || d]. *)
Definition orElse (s d : string) : string :=
  if String.eqb s "" then d else s.

(** [arr.join(sep)]. *)
Fixpoint join (sep : string) (l : list string) : string :=
  match l with
  | [] => ""
  | [x] => x
  | x :: l' => x +:+ sep +:+ join sep l'
  end.

Definition inList (x : string) (l : list string) : bool :=
  existsb (String.eqb x) l.

End JS.

(** ** Regular expressions *)

Module Regex.

Inductive regex : Type :=
| Chr (p : ascii -> bool)        (* one character satisfying [p] *)
| Seq (r1 r2 : regex)            (* r1 r2 *)
| Star (r : regex)               (* r*    greedy *)
| Opt (r : regex)                (* r?    greedy *)
| Group (n : nat) (r : regex)    (* (r)   capture group number n *)
| Eps                            (* the empty pattern *)
| Bol                            (* ^ *)
| Eol                            (* $ *)
| WordB.                         (* \b *)

Definition Plus (r : regex) : regex := Seq r (Star r).
Definition Lit (a : ascii) : regex := Chr (Ascii.eqb a).
Definition Dot : regex := Chr (fun a => negb (JS.isLineTerminator a)).
Definition Space : regex := Chr JS.isSpace.
Definition Word : regex := Chr JS.isWord.
Definition NotChr (a : ascii) : regex := Chr (fun b => negb (Ascii.eqb a b)).

(** Concatenation of the items of a pattern, left to right. *)
Fixpoint seqs (l : list regex) : regex :=
  match l with
  | [] => Eps
  | [r] => r
  | r :: l' => Seq r (seqs l')
  end.

(** A literal string. *)
Definition Str (s : string) : regex := seqs (map Lit (JS.chars s)).

(** Captures: group number to the [(start, end)] offsets of its last
    participation. *)
Definition captures := list (nat * (nat * nat)).

(** Is there a word character at offset [i] of [input]? *)
Definition wordAt (input : list ascii) (i : nat) : bool :=
  match input !! i with
  | Some a => JS.isWord a
  | None => false
  end.

(** The iterations of a greedy star.  [step] matches the pattern under the
    star and [k] is what follows the star; one more iteration is tried
    first, and an iteration that consumes nothing is rejected, as ECMAScript
    does.  Every iteration consumes a character, so [fuel], the number of
    characters left, is never used up. *)
Section StarLoop.
Context {A : Type}.
Variable step : nat -> list ascii -> captures ->
                (nat -> list ascii -> captures -> option A) -> option A.
Variable k : nat -> list ascii -> captures -> option A.

Fixpoint starLoop (fuel : nat) (pos : nat) (s : list ascii) (c : captures)
    {struct fuel} : option A :=
  match fuel with
  | O => k pos s c
  | S fuel' =>
      match step pos s c
              (fun pos' s' c' =>
                 if (pos <? pos')%nat then starLoop fuel' pos' s' c'
                 else None) with
      | Some x => Some x
      | None => k pos s c
      end
  end.
End StarLoop.

(** The matcher, in continuation-passing style: [run input r pos s c k]
    matches [r] against [s], the part of [input] that starts at offset [pos],
    and hands the rest to [k]; alternatives are tried in the order of the
    ECMAScript semantics (a quantifier first tries one more iteration). *)
Fixpoint run {A : Type} (input : list ascii) (r : regex) (pos : nat)
    (s : list ascii) (c : captures)
    (k : nat -> list ascii -> captures -> option A) {struct r} : option A :=
  match r with
  | Chr p =>
      match s with
      | a :: s' => if p a then k (S pos) s' c else None
      | [] => None
      end
  | Seq r1 r2 =>
      run input r1 pos s c (fun pos' s' c' => run input r2 pos' s' c' k)
  | Star r1 => starLoop (run input r1) k (length s) pos s c
  | Opt r1 =>
      match run input r1 pos s c
              (fun pos' s' c' =>
                 if (pos <? pos')%nat then k pos' s' c' else None) with
      | Some x => Some x
      | None => k pos s c
      end
  | Group n r1 =>
      run input r1 pos s c
          (fun pos' s' c' => k pos' s' ((n, (pos, pos')) :: c'))
  | Eps => k pos s c
  | Bol => if (pos =? 0)%nat then k pos s c else None
  | Eol => match s with [] => k pos s c | _ :: _ => None end
  | WordB =>
      let before := match pos with O => false | S i => wordAt input i end in
      if xorb before (wordAt input pos) then k pos s c else None
  end.

Record MatchResult : Type := mkMatch {
  m_input : string;
  m_index : nat;          (* match.index *)
  m_end : nat;            (* match.index + match[0].length *)
  m_caps : captures
}.

Definition matchAt (r : regex) (input : string) (pos : nat) : option MatchResult :=
  run (JS.chars input) r pos (skipn pos (JS.chars input)) []
      (fun pos' _ c => Some (mkMatch input pos pos' c)).

(** Leftmost match starting at offset [pos] or later ([RegExp.prototype.exec]
    with [lastIndex = pos]). *)
Fixpoint searchFrom (r : regex) (input : string) (pos : nat) (fuel : nat)
    : option MatchResult :=
  match matchAt r input pos with
  | Some m => Some m
  | None =>
      match fuel with
      | O => None
      | S fuel' => searchFrom r input (S pos) fuel'
      end
  end.

Definition execFrom (r : regex) (input : string) (pos : nat) : option MatchResult :=
  if (pos <=? String.length input)%nat
  then searchFrom r input pos (String.length input - pos)
  else None.

(** [input.match(r)] for a regular expression without the [g] flag. *)
Definition exec (r : regex) (input : string) : option MatchResult :=
  execFrom r input 0.

(** [r.test(input)]. *)
Definition test (r : regex) (input : string) : bool :=
  match exec r input with Some _ => true | None => false end.

(** [match[0]]. *)
Definition whole (m : MatchResult) : string :=
  JS.substring (m_input m) (Z.of_nat (m_index m)) (Z.of_nat (m_end m)).

(** [match[n]]; [None] is [undefined] (the group did not participate). *)
Definition group (m : MatchResult) (n : nat) : option string :=
  match List.find (fun e => (fst e =? n)%nat) (m_caps m) with
  | Some (_, (a, b)) =>
      Some (JS.substring (m_input m) (Z.of_nat a) (Z.of_nat b))
  | None => None
  end.

(** [match[n]] of a group that always participates in a match. *)
Definition group1 (m : MatchResult) (n : nat) : string :=
  match group m n with Some s => s | None => "" end.

(** [input.split(r)]: the ECMAScript algorithm, with [p] the start of the
    current piece and [q] the position at which a separator is tried. *)
Fixpoint splitLoop (r : regex) (input : string) (p q : nat) (fuel : nat)
    : list string :=
  let size := String.length input in
  match fuel with
  | O => [JS.substring input (Z.of_nat p) (Z.of_nat size)]
  | S fuel' =>
      if (size <=? q)%nat
      then [JS.substring input (Z.of_nat p) (Z.of_nat size)]
      else match matchAt r input q with
           | None => splitLoop r input p (S q) fuel'
           | Some m =>
               let e := Nat.min (m_end m) size in
               if (e =? p)%nat then splitLoop r input p (S q) fuel'
               else JS.substring input (Z.of_nat p) (Z.of_nat q)
                    :: splitLoop r input e e fuel'
           end
  end.

Definition split (r : regex) (input : string) : list string :=
  if (String.length input =? 0)%nat
  then match matchAt r input 0 with Some _ => [] | None => [input] end
  else splitLoop r input 0 0 (2 * String.length input + 2).

End Regex.

(** ** Types (types.ts) *)

Record Position : Type := mkPosition { line : Z; character : Z }.

Record Range : Type := mkRange { start : Position; end_ : Position }.

Module TokenType.
Inductive t : Type :=
| STORY_HEADER | CHOICE | CHOICE_ID | JUMP | PAGE_BREAK
| TILDE_IF | TILDE_IFD | TILDE_SET | TILDE_SETIF | TILDE_CALL | TILDE_CALLIF
| TILDE_DISABLED | TILDE_ONCE
| BRACKET_IF | BRACKET_ELSE | BRACKET_ELSEIF | BRACKET_ENDIF | BRACKET_OR
| BRACKET_VAR | BRACKET_RANDOM
| COMMENT_LINE | COMMENT_BLOCK_START | COMMENT_BLOCK_END
| VARIABLE | OPERATOR | NUMBER | BOOLEAN | NULL | IDENTIFIER
| TEXT | NEWLINE | WHITESPACE | EOF | ERROR.

Definition eqb (a b : t) : bool :=
  match a, b with
  | STORY_HEADER, STORY_HEADER | CHOICE, CHOICE | CHOICE_ID, CHOICE_ID
  | JUMP, JUMP | PAGE_BREAK, PAGE_BREAK | TILDE_IF, TILDE_IF
  | TILDE_IFD, TILDE_IFD | TILDE_SET, TILDE_SET | TILDE_SETIF, TILDE_SETIF
  | TILDE_CALL, TILDE_CALL | TILDE_CALLIF, TILDE_CALLIF
  | TILDE_DISABLED, TILDE_DISABLED | TILDE_ONCE, TILDE_ONCE
  | BRACKET_IF, BRACKET_IF | BRACKET_ELSE, BRACKET_ELSE
  | BRACKET_ELSEIF, BRACKET_ELSEIF | BRACKET_ENDIF, BRACKET_ENDIF
  | BRACKET_OR, BRACKET_OR | BRACKET_VAR, BRACKET_VAR
  | BRACKET_RANDOM, BRACKET_RANDOM | COMMENT_LINE, COMMENT_LINE
  | COMMENT_BLOCK_START, COMMENT_BLOCK_START
  | COMMENT_BLOCK_END, COMMENT_BLOCK_END | VARIABLE, VARIABLE
  | OPERATOR, OPERATOR | NUMBER, NUMBER | BOOLEAN, BOOLEAN | NULL, NULL
  | IDENTIFIER, IDENTIFIER | TEXT, TEXT | NEWLINE, NEWLINE
  | WHITESPACE, WHITESPACE | EOF, EOF | ERROR, ERROR => true
  | _, _ => false
  end.
End TokenType.

Module LineType.
Inductive t : Type :=
| EMPTY | COMMENT | STORY_HEADER | TILDE_COMMAND | CHOICE | CHOICE_ID
| JUMP | PAGE_BREAK | TEXT | IN_BLOCK_COMMENT.
End LineType.

(** The jump-style tag ['normal' | 'silent' | 'nobreak']. *)
Inductive JumpType : Type := normal | silent | nobreak.

(** [Token.data]: every field is optional. *)
Record TokenData : Type := mkData {
  choiceLevel : option Z;
  jumpType : option JumpType;
  targetId : option string;
  choiceId : option string;
  storyId : option string;
  isHidden : option bool;
  condition : option string
}.

Definition noData : TokenData := mkData None None None None None None None.

Record Token : Type := mkToken {
  t_type : TokenType.t;
  t_value : string;
  t_range : Range;
  t_data : option TokenData
}.

(** [ParseError.severity]: ['error' | 'warning' | 'info' | 'hint']. *)
Inductive Severity : Type := sev_error | sev_warning | sev_info | sev_hint.

Record ParseError : Type := mkError {
  e_message : string;
  e_range : Range;
  e_severity : Severity;
  e_code : string
}.

(** [TILDE_COMMANDS]. *)
Definition TILDE_COMMANDS : list string :=
  ["if"; "ifd"; "set"; "setif"; "call"; "callif"; "disabled"; "once"].

(** ** The line classifier (lexer.ts) *)

Module Lexer.
Import Regex.

(** The fields of a [Lexer] object ([text] is only used to compute [lines]). *)
Record Lexer : Type := mkLexer {
  lines : list string;
  tokens : list Token;
  errors : list ParseError;
  lineTypes : list LineType.t;
  inBlockComment : bool;
  blockCommentStart : option Position
}.

Record LexerResult : Type := mkLexerResult {
  r_tokens : list Token;
  r_errors : list ParseError;
  r_lineTypes : list LineType.t
}.

(** [/\r?\n/] *)
Definition re_newline : regex := seqs [Opt (Lit "013"); Lit "010"].
(** [/^====+/] *)
Definition re_divider : regex := seqs [Bol; Str "==="; Plus (Lit "=")].
(** [/^===\s+(\w+)/] *)
Definition re_story : regex :=
  seqs [Bol; Str "==="; Plus Space; Group 1 (Plus Word)].
(** [/^~(\w+)\s*( .* )?$/] (written here with blanks around [.*]) *)
Definition re_tilde : regex :=
  seqs [Bol; Lit "~"; Group 1 (Plus Word); Star Space;
        Opt (Group 2 (Star Dot)); Eol].
(** [/^(>{1,3})(!?)\s*( .* )$/] *)
Definition re_jump : regex :=
  seqs [Bol; Group 1 (Seq (Lit ">") (Opt (Seq (Lit ">") (Opt (Lit ">")))));
        Group 2 (Opt (Lit "!")); Star Space; Group 3 (Star Dot); Eol].
(** [/^=\s*(\w+)\s*$/] *)
Definition re_choiceId : regex :=
  seqs [Bol; Lit "="; Star Space; Group 1 (Plus Word); Star Space; Eol].
(** [/^( \*+ )(=?)\s*( .* )$/] *)
Definition re_choice : regex :=
  seqs [Bol; Group 1 (Plus (Lit "*")); Group 2 (Opt (Lit "="));
        Star Space; Group 3 (Star Dot); Eol].
(** [/^(\w+)\s*$/] *)
Definition re_id : regex := seqs [Bol; Group 1 (Plus Word); Star Space; Eol].
(** [/\s/] *)
Definition re_space : regex := Space.
(** [/^-\s*$/] *)
Definition re_pageBreak : regex := seqs [Bol; Lit "-"; Star Space; Eol].

Definition new (text : string) : Lexer :=
  mkLexer (split re_newline text) [] [] [] false None.

Definition pushToken (lx : Lexer) (t : Token) : Lexer :=
  mkLexer (lines lx) (tokens lx ++ [t]) (errors lx) (lineTypes lx)
          (inBlockComment lx) (blockCommentStart lx).

Definition pushError (lx : Lexer) (e : ParseError) : Lexer :=
  mkLexer (lines lx) (tokens lx) (errors lx ++ [e]) (lineTypes lx)
          (inBlockComment lx) (blockCommentStart lx).

Definition pushLineType (lx : Lexer) (t : LineType.t) : Lexer :=
  mkLexer (lines lx) (tokens lx) (errors lx) (lineTypes lx ++ [t])
          (inBlockComment lx) (blockCommentStart lx).

Definition setBlockComment (lx : Lexer) (b : bool) (p : option Position) : Lexer :=
  mkLexer (lines lx) (tokens lx) (errors lx) (lineTypes lx) b p.

Definition setErrors (lx : Lexer) (es : list ParseError) : Lexer :=
  mkLexer (lines lx) (tokens lx) es (lineTypes lx)
          (inBlockComment lx) (blockCommentStart lx).

Definition makeRange (line : nat) (start end_ : Z) : Range :=
  mkRange (mkPosition (Z.of_nat line) start) (mkPosition (Z.of_nat line) end_).

Definition tokenizeLineContent (lx : Lexer) (lineNum : nat) (startOffset : Z)
    (content : string) : Lexer :=
  let trimmed := JS.trim content in
  if negb (String.eqb trimmed "") then
    pushToken lx (mkToken TokenType.TEXT content
                    (makeRange lineNum startOffset (startOffset + JS.len content))
                    None)
  else lx.

Definition getTildeTokenType (cmd : string) : TokenType.t :=
  let c := JS.toLowerCase cmd in
  if String.eqb c "if" then TokenType.TILDE_IF
  else if String.eqb c "ifd" then TokenType.TILDE_IFD
  else if String.eqb c "set" then TokenType.TILDE_SET
  else if String.eqb c "setif" then TokenType.TILDE_SETIF
  else if String.eqb c "call" then TokenType.TILDE_CALL
  else if String.eqb c "callif" then TokenType.TILDE_CALLIF
  else if String.eqb c "disabled" then TokenType.TILDE_DISABLED
  else if String.eqb c "once" then TokenType.TILDE_ONCE
  else TokenType.ERROR.

(** The loop shared, up to the message of its first diagnostic, by
    [validateConditionExpression] and [validateSetExpression]:
    [for (let i = 0; i < trimmed.length; i++)] over the characters [l] that
    remain from index [i], with the loop variables [parenCount] and
    [foundError] and the array [this.errors]. *)
Fixpoint parenLoop (message : string) (lineNum : nat) (startOffset : Z)
    (l : list ascii) (i : Z) (parenCount : Z) (foundError : bool)
    (errs : list ParseError) : Z * bool * list ParseError :=
  match l with
  | [] => (parenCount, foundError, errs)
  | ch :: l' =>
      let parenCount := if Ascii.eqb ch "(" then parenCount + 1 else parenCount in
      let parenCount := if Ascii.eqb ch ")" then parenCount - 1 else parenCount in
      if (parenCount <? 0) && negb foundError then
        parenLoop message lineNum startOffset l' (i + 1) 0 true
          (errs ++ [mkError message
                      (makeRange lineNum (startOffset + i) (startOffset + i + 1))
                      sev_error "unbalanced-parens"])
      else
        parenLoop message lineNum startOffset l' (i + 1) parenCount foundError errs
  end.

Definition missingParen (lineNum : nat) (startOffset : Z) (trimmed : string)
    : ParseError :=
  mkError "Unbalanced parentheses: missing )"
    (makeRange lineNum startOffset (startOffset + JS.len trimmed))
    sev_error "unbalanced-parens".

Definition validateParens (message : string) (lx : Lexer) (expr : string)
    (lineNum : nat) (startOffset : Z) : Lexer :=
  let trimmed := JS.trim expr in
  let '(parenCount, _, errs) :=
    parenLoop message lineNum startOffset (JS.chars trimmed) 0 0 false (errors lx) in
  let lx := setErrors lx errs in
  if 0 <? parenCount then pushError lx (missingParen lineNum startOffset trimmed)
  else lx.

Definition validateConditionExpression : Lexer -> string -> nat -> Z -> Lexer :=
  validateParens "Unbalanced parentheses: unexpected )".

Definition validateSetExpression : Lexer -> string -> nat -> Z -> Lexer :=
  validateParens "Unbalanced parentheses in set expression".

Definition validateTildeCommand (lx : Lexer) (cmd expression : string)
    (lineNum : nat) (startIdx : Z) : Lexer :=
  if String.eqb cmd "disabled" || String.eqb cmd "once" then lx
  else if String.eqb (JS.trim expression) "" then
    if String.eqb cmd "set" || String.eqb cmd "call" then lx
    else pushError lx
           (mkError ("~" +:+ cmd +:+ " requires a condition or expression")
              (makeRange lineNum startIdx (startIdx + JS.len cmd + 1))
              sev_warning "empty-tilde-expression")
  else
    let lx :=
      if String.eqb cmd "if" || String.eqb cmd "ifd"
      then validateConditionExpression lx expression lineNum
             (startIdx + JS.len cmd + 2)
      else lx in
    if String.eqb cmd "set" || String.eqb cmd "setif"
    then validateSetExpression lx expression lineNum (startIdx + JS.len cmd + 2)
    else lx.

(** [validateBracketExpressions] walks over the bracketed expressions of the
    line and counts its brackets, but pushes no token and no error and writes
    no field: it leaves the lexer as it is. *)
Definition validateBracketExpressions (lx : Lexer) (line : string) (lineNum : nat)
    : Lexer := lx.

Definition tokenizeLine (lx : Lexer) (lineNum : nat) : Lexer :=
  let line := nth lineNum (lines lx) "" in
  let trimmed := JS.trim line in
  (* Handle block comment continuation *)
  if inBlockComment lx then
    let endIdx := JS.indexOf line "*/" 0 in
    if negb (endIdx =? -1) then
      let lx := setBlockComment lx false None in
      let lx := pushToken lx (mkToken TokenType.COMMENT_BLOCK_END "*/"
                                (makeRange lineNum endIdx (endIdx + 2)) None) in
      let restOfLine := JS.substringFrom line (endIdx + 2) in
      let lx := if negb (String.eqb (JS.trim restOfLine) "")
                then tokenizeLineContent lx lineNum (endIdx + 2) restOfLine
                else lx in
      pushLineType lx LineType.COMMENT
    else pushLineType lx LineType.IN_BLOCK_COMMENT
  (* Empty line *)
  else if String.eqb trimmed "" then pushLineType lx LineType.EMPTY
  else
  (* Check for block comment start *)
  let blockStart := JS.indexOf line "/*" 0 in
  if negb (blockStart =? -1) && (JS.indexOf line "*/" (blockStart + 2) =? -1) then
    let lx := setBlockComment lx true
                (Some (mkPosition (Z.of_nat lineNum) blockStart)) in
    let lx := pushToken lx (mkToken TokenType.COMMENT_BLOCK_START "/*"
                              (makeRange lineNum blockStart (blockStart + 2)) None) in
    pushLineType lx LineType.COMMENT
  (* Line comment *)
  else if JS.startsWith trimmed "//" then
    let lx := pushToken lx (mkToken TokenType.COMMENT_LINE trimmed
                              (makeRange lineNum (JS.indexOf line "//" 0) (JS.len line))
                              None) in
    pushLineType lx LineType.COMMENT
  (* Comment lines starting with ==== (4+ equals) *)
  else if test re_divider trimmed then
    let lx := pushToken lx (mkToken TokenType.COMMENT_LINE trimmed
                              (makeRange lineNum 0 (JS.len line)) None) in
    pushLineType lx LineType.COMMENT
  else
  (* Story header: === storyID *)
  match exec re_story trimmed with
  | Some storyMatch =>
      let startIdx := JS.indexOf line "===" 0 in
      let lx := pushToken lx
                  (mkToken TokenType.STORY_HEADER (whole storyMatch)
                     (makeRange lineNum startIdx (JS.len line))
                     (Some (mkData None None None None
                              (Some (group1 storyMatch 1)) None None))) in
      pushLineType lx LineType.STORY_HEADER
  | None =>
  (* Invalid story header (=== without valid ID) *)
  if JS.startsWith trimmed "===" && negb (JS.startsWith trimmed "====") then
    let startIdx := JS.indexOf line "===" 0 in
    let lx := pushToken lx (mkToken TokenType.ERROR trimmed
                              (makeRange lineNum startIdx (JS.len line)) None) in
    let lx := pushError lx
                (mkError "Invalid story header. Expected: === storyID"
                   (makeRange lineNum startIdx (JS.len line))
                   sev_error "invalid-story-header") in
    pushLineType lx LineType.STORY_HEADER
  else
  (* Tilde commands *)
  match exec re_tilde trimmed with
  | Some tildeMatch =>
      let cmd := JS.toLowerCase (group1 tildeMatch 1) in
      let startIdx := JS.indexOf line "~" 0 in
      let expression :=
        match group tildeMatch 2 with
        | Some e => JS.orElse e ""
        | None => ""
        end in
      if JS.inList cmd TILDE_COMMANDS then
        let tokenType := getTildeTokenType cmd in
        let lx := pushToken lx
                    (mkToken tokenType trimmed
                       (makeRange lineNum startIdx (JS.len line))
                       (Some (mkData None None None None None None
                                (Some expression)))) in
        let lx := pushLineType lx LineType.TILDE_COMMAND in
        validateTildeCommand lx cmd expression lineNum startIdx
      else
        let lx := pushToken lx (mkToken TokenType.ERROR trimmed
                                  (makeRange lineNum startIdx (JS.len line)) None) in
        let lx := pushError lx
                    (mkError ("Unknown tilde command: ~" +:+ cmd
                              +:+ ". Valid commands: "
                              +:+ JS.join ", " TILDE_COMMANDS)
                       (makeRange lineNum startIdx (startIdx + JS.len cmd + 1))
                       sev_error "unknown-tilde-command") in
        pushLineType lx LineType.TILDE_COMMAND
  | None =>
  (* Jump: >, >>, >!, >>> *)
  match exec re_jump trimmed with
  | Some jumpMatch =>
      let arrows := group1 jumpMatch 1 in
      let bang := group1 jumpMatch 2 in
      let target := JS.trim (group1 jumpMatch 3) in
      let startIdx := JS.indexOf line ">" 0 in
      let jumpType :=
        if String.eqb arrows ">>" then silent
        else if String.eqb arrows ">>>" || String.eqb bang "!" then nobreak
        else normal in
      let lx := pushToken lx
                  (mkToken TokenType.JUMP trimmed
                     (makeRange lineNum startIdx (JS.len line))
                     (Some (mkData None (Some jumpType)
                              (if String.eqb target "" then None else Some target)
                              None None None None))) in
      pushLineType lx LineType.JUMP
  | None =>
  (* Choice ID alone: = choiceID (not preceded by a star) *)
  match (if negb (JS.startsWith trimmed "==") then exec re_choiceId trimmed
         else None) with
  | Some choiceIdMatch =>
      let startIdx := JS.indexOf line "=" 0 in
      let lx := pushToken lx
                  (mkToken TokenType.CHOICE_ID trimmed
                     (makeRange lineNum startIdx (JS.len line))
                     (Some (mkData None None None
                              (Some (group1 choiceIdMatch 1)) None
                              (Some false) None))) in
      pushLineType lx LineType.CHOICE_ID
  | None =>
  (* Choice with optional ID *)
  match exec re_choice trimmed with
  | Some choiceMatch =>
      let stars := group1 choiceMatch 1 in
      let hasId := String.eqb (group1 choiceMatch 2) "=" in
      let rest := JS.trim (group1 choiceMatch 3) in
      let startIdx := JS.indexOf line "*" 0 in
      let lx :=
        if hasId then
          match exec re_id rest with
          | Some idMatch =>
              pushToken lx
                (mkToken TokenType.CHOICE_ID trimmed
                   (makeRange lineNum startIdx (JS.len line))
                   (Some (mkData (Some (JS.len stars)) None None
                            (Some (group1 idMatch 1)) None (Some true) None)))
          | None =>
              if String.eqb rest "" then
                pushError lx
                  (mkError "Hidden choice marker *= requires an ID"
                     (makeRange lineNum startIdx (JS.len line))
                     sev_error "missing-choice-id")
              else
                pushToken lx
                  (mkToken TokenType.CHOICE_ID trimmed
                     (makeRange lineNum startIdx (JS.len line))
                     (Some (mkData (Some (JS.len stars)) None None
                              (head (split re_space rest)) None (Some true) None)))
          end
        else
          pushToken lx
            (mkToken TokenType.CHOICE trimmed
               (makeRange lineNum startIdx (JS.len line))
               (Some (mkData (Some (JS.len stars)) None None None None None None)))
      in
      pushLineType lx LineType.CHOICE
  | None =>
  (* Page break *)
  if test re_pageBreak trimmed then
    let startIdx := JS.indexOf line "-" 0 in
    let lx := pushToken lx (mkToken TokenType.PAGE_BREAK "-"
                              (makeRange lineNum startIdx (startIdx + 1)) None) in
    pushLineType lx LineType.PAGE_BREAK
  else
  (* Regular text *)
  let lx := pushToken lx (mkToken TokenType.TEXT line
                            (makeRange lineNum 0 (JS.len line)) None) in
  let lx := pushLineType lx LineType.TEXT in
  validateBracketExpressions lx line lineNum
  end end end end end.

(** [for (let lineNum = 0; lineNum < this.lines.length; lineNum++)]. *)
Definition tokenizeLines (lx : Lexer) : Lexer :=
  fold_left tokenizeLine (seq 0 (length (lines lx))) lx.

Definition tokenize (lx : Lexer) : LexerResult :=
  let lx := tokenizeLines lx in
  (* Check for unclosed block comment *)
  let lastLine := Z.of_nat (length (lines lx)) - 1 in
  let lastChar :=
    match lines lx !! Z.to_nat lastLine with
    | Some l => JS.len l
    | None => 0
    end in
  let lx :=
    match inBlockComment lx, blockCommentStart lx with
    | true, Some start =>
        pushError lx (mkError "Unclosed block comment"
                        (mkRange start (mkPosition lastLine lastChar))
                        sev_error "unclosed-comment")
    | _, _ => lx
    end in
  (* Add EOF token *)
  let lx := pushToken lx
              (mkToken TokenType.EOF ""
                 (mkRange (mkPosition lastLine lastChar)
                          (mkPosition lastLine lastChar)) None) in
  mkLexerResult (tokens lx) (errors lx) (lineTypes lx).

End Lexer.

(** [tokenize(text)]: tokenize an Exoscript document. *)
Definition tokenize (text : string) : Lexer.LexerResult :=
  Lexer.tokenize (Lexer.new text).

(** ** The abstract syntax tree (types.ts)

    The constant discriminator fields ([type: 'story'] and the like) are left
    out.  A [ChoiceNode] is an object shared between the tree, the stack of
    open choices and [currentChoice]; it is kept in a heap and named by its
    index there, [ref]. *)

Definition ref : Type := nat.

Record ChoiceIdNode : Type := mkChoiceId {
  ci_id : string;
  ci_range : Range;
  ci_isHidden : bool
}.

Record JumpNode : Type := mkJump {
  j_target : string;
  j_range : Range;
  j_jumpType : JumpType
}.

Record TildeCommandNode : Type := mkTilde {
  tc_command : string;
  tc_expression : string;
  tc_range : Range
}.

Record ChoiceNode : Type := mkChoice {
  c_level : Z;
  c_text : string;
  c_range : Range;
  c_id : option ChoiceIdNode;
  c_requirements : list TildeCommandNode;
  c_mutations : list TildeCommandNode;
  c_jumps : list JumpNode;
  c_children : list ref;
  c_pageBreaks : list Range
}.

Record StoryNode : Type := mkStory {
  s_id : string;
  s_range : Range;
  s_headerRange : Range;
  s_requirements : list TildeCommandNode;
  s_mutations : list TildeCommandNode;
  s_choices : list ref;
  s_choiceIds : gmap string ChoiceIdNode
}.

Record DocumentNode : Type := mkDocument {
  d_stories : list StoryNode;
  d_errors : list ParseError;
  d_isDisabled : bool;
  d_heap : list ChoiceNode
}.

(** ** The tree builder (parser.ts) *)

Module Parser.
Import Regex.

Record Parser : Type := mkParser {
  tokens : list Token;
  errors : list ParseError;
  current : nat;
  stories : list StoryNode;
  isDisabled : bool;
  heap : list ChoiceNode
}.

Record ParserResult : Type := mkParserResult {
  document : DocumentNode;
  r_errors : list ParseError
}.

(** [/^~(\w+)\s*( .* )?$/] *)
Definition re_tilde : regex := Lexer.re_tilde.
(** [/^\*+\s*( .* )$/] *)
Definition re_choiceText : regex :=
  seqs [Bol; Plus (Lit "*"); Star Space; Group 1 (Star Dot); Eol].
(** [/^if\s+.+\s+\?\s+(\w+)\s*:\s*(\w+)$/] *)
Definition re_conditional : regex :=
  seqs [Bol; Str "if"; Plus Space; Plus Dot; Plus Space; Lit "?"; Plus Space;
        Group 1 (Plus Word); Star Space; Lit ":"; Star Space;
        Group 2 (Plus Word); Eol].
(** [/\s/] *)
Definition re_space : regex := Space.

Definition setErrors (p : Parser) (es : list ParseError) : Parser :=
  mkParser (tokens p) es (current p) (stories p) (isDisabled p) (heap p).

Definition pushError (p : Parser) (e : ParseError) : Parser :=
  setErrors p (errors p ++ [e]).

Definition setCurrent (p : Parser) (n : nat) : Parser :=
  mkParser (tokens p) (errors p) n (stories p) (isDisabled p) (heap p).

Definition setHeap (p : Parser) (h : list ChoiceNode) : Parser :=
  mkParser (tokens p) (errors p) (current p) (stories p) (isDisabled p) h.

Definition setDisabled (p : Parser) (b : bool) : Parser :=
  mkParser (tokens p) (errors p) (current p) (stories p) b (heap p).

Definition pushStory (p : Parser) (s : StoryNode) : Parser :=
  mkParser (tokens p) (errors p) (current p) (stories p ++ [s]) (isDisabled p)
           (heap p).

(** [new ChoiceNode]: the object is placed at the end of the heap. *)
Definition alloc (p : Parser) (c : ChoiceNode) : Parser * ref :=
  (setHeap p (heap p ++ [c]), length (heap p)).

(** A write through the reference [r]. *)
Definition update (p : Parser) (r : ref) (f : ChoiceNode -> ChoiceNode) : Parser :=
  setHeap p (alter f r (heap p)).

Definition isType (t : Token) (ty : TokenType.t) : bool :=
  TokenType.eqb (t_type t) ty.

Definition isAtEnd (p : Parser) : bool :=
  (length (tokens p) <=? current p)%nat ||
  match tokens p !! current p with
  | Some t => isType t TokenType.EOF
  | None => false
  end.

(** [this.tokens[this.current] || this.tokens[this.tokens.length - 1]];
    [None] is [undefined], the answer for an empty token array. *)
Definition peek (p : Parser) : option Token :=
  match tokens p !! current p with
  | Some t => Some t
  | None => last (tokens p)
  end.

Definition advance (p : Parser) : Parser :=
  if negb (isAtEnd p) then setCurrent p (S (current p)) else p.

(** [token.data?.f]. *)
Definition dataField {A : Type} (f : TokenData -> option A) (t : Token) : option A :=
  match t_data t with
  | Some d => f d
  | None => None
  end.

(** [token.data?.choiceLevel || 1]. *)
Definition levelOf (t : Token) : Z :=
  match dataField choiceLevel t with
  | Some n => if n =? 0 then 1 else n
  | None => 1
  end.

Definition parseTildeCommand (token : Token) : TildeCommandNode :=
  let cmdMatch := exec re_tilde (t_value token) in
  let cmd :=
    match cmdMatch with
    | Some m =>
        match group m 1 with
        | Some c => JS.orElse (JS.toLowerCase c) "unknown"
        | None => "unknown"
        end
    | None => "unknown"
    end in
  let expr :=
    match cmdMatch with
    | Some m => match group m 2 with Some e => JS.orElse e "" | None => "" end
    | None => ""
    end in
  mkTilde cmd expr (t_range token).

Definition parseChoice (token : Token) : ChoiceNode :=
  let level := levelOf token in
  let textMatch := exec re_choiceText (t_value token) in
  let text :=
    match textMatch with
    | Some m => match group m 1 with Some e => JS.orElse e "" | None => "" end
    | None => ""
    end in
  mkChoice level text (t_range token) None [] [] [] [] [].

Definition parseChoiceId (token : Token) : ChoiceIdNode :=
  mkChoiceId
    (match dataField choiceId token with
     | Some i => JS.orElse i "unknown"
     | None => "unknown"
     end)
    (t_range token)
    (match dataField isHidden token with Some b => b | None => false end).

Definition parseJump (token : Token) : JumpNode :=
  mkJump
    (match dataField targetId token with Some s => JS.orElse s "" | None => "" end)
    (t_range token)
    (match dataField jumpType token with Some j => j | None => normal end).

Definition checkDisabledStep (token : Token) : option bool :=
  if isType token TokenType.STORY_HEADER then Some false
  else if isType token TokenType.TILDE_DISABLED then Some true
  else None.

(** [checkDisabled]: the first of the first ten tokens that is a story header
    or a [~disabled] command decides. *)
Fixpoint checkDisabledLoop (l : list Token) : bool :=
  match l with
  | [] => false
  | token :: l' =>
      match checkDisabledStep token with
      | Some b => b
      | None => checkDisabledLoop l'
      end
  end.

Definition checkDisabled (p : Parser) : Parser :=
  if checkDisabledLoop (firstn 10 (tokens p)) then setDisabled p true else p.

(** The local variables of [parseStory]: [story], [currentChoice] and
    [choiceStack].  The stack is kept with its top first:
    [choiceStack[choiceStack.length - 1]] is the head of the list, [push] is
    a cons and [pop] drops the head. *)
Record StoryLocals : Type := mkLocals {
  story : StoryNode;
  currentChoice : option ref;
  choiceStack : list ref
}.

Definition setStory (cx : StoryLocals) (s : StoryNode) : StoryLocals :=
  mkLocals s (currentChoice cx) (choiceStack cx).

Definition pushRequirementS (s : StoryNode) (n : TildeCommandNode) : StoryNode :=
  mkStory (s_id s) (s_range s) (s_headerRange s) (s_requirements s ++ [n])
          (s_mutations s) (s_choices s) (s_choiceIds s).

Definition pushMutationS (s : StoryNode) (n : TildeCommandNode) : StoryNode :=
  mkStory (s_id s) (s_range s) (s_headerRange s) (s_requirements s)
          (s_mutations s ++ [n]) (s_choices s) (s_choiceIds s).

Definition pushChoiceS (s : StoryNode) (r : ref) : StoryNode :=
  mkStory (s_id s) (s_range s) (s_headerRange s) (s_requirements s)
          (s_mutations s) (s_choices s ++ [r]) (s_choiceIds s).

Definition setChoiceIdS (s : StoryNode) (k : string) (v : ChoiceIdNode) : StoryNode :=
  mkStory (s_id s) (s_range s) (s_headerRange s) (s_requirements s)
          (s_mutations s) (s_choices s) (<[k := v]> (s_choiceIds s)).

Definition setRangeS (s : StoryNode) (r : Range) : StoryNode :=
  mkStory (s_id s) r (s_headerRange s) (s_requirements s)
          (s_mutations s) (s_choices s) (s_choiceIds s).

Definition pushRequirementC (n : TildeCommandNode) (c : ChoiceNode) : ChoiceNode :=
  mkChoice (c_level c) (c_text c) (c_range c) (c_id c) (c_requirements c ++ [n])
           (c_mutations c) (c_jumps c) (c_children c) (c_pageBreaks c).

Definition pushMutationC (n : TildeCommandNode) (c : ChoiceNode) : ChoiceNode :=
  mkChoice (c_level c) (c_text c) (c_range c) (c_id c) (c_requirements c)
           (c_mutations c ++ [n]) (c_jumps c) (c_children c) (c_pageBreaks c).

Definition pushJumpC (n : JumpNode) (c : ChoiceNode) : ChoiceNode :=
  mkChoice (c_level c) (c_text c) (c_range c) (c_id c) (c_requirements c)
           (c_mutations c) (c_jumps c ++ [n]) (c_children c) (c_pageBreaks c).

Definition pushChildC (r : ref) (c : ChoiceNode) : ChoiceNode :=
  mkChoice (c_level c) (c_text c) (c_range c) (c_id c) (c_requirements c)
           (c_mutations c) (c_jumps c) (c_children c ++ [r]) (c_pageBreaks c).

Definition pushPageBreakC (r : Range) (c : ChoiceNode) : ChoiceNode :=
  mkChoice (c_level c) (c_text c) (c_range c) (c_id c) (c_requirements c)
           (c_mutations c) (c_jumps c) (c_children c) (c_pageBreaks c ++ [r]).

Definition setIdC (i : ChoiceIdNode) (c : ChoiceNode) : ChoiceNode :=
  mkChoice (c_level c) (c_text c) (c_range c) (Some i) (c_requirements c)
           (c_mutations c) (c_jumps c) (c_children c) (c_pageBreaks c).

(** [while (choiceStack.length >= level) choiceStack.pop()].  On an empty
    stack the loop is left at once: [level] is at least 2 where the loop
    runs. *)
Fixpoint popWhile (choiceStack : list ref) (level : Z) : list ref :=
  match choiceStack with
  | [] => []
  | _ :: rest =>
      if Z.of_nat (length choiceStack) >=? level then popWhile rest level
      else choiceStack
  end.

(** [story.choiceIds.has(k)]. *)
Definition has (m : gmap string ChoiceIdNode) (k : string) : bool :=
  match m !! k with Some _ => true | None => false end.

Definition duplicateChoiceId (choiceIdNode : ChoiceIdNode) (token : Token)
    : ParseError :=
  mkError ("Duplicate choice ID: " +:+ ci_id choiceIdNode) (t_range token)
          sev_error "duplicate-choice-id".

Definition orphanedChoice (level : Z) (token : Token) : ParseError :=
  mkError ("Choice level " +:+ pretty level +:+ " has no parent choice")
          (t_range token) sev_error "orphaned-choice".

Definition orphanedJump (token : Token) : ParseError :=
  mkError "Jump found outside of a choice" (t_range token)
          sev_warning "orphaned-jump".

(** The body of the loop of [parseStory] for a token that is neither a story
    header nor the end marker: the [switch] on [token.type].  Every case
    starts with [this.advance()]. *)
Definition parseStoryToken (p : Parser) (cx : StoryLocals) (token : Token)
    : Parser * StoryLocals :=
  let p := advance p in
  match t_type token with
  | TokenType.TILDE_IF | TokenType.TILDE_IFD =>
      let reqNode := parseTildeCommand token in
      match currentChoice cx with
      | Some c => (update p c (pushRequirementC reqNode), cx)
      | None => (p, setStory cx (pushRequirementS (story cx) reqNode))
      end
  | TokenType.TILDE_SET | TokenType.TILDE_SETIF | TokenType.TILDE_CALL
  | TokenType.TILDE_CALLIF | TokenType.TILDE_ONCE =>
      let mutNode := parseTildeCommand token in
      match currentChoice cx with
      | Some c => (update p c (pushMutationC mutNode), cx)
      | None => (p, setStory cx (pushMutationS (story cx) mutNode))
      end
  | TokenType.TILDE_DISABLED => (p, cx)
  | TokenType.CHOICE =>
      let '(p, choiceNode) := alloc p (parseChoice token) in
      let level := levelOf token in
      if level =? 1 then
        (* Top-level choice *)
        (p, mkLocals (pushChoiceS (story cx) choiceNode)
              (Some choiceNode) [choiceNode])
      else
        (* Nested choice - find parent *)
        let choiceStack := popWhile (choiceStack cx) level in
        match choiceStack with
        | parent :: _ =>
            (update p parent (pushChildC choiceNode),
             mkLocals (story cx) (Some choiceNode) (choiceNode :: choiceStack))
        | [] =>
            (* Orphaned nested choice *)
            (pushError p (orphanedChoice level token),
             mkLocals (pushChoiceS (story cx) choiceNode)
               (Some choiceNode) [choiceNode])
        end
  | TokenType.CHOICE_ID =>
      let choiceIdNode := parseChoiceId token in
      (* Register the choice ID *)
      let '(p, st) :=
        if has (s_choiceIds (story cx)) (ci_id choiceIdNode)
        then (pushError p (duplicateChoiceId choiceIdNode token), story cx)
        else (p, setChoiceIdS (story cx) (ci_id choiceIdNode) choiceIdNode) in
      if ci_isHidden choiceIdNode then
        (* a hidden choice: create a choice node *)
        let '(p, hiddenChoice) :=
          alloc p (mkChoice (levelOf token) "" (t_range token)
                     (Some choiceIdNode) [] [] [] [] []) in
        (p, mkLocals (pushChoiceS st hiddenChoice)
              (Some hiddenChoice) [hiddenChoice])
      else
        match currentChoice cx with
        | Some c =>
            (update p c (setIdC choiceIdNode),
             mkLocals st (currentChoice cx) (choiceStack cx))
        | None => (p, mkLocals st (currentChoice cx) (choiceStack cx))
        end
  | TokenType.JUMP =>
      let jumpNode := parseJump token in
      match currentChoice cx with
      | Some c => (update p c (pushJumpC jumpNode), cx)
      | None => (pushError p (orphanedJump token), cx)
      end
  | TokenType.PAGE_BREAK =>
      match currentChoice cx with
      | Some c => (update p c (pushPageBreakC (t_range token)), cx)
      | None => (p, cx)
      end
  | _ => (p, cx)
  end.

(** [while (!this.isAtEnd())] of [parseStory]. *)
Fixpoint parseStoryLoop (fuel : nat) (p : Parser) (cx : StoryLocals)
    : Parser * StoryLocals :=
  match fuel with
  | O => (p, cx)
  | S fuel' =>
      if isAtEnd p then (p, cx)
      else match peek p with
           | None => (p, cx)
           | Some token =>
               if isType token TokenType.STORY_HEADER then (p, cx)
               else if isType token TokenType.EOF then (p, cx)
               else let '(p, cx) := parseStoryToken p cx token in
                    parseStoryLoop fuel' p cx
           end
  end.

Definition startChoiceId (headerToken : Token) : ChoiceIdNode :=
  mkChoiceId "start" (t_range headerToken) true.

Definition newStory (headerToken : Token) : StoryNode :=
  let storyId :=
    match dataField storyId headerToken with
    | Some s => JS.orElse s "unknown"
    | None => "unknown"
    end in
  mkStory storyId (t_range headerToken) (t_range headerToken) [] [] []
          (<["start" := startChoiceId headerToken]> ∅).

Definition parseStory (p : Parser) : Parser :=
  match peek p with
  | None => p
  | Some headerToken =>
      let p := advance p in
      let '(p, cx) :=
        parseStoryLoop (length (tokens p)) p
          (mkLocals (newStory headerToken) None []) in
      (* Update story range to include all content *)
      let story :=
        if (0 <? length (tokens p))%nat then
          let lastToken :=
            match current p with
            | O => headerToken
            | S n => match tokens p !! n with
                     | Some t => t
                     | None => headerToken
                     end
            end in
          setRangeS (story cx)
            (mkRange (start (t_range headerToken)) (end_ (t_range lastToken)))
        else story cx in
      pushStory p story
  end.

Definition misplacedDisabled (token : Token) : ParseError :=
  mkError "~disabled should be on the first line of the file" (t_range token)
          sev_warning "misplaced-disabled".

Definition contentBeforeStory (token : Token) : ParseError :=
  mkError "Content found before story header. Expected: === storyID"
          (t_range token) sev_warning "content-before-story".

(** [while (!this.isAtEnd())] of [parse]. *)
Fixpoint parseLoop (fuel : nat) (p : Parser) : Parser :=
  match fuel with
  | O => p
  | S fuel' =>
      if isAtEnd p then p
      else match peek p with
           | None => p
           | Some token =>
               if isType token TokenType.STORY_HEADER then
                 parseLoop fuel' (parseStory p)
               else if isType token TokenType.TILDE_DISABLED then
                 let p := if (0 <? current p)%nat
                          then pushError p (misplacedDisabled token) else p in
                 parseLoop fuel' (advance p)
               else if isType token TokenType.EOF then p
               else if isType token TokenType.TEXT then
                 let p :=
                   if (length (stories p) =? 0)%nat && negb (isDisabled p)
                      && negb (String.eqb (JS.trim (t_value token)) "")
                   then pushError p (contentBeforeStory token) else p in
                 parseLoop fuel' (advance p)
               else parseLoop fuel' (advance p)
           end
  end.

Definition specialTargets : list string :=
  ["start"; "end"; "back"; "backonce"; "startonce"].

Definition isSpecialJumpTarget (target : string) : bool :=
  JS.inList (JS.toLowerCase target) specialTargets.

Definition unknownJumpTarget (target : string) (jump : JumpNode) : ParseError :=
  mkError ("Unknown jump target: " +:+ target) (j_range jump)
          sev_warning "unknown-jump-target".

(** [if (!story.choiceIds.has(t) && !this.isSpecialJumpTarget(t)) push]. *)
Definition checkTarget (story : StoryNode) (jump : JumpNode) (target : string)
    (errs : list ParseError) : list ParseError :=
  if negb (has (s_choiceIds story) target) && negb (isSpecialJumpTarget target)
  then errs ++ [unknownJumpTarget target jump]
  else errs.

(** The body of [for (const jump of choice.jumps)]. *)
Definition validateJump (story : StoryNode) (errs : list ParseError)
    (jump : JumpNode) : list ParseError :=
  if String.eqb (j_target jump) "" then errs
  else match exec re_conditional (j_target jump) with
       | Some conditionalMatch =>
           let target1 := group1 conditionalMatch 1 in
           let target2 := group1 conditionalMatch 2 in
           checkTarget story jump target2 (checkTarget story jump target1 errs)
       | None =>
           match head (split re_space (j_target jump)) with
           | Some target => checkTarget story jump target errs
           | None => errs
           end
       end.

(** The closure [validateChoice] of [validateJumpsInStory]; [fuel] bounds the
    depth of the recursion into the children. *)
Fixpoint validateChoice (fuel : nat) (h : list ChoiceNode) (story : StoryNode)
    (errs : list ParseError) (choice : ref) : list ParseError :=
  match fuel with
  | O => errs
  | S fuel' =>
      match h !! choice with
      | None => errs
      | Some c =>
          let errs := fold_left (validateJump story) (c_jumps c) errs in
          fold_left (validateChoice fuel' h story) (c_children c) errs
      end
  end.

Definition validateJumpsInStory (h : list ChoiceNode) (errs : list ParseError)
    (story : StoryNode) : list ParseError :=
  fold_left (validateChoice (length h) h story) (s_choices story) errs.

Definition validateJumpTargets (p : Parser) : Parser :=
  setErrors p (fold_left (validateJumpsInStory (heap p)) (stories p) (errors p)).

Definition new (text : string) : Parser :=
  let lexerResult := tokenize text in
  mkParser (Lexer.r_tokens lexerResult) (Lexer.r_errors lexerResult) 0 [] false [].

Definition parse (text : string) : ParserResult :=
  let p := new text in
  let p := checkDisabled p in
  let p := parseLoop (length (tokens p)) p in
  let p := validateJumpTargets p in
  mkParserResult (mkDocument (stories p) (errors p) (isDisabled p) (heap p))
                 (errors p).

End Parser.

(** [parse(text)]: parse an Exoscript document. *)
Definition parse (text : string) : Parser.ParserResult := Parser.parse text.

(** ** The bracket-balance validator (parser.ts, [validateBrackets]) *)

Module Brackets.
Import Regex.

Record BracketFrame : Type := mkFrame {
  keyword : string;
  f_line : nat;
  f_character : Z
}.

(** The variables of [validateBrackets]: [errors], [stack] (bottom first, as
    the array) and [inBlockComment]. *)
Record State : Type := mkState {
  errors : list ParseError;
  stack : list BracketFrame;
  inBlockComment : bool
}.

(** [/\[( [^\]]* )\]/g] *)
Definition bracketRegex : regex :=
  seqs [Lit "["; Group 1 (Star (NotChr "]")); Lit "]"].

(** The matches that the loop [while ((match = bracketRegex.exec(line)) !== null)]
    goes through: each search starts where the match before ended. *)
Fixpoint execAll (r : regex) (line : string) (lastIndex : nat) (fuel : nat)
    : list MatchResult :=
  match fuel with
  | O => []
  | S fuel' =>
      match execFrom r line lastIndex with
      | None => []
      | Some m =>
          if (lastIndex <? m_end m)%nat
          then m :: execAll r line (m_end m) fuel'
          else [m]
      end
  end.

Definition isOpening (content : string) : bool :=
  JS.startsWith content "if " || String.eqb content "if"
  || JS.startsWith content "if random".

Definition isClosing (content : string) : bool :=
  String.eqb content "endif" || String.eqb content "end".

Definition isMiddle (content : string) : bool :=
  String.eqb content "else" || JS.startsWith content "else "
  || String.eqb content "elseif" || JS.startsWith content "elseif "
  || String.eqb content "or" || JS.startsWith content "or "
  || String.eqb content "|".

Definition matchRange (lineNum : nat) (m : MatchResult) : Range :=
  mkRange (mkPosition (Z.of_nat lineNum) (Z.of_nat (m_index m)))
          (mkPosition (Z.of_nat lineNum)
             (Z.of_nat (m_index m) + JS.len (whole m))).

Definition unmatchedEndif (content : string) (lineNum : nat) (m : MatchResult)
    : ParseError :=
  mkError ("Unexpected [" +:+ content +:+ "] - no matching [if]")
          (matchRange lineNum m) sev_error "unmatched-endif".

Definition orphanedElse (lineNum : nat) (m : MatchResult) : ParseError :=
  mkError ("[" +:+ JS.trim (group1 m 1) +:+ "] outside of [if] block")
          (matchRange lineNum m) sev_error "orphaned-else".

Definition unclosedIf (frame : BracketFrame) : ParseError :=
  mkError "Unclosed [if] - missing [endif] or [end]"
          (mkRange (mkPosition (Z.of_nat (f_line frame)) (f_character frame))
                   (mkPosition (Z.of_nat (f_line frame)) (f_character frame + 3)))
          sev_error "unclosed-if".

(** The body of the loop over the bracketed expressions of a line. *)
Definition onMatch (lineNum : nat) (st : State) (m : MatchResult) : State :=
  let content := JS.toLowerCase (JS.trim (group1 m 1)) in
  let startChar := Z.of_nat (m_index m) in
  (* Opening brackets *)
  if isOpening content then
    mkState (errors st) (stack st ++ [mkFrame "if" lineNum startChar])
            (inBlockComment st)
  (* Closing brackets *)
  else if isClosing content then
    if (length (stack st) =? 0)%nat then
      mkState (errors st ++ [unmatchedEndif content lineNum m]) (stack st)
              (inBlockComment st)
    else mkState (errors st) (removelast (stack st)) (inBlockComment st)
  (* Else/elseif/or are valid only inside an if block *)
  else if isMiddle content then
    if (length (stack st) =? 0)%nat then
      mkState (errors st ++ [orphanedElse lineNum m]) (stack st)
              (inBlockComment st)
    else st
  else st.

(** The part of the line that is scanned once the comments are taken out;
    [None] when the line lies inside a block comment ([continue]). *)
Definition stripComments (inBlock : bool) (line : string) : option (string * bool) :=
  let afterBlock :=
    if inBlock then
      let endIdx := JS.indexOf line "*/" 0 in
      if negb (endIdx =? -1) then Some (JS.substringFrom line (endIdx + 2), false)
      else None
    else Some (line, false) in
  match afterBlock with
  | None => None
  | Some (line, inBlock) =>
      let blockStart := JS.indexOf line "/*" 0 in
      let '(line, inBlock) :=
        if negb (blockStart =? -1) then
          let blockEnd := JS.indexOf line "*/" (blockStart + 2) in
          if blockEnd =? -1 then (JS.substring line 0 blockStart, true)
          else (JS.substring line 0 blockStart
                +:+ JS.substringFrom line (blockEnd + 2), inBlock)
        else (line, inBlock) in
      (* Skip line comments *)
      let commentIdx := JS.indexOf line "//" 0 in
      let line := if negb (commentIdx =? -1)
                  then JS.substring line 0 commentIdx else line in
      Some (line, inBlock)
  end.

(** The body of [for (let lineNum = 0; lineNum < lines.length; lineNum++)]. *)
Definition onLine (lines : list string) (st : State) (lineNum : nat) : State :=
  let line := nth lineNum lines "" in
  match stripComments (inBlockComment st) line with
  | None => st
  | Some (line, inBlock) =>
      let st := mkState (errors st) (stack st) inBlock in
      fold_left (onMatch lineNum)
                (execAll bracketRegex line 0 (S (String.length line))) st
  end.

Definition scan (text : string) : State :=
  let lines := split Lexer.re_newline text in
  fold_left (onLine lines) (seq 0 (length lines)) (mkState [] [] false).

Definition validateBrackets (text : string) : list ParseError :=
  let st := scan text in
  (* Check for unclosed brackets *)
  errors st ++ map unclosedIf (stack st).

End Brackets.

Definition validateBrackets (text : string) : list ParseError :=
  Brackets.validateBrackets text.

(** ** The diagnostics aggregator (diagnostics.ts) *)

Module DiagnosticSeverity.
Inductive t : Type := Error | Warning | Information | Hint.
End DiagnosticSeverity.

Record Diagnostic : Type := mkDiagnostic {
  severity : DiagnosticSeverity.t;
  range : Range;
  message : string;
  source : string;
  code : option string
}.

Module Diagnostics.
Import Regex.

(** Every value of the type [ParseError['severity']] has its own case, so the
    [default] case of the source is not reached. *)
Definition getSeverity (s : Severity) : DiagnosticSeverity.t :=
  match s with
  | sev_error => DiagnosticSeverity.Error
  | sev_warning => DiagnosticSeverity.Warning
  | sev_info => DiagnosticSeverity.Information
  | sev_hint => DiagnosticSeverity.Hint
  end.

Definition convertRange (r : Range) : Range :=
  mkRange (mkPosition (line (start r)) (character (start r)))
          (mkPosition (line (end_ r)) (character (end_ r))).

Definition convertToDiagnostic (e : ParseError) : Diagnostic :=
  mkDiagnostic (getSeverity (e_severity e)) (convertRange (e_range e))
               (e_message e) "exoscript" (Some (e_code e)).

(** [/^~(\w+)/] *)
Definition re_tildeWord : regex := seqs [Bol; Lit "~"; Group 1 (Plus Word)].
(** The global pattern of one quotation mark, character 34. *)
Definition re_quote : regex := Lit "034".
(** [/^( \*+ )\s*$/] *)
Definition re_emptyChoice : regex :=
  seqs [Bol; Group 1 (Plus (Lit "*")); Star Space; Eol].
(** [/\b([a-z]+_\w+)\b/g] *)
Definition re_variable : regex :=
  seqs [WordB;
        Group 1 (seqs [Plus (Chr (fun a => (97 <=? JS.code a)%nat
                                           && (JS.code a <=? 122)%nat));
                       Lit "_"; Plus Word]);
        WordB].

Definition validCommands : list string :=
  ["if"; "ifd"; "set"; "setif"; "call"; "callif"; "disabled"; "once"].

(** The own properties of the object [typoMap]. *)
Definition typoMap : list (string * string) :=
  [("iff", "if"); ("fi", "if"); ("ifdd", "ifd"); ("sett", "set");
   ("setiff", "setif"); ("calll", "call"); ("calliff", "callif");
   ("disable", "disabled"); ("disabeld", "disabled")].

(** [typoMap[cmd]], as the text it has inside a template literal; [None] is
    [undefined].  [typoMap] is an object literal, so a name that is not one
    of its own properties is looked up in [Object.prototype]; of the names
    a lower-cased [\w+] can spell, that finds [constructor] and
    [__proto__], both truthy. *)
Definition typoLookup (cmd : string) : option string :=
  match List.find (fun e => String.eqb (fst e) cmd) typoMap with
  | Some (_, v) => Some v
  | None =>
      if String.eqb cmd "constructor"
      then Some "function Object() { [native code] }"
      else if String.eqb cmd "__proto__" then Some "[object Object]"
      else None
  end.

Definition validPrefixes : list string :=
  ["var_"; "mem_"; "hog_"; "skill_"; "love_"; "story_"; "call_"; "plot_"].

Definition knownTypes : list string :=
  ["age"; "season"; "month"; "job"; "location"; "chara"; "repeat"; "random";
   "mapspot"; "biome"; "status"; "once"; "first"; "bg"; "left"; "right";
   "midleft"; "midright"; "speaker"; "sprite"].

Definition lineRange (lineNum : nat) (a b : Z) : Range :=
  mkRange (mkPosition (Z.of_nat lineNum) a) (mkPosition (Z.of_nat lineNum) b).

(** Check 1 of [additionalValidation]: typos in tilde commands. *)
Definition checkTypo (lineNum : nat) (line : string) (tildeMatch : option MatchResult)
    : list Diagnostic :=
  match tildeMatch with
  | Some m =>
      let cmd := JS.toLowerCase (group1 m 1) in
      match typoLookup cmd with
      | Some suggestion =>
          [mkDiagnostic DiagnosticSeverity.Error
             (lineRange lineNum (JS.indexOf line "~" 0)
                        (JS.indexOf line "~" 0 + JS.len cmd + 1))
             ("Did you mean ~" +:+ suggestion +:+ "?") "exoscript" (Some "typo")]
      | None => []
      end
  | None => []
  end.

(** Check 2: mismatched quotes. *)
Definition checkQuotes (lineNum : nat) (line : string) : list Diagnostic :=
  let quoteCount :=
    length (Brackets.execAll re_quote line 0 (S (String.length line))) in
  if negb (quoteCount mod 2 =? 0)%nat then
    [mkDiagnostic DiagnosticSeverity.Hint (lineRange lineNum 0 (JS.len line))
       "Unmatched quote - intentional if dialogue continues" "exoscript"
       (Some "unmatched-quote")]
  else [].

(** Check 3: empty choices. *)
Definition checkEmptyChoice (lineNum : nat) (line trimmed : string)
    : list Diagnostic :=
  match exec re_emptyChoice trimmed with
  | Some _ =>
      [mkDiagnostic DiagnosticSeverity.Warning
         (lineRange lineNum (JS.indexOf line "*" 0) (JS.len line))
         "Empty choice text - use *= for hidden choices" "exoscript"
         (Some "empty-choice")]
  | None => []
  end.

(** Check 4: story header without ID. *)
Definition checkStoryId (lineNum : nat) (line trimmed : string) : list Diagnostic :=
  if String.eqb trimmed "===" then
    [mkDiagnostic DiagnosticSeverity.Error
       (lineRange lineNum (JS.indexOf line "===" 0) (JS.indexOf line "===" 0 + 3))
       "Story header requires an ID: === storyID" "exoscript"
       (Some "missing-story-id")]
  else [].

Definition tildeWordIn (tildeMatch : option MatchResult) (l : list string) : bool :=
  match tildeMatch with
  | Some m => JS.inList (JS.toLowerCase (group1 m 1)) l
  | None => false
  end.

(** Check 5: variable prefixes in [~set] and [~if]. *)
Definition checkPrefix (lineNum : nat) (line : string) (v : string)
    : list Diagnostic :=
  let prefix := JS.substring v 0 (JS.indexOf v "_" 0 + 1) in
  if JS.includes v "_" && negb (JS.inList prefix validPrefixes) then
    let beforeUnderscore :=
      match head (split (Lit "_") v) with Some b => b | None => "" end in
    if negb (JS.inList beforeUnderscore knownTypes) then
      [mkDiagnostic DiagnosticSeverity.Hint
         (lineRange lineNum (JS.indexOf line v 0) (JS.indexOf line v 0 + JS.len v))
         ("Unknown variable prefix: " +:+ prefix
          +:+ ". Common prefixes: var_, mem_, hog_, skill_, love_, story_")
         "exoscript" (Some "unknown-prefix")]
    else []
  else [].

Definition checkPrefixes (lineNum : nat) (line : string)
    (tildeMatch : option MatchResult) : list Diagnostic :=
  if tildeWordIn tildeMatch ["if"; "ifd"; "set"; "setif"] then
    let varMatch :=
      map whole (Brackets.execAll re_variable line 0 (S (String.length line))) in
    flat_map (checkPrefix lineNum line) varMatch
  else [].

(** Check 6: suspicious operator usage. *)
Definition checkOperators (lineNum : nat) (line : string)
    (tildeMatch : option MatchResult) : list Diagnostic :=
  if tildeWordIn tildeMatch ["if"; "ifd"] then
    (if JS.includes line "= =" then
       [mkDiagnostic DiagnosticSeverity.Warning
          (lineRange lineNum (JS.indexOf line "= =" 0) (JS.indexOf line "= =" 0 + 3))
          "Space in operator - did you mean == or =?" "exoscript"
          (Some "spaced-operator")]
     else [])
    ++
    (if JS.includes line "& &" || JS.includes line "| |" then
       let op := if JS.includes line "& &" then "& &" else "| |" in
       let correct := if JS.includes line "& &" then "&&" else "||" in
       [mkDiagnostic DiagnosticSeverity.Warning
          (lineRange lineNum (JS.indexOf line op 0) (JS.indexOf line op 0 + 3))
          ("Space in operator - did you mean " +:+ correct +:+ "?") "exoscript"
          (Some "spaced-operator")]
     else [])
  else [].

(** The body of the loop of [additionalValidation]: the diagnostics pushed
    for one line. *)
Definition validateLine (lines : list string) (lineNum : nat) : list Diagnostic :=
  let line := nth lineNum lines "" in
  let trimmed := JS.trim line in
  let tildeMatch := exec re_tildeWord trimmed in
  checkTypo lineNum line tildeMatch
  ++ checkQuotes lineNum line
  ++ checkEmptyChoice lineNum line trimmed
  ++ checkStoryId lineNum line trimmed
  ++ checkPrefixes lineNum line tildeMatch
  ++ checkOperators lineNum line tildeMatch.

Definition additionalValidation (text : string) (diagnostics : list Diagnostic)
    : list Diagnostic :=
  let lines := split Lexer.re_newline text in
  diagnostics ++ flat_map (validateLine lines) (seq 0 (length lines)).

Definition disabledInfo : Diagnostic :=
  mkDiagnostic DiagnosticSeverity.Information
    (mkRange (mkPosition 0 0) (mkPosition 0 9))
    "This file is disabled with ~disabled" "exoscript" None.

(** [analyzeDiagnostics].  None of the three stages throws in this model, so
    the [catch] clauses are not entered. *)
Definition analyzeDiagnostics (text : string) : list Diagnostic :=
  let parseResult := parse text in
  let diagnostics := map convertToDiagnostic (Parser.r_errors parseResult) in
  let diagnostics :=
    if d_isDisabled (Parser.document parseResult)
    then diagnostics ++ [disabledInfo] else diagnostics in
  let bracketErrors := validateBrackets text in
  let diagnostics := diagnostics ++ map convertToDiagnostic bracketErrors in
  additionalValidation text diagnostics.

End Diagnostics.

Definition analyzeDiagnostics (text : string) : list Diagnostic :=
  Diagnostics.analyzeDiagnostics text.

(** A document given by its lines. *)
Definition doc (l : list string) : string := JS.join (String "010" "") l.


(** ** Folding ranges (folding.ts) *)

Module FoldingRangeKind.
Inductive t : Type := Comment | Imports | Region.
End FoldingRangeKind.

Record FoldingRange : Type := mkFoldingRange {
  startLine : Z;
  endLine : Z;
  kind : FoldingRangeKind.t
}.

Module Folding.
Import Regex.

(** The body of the loop that looks for the last line of the children:
    [if (child.range.end.line > endLine) endLine = child.range.end.line]. *)
Definition lastLine (h : list ChoiceNode) (endLine : Z) (child : ref) : Z :=
  match h !! child with
  | Some c =>
      if line (end_ (c_range c)) >? endLine then line (end_ (c_range c))
      else endLine
  | None => endLine
  end.

(** [addChoiceFoldingRanges]; [fuel] bounds the depth of the recursion into
    the children. *)
Fixpoint addChoiceFoldingRanges (fuel : nat) (h : list ChoiceNode)
    (ranges : list FoldingRange) (choice : ref) : list FoldingRange :=
  match fuel with
  | O => ranges
  | S fuel' =>
      match h !! choice with
      | None => ranges
      | Some c =>
          if (0 <? length (c_children c))%nat then
            let endLine :=
              fold_left (lastLine h) (c_children c) (line (end_ (c_range c))) in
            let ranges :=
              if endLine >? line (start (c_range c))
              then ranges ++ [mkFoldingRange (line (start (c_range c))) endLine
                                FoldingRangeKind.Region]
              else ranges in
            (* Recurse into children *)
            fold_left (addChoiceFoldingRanges fuel' h) (c_children c) ranges
          else ranges
      end
  end.

(** The variables of [addBlockCommentRanges]: [inBlockComment],
    [blockStart] and the array [ranges]. *)
Record CommentState : Type := mkCommentState {
  cs_inBlockComment : bool;
  cs_blockStart : nat;
  cs_ranges : list FoldingRange
}.

(** The body of [for (let i = 0; i < lines.length; i++)]. *)
Definition commentLine (lines : list string) (st : CommentState) (i : nat)
    : CommentState :=
  let line := nth i lines "" in
  if negb (cs_inBlockComment st) then
    let startIdx := JS.indexOf line "/*" 0 in
    if negb (startIdx =? -1) then
      let endIdx := JS.indexOf line "*/" (startIdx + 2) in
      if endIdx =? -1 then
        (* Block comment starts but doesn't end on this line *)
        mkCommentState true i (cs_ranges st)
      else st
    else st
  else
    let endIdx := JS.indexOf line "*/" 0 in
    if negb (endIdx =? -1) then
      (* Block comment ends *)
      mkCommentState false (cs_blockStart st)
        (if (cs_blockStart st <? i)%nat
         then cs_ranges st ++ [mkFoldingRange (Z.of_nat (cs_blockStart st))
                                (Z.of_nat i) FoldingRangeKind.Comment]
         else cs_ranges st)
    else st.

Definition addBlockCommentRanges (lines : list string)
    (ranges : list FoldingRange) : list FoldingRange :=
  cs_ranges (fold_left (commentLine lines) (seq 0 (length lines))
              (mkCommentState false 0 ranges)).

(** The variables of [addBracketBlockRanges]: [stack] (the lines of the
    frames, bottom first), [inBlockComment] and the array [ranges]. *)
Record BracketState : Type := mkBracketState {
  bs_stack : list nat;
  bs_inBlockComment : bool;
  bs_ranges : list FoldingRange
}.

(** The body of the loop over the bracketed expressions of a line. *)
Definition bracketMatch (lineNum : nat) (st : BracketState) (m : MatchResult)
    : BracketState :=
  let content := JS.toLowerCase (JS.trim (group1 m 1)) in
  if Brackets.isOpening content then
    mkBracketState (bs_stack st ++ [lineNum]) (bs_inBlockComment st) (bs_ranges st)
  else if Brackets.isClosing content then
    match last (bs_stack st) with
    | Some frame =>
        mkBracketState (removelast (bs_stack st)) (bs_inBlockComment st)
          (if (frame <? lineNum)%nat
           then bs_ranges st ++ [mkFoldingRange (Z.of_nat frame) (Z.of_nat lineNum)
                                  FoldingRangeKind.Region]
           else bs_ranges st)
    | None => st
    end
  else st.

(** The body of [for (let lineNum = 0; lineNum < lines.length; lineNum++)];
    the comments are cut out of the line as [validateBrackets] does. *)
Definition bracketLine (lines : list string) (st : BracketState) (lineNum : nat)
    : BracketState :=
  let line := nth lineNum lines "" in
  match Brackets.stripComments (bs_inBlockComment st) line with
  | None => st
  | Some (line, inBlock) =>
      let st := mkBracketState (bs_stack st) inBlock (bs_ranges st) in
      fold_left (bracketMatch lineNum)
                (Brackets.execAll Brackets.bracketRegex line 0
                   (S (String.length line))) st
  end.

Definition bracketScan (lines : list string) (ranges : list FoldingRange)
    : BracketState :=
  fold_left (bracketLine lines) (seq 0 (length lines))
            (mkBracketState [] false ranges).

Definition addBracketBlockRanges (lines : list string)
    (ranges : list FoldingRange) : list FoldingRange :=
  bs_ranges (bracketScan lines ranges).

(** The body of [for (const story of parseResult.document.stories)]. *)
Definition storyRanges (h : list ChoiceNode) (ranges : list FoldingRange)
    (story : StoryNode) : list FoldingRange :=
  let ranges :=
    if line (end_ (s_range story)) >? line (start (s_range story))
    then ranges ++ [mkFoldingRange (line (start (s_range story)))
                      (line (end_ (s_range story))) FoldingRangeKind.Region]
    else ranges in
  (* Add choice folding ranges within the story *)
  fold_left (addChoiceFoldingRanges (length h) h) (s_choices story) ranges.

Definition getFoldingRanges (text : string) (parseResult : Parser.ParserResult)
    : list FoldingRange :=
  let lines := split Lexer.re_newline text in
  let h := d_heap (Parser.document parseResult) in
  (* Add story folding ranges *)
  let ranges :=
    fold_left (storyRanges h) (d_stories (Parser.document parseResult)) [] in
  (* Add block comment folding ranges *)
  let ranges := addBlockCommentRanges lines ranges in
  (* Add bracket [if]...[endif] folding ranges *)
  addBracketBlockRanges lines ranges.

End Folding.

(** ** The language server (server.ts): the parse cache and go-to-definition *)

(** A [TextDocument], as far as the server reads it: [uri] and [getText()]. *)
Record TextDocument : Type := mkTextDocument {
  uri : string;
  getText : string
}.

(** [Location.create(uri, range)]. *)
Record Location : Type := mkLocation {
  l_uri : string;
  l_range : Range
}.

Module Server.
Import Regex.

(** [/^>{1,3}!?\s*(\w+)/] *)
Definition re_jumpTarget : regex :=
  seqs [Bol; Lit ">"; Opt (Seq (Lit ">") (Opt (Lit ">"))); Opt (Lit "!");
        Star Space; Group 1 (Plus Word)].

(** [line.trimStart()]. *)
Definition trimStart (s : string) : string := JS.str (JS.dropSpaces (JS.chars s)).

(** [lines[n] || ''] for a line number [n]. *)
Definition lineAt (lines : list string) (n : Z) : string :=
  if n <? 0 then "" else nth (Z.to_nat n) lines "".

(** [getParseResult]: the answer and the cache after the call.  The cache,
    [documentParseCache], maps the URI of a document to its parse result. *)
Definition getParseResult (cache : gmap string Parser.ParserResult)
    (document : TextDocument)
    : Parser.ParserResult * gmap string Parser.ParserResult :=
  match cache !! uri document with
  | Some cached => (cached, cache)
  | None =>
      let result := parse (getText document) in
      (result, <[uri document := result]> cache)
  end.

(** The handler of [documents.onDidClose], on the parse cache. *)
Definition onDidClose (cache : gmap string Parser.ParserResult)
    (document : TextDocument) : gmap string Parser.ParserResult :=
  delete (uri document) cache.

(** The handler of [documents.onDidChangeContent], on the parse cache. *)
Definition onDidChangeContent (cache : gmap string Parser.ParserResult)
    (document : TextDocument) : gmap string Parser.ParserResult :=
  delete (uri document) cache.

(** [findStoryAtLine]: the first story whose lines hold the line. *)
Definition findStoryAtLine (parseResult : Parser.ParserResult) (n : Z)
    : option StoryNode :=
  List.find (fun story =>
               (line (start (s_range story)) <=? n)
               && (n <=? line (end_ (s_range story))))
            (d_stories (Parser.document parseResult)).

(** The handler of [connection.onDefinition] for a document that is open;
    [None] is [null]. *)
Definition definition (document : TextDocument) (parseResult : Parser.ParserResult)
    (position : Position) : option Location :=
  let text := getText document in
  let lines := split Lexer.re_newline text in
  let lineNum := line position in
  let line := lineAt lines lineNum in
  (* Check for jump syntax *)
  match exec re_jumpTarget (trimStart line) with
  | Some jumpMatch =>
      let target := group1 jumpMatch 1 in
      let targetStartInLine := JS.indexOf line target 0 in
      let targetEndInLine := targetStartInLine + JS.len target in
      (* Check if cursor is on the target *)
      if (targetStartInLine <=? character position)
         && (character position <=? targetEndInLine) then
        (* Find the story containing this line *)
        match findStoryAtLine parseResult lineNum with
        | Some story =>
            match s_choiceIds story !! target with
            | Some choiceId =>
                Some (mkLocation (uri document)
                        (Diagnostics.convertRange (ci_range choiceId)))
            | None => None
            end
        | None => None
        end
      else None
  | None => None
  end.

(** [connection.onDefinition]: [documents.get(uri)] is [document]. *)
Definition onDefinition (cache : gmap string Parser.ParserResult)
    (document : option TextDocument) (position : Position)
    : option Location * gmap string Parser.ParserResult :=
  match document with
  | None => (None, cache)
  | Some document =>
      let '(parseResult, cache) := getParseResult cache document in
      (definition document parseResult position, cache)
  end.

End Server.

(** ** The language server: the life of the parse cache

    The server keeps its documents in the [TextDocuments] manager of the
    library, which holds for each URI the document of the last change and
    tells the server of each change (a document that is opened counts as
    changed) and of each closing.  The requests of the client (completion,
    hover, definition, symbols, folding) read the parse result through
    [getParseResult]. *)

Module ServerLife.
Import Server.

Inductive Event : Type :=
| DidChangeContent (document : TextDocument)
| DidClose (document : TextDocument)
| Request (documentUri : string).

Record State : Type := mkState {
  documents : gmap string TextDocument;
  documentParseCache : gmap string Parser.ParserResult
}.

Definition initial : State := mkState ∅ ∅.

Definition step (st : State) (ev : Event) : State :=
  match ev with
  | DidChangeContent document =>
      mkState (<[uri document := document]> (documents st))
              (onDidChangeContent (documentParseCache st) document)
  | DidClose document =>
      mkState (delete (uri document) (documents st))
              (onDidClose (documentParseCache st) document)
  | Request documentUri =>
      match documents st !! documentUri with
      | Some document =>
          mkState (documents st)
                  (getParseResult (documentParseCache st) document).2
      | None => st
      end
  end.

Definition run (events : list Event) : State := fold_left step events initial.

End ServerLife.

(** ** Hover: the word under the cursor ([server/src/hover.ts]) *)

Module Hover.
Import Regex.

Record WordRange : Type := mkWordRange { w_start : Z; w_end : Z }.

(** [/[\w_]+/g] *)
Definition wordRegex : regex :=
  Plus (Chr (fun a => JS.isWord a || Ascii.eqb a "_")).

(** The loop goes through the words of the line from left to right and
    answers the first one that the position touches. *)
Definition getWordRangeAtPosition (line : string) (character : Z)
    : option WordRange :=
  match List.find
          (fun m => (Z.of_nat (m_index m) <=? character)
                    && (character <=? Z.of_nat (m_end m)))
          (Brackets.execAll wordRegex line 0 (S (String.length line))) with
  | Some m => Some (mkWordRange (Z.of_nat (m_index m)) (Z.of_nat (m_end m)))
  | None => None
  end.

End Hover.

(** * Properties *)

(** ** The line classifier: what a line adds to the state of the lexer *)

Module LexerFacts.
Import Lexer.

Definition notEOF (t : Token) : Prop := t_type t <> TokenType.EOF.

(** The severities the lexer gives to its diagnostics: [error], but for the
    diagnostic of a missing expression, which is a [warning]. *)
Definition lexerSeverity (e : ParseError) : Prop :=
  e_severity e = sev_error
  \/ (e_code e = "empty-tilde-expression" /\ e_severity e = sev_warning).

(** [extends k lx lx']: [lx'] is [lx] with tokens other than the end marker,
    diagnostics of the lexer's severities and [k] line types pushed. *)
Definition extends (k : nat) (lx lx' : Lexer) : Prop :=
  lines lx' = lines lx
  /\ (exists ts, tokens lx' = tokens lx ++ ts /\ Forall notEOF ts)
  /\ (exists es, errors lx' = errors lx ++ es /\ Forall lexerSeverity es)
  /\ (exists lts, lineTypes lx' = lineTypes lx ++ lts /\ length lts = k).

Lemma extends_refl lx : extends 0 lx lx.
Proof.
  repeat split; [exists [] | exists [] | exists []];
    rewrite ?app_nil_r; auto.
Qed.

Lemma extends_pushToken k lx lx' t :
  notEOF t -> extends k lx lx' -> extends k lx (pushToken lx' t).
Proof.
  intros Ht (Hl & (ts & Hts & Fts) & He & Hlt).
  repeat split; auto. exists (ts ++ [t]). split.
  - simpl. rewrite Hts. now rewrite <- app_assoc.
  - apply Forall_app. auto.
Qed.

Lemma extends_pushError k lx lx' e :
  lexerSeverity e -> extends k lx lx' -> extends k lx (pushError lx' e).
Proof.
  intros Ht (Hl & Htk & (es & Hes & Fes) & Hlt).
  repeat split; auto. exists (es ++ [e]). split.
  - simpl. rewrite Hes. now rewrite <- app_assoc.
  - apply Forall_app. auto.
Qed.

Lemma extends_pushLineType k lx lx' ty :
  extends k lx lx' -> extends (S k) lx (pushLineType lx' ty).
Proof.
  intros (Hl & Htk & He & (lts & Hlts & Hk)).
  repeat split; auto. exists (lts ++ [ty]). split.
  - simpl. rewrite Hlts. now rewrite <- app_assoc.
  - rewrite length_app. simpl. lia.
Qed.

Lemma extends_setBlockComment k lx lx' b p :
  extends k lx lx' -> extends k lx (setBlockComment lx' b p).
Proof. intros (Hl & Htk & He & Hlt). repeat split; auto. Qed.

Lemma extends_tokenizeLineContent k lx lx' n off content :
  extends k lx lx' -> extends k lx (tokenizeLineContent lx' n off content).
Proof.
  intros H. unfold tokenizeLineContent.
  destruct (negb _); auto. apply extends_pushToken; auto. discriminate.
Qed.

(** The loop over the parentheses only appends diagnostics of severity
    [error]. *)
Lemma parenLoop_errors message n off l :
  forall i cnt found errs,
    exists es,
      (parenLoop message n off l i cnt found errs).2 = errs ++ es
      /\ Forall (fun e => e_severity e = sev_error) es.
Proof.
  induction l as [|ch l IH]; intros i cnt found errs; simpl.
  - exists []. now rewrite app_nil_r.
  - destruct (_ && _).
    + destruct (IH (i + 1) 0 true
                  (errs ++ [mkError message
                              (makeRange n (off + i) (off + i + 1))
                              sev_error "unbalanced-parens"]))
        as (es & Hes & Fes).
      eexists (_ :: es). rewrite Hes, <- app_assoc. split; [reflexivity|].
      constructor; auto.
    + apply IH.
Qed.

Lemma extends_validateParens k lx lx' message expr n off :
  extends k lx lx' -> extends k lx (validateParens message lx' expr n off).
Proof.
  intros H. unfold validateParens.
  destruct (parenLoop_errors message n off (JS.chars (JS.trim expr)) 0 0 false
              (errors lx')) as (es & Hes & Fes).
  destruct (parenLoop _ _ _ _ _ _ _ _) as [[cnt found] errs]. simpl in Hes.
  assert (Hx : extends k lx (setErrors lx' errs)).
  { destruct H as (Hl & Htk & (es0 & Hes0 & Fes0) & Hlt).
    repeat split; auto. exists (es0 ++ es). split.
    - simpl. rewrite Hes, Hes0. now rewrite <- app_assoc.
    - apply Forall_app. split; auto.
      eapply Forall_impl; [exact Fes|]. intros e He. now left. }
  destruct (0 <? cnt); auto.
  apply extends_pushError; auto. now left.
Qed.

Lemma extends_validateTildeCommand k lx lx' cmd expr n startIdx :
  extends k lx lx' ->
  extends k lx (validateTildeCommand lx' cmd expr n startIdx).
Proof.
  intros H. unfold validateTildeCommand,
    validateConditionExpression, validateSetExpression.
  repeat case_match; auto using extends_validateParens.
  apply extends_pushError; auto. right. split; reflexivity.
Qed.

Lemma getTildeTokenType_notEOF cmd : getTildeTokenType cmd <> TokenType.EOF.
Proof. unfold getTildeTokenType. repeat case_match; discriminate. Qed.

Ltac extends_step :=
  first
    [ apply extends_pushLineType
    | apply extends_validateTildeCommand
    | apply extends_tokenizeLineContent
    | apply extends_setBlockComment
    | apply extends_pushError; [left; reflexivity|]
    | apply extends_pushToken;
      [first [discriminate | apply getTildeTokenType_notEOF]|]
    | apply extends_refl ].

(** One line: exactly one line type is pushed, whatever the line is. *)
Lemma extends_tokenizeLine lx n : extends 1 lx (tokenizeLine lx n).
Proof.
  unfold tokenizeLine, validateBracketExpressions. cbv zeta.
  repeat case_match; repeat extends_step.
Qed.

Lemma extends_trans k1 k2 lx1 lx2 lx3 :
  extends k1 lx1 lx2 -> extends k2 lx2 lx3 -> extends (k1 + k2) lx1 lx3.
Proof.
  intros (Hl & (ts & Hts & Fts) & (es & Hes & Fes) & (lts & Hlts & Hk))
         (Hl' & (ts' & Hts' & Fts') & (es' & Hes' & Fes') & (lts' & Hlts' & Hk')).
  repeat split.
  - congruence.
  - exists (ts ++ ts'). rewrite Hts', Hts, <- app_assoc. split; auto.
    apply Forall_app; auto.
  - exists (es ++ es'). rewrite Hes', Hes, <- app_assoc. split; auto.
    apply Forall_app; auto.
  - exists (lts ++ lts'). rewrite Hlts', Hlts, <- app_assoc. split; auto.
    rewrite length_app. lia.
Qed.

Lemma extends_fold l : forall lx,
  extends (length l) lx (fold_left tokenizeLine l lx).
Proof.
  induction l as [|n l IH]; intros lx; simpl.
  - apply extends_refl.
  - change (S (length l)) with (1 + length l)%nat.
    eapply extends_trans; [apply extends_tokenizeLine | apply IH].
Qed.

Lemma extends_tokenizeLines lx :
  extends (length (lines lx)) lx (tokenizeLines lx).
Proof.
  unfold tokenizeLines.
  pose proof (extends_fold (seq 0 (length (lines lx))) lx) as H.
  now rewrite length_seq in H.
Qed.

(** The line holds a block-comment opener that is not closed on the line. *)
Definition opensBlockComment (line : string) : bool :=
  negb (JS.indexOf line "/*" 0 =? -1)
  && (JS.indexOf line "*/" (JS.indexOf line "/*" 0 + 2) =? -1).

(** Evaluates the tests of [tokenizeLine] whose arguments are known. *)
Ltac closed_tests :=
  repeat match goal with
  | |- context [JS.startsWith ?a ?b] =>
      let v := eval vm_compute in (JS.startsWith a b) in
      change (JS.startsWith a b) with v
  | |- context [Regex.test ?r ?s] =>
      let v := eval vm_compute in (Regex.test r s) in
      change (Regex.test r s) with v
  | |- context [Regex.exec ?r ?s] =>
      let v := eval vm_compute in (Regex.exec r s) in
      change (Regex.exec r s) with v
  | |- context [String.eqb ?a ?b] =>
      let v := eval vm_compute in (String.eqb a b) in
      change (String.eqb a b) with v
  end.

End LexerFacts.

(** ** C1: one classification per line, one end marker *)

Module LineRecords.
Import LexerFacts.

(** The line matches none of the patterns that [Lexer.tokenizeLine] tries, outside
    a block comment, before it settles on plain text. *)
Definition noPatternMatches (line : string) : Prop :=
  let trimmed := JS.trim line in
  String.eqb trimmed "" = false
  /\ negb (JS.indexOf line "/*" 0 =? -1)
     && (JS.indexOf line "*/" (JS.indexOf line "/*" 0 + 2) =? -1) = false
  /\ JS.startsWith trimmed "//" = false
  /\ Regex.test Lexer.re_divider trimmed = false
  /\ Regex.exec Lexer.re_story trimmed = None
  /\ JS.startsWith trimmed "===" && negb (JS.startsWith trimmed "====") = false
  /\ Regex.exec Lexer.re_tilde trimmed = None
  /\ Regex.exec Lexer.re_jump trimmed = None
  /\ (if negb (JS.startsWith trimmed "==") then Regex.exec Lexer.re_choiceId trimmed
      else None) = None
  /\ Regex.exec Lexer.re_choice trimmed = None
  /\ Regex.test Lexer.re_pageBreak trimmed = false.

Lemma tokenizeLine_one_lineType (lx : Lexer.Lexer) n :
  exists ty, Lexer.lineTypes (Lexer.tokenizeLine lx n) = Lexer.lineTypes lx ++ [ty].
Proof.
  destruct (extends_tokenizeLine lx n) as (_ & _ & _ & (lts & Hlts & Hk)).
  destruct lts as [|ty [|? ?]]; try discriminate. now exists ty.
Qed.

Lemma tokenizeLine_plain_text (lx : Lexer.Lexer) n :
  Lexer.inBlockComment lx = false ->
  noPatternMatches (nth n (Lexer.lines lx) "") ->
  Lexer.lineTypes (Lexer.tokenizeLine lx n) = Lexer.lineTypes lx ++ [LineType.TEXT].
Proof.
  intros Hb (H1 & H2 & H3 & H4 & H5 & H6 & H7 & H8 & H9 & H10 & H11).
  unfold Lexer.tokenizeLine. cbv zeta.
  rewrite Hb, H1, H2, H3, H4, H5, H6, H7, H8, H9, H10, H11. reflexivity.
Qed.

Lemma tokenize_lineTypes (lx : Lexer.Lexer) :
  Lexer.lineTypes lx = [] ->
  length (Lexer.r_lineTypes (Lexer.tokenize lx)) = length (Lexer.lines lx).
Proof.
  intros H0.
  destruct (extends_tokenizeLines lx) as (_ & _ & _ & (lts & Hlts & Hk)).
  unfold Lexer.tokenize. cbv zeta.
  destruct (Lexer.inBlockComment (Lexer.tokenizeLines lx));
    [destruct (Lexer.blockCommentStart (Lexer.tokenizeLines lx))|];
    simpl; rewrite Hlts, H0; simpl; exact Hk.
Qed.

Lemma tokenize_tokens (lx : Lexer.Lexer) :
  Lexer.tokens lx = [] ->
  exists toks eof,
    Lexer.r_tokens (Lexer.tokenize lx) = toks ++ [eof]
    /\ t_type eof = TokenType.EOF /\ Forall notEOF toks.
Proof.
  intros H0.
  destruct (extends_tokenizeLines lx) as (_ & (ts & Hts & Fts) & _ & _).
  rewrite H0 in Hts. simpl in Hts.
  unfold Lexer.tokenize. cbv zeta.
  destruct (Lexer.inBlockComment (Lexer.tokenizeLines lx));
    [destruct (Lexer.blockCommentStart (Lexer.tokenizeLines lx))|];
    simpl; rewrite Hts; eexists ts, _; repeat split; auto.
Qed.

(** C1.  For every document text, the lexer records exactly one line type
    per line of the text (the lines being the pieces between the separators
    [\r?\n]), whatever the lines contain, and its token list ends with the
    one end-of-input marker it holds.  No line is rejected: each call of
    [Lexer.tokenizeLine] pushes exactly one line type, and a line that matches
    none of the patterns tried before is classified as plain text. *)
Theorem tokenize_one_record_per_line (text : string) :
  let r := tokenize text in
  length (Lexer.r_lineTypes r) = length (Regex.split Lexer.re_newline text)
  /\ (exists toks eof,
        Lexer.r_tokens r = toks ++ [eof]
        /\ t_type eof = TokenType.EOF /\ Forall notEOF toks)
  /\ (forall (lx : Lexer.Lexer) n, exists ty,
        Lexer.lineTypes (Lexer.tokenizeLine lx n) = Lexer.lineTypes lx ++ [ty])
  /\ (forall (lx : Lexer.Lexer) n,
        Lexer.inBlockComment lx = false ->
        noPatternMatches (nth n (Lexer.lines lx) "") ->
        Lexer.lineTypes (Lexer.tokenizeLine lx n) = Lexer.lineTypes lx ++ [LineType.TEXT]).
Proof.
  cbv zeta. unfold tokenize. split; [|split; [|split]].
  - now rewrite tokenize_lineTypes.
  - now apply tokenize_tokens.
  - apply tokenizeLine_one_lineType.
  - apply tokenizeLine_plain_text.
Qed.

(** The theorem at the document [plain words]. *)
Lemma tokenize_one_record_per_line_witness :
  Lexer.lineTypes (Lexer.tokenizeLine (Lexer.new "plain words") 0) = [LineType.TEXT].
Proof.
  destruct (tokenize_one_record_per_line "plain words") as (_ & _ & _ & H).
  apply (H (Lexer.new "plain words") 0%nat).
  - reflexivity.
  - vm_compute. repeat split.
Defined.

(** Three lines, of which one is empty and one ends with a carriage return:
    three line types, and two tokens before the end marker. *)
Example tokenize_three_lines :
  let r := tokenize (doc ["=== t" +:+ String "013" ""; ""; "* A"]) in
  Lexer.r_lineTypes r = [LineType.STORY_HEADER; LineType.EMPTY; LineType.CHOICE]
  /\ map t_type (Lexer.r_tokens r)
     = [TokenType.STORY_HEADER; TokenType.CHOICE; TokenType.EOF].
Proof. vm_compute. split; reflexivity. Qed.

End LineRecords.

(** ** The loop over the parentheses of an expression *)

Module Parens.

(** What one character adds to the count of open parentheses. *)
Definition delta (ch : ascii) : Z :=
  (if Ascii.eqb ch "(" then 1 else 0) - (if Ascii.eqb ch ")" then 1 else 0).

(** Opening minus closing parentheses of [l]. *)
Fixpoint balance (l : list ascii) : Z :=
  match l with
  | [] => 0
  | ch :: l' => delta ch + balance l'
  end.

(** No prefix of [l] holds more closing than opening parentheses, when the
    count starts at [c]. *)
Fixpoint neverNegative (c : Z) (l : list ascii) : bool :=
  match l with
  | [] => true
  | ch :: l' => (0 <=? c + delta ch) && neverNegative (c + delta ch) l'
  end.

Lemma balance_app l1 l2 : balance (l1 ++ l2) = balance l1 + balance l2.
Proof. induction l1 as [|a l1 IH]; simpl; lia. Qed.

(** [neverNegative] says what its name says: every prefix of [l] holds at
    least as many opening as closing parentheses. *)
Lemma neverNegative_prefixes l : forall c,
  0 <= c ->
  neverNegative c l = true <-> forall k, 0 <= c + balance (firstn k l).
Proof.
  induction l as [|ch l IH]; intros c Hc; simpl.
  - split; auto. intros _ [|k]; simpl; lia.
  - rewrite andb_true_iff, Z.leb_le. split.
    + intros [Hd H] [|k]; simpl; [lia|].
      apply (IH _ Hd) with (k := k) in H. lia.
    + intros H. assert (Hd : 0 <= c + delta ch).
      { specialize (H 1%nat). simpl in H. destruct l; simpl in H; lia. }
      split; [exact Hd|]. apply (IH _ Hd). intros k.
      specialize (H (S k)). simpl in H. lia.
Qed.

Lemma loop_delta ch cnt :
  (let parenCount := if Ascii.eqb ch "(" then cnt + 1 else cnt in
   if Ascii.eqb ch ")" then parenCount - 1 else parenCount) = cnt + delta ch.
Proof. unfold delta. cbv zeta. do 2 destruct (Ascii.eqb _ _); lia. Qed.

(** Once the first diagnostic is out, the loop only counts. *)
Lemma parenLoop_found message n off l : forall i cnt errs,
  Lexer.parenLoop message n off l i cnt true errs = (cnt + balance l, true, errs).
Proof.
  induction l as [|ch l IH]; intros i cnt errs; simpl.
  - f_equal. f_equal. lia.
  - rewrite andb_false_r. rewrite IH. f_equal. f_equal.
    pose proof (loop_delta ch cnt) as H. cbv zeta in H. rewrite H. lia.
Qed.

(** While no prefix goes below zero, the loop only counts. *)
Lemma parenLoop_neverNegative message n off l : forall i cnt errs,
  neverNegative cnt l = true ->
  Lexer.parenLoop message n off l i cnt false errs
  = (cnt + balance l, false, errs).
Proof.
  induction l as [|ch l IH]; intros i cnt errs H; simpl in *.
  - f_equal. f_equal. lia.
  - apply andb_true_iff in H as [H1 H2]. apply Z.leb_le in H1.
    pose proof (loop_delta ch cnt) as Hd. cbv zeta in Hd. rewrite Hd.
    replace (cnt + delta ch <? 0) with false by (symmetry; apply Z.ltb_ge; lia).
    simpl. rewrite IH by assumption. f_equal. f_equal. lia.
Qed.

Definition unexpectedParen (message : string) (n : nat) (off : Z) (i : nat)
    : ParseError :=
  mkError message
    (Lexer.makeRange n (off + Z.of_nat i) (off + Z.of_nat i + 1))
    sev_error "unbalanced-parens".

(** The first closing parenthesis without a partner: one diagnostic at its
    offset, and the count starts again from zero for what follows. *)
Lemma parenLoop_first_offending message n off pre rest : forall i cnt errs,
  neverNegative cnt pre = true ->
  cnt + balance pre = 0 ->
  Lexer.parenLoop message n off (pre ++ ")"%char :: rest) i cnt false errs
  = (balance rest, true,
     errs ++ [mkError message
                (Lexer.makeRange n (off + (i + Z.of_nat (length pre)))
                   (off + (i + Z.of_nat (length pre)) + 1))
                sev_error "unbalanced-parens"]).
Proof.
  induction pre as [|ch pre IH]; intros i cnt errs H Hb; simpl in *.
  - assert (cnt = 0) by lia. subst cnt. simpl.
    rewrite parenLoop_found. rewrite Z.add_0_r. reflexivity.
  - apply andb_true_iff in H as [H1 H2]. apply Z.leb_le in H1.
    pose proof (loop_delta ch cnt) as Hd. cbv zeta in Hd. rewrite Hd.
    replace (cnt + delta ch <? 0) with false by (symmetry; apply Z.ltb_ge; lia).
    simpl. rewrite IH by (auto; lia).
    replace (i + 1 + Z.of_nat (length pre))
      with (i + Z.pos (Pos.of_succ_nat (length pre))) by lia.
    reflexivity.
Qed.

(** What the two validators of an expression have in common. *)
Lemma validateParens_errors message lx expr n off :
  let trimmed := JS.trim expr in
  let l := JS.chars trimmed in
  let lx' := Lexer.validateParens message lx expr n off in
  (neverNegative 0 l = true -> balance l = 0 ->
   Lexer.errors lx' = Lexer.errors lx)
  /\ (neverNegative 0 l = true -> 0 < balance l ->
      Lexer.errors lx'
      = Lexer.errors lx ++ [Lexer.missingParen n off trimmed])
  /\ (forall pre rest,
        l = pre ++ ")"%char :: rest ->
        neverNegative 0 pre = true -> balance pre = 0 ->
        Lexer.errors lx'
        = Lexer.errors lx
          ++ unexpectedParen message n off (length pre)
             :: (if 0 <? balance rest
                 then [Lexer.missingParen n off trimmed] else [])).
Proof.
  cbv zeta. unfold Lexer.validateParens. repeat split.
  - intros Hn Hb. rewrite parenLoop_neverNegative by assumption.
    rewrite Z.add_0_l, Hb. destruct lx; reflexivity.
  - intros Hn Hb. rewrite parenLoop_neverNegative by assumption.
    rewrite Z.add_0_l. apply Z.ltb_lt in Hb. rewrite Hb.
    destruct lx; reflexivity.
  - intros pre rest Hl Hn Hb. rewrite Hl.
    rewrite parenLoop_first_offending by (auto; lia).
    unfold unexpectedParen. rewrite Z.add_0_l.
    destruct (0 <? balance rest); destruct lx; cbn -[Z.add];
      rewrite <- ?app_assoc; reflexivity.
Qed.

End Parens.

(** ** C3: the diagnostics of the conditional blocks *)

Module BracketFacts.
Import Brackets.

(** The text between the brackets of a match, as the validator reads it. *)
Definition content (m : Regex.MatchResult) : string :=
  JS.toLowerCase (JS.trim (Regex.group1 m 1)).

Definition isUnclosed (e : ParseError) : bool :=
  String.eqb (e_code e) "unclosed-if".

Lemma isClosing_not_opening c : isClosing c = true -> isOpening c = false.
Proof.
  unfold isClosing. intros H. apply orb_true_iff in H as [H|H];
    apply String.eqb_eq in H; subst c; reflexivity.
Qed.

Lemma isMiddle_not_opening c : isMiddle c = true -> isOpening c = false.
Proof.
  destruct c as [|a c]; [reflexivity|].
  unfold isMiddle, isOpening, JS.startsWith, JS.chars. intros H.
  destruct a as [[] [] [] [] [] [] [] []]; simpl in *;
    first [reflexivity | discriminate].
Qed.

Lemma isMiddle_not_closing c : isMiddle c = true -> isClosing c = false.
Proof.
  intros H. destruct (isClosing c) eqn:E; [|reflexivity].
  unfold isClosing in E. apply orb_true_iff in E as [E|E];
    apply String.eqb_eq in E; subst c; discriminate.
Qed.

Lemma onMatch_opening n st m :
  isOpening (content m) = true ->
  onMatch n st m
  = mkState (errors st)
            (stack st ++ [mkFrame "if" n (Z.of_nat (Regex.m_index m))])
            (inBlockComment st).
Proof. unfold onMatch, content. cbv zeta. now intros ->. Qed.

Lemma onMatch_closing n st m :
  isClosing (content m) = true ->
  onMatch n st m
  = match stack st with
    | [] => mkState (errors st ++ [unmatchedEndif (content m) n m]) []
                    (inBlockComment st)
    | _ :: _ => mkState (errors st) (removelast (stack st)) (inBlockComment st)
    end.
Proof.
  intros H. unfold onMatch. cbv zeta. fold (content m).
  rewrite (isClosing_not_opening _ H), H.
  destruct (stack st); reflexivity.
Qed.

Lemma onMatch_middle n st m :
  isMiddle (content m) = true ->
  onMatch n st m
  = match stack st with
    | [] => mkState (errors st ++ [orphanedElse n m]) [] (inBlockComment st)
    | _ :: _ => st
    end.
Proof.
  intros H. unfold onMatch. cbv zeta. fold (content m).
  rewrite (isMiddle_not_opening _ H), (isMiddle_not_closing _ H), H.
  destruct (stack st); reflexivity.
Qed.

(** The scan of the lines produces no diagnostic of an unclosed block: these
    all come from the frames left at the end. *)
Definition scanned (es : list ParseError) : Prop :=
  Forall (fun e => isUnclosed e = false) es.

Lemma scanned_onMatch n st m :
  scanned (errors st) -> scanned (errors (onMatch n st m)).
Proof.
  unfold scanned, onMatch. cbv zeta. intros H.
  repeat case_match; simpl; auto; apply Forall_app; split; auto.
Qed.

Lemma scanned_matches n ms : forall st,
  scanned (errors st) -> scanned (errors (fold_left (onMatch n) ms st)).
Proof.
  induction ms as [|m ms IH]; intros st H; simpl; auto.
  apply IH, scanned_onMatch, H.
Qed.

Lemma scanned_onLine lines st n :
  scanned (errors st) -> scanned (errors (onLine lines st n)).
Proof.
  unfold onLine. cbv zeta. intros H.
  destruct (stripComments _ _) as [[line inBlock]|]; auto.
  apply scanned_matches. exact H.
Qed.

Lemma scanned_scan text : scanned (errors (scan text)).
Proof.
  unfold scan. cbv zeta.
  generalize (seq 0 (length (Regex.split Lexer.re_newline text))).
  assert (H : scanned (errors (mkState [] [] false))) by constructor.
  revert H. generalize (mkState [] [] false).
  intros st H l. revert st H.
  induction l as [|n l IH]; intros st H; simpl; auto.
  apply IH, scanned_onLine, H.
Qed.

Lemma filter_scanned es : scanned es -> List.filter isUnclosed es = [].
Proof.
  induction 1 as [|e es He _ IH]; [reflexivity|].
  simpl. now rewrite He.
Qed.

Lemma filter_unclosed fs : List.filter isUnclosed (map unclosedIf fs) = map unclosedIf fs.
Proof.
  induction fs as [|f fs IH]; [reflexivity|].
  simpl. now rewrite IH.
Qed.

(** C3.  The document [/* c */ [if x]] opens one conditional block and never
    closes it.  The validator gives its one "unclosed" error at columns 1
    to 4 of line 0, where the line reads [* c]; the bracket that opens the
    block stands at column 8.  The column of a frame is counted in the line
    once its comments are cut out, not in the line of the document. *)
Theorem unclosed_block_anchored_off_bracket :
  let text := "/* c */ [if x]" in
  validateBrackets text
  = [mkError "Unclosed [if] - missing [endif] or [end]"
       (mkRange (mkPosition 0 1) (mkPosition 0 4)) sev_error "unclosed-if"]
  /\ JS.indexOf text "[if x]" 0 = 8
  /\ JS.substring text 1 4 = "* c".
Proof. vm_compute. repeat split; reflexivity. Qed.

(** The same shift for a closing keyword with no block open: [[endif]]
    stands at column 8 and is reported from column 1. *)
Example unmatched_close_after_comment :
  map e_range (validateBrackets "/* c */ [endif]")
  = [mkRange (mkPosition 0 1) (mkPosition 0 8)]
  /\ JS.indexOf "/* c */ [endif]" "[endif]" 0 = 8.
Proof. vm_compute. split; reflexivity. Qed.

(** Two blocks opened and none closed: two "unclosed" errors, each on the
    line of its opening bracket. *)
Example two_unclosed_blocks :
  map (fun e => (e_code e, start (e_range e)))
      (validateBrackets (doc ["=== t"; "[if a]"; "x"; "  [if b]"; "y"]))
  = [("unclosed-if", mkPosition 1 0); ("unclosed-if", mkPosition 3 2)].
Proof. reflexivity. Qed.

(** One closing keyword, one middle keyword and no block open: one error
    for each. *)
Example isolated_close_and_middle :
  map e_code (validateBrackets (doc ["=== t"; "[endif]"; "[else]"]))
  = ["unmatched-endif"; "orphaned-else"].
Proof. reflexivity. Qed.

End BracketFacts.

(** ** The tree builder: the identifiers of a story *)

Module ChoiceIds.
Import Parser.

(** The token of the header line [=== t] on line 0. *)
Definition headerToken : Token :=
  mkToken TokenType.STORY_HEADER "=== t"
    (mkRange (mkPosition 0 0) (mkPosition 0 5))
    (Some (mkData None None None None (Some "t") None None)).

Lemma errors_advance p : errors (advance p) = errors p.
Proof. unfold advance. now destruct (negb _). Qed.

Lemma has_true m k : has m k = true <-> is_Some (m !! k).
Proof.
  unfold has. destruct (m !! k); split; intros H; auto.
  - discriminate.
  - now destruct H.
Qed.

(** The story and the diagnostics after a [CHOICE_ID] token. *)
Lemma choiceId_token p cx token :
  t_type token = TokenType.CHOICE_ID ->
  let choiceIdNode := parseChoiceId token in
  let r := parseStoryToken p cx token in
  if has (s_choiceIds (story cx)) (ci_id choiceIdNode) then
    s_choiceIds (story r.2) = s_choiceIds (story cx)
    /\ errors r.1 = errors p ++ [duplicateChoiceId choiceIdNode token]
  else
    s_choiceIds (story r.2)
    = <[ci_id choiceIdNode := choiceIdNode]> (s_choiceIds (story cx))
    /\ errors r.1 = errors p.
Proof.
  intros Hty. cbv zeta. unfold parseStoryToken. rewrite Hty. cbv zeta.
  destruct (has _ _); destruct (ci_isHidden _);
    try destruct (currentChoice cx); simpl;
    rewrite ?errors_advance; auto.
Qed.

(** A token of a story never removes or replaces an entry of the map of
    identifiers. *)
Lemma choiceIds_kept p cx token k v :
  s_choiceIds (story cx) !! k = Some v ->
  s_choiceIds (story (parseStoryToken p cx token).2) !! k = Some v.
Proof.
  intros Hk. unfold parseStoryToken, alloc. cbv zeta.
  repeat case_match; simplify_eq; simpl; auto.
  all: rewrite lookup_insert_ne; auto; intros Heq.
  all: subst k.
  all: match goal with
       | H : has _ _ = false |- _ =>
           unfold has in H; simpl in H; rewrite Hk in H; discriminate
       end.
Qed.


Lemma headerRange_kept p cx token :
  s_headerRange (story (parseStoryToken p cx token).2) = s_headerRange (story cx).
Proof.
  unfold parseStoryToken, alloc. cbv zeta.
  repeat case_match; simplify_eq; simpl; auto.
Qed.

Lemma headerRange_kept_loop fuel : forall p cx,
  s_headerRange (story (parseStoryLoop fuel p cx).2) = s_headerRange (story cx).
Proof.
  induction fuel as [|fuel IH]; intros p cx; simpl; auto.
  destruct (isAtEnd p); auto.
  destruct (peek p) as [token|]; auto.
  destruct (isType token TokenType.STORY_HEADER); auto.
  destruct (isType token TokenType.EOF); auto.
  pose proof (headerRange_kept p cx token) as H.
  destruct (parseStoryToken p cx token) as [p' cx']. rewrite IH. exact H.
Qed.

Lemma stories_advance p : stories (advance p) = stories p.
Proof. unfold advance. now destruct (negb _). Qed.

Lemma stories_parseStoryToken p cx token :
  stories (parseStoryToken p cx token).1 = stories p.
Proof.
  unfold parseStoryToken, alloc. cbv zeta.
  repeat case_match; simplify_eq; simpl; apply stories_advance.
Qed.

Lemma stories_parseStoryLoop fuel : forall p cx,
  stories (parseStoryLoop fuel p cx).1 = stories p.
Proof.
  induction fuel as [|fuel IH]; intros p cx; simpl; auto.
  destruct (isAtEnd p); auto.
  destruct (peek p) as [token|]; auto.
  destruct (isType token TokenType.STORY_HEADER); auto.
  destruct (isType token TokenType.EOF); auto.
  pose proof (stories_parseStoryToken p cx token) as H.
  destruct (parseStoryToken p cx token) as [p' cx']. rewrite IH. exact H.
Qed.

(** The states of the local variables of [parseStory] inside the story that
    the header [h] opens: the state at the first token, and the state after
    any token from such a state. *)
Inductive storyState (h : Token) : StoryLocals -> Prop :=
| state_new : storyState h (mkLocals (newStory h) None [])
| state_token p cx token :
    storyState h cx -> storyState h (parseStoryToken p cx token).2.

Lemma storyState_loop h fuel : forall p cx,
  storyState h cx -> storyState h (parseStoryLoop fuel p cx).2.
Proof.
  induction fuel as [|fuel IH]; intros p cx Hs; simpl; auto.
  destruct (isAtEnd p); auto.
  destruct (peek p) as [token|]; auto.
  destruct (isType token TokenType.STORY_HEADER); auto.
  destruct (isType token TokenType.EOF); auto.
  pose proof (state_token h p cx token Hs) as H.
  destruct (parseStoryToken p cx token) as [p' cx']. now apply IH.
Qed.

(** Inside a story the key [start] always leads to the entry that was made
    from the header. *)
Lemma storyState_start h cx :
  storyState h cx ->
  s_choiceIds (story cx) !! "start" = Some (startChoiceId h)
  /\ s_headerRange (story cx) = t_range h.
Proof.
  induction 1 as [|p cx token _ [IH1 IH2]].
  - split; [apply lookup_insert_eq | reflexivity].
  - split; [now apply choiceIds_kept | now rewrite headerRange_kept].
Qed.

(** The entry of [start] in a finished story. *)
Definition startSeeded (s : StoryNode) : Prop :=
  s_choiceIds s !! "start" = Some (mkChoiceId "start" (s_headerRange s) true).

Lemma parseStory_stories p :
  Forall startSeeded (stories p) -> Forall startSeeded (stories (parseStory p)).
Proof.
  intros H. unfold parseStory.
  destruct (peek p) as [h|]; auto. cbv zeta.
  pose proof (stories_parseStoryLoop (length (tokens (advance p))) (advance p)
                (mkLocals (newStory h) None [])) as Hst.
  pose proof (storyState_loop h (length (tokens (advance p))) (advance p) _
                (state_new h)) as Hs.
  destruct (parseStoryLoop _ _ _) as [p' cx]. simpl in *.
  apply storyState_start in Hs as [Hs1 Hs2].
  rewrite Hst, stories_advance. apply Forall_app. split; auto.
  constructor; [|constructor]. unfold startSeeded.
  destruct (0 <? length (tokens p'))%nat; simpl; rewrite Hs1, Hs2; reflexivity.
Qed.

Lemma parseLoop_stories fuel : forall p,
  Forall startSeeded (stories p) -> Forall startSeeded (stories (parseLoop fuel p)).
Proof.
  induction fuel as [|fuel IH]; intros p H; simpl; auto.
  destruct (isAtEnd p); auto.
  destruct (peek p) as [token|]; auto.
  repeat case_match; auto; apply IH;
    rewrite ?stories_advance; auto using parseStory_stories.
Qed.

Lemma parse_startSeeded text :
  Forall startSeeded (d_stories (document (parse text))).
Proof.
  unfold parse. cbv zeta. simpl.
  apply parseLoop_stories. unfold checkDisabled.
  destruct (checkDisabledLoop _); constructor.
Qed.

End ChoiceIds.

(** ** C5: an identifier registered twice *)

Module DuplicateIds.
Import Parser ChoiceIds.




(** The example of the specification: two sibling choices that share an
    identifier give exactly one diagnostic, on the second occurrence. *)
Example duplicate_in_document :
  analyzeDiagnostics (doc ["=== t"; "* Choice one"; "  = sameId";
                           "* Choice two"; "  = sameId"])
  = [mkDiagnostic DiagnosticSeverity.Error
       (mkRange (mkPosition 4 2) (mkPosition 4 10))
       "Duplicate choice ID: sameId" "exoscript" (Some "duplicate-choice-id")].
Proof. vm_compute. reflexivity. Qed.

End DuplicateIds.

(** ** C6 and C7: where a choice is attached *)

Module ChoiceNesting.
Import Parser.

(** The level of a choice made from a token of the lexer is at least 1. *)
Lemma levelOf_positive token :
  (forall n, dataField choiceLevel token = Some n -> 0 <= n) ->
  1 <= levelOf token.
Proof.
  intros H. unfold levelOf. destruct (dataField choiceLevel token) as [n|]; [|lia].
  specialize (H n eq_refl). destruct (Z.eqb_spec n 0); lia.
Qed.

(** What is left of the stack of open choices for a choice of level [level]:
    its [level - 1] oldest entries, or all of it when it holds fewer. *)
Lemma popWhile_length stack level :
  2 <= level ->
  popWhile stack level
  = skipn (length stack - Z.to_nat (level - 1)) stack.
Proof.
  intros Hl. induction stack as [|r stack IH]; [reflexivity|].
  cbn [popWhile]. destruct (Z.geb_spec (Z.of_nat (length (r :: stack))) level)
    as [Hge|Hlt].
  - rewrite IH. simpl length in *.
    replace (S (length stack) - Z.to_nat (level - 1))%nat
      with (S (length stack - Z.to_nat (level - 1)))%nat by lia.
    reflexivity.
  - simpl length in *.
    replace (S (length stack) - Z.to_nat (level - 1))%nat with 0%nat by lia.
    reflexivity.
Qed.

(** The heap, the roots and the diagnostics of a parsed document, each
    choice shown by its level, its text and its children. *)
Definition shape (r : ParserResult)
    : list (Z * string * list ref) * list (list ref) * list ParseError :=
  (map (fun c => (c_level c, c_text c, c_children c)) (d_heap (document r)),
   map s_choices (d_stories (document r)),
   r_errors r).

(** C6, at the document [=== t / * A / *** C].  The choice [C] of depth 3
    comes when the only open choice is [A], of depth 1: it is attached as a
    child of [A], and no "orphaned choice" error is emitted. *)
Theorem choice_attached_below_shallow_parent :
  shape (parse (doc ["=== t"; "* A"; "*** C"]))
  = ([(1, "A", [1%nat]); (3, "C", [])], [[0%nat]], []).
Proof. vm_compute. reflexivity. Qed.

(** An orphan of depth 2 is pushed on the empty stack; the next choice of
    depth 2 finds it there and becomes its child. *)
Example choice_attached_below_equal_depth :
  shape (parse (doc ["=== t"; "** B"; "** D"]))
  = ([(2, "B", [1%nat]); (2, "D", [])], [[0%nat]],
     [mkError "Choice level 2 has no parent choice"
        (mkRange (mkPosition 1 0) (mkPosition 1 4)) sev_error
        "orphaned-choice"]).
Proof. vm_compute. reflexivity. Qed.

(** The rule of the [CHOICE] case for a level above 1: the parent is the
    top of what [popWhile] leaves of the stack, whatever its level is. *)
Lemma choice_token_parent p cx token parent rest :
  t_type token = TokenType.CHOICE ->
  levelOf token <> 1 ->
  popWhile (choiceStack cx) (levelOf token) = parent :: rest ->
  let r := parseStoryToken p cx token in
  let new := length (heap p) in
  heap r.1 = alter (pushChildC new) parent (heap p ++ [parseChoice token])
  /\ choiceStack r.2 = new :: parent :: rest
  /\ currentChoice r.2 = Some new
  /\ s_choices (story r.2) = s_choices (story cx)
  /\ errors r.1 = errors p.
Proof.
  intros Hty Hl Hp. cbv zeta. unfold parseStoryToken. rewrite Hty. cbv zeta.
  unfold alloc. apply Z.eqb_neq in Hl. rewrite Hl, Hp.
  unfold advance. destruct (negb (isAtEnd p)); simpl; auto.
Qed.

(** The hidden branch of the [CHOICE_ID] case: whatever the level of the
    marker and whatever choices are open, the new choice is pushed on the
    roots of the story and the stack is reduced to it. *)
Lemma hidden_token_root p cx token :
  t_type token = TokenType.CHOICE_ID ->
  ci_isHidden (parseChoiceId token) = true ->
  let r := parseStoryToken p cx token in
  let new := length (heap p) in
  heap r.1
  = heap p ++ [mkChoice (levelOf token) "" (t_range token)
                 (Some (parseChoiceId token)) [] [] [] [] []]
  /\ s_choices (story r.2) = s_choices (story cx) ++ [new]
  /\ choiceStack r.2 = [new]
  /\ currentChoice r.2 = Some new.
Proof.
  intros Hty Hh. cbv zeta. unfold parseStoryToken. rewrite Hty. cbv zeta.
  rewrite Hh. unfold alloc, advance.
  destruct (has _ _); destruct (negb (isAtEnd p)); simpl; auto.
Qed.

(** C7, at the documents [=== t / * A / **= h] and [=== t / * A / ** h].
    The choice line of depth 2 makes a child of [A]; the hidden-choice marker
    of depth 2 makes a choice with empty text and level 2 that is a root of
    the story, [A] has no child, and no "orphaned choice" error is emitted. *)
Theorem hidden_choice_not_nested :
  shape (parse (doc ["=== t"; "* A"; "** h"]))
  = ([(1, "A", [1%nat]); (2, "h", [])], [[0%nat]], [])
  /\ shape (parse (doc ["=== t"; "* A"; "**= h"]))
     = ([(1, "A", []); (2, "", [])], [[0%nat; 1%nat]], []).
Proof. vm_compute. split; reflexivity. Qed.

End ChoiceNesting.

(** ** C4: the resolution of the jump targets *)

Module JumpResolution.
Import Parser.

Lemma inList_In x l : JS.inList x l = true <-> In x l.
Proof.
  unfold JS.inList. rewrite existsb_exists. split.
  - intros (y & Hy & He). apply String.eqb_eq in He. now subst.
  - intros H. exists x. split; auto. apply String.eqb_refl.
Qed.

Lemma checkTarget_resolved story jump target errs :
  has (s_choiceIds story) target = true
  \/ In (JS.toLowerCase target) specialTargets ->
  checkTarget story jump target errs = errs.
Proof.
  unfold checkTarget, isSpecialJumpTarget. intros [H|H].
  - now rewrite H.
  - apply inList_In in H. rewrite H. now rewrite andb_false_r.
Qed.

Lemma checkTarget_unresolved story jump target errs :
  has (s_choiceIds story) target = false ->
  ~ In (JS.toLowerCase target) specialTargets ->
  checkTarget story jump target errs = errs ++ [unknownJumpTarget target jump].
Proof.
  unfold checkTarget, isSpecialJumpTarget. intros H1 H2. rewrite H1.
  destruct (JS.inList _ _) eqn:E; [|reflexivity].
  apply inList_In in E. contradiction.
Qed.

Lemma checkTarget_app story jump target errs :
  checkTarget story jump target errs
  = errs ++ checkTarget story jump target [].
Proof.
  unfold checkTarget. destruct (_ && _); simpl; now rewrite ?app_nil_r.
Qed.

Lemma validateJump_app story errs jump :
  validateJump story errs jump = errs ++ validateJump story [] jump.
Proof.
  unfold validateJump.
  destruct (String.eqb _ _); [now rewrite app_nil_r|].
  destruct (Regex.exec _ _) as [m|].
  - rewrite (checkTarget_app _ _ (Regex.group1 m 2) (checkTarget _ _ _ errs)).
    rewrite (checkTarget_app _ _ (Regex.group1 m 1) errs).
    rewrite (checkTarget_app _ _ (Regex.group1 m 2) (checkTarget _ _ _ [])).
    simpl. now rewrite <- app_assoc.
  - destruct (head _); [apply checkTarget_app | now rewrite app_nil_r].
Qed.

Lemma fold_validateJump story jumps : forall errs,
  fold_left (validateJump story) jumps errs
  = errs ++ flat_map (validateJump story []) jumps.
Proof.
  induction jumps as [|j jumps IH]; intros errs; simpl.
  - now rewrite app_nil_r.
  - rewrite IH, (validateJump_app story errs j). now rewrite <- app_assoc.
Qed.

(** The jumps that [validateChoice] goes through from the choice [r]: those
    of the choice, then those of its children, in order. *)
Fixpoint jumpsOf (fuel : nat) (h : list ChoiceNode) (r : ref) : list JumpNode :=
  match fuel with
  | O => []
  | S fuel' =>
      match h !! r with
      | None => []
      | Some c => c_jumps c ++ flat_map (jumpsOf fuel' h) (c_children c)
      end
  end.

Lemma fold_appending {A B : Type} (f : list A -> B -> list A)
    (g : B -> list A) :
  (forall acc x, f acc x = acc ++ g x) ->
  forall l acc, fold_left f l acc = acc ++ flat_map g l.
Proof.
  intros Hf l. induction l as [|x l IH]; intros acc; simpl.
  - now rewrite app_nil_r.
  - now rewrite IH, Hf, <- app_assoc.
Qed.

Lemma flat_map_nested {A B C : Type} (f : B -> list C) (g : A -> list B) l :
  flat_map f (flat_map g l) = flat_map (fun x => flat_map f (g x)) l.
Proof.
  induction l as [|x l IH]; simpl; [reflexivity|].
  now rewrite flat_map_app, IH.
Qed.

Lemma validateChoice_jumps h story fuel : forall errs r,
  validateChoice fuel h story errs r
  = errs ++ flat_map (validateJump story []) (jumpsOf fuel h r).
Proof.
  induction fuel as [|fuel IH]; intros errs r; simpl.
  - now rewrite app_nil_r.
  - destruct (h !! r) as [c|]; [|now rewrite app_nil_r].
    rewrite (fold_appending _ _ IH), fold_validateJump.
    now rewrite flat_map_app, flat_map_nested, <- app_assoc.
Qed.

(** The diagnostics of the resolution in a story: those of each jump met,
    one jump after the other. *)
Lemma validateJumpsInStory_jumps h errs story :
  validateJumpsInStory h errs story
  = errs ++ flat_map (validateJump story [])
              (flat_map (jumpsOf (length h) h) (s_choices story)).
Proof.
  unfold validateJumpsInStory.
  rewrite (fold_appending _ _ (validateChoice_jumps h story (length h))).
  now rewrite flat_map_nested.
Qed.

End JumpResolution.

(** ** The shape of the heap that the parser builds *)

Module HeapShape.
Import Parser.

(** The children of a choice are choices made after it. *)
Definition wellFormed (h : list ChoiceNode) : Prop :=
  forall r c, h !! r = Some c ->
  forall r', In r' (c_children c) -> (r < r' < length h)%nat.

(** The open choices are choices of the heap. *)
Definition stackOk (h : list ChoiceNode) (stack : list ref) : Prop :=
  Forall (fun r => (r < length h)%nat) stack.

Lemma wellFormed_alter f r h :
  (forall c, c_children (f c) = c_children c) ->
  wellFormed h -> wellFormed (alter f r h).
Proof.
  intros Hf Hw r0 c Hc r' Hin. rewrite length_alter.
  destruct (decide (r = r0)) as [->|Hne].
  - rewrite list_lookup_alter_eq in Hc.
    destruct (h !! r0) as [c0|] eqn:E; [|discriminate].
    injection Hc as <-. rewrite Hf in Hin. eapply Hw; eauto.
  - rewrite list_lookup_alter_ne in Hc by assumption. eapply Hw; eauto.
Qed.

Lemma wellFormed_alloc h c :
  c_children c = [] -> wellFormed h -> wellFormed (h ++ [c]).
Proof.
  intros Hc Hw r c0 Hl r' Hin. rewrite length_app. simpl.
  destruct (decide (r < length h)%nat) as [Hlt|Hge].
  - rewrite lookup_app_l in Hl by assumption.
    specialize (Hw r c0 Hl r' Hin). lia.
  - rewrite lookup_app_r in Hl by lia.
    destruct (r - length h)%nat; simpl in Hl; [|discriminate].
    injection Hl as <-. rewrite Hc in Hin. contradiction.
Qed.

Lemma wellFormed_child h c parent :
  c_children c = [] -> (parent < length h)%nat -> wellFormed h ->
  wellFormed (alter (pushChildC (length h)) parent (h ++ [c])).
Proof.
  intros Hc Hp Hw r c0 Hl r' Hin.
  pose proof (wellFormed_alloc h c Hc Hw) as Hw'.
  rewrite length_alter, length_app. simpl.
  destruct (decide (parent = r)) as [->|Hne].
  - rewrite list_lookup_alter_eq in Hl.
    destruct ((h ++ [c]) !! r) as [c1|] eqn:E; [|discriminate].
    injection Hl as <-. simpl in Hin. apply in_app_or in Hin as [Hin|Hin].
    + specialize (Hw' r c1 E r' Hin). rewrite length_app in Hw'. simpl in Hw'.
      lia.
    + destruct Hin as [<-|[]]. lia.
  - rewrite list_lookup_alter_ne in Hl by assumption.
    specialize (Hw' r c0 Hl r' Hin). rewrite length_app in Hw'. simpl in Hw'.
    lia.
Qed.

Lemma stackOk_grow h c stack : stackOk h stack -> stackOk (h ++ [c]) stack.
Proof.
  unfold stackOk. intros H. eapply Forall_impl; [exact H|].
  intros r Hr. simpl in *. rewrite length_app. simpl. lia.
Qed.

Lemma stackOk_alter f r h stack : stackOk h stack -> stackOk (alter f r h) stack.
Proof.
  unfold stackOk. intros H. eapply Forall_impl; [exact H|].
  intros r0 Hr. simpl in *. now rewrite length_alter.
Qed.

Lemma stackOk_popWhile h stack level :
  stackOk h stack -> stackOk h (popWhile stack level).
Proof.
  unfold stackOk. induction stack as [|r stack IH]; intros H; [constructor|].
  cbn [popWhile]. destruct (_ >=? _); auto.
  apply IH. now inversion H.
Qed.

Lemma heap_advance p : heap (advance p) = heap p.
Proof. unfold advance. now destruct (negb _). Qed.

Definition shaped (p : Parser) (cx : StoryLocals) : Prop :=
  wellFormed (heap p) /\ stackOk (heap p) (choiceStack cx).

Ltac same_children :=
  apply wellFormed_alter; [intros []; reflexivity | assumption].

Lemma shaped_token p cx token :
  shaped p cx ->
  shaped (parseStoryToken p cx token).1 (parseStoryToken p cx token).2.
Proof.
  intros [Hw Hs]. unfold shaped, parseStoryToken, alloc, update. cbv zeta.
  repeat case_match; simplify_eq; simpl; rewrite ?heap_advance;
    try (split; [assumption || same_children
                | assumption || apply stackOk_alter; assumption]).
  - (* a choice of level 1 *)
    split; [now apply wellFormed_alloc|].
    constructor; [|constructor]. rewrite length_app. simpl. lia.
  - (* a nested choice with no parent *)
    split; [now apply wellFormed_alloc|].
    constructor; [|constructor]. rewrite length_app. simpl. lia.
  - (* a nested choice with a parent *)
    match goal with H : popWhile _ _ = _ |- _ => rename H into Hp end.
    pose proof (stackOk_popWhile _ _ (levelOf token) Hs) as Hs'.
    rewrite Hp in Hs'. inversion Hs' as [|? ? Hr Hrest]. subst.
    split; [now apply wellFormed_child|].
    apply stackOk_alter. constructor.
    + rewrite length_app. simpl. lia.
    + apply stackOk_grow. now constructor.
  - (* a hidden choice, its identifier being a duplicate *)
    split; [now apply wellFormed_alloc|].
    constructor; [|constructor]. rewrite length_app. simpl. lia.
  - split; [now apply wellFormed_alloc|].
    constructor; [|constructor]. rewrite length_app. simpl. lia.
Qed.

Lemma shaped_loop fuel : forall p cx,
  shaped p cx ->
  shaped (parseStoryLoop fuel p cx).1 (parseStoryLoop fuel p cx).2.
Proof.
  induction fuel as [|fuel IH]; intros p cx H; simpl; auto.
  destruct (isAtEnd p); auto.
  destruct (peek p) as [token|]; auto.
  destruct (isType token TokenType.STORY_HEADER); auto.
  destruct (isType token TokenType.EOF); auto.
  pose proof (shaped_token p cx token H) as H'.
  destruct (parseStoryToken p cx token) as [p' cx']. now apply IH.
Qed.

Lemma wellFormed_parseStory p :
  wellFormed (heap p) -> wellFormed (heap (parseStory p)).
Proof.
  intros H. unfold parseStory. destruct (peek p) as [h|]; auto. cbv zeta.
  pose proof (shaped_loop (length (tokens (advance p))) (advance p)
                (mkLocals (newStory h) None [])) as Hs.
  destruct (parseStoryLoop _ _ _) as [p' cx]. simpl in *.
  apply Hs. split; [now rewrite heap_advance | constructor].
Qed.

Lemma wellFormed_parseLoop fuel : forall p,
  wellFormed (heap p) -> wellFormed (heap (parseLoop fuel p)).
Proof.
  induction fuel as [|fuel IH]; intros p H; simpl; auto.
  destruct (isAtEnd p); auto.
  destruct (peek p) as [token|]; auto.
  repeat case_match; auto; apply IH;
    rewrite ?heap_advance; auto using wellFormed_parseStory.
Qed.

Lemma wellFormed_parse text : wellFormed (d_heap (document (parse text))).
Proof.
  unfold parse. cbv zeta. simpl. apply wellFormed_parseLoop.
  unfold checkDisabled. destruct (checkDisabledLoop _); simpl;
    intros r c Hc; rewrite lookup_nil in Hc; discriminate.
Qed.

End HeapShape.

(** ** C4, continued: every jump of the tree is resolved *)

Module JumpTargets.
Import Parser JumpResolution HeapShape.

(** [descendant h r r']: the choice [r'] is [r] or lies below it. *)
Inductive descendant (h : list ChoiceNode) : ref -> ref -> Prop :=
| desc_self r : descendant h r r
| desc_child r c r1 r' :
    h !! r = Some c -> In r1 (c_children c) -> descendant h r1 r' ->
    descendant h r r'.

(** The choices of a story: its roots and what lies below them. *)
Definition inTree (h : list ChoiceNode) (roots : list ref) (r : ref) : Prop :=
  exists root, In root roots /\ descendant h root r.

(** In a heap of the parser the traversal has fuel enough to reach every
    descendant. *)
Lemma jumpsOf_complete h :
  wellFormed h ->
  forall r r', descendant h r r' ->
  forall fuel c' j,
    (length h <= r + fuel)%nat ->
    h !! r' = Some c' -> In j (c_jumps c') -> In j (jumpsOf fuel h r).
Proof.
  intros Hw r r' Hd.
  induction Hd as [r|r c r1 r' Hc Hin Hd IH]; intros fuel c' j Hf Hc' Hj.
  - pose proof (lookup_lt_Some _ _ _ Hc') as Hlt.
    destruct fuel as [|fuel]; [lia|]. simpl. rewrite Hc'.
    apply in_or_app. now left.
  - pose proof (lookup_lt_Some _ _ _ Hc) as Hlt.
    destruct fuel as [|fuel]; [lia|]. simpl. rewrite Hc.
    apply in_or_app. right. apply in_flat_map. exists r1. split; auto.
    apply (IH fuel c' j); auto.
    specialize (Hw r c Hc r1 Hin). lia.
Qed.

(** The traversal meets only jumps of choices of the tree. *)
Lemma jumpsOf_sound h fuel : forall r j,
  In j (jumpsOf fuel h r) ->
  exists r' c', descendant h r r' /\ h !! r' = Some c' /\ In j (c_jumps c').
Proof.
  induction fuel as [|fuel IH]; intros r j Hj; simpl in Hj; [contradiction|].
  destruct (h !! r) as [c|] eqn:Hc; [|contradiction].
  apply in_app_or in Hj as [Hj|Hj].
  - exists r, c. repeat split; auto. constructor.
  - apply in_flat_map in Hj as (r1 & Hr1 & Hj).
    destruct (IH r1 j Hj) as (r' & c' & Hd & Hc' & Hj').
    exists r', c'. repeat split; auto. econstructor; eauto.
Qed.

(** The diagnostics of a document end with those of the resolution of the
    jumps: story after story, jump after jump. *)
Lemma parse_errors_resolution text :
  let d := document (parse text) in
  exists before,
    r_errors (parse text)
    = before
      ++ flat_map
           (fun s =>
              flat_map (validateJump s [])
                (flat_map (jumpsOf (length (d_heap d)) (d_heap d))
                          (s_choices s)))
           (d_stories d).
Proof.
  unfold parse. cbv zeta. simpl.
  set (p := parseLoop _ _). exists (errors p).
  apply (fold_appending _ _ (validateJumpsInStory_jumps (heap p))).
Qed.

Lemma every_jump_resolved text :
  let d := document (parse text) in
  forall s r c j e,
    In s (d_stories d) ->
    inTree (d_heap d) (s_choices s) r ->
    d_heap d !! r = Some c -> In j (c_jumps c) ->
    In e (validateJump s [] j) ->
    In e (r_errors (parse text)).
Proof.
  cbv zeta. intros s r c j e Hs (root & Hroot & Hd) Hc Hj He.
  destruct (parse_errors_resolution text) as (before & ->).
  apply in_or_app. right. apply in_flat_map. exists s. split; auto.
  apply in_flat_map. exists j. split; auto.
  apply in_flat_map. exists root. split; auto.
  eapply jumpsOf_complete; eauto using wellFormed_parse. lia.
Qed.

(** C4, as amended.  An identifier that the map of the story holds, or
    whose lower-case form is one of [start], [end], [back], [backonce],
    [startonce], produces no diagnostic, whatever the map holds; any other
    identifier produces one "Unknown jump target" diagnostic of severity
    [warning] with the range of the jump.  A jump without target is
    skipped; for a target of the shape [if <cond> ? <a> : <b>] the two
    identifiers are resolved one after the other by this rule; for any
    other target the identifier is its first word.  And in every parsed
    document the diagnostics of every jump of every choice of every story
    are among the diagnostics of the document. *)
Theorem jump_targets_resolved :
  (forall story jump target errs,
     (has (s_choiceIds story) target = true
      \/ In (JS.toLowerCase target) specialTargets ->
      checkTarget story jump target errs = errs)
     /\ (has (s_choiceIds story) target = false ->
         ~ In (JS.toLowerCase target) specialTargets ->
         checkTarget story jump target errs
         = errs ++ [mkError ("Unknown jump target: " +:+ target)
                      (j_range jump) sev_warning "unknown-jump-target"]))
  /\ (forall story jump errs,
        Forall (fun t => checkTarget story jump t errs = errs) specialTargets)
  /\ (forall story jump errs,
        (j_target jump = "" -> validateJump story errs jump = errs)
        /\ (forall m,
              j_target jump <> "" ->
              Regex.exec re_conditional (j_target jump) = Some m ->
              validateJump story errs jump
              = checkTarget story jump (Regex.group1 m 2)
                  (checkTarget story jump (Regex.group1 m 1) errs))
        /\ (forall target,
              j_target jump <> "" ->
              Regex.exec re_conditional (j_target jump) = None ->
              head (Regex.split re_space (j_target jump)) = Some target ->
              validateJump story errs jump
              = checkTarget story jump target errs))
  /\ (forall text s r c j e,
        In s (d_stories (document (parse text))) ->
        inTree (d_heap (document (parse text))) (s_choices s) r ->
        d_heap (document (parse text)) !! r = Some c ->
        In j (c_jumps c) ->
        In e (validateJump s [] j) ->
        In e (r_errors (parse text))).
Proof.
  split; [|split; [|split]].
  - intros story jump target errs. split.
    + apply checkTarget_resolved.
    + apply checkTarget_unresolved.
  - intros story jump errs. repeat constructor;
      apply checkTarget_resolved; right; vm_compute; tauto.
  - intros story jump errs. unfold validateJump. repeat split.
    + now intros ->.
    + intros m Hne Hm. apply String.eqb_neq in Hne. now rewrite Hne, Hm.
    + intros target Hne Hm Hh. apply String.eqb_neq in Hne.
      now rewrite Hne, Hm, Hh.
  - intros text. apply every_jump_resolved.
Qed.

(** The theorem at a jump to [nowhere] in a story without identifiers. *)
Lemma jump_targets_resolved_witness :
  let jump := mkJump "nowhere" (mkRange (mkPosition 2 0) (mkPosition 2 9)) normal in
  checkTarget (newStory ChoiceIds.headerToken) jump "nowhere" []
  = [mkError "Unknown jump target: nowhere" (j_range jump) sev_warning
       "unknown-jump-target"].
Proof.
  cbv zeta. destruct jump_targets_resolved as [H _].
  apply (H (newStory ChoiceIds.headerToken)
           (mkJump "nowhere" (mkRange (mkPosition 2 0) (mkPosition 2 9)) normal)
           "nowhere" []).
  - reflexivity.
  - vm_compute. intuition discriminate.
Defined.

(** The claim of the specification, read to the letter: an identifier that
    is not in the map and is not one of the five words is reported. *)
Definition resolvedAsStated : Prop :=
  forall story jump target errs,
    has (s_choiceIds story) target = false ->
    ~ In target specialTargets ->
    checkTarget story jump target errs = errs ++ [unknownJumpTarget target jump].

(** [END] is none of the five words and is not defined in the story, and it
    is accepted. *)
Lemma upper_case_target_accepted : ~ resolvedAsStated.
Proof.
  intros H.
  specialize (H (newStory ChoiceIds.headerToken)
                (mkJump "END" (mkRange (mkPosition 2 0) (mkPosition 2 5)) normal)
                "END" []).
  assert (Hn : ~ In "END" specialTargets) by (vm_compute; intuition discriminate).
  specialize (H eq_refl Hn). vm_compute in H. discriminate.
Qed.

(** The same in a document. *)
Example upper_case_target_in_document :
  r_errors (parse (doc ["=== t"; "* A"; "  > END"; "  > nowhere"]))
  = [mkError "Unknown jump target: nowhere"
       (mkRange (mkPosition 3 2) (mkPosition 3 11)) sev_warning
       "unknown-jump-target"].
Proof. vm_compute. reflexivity. Qed.

(** A two-armed target: [b] is defined, [c] is not. *)
Example conditional_target_in_document :
  r_errors (parse (doc ["=== t"; "* A"; "  = b"; "  > if x > 1 ? b : c"]))
  = [mkError "Unknown jump target: c"
       (mkRange (mkPosition 3 2) (mkPosition 3 20)) sev_warning
       "unknown-jump-target"].
Proof. vm_compute. reflexivity. Qed.

(** The five pseudo-targets in a story without any identifier of its own. *)
Example pseudo_targets_in_document :
  r_errors (parse (doc ["=== t"; "* A"; "  > start"; "  > end"; "  > back";
                        "  > backonce"; "  > startonce"]))
  = [].
Proof. vm_compute. reflexivity. Qed.

End JumpTargets.

(** ** The diagnostics of the lexer in the result of the analysis *)

Module Surfaced.
Import LexerFacts.

(** [prefixOf l l']: the list [l'] starts with [l]. *)
Definition prefixOf {A : Type} (l l' : list A) : Prop := exists t, l' = l ++ t.

Lemma prefixOf_refl {A : Type} (l : list A) : prefixOf l l.
Proof. exists []. now rewrite app_nil_r. Qed.

Lemma prefixOf_trans {A : Type} (l1 l2 l3 : list A) :
  prefixOf l1 l2 -> prefixOf l2 l3 -> prefixOf l1 l3.
Proof. intros [t1 ->] [t2 ->]. exists (t1 ++ t2). now rewrite app_assoc. Qed.

Lemma prefixOf_app {A : Type} (l t : list A) : prefixOf l (l ++ t).
Proof. now exists t. Qed.

Lemma prefixOf_In {A : Type} (l l' : list A) x :
  prefixOf l l' -> In x l -> In x l'.
Proof. intros [t ->] H. apply in_or_app. now left. Qed.

Lemma errors_parseStoryToken p cx token :
  prefixOf (Parser.errors p) (Parser.errors (Parser.parseStoryToken p cx token).1).
Proof.
  unfold Parser.parseStoryToken, Parser.alloc. cbv zeta.
  repeat case_match; simplify_eq; simpl; rewrite ChoiceIds.errors_advance;
    first [apply prefixOf_refl | apply prefixOf_app].
Qed.

Lemma errors_parseStoryLoop fuel : forall p cx,
  prefixOf (Parser.errors p) (Parser.errors (Parser.parseStoryLoop fuel p cx).1).
Proof.
  induction fuel as [|fuel IH]; intros p cx; simpl; try apply prefixOf_refl.
  repeat case_match; try apply prefixOf_refl.
  match goal with H : Parser.parseStoryToken _ _ ?t = _ |- _ =>
    pose proof (errors_parseStoryToken p cx t) as Ht; rewrite H in Ht end.
  eapply prefixOf_trans; [exact Ht | apply IH].
Qed.

Lemma errors_parseStory p :
  prefixOf (Parser.errors p) (Parser.errors (Parser.parseStory p)).
Proof.
  unfold Parser.parseStory. destruct (Parser.peek p) as [h|];
    [|apply prefixOf_refl]. cbv zeta.
  pose proof (errors_parseStoryLoop
                (length (Parser.tokens (Parser.advance p))) (Parser.advance p)
                (Parser.mkLocals (Parser.newStory h) None [])) as H.
  destruct (Parser.parseStoryLoop _ _ _) as [p' cx]. simpl in *.
  now rewrite ChoiceIds.errors_advance in H.
Qed.

Lemma errors_parseLoop fuel : forall p,
  prefixOf (Parser.errors p) (Parser.errors (Parser.parseLoop fuel p)).
Proof.
  induction fuel as [|fuel IH]; intros p; simpl; try apply prefixOf_refl.
  repeat case_match; try apply prefixOf_refl;
    (eapply prefixOf_trans; [|apply IH]);
    rewrite ?ChoiceIds.errors_advance;
    first [apply errors_parseStory | apply prefixOf_refl | apply prefixOf_app].
Qed.

(** The diagnostics of the parser start with those of the lexer. *)
Lemma lexer_errors_in_parse text :
  prefixOf (Lexer.r_errors (tokenize text)) (Parser.r_errors (parse text)).
Proof.
  unfold parse, Parser.parse. cbv zeta. cbn [Parser.r_errors].
  set (p0 := Parser.checkDisabled (Parser.new text)).
  assert (H0 : Parser.errors p0 = Lexer.r_errors (tokenize text)).
  { unfold p0, Parser.checkDisabled, Parser.new.
    now destruct (Parser.checkDisabledLoop _). }
  rewrite <- H0.
  eapply prefixOf_trans;
    [apply (errors_parseLoop (length (Parser.tokens p0)) p0)|].
  unfold Parser.validateJumpTargets.
  cbn [Parser.errors Parser.setErrors].
  rewrite (JumpResolution.fold_appending _ _
             (JumpResolution.validateJumpsInStory_jumps _)).
  apply prefixOf_app.
Qed.

(** Every diagnostic of the lexer is in the result of the analysis, with the
    severity that [getSeverity] gives it. *)
Lemma lexer_error_surfaced text e :
  In e (Lexer.r_errors (tokenize text)) ->
  In (Diagnostics.convertToDiagnostic e) (analyzeDiagnostics text).
Proof.
  intros He. unfold analyzeDiagnostics, Diagnostics.analyzeDiagnostics.
  cbv zeta. unfold Diagnostics.additionalValidation. cbv zeta.
  apply in_or_app. left.
  apply (prefixOf_In _ _ _ (lexer_errors_in_parse text)) in He.
  apply (in_map Diagnostics.convertToDiagnostic) in He.
  destruct (d_isDisabled _); repeat (apply in_or_app; left); exact He.
Qed.

(** The diagnostics of the lint are at the end of the result. *)
Lemma lint_surfaced text n d :
  (n < length (Regex.split Lexer.re_newline text))%nat ->
  In d (Diagnostics.validateLine (Regex.split Lexer.re_newline text) n) ->
  In d (analyzeDiagnostics text).
Proof.
  intros Hn Hd. unfold analyzeDiagnostics, Diagnostics.analyzeDiagnostics.
  cbv zeta. unfold Diagnostics.additionalValidation. cbv zeta.
  apply in_or_app. right. apply in_flat_map. exists n. split; auto.
  apply in_seq. lia.
Qed.

Lemma tokenize_errors text :
  Forall lexerSeverity (Lexer.r_errors (tokenize text)).
Proof.
  unfold tokenize, Lexer.tokenize. cbv zeta.
  destruct (extends_tokenizeLines (Lexer.new text))
    as (_ & _ & (es & Hes & Fes) & _).
  simpl in Hes.
  destruct (Lexer.inBlockComment _); [destruct (Lexer.blockCommentStart _)|];
    simpl; rewrite Hes; auto.
  apply Forall_app. split; auto. constructor; [now left|constructor].
Qed.

End Surfaced.

(** ** The diagnostic of a missing expression *)

Module Severities.
Import Diagnostics LexerFacts Surfaced.

(** The diagnostic of a recognized command that lacks its expression. *)
Definition emptyExpression (cmd : string) (n : nat) (startIdx : Z) : ParseError :=
  mkError ("~" +:+ cmd +:+ " requires a condition or expression")
    (Lexer.makeRange n startIdx (startIdx + JS.len cmd + 1))
    sev_warning "empty-tilde-expression".

Lemma validateTildeCommand_empty lx cmd expression n startIdx :
  String.eqb cmd "disabled" || String.eqb cmd "once"
  || String.eqb cmd "set" || String.eqb cmd "call" = false ->
  JS.trim expression = "" ->
  Lexer.errors (Lexer.validateTildeCommand lx cmd expression n startIdx)
  = Lexer.errors lx ++ [emptyExpression cmd n startIdx].
Proof.
  intros Hc He. unfold Lexer.validateTildeCommand.
  apply orb_false_iff in Hc as [Hc H4]. apply orb_false_iff in Hc as [Hc H3].
  rewrite Hc, He, H3, H4. reflexivity.
Qed.

(** The claim of the specification for the diagnostic of a missing
    expression. *)
Definition missingExpressionIsError : Prop :=
  forall text d,
    In d (analyzeDiagnostics text) ->
    code d = Some "empty-tilde-expression" ->
    severity d = DiagnosticSeverity.Error.

(** The diagnostics of the document [=== t / ~if]. *)
Example empty_if_diagnostics :
  analyzeDiagnostics (doc ["=== t"; "~if"])
  = [mkDiagnostic DiagnosticSeverity.Warning
       (mkRange (mkPosition 1 0) (mkPosition 1 3))
       "~if requires a condition or expression" "exoscript"
       (Some "empty-tilde-expression")].
Proof. vm_compute. reflexivity. Qed.

(** In the document [=== t / ~if] the missing expression is a Warning. *)
Lemma missing_expression_is_warning : ~ missingExpressionIsError.
Proof.
  intros H.
  specialize (H (doc ["=== t"; "~if"])
                (mkDiagnostic DiagnosticSeverity.Warning
                   (mkRange (mkPosition 1 0) (mkPosition 1 3))
                   "~if requires a condition or expression" "exoscript"
                   (Some "empty-tilde-expression"))).
  rewrite empty_if_diagnostics in H.
  specialize (H (or_introl eq_refl) eq_refl). discriminate.
Qed.

End Severities.

(** ** Facts on the matcher *)

Module RegexFacts.
Import Regex.

(** A pattern that starts with [^] only matches at offset 0. *)
Lemma matchAt_bol r input pos : matchAt (Seq Bol r) input (S pos) = None.
Proof. reflexivity. Qed.

Lemma searchFrom_bol r input fuel : forall pos,
  searchFrom (Seq Bol r) input (S pos) fuel = None.
Proof.
  induction fuel as [|fuel IH]; intros pos; cbn [searchFrom];
    rewrite matchAt_bol; auto.
Qed.

Lemma exec_bol r input : exec (Seq Bol r) input = matchAt (Seq Bol r) input 0.
Proof.
  unfold exec, execFrom. change (0 <=? String.length input)%nat with true.
  cbv iota. rewrite Nat.sub_0_r.
  destruct (String.length input); cbn [searchFrom];
    destruct (matchAt _ _ _); auto using searchFrom_bol.
Qed.

Section Greedy.
Context {A : Type}.
Variable p : ascii -> bool.
Variable k : nat -> list ascii -> captures -> option A.

(** A star over one character: the longest run of characters first. *)
Fixpoint greedy (pos : nat) (s : list ascii) (c : captures) : option A :=
  match s with
  | a :: s' =>
      if p a then
        match greedy (S pos) s' c with
        | Some x => Some x
        | None => k pos s c
        end
      else k pos s c
  | [] => k pos s c
  end.

(** The number of characters at the head of [s] that satisfy [p]. *)
Fixpoint runLength (s : list ascii) : nat :=
  match s with
  | a :: s' => if p a then S (runLength s') else O
  | [] => O
  end.

Lemma starLoop_chr
    (step : nat -> list ascii -> captures ->
            (nat -> list ascii -> captures -> option A) -> option A) :
  (forall pos s c k',
     step pos s c k'
     = match s with
       | a :: s' => if p a then k' (S pos) s' c else None
       | [] => None
       end) ->
  forall fuel pos s c,
    (length s <= fuel)%nat ->
    starLoop step k fuel pos s c = greedy pos s c.
Proof.
  intros Hstep. induction fuel as [|fuel IH]; intros pos s c Hf.
  - destruct s; [reflexivity | simpl in Hf; lia].
  - cbn [starLoop]. rewrite Hstep. destruct s as [|a s']; [reflexivity|].
    cbn [greedy]. destruct (p a); [|reflexivity].
    replace (pos <? S pos)%nat with true
      by (symmetry; apply Nat.ltb_lt; lia).
    rewrite IH by (simpl in Hf; lia). reflexivity.
Qed.

Lemma greedy_fallback pos s c :
  k pos s c <> None -> greedy pos s c <> None.
Proof.
  destruct s as [|a s']; cbn [greedy]; auto.
  destruct (p a); auto. destruct (greedy _ _ _); [discriminate | auto].
Qed.

(** When a success of [k] before a character of the run implies a success
    after it, the star stops at the end of the run or fails. *)
Lemma greedy_longest :
  (forall a s' pos c,
     p a = true -> k pos (a :: s') c <> None -> k (S pos) s' c <> None) ->
  forall s pos c,
    greedy pos s c = k (pos + runLength s) (skipn (runLength s) s) c.
Proof.
  intros Hmono. induction s as [|a s' IH]; intros pos c; cbn [greedy runLength].
  - now rewrite Nat.add_0_r.
  - destruct (p a) eqn:Hp; [|now rewrite Nat.add_0_r].
    cbn [skipn]. rewrite <- Nat.add_succ_comm, <- IH.
    destruct (greedy (S pos) s' c) eqn:Hg; [reflexivity|].
    destruct (k pos (a :: s') c) eqn:Hk; [|reflexivity].
    exfalso. apply (greedy_fallback (S pos) s' c); [|exact Hg].
    apply (Hmono a s' pos c Hp). rewrite Hk. discriminate.
Qed.

(** What the star answers is an answer of [k]. *)
Lemma greedy_result s : forall pos c x,
  greedy pos s c = Some x ->
  exists pos' s', k pos' s' c = Some x.
Proof.
  induction s as [|a s' IH]; intros pos c x; cbn [greedy]; eauto.
  destruct (p a); eauto.
  destruct (greedy (S pos) s' c) eqn:Hg; eauto.
  intros [= <-]. eauto.
Qed.

(** When [k] only succeeds at the end of the input, a success of the star
    means that every character satisfies [p]. *)
Lemma greedy_to_end :
  (forall pos s c, k pos s c <> None -> s = []) ->
  forall s pos c, greedy pos s c <> None -> forallb p s = true.
Proof.
  intros Hend. induction s as [|a s' IH]; intros pos c; cbn [greedy forallb];
    auto.
  destruct (p a); simpl.
  - destruct (greedy (S pos) s' c) eqn:Hg.
    + intros _. apply (IH (S pos) c). rewrite Hg. discriminate.
    + intros Hk. now apply Hend in Hk.
  - intros Hk. now apply Hend in Hk.
Qed.

(** And when every character satisfies [p], the star goes to the end. *)
Lemma greedy_all s : forall pos c,
  forallb p s = true ->
  k (pos + length s) [] c <> None ->
  greedy pos s c <> None.
Proof.
  induction s as [|a s' IH]; intros pos c; cbn [greedy forallb length].
  - now rewrite Nat.add_0_r.
  - intros Hp Hk. apply andb_true_iff in Hp as [Ha Hp]. rewrite Ha.
    rewrite <- Nat.add_succ_comm in Hk.
    specialize (IH (S pos) c Hp Hk).
    destruct (greedy (S pos) s' c); [discriminate | contradiction].
Qed.

End Greedy.

End RegexFacts.

(** ** The command word of a tilde line *)

Module TildeWord.
Import Regex RegexFacts.

Definition cont : Type := nat -> list ascii -> captures -> option MatchResult.

Definition isDot (a : ascii) : bool := negb (JS.isLineTerminator a).

Section Tilde.
Variable t : string.

(** [$], at the end of the pattern. *)
Definition kEnd : cont :=
  fun pos s c =>
    match s with
    | [] => Some (mkMatch t 0 pos c)
    | _ :: _ => None
    end.

(** The optional second group and [$]. *)
Definition kRest : cont :=
  fun pos s c =>
    match greedy isDot
            (fun pos' s' c' =>
               if (pos <? pos')%nat
               then kEnd pos' s' ((2%nat, (pos, pos')) :: c')
               else None) pos s c with
    | Some x => Some x
    | None => kEnd pos s c
    end.

(** The blanks after the command word and what follows them. *)
Definition kTail : cont := greedy JS.isSpace kRest.

(** What follows the command word, the word being recorded. *)
Definition kWord : cont :=
  fun pos s c => kTail pos s ((1%nat, (1%nat, pos)) :: c).

Lemma greedy_ext {A : Type} p (k k' : nat -> list ascii -> captures -> option A) :
  (forall pos s c, k pos s c = k' pos s c) ->
  forall s pos c, greedy p k pos s c = greedy p k' pos s c.
Proof.
  intros H. induction s as [|a s IH]; intros pos c; cbn [greedy]; auto.
  rewrite IH, H. reflexivity.
Qed.

Lemma star_chr {A : Type} input p (k : nat -> list ascii -> captures -> option A)
    pos s c :
  starLoop (run input (Chr p)) k (length s) pos s c = greedy p k pos s c.
Proof. apply starLoop_chr; [reflexivity | lia]. Qed.

Lemma matchAt_tilde :
  matchAt Lexer.re_tilde t 0
  = match JS.chars t with
    | a :: b :: s2 =>
        if Ascii.eqb "~" a then
          if JS.isWord b then greedy JS.isWord kWord 2 s2 [] else None
        else None
    | _ => None
    end.
Proof.
  unfold matchAt, Lexer.re_tilde. cbn [seqs].
  destruct (JS.chars t) as [|a s1]; [reflexivity|].
  cbn [run skipn]. change (0 =? 0)%nat with true. cbv iota.
  unfold Lit at 1. cbn [run]. destruct (Ascii.eqb "~" a); [|destruct s1; reflexivity].
  unfold Plus. cbn [run]. unfold Word at 1. cbn [run].
  destruct s1 as [|b s2]; [reflexivity|].
  destruct (JS.isWord b); [|reflexivity].
  rewrite (starLoop_chr JS.isWord) by (intros; reflexivity || lia).
  apply greedy_ext. intros pos s c. unfold kWord, kTail.
  rewrite (starLoop_chr JS.isSpace) by (intros; reflexivity || lia).
  apply greedy_ext. intros pos' s' c'. unfold kRest.
  rewrite (starLoop_chr isDot) by (intros; reflexivity || lia).
  reflexivity.
Qed.

(** [/^~(\w+)/] has nothing after the command word. *)
Definition kWordOnly : cont :=
  fun pos s c => Some (mkMatch t 0 pos ((1%nat, (1%nat, pos)) :: c)).

Lemma matchAt_tildeWord :
  matchAt Diagnostics.re_tildeWord t 0
  = match JS.chars t with
    | a :: b :: s2 =>
        if Ascii.eqb "~" a then
          if JS.isWord b then greedy JS.isWord kWordOnly 2 s2 [] else None
        else None
    | _ => None
    end.
Proof.
  unfold matchAt, Diagnostics.re_tildeWord. cbn [seqs].
  destruct (JS.chars t) as [|a s1]; [reflexivity|].
  cbn [run skipn]. change (0 =? 0)%nat with true. cbv iota.
  unfold Lit at 1. cbn [run].
  destruct (Ascii.eqb "~" a); [|destruct s1; reflexivity].
  unfold Plus. cbn [run]. unfold Word at 1. cbn [run].
  destruct s1 as [|b s2]; [reflexivity|].
  destruct (JS.isWord b); [|reflexivity].
  rewrite (starLoop_chr JS.isWord) by (intros; reflexivity || lia).
  reflexivity.
Qed.

Lemma kRest_dots pos s c : forallb isDot s = true -> kRest pos s c <> None.
Proof.
  intros Hs. unfold kRest.
  destruct (greedy _ _ _ _ _) eqn:Hg; [discriminate|].
  destruct s as [|a s']; [discriminate|]. exfalso.
  revert Hg. apply greedy_all; auto.
  replace (pos <? pos + length (a :: s'))%nat with true
    by (symmetry; apply Nat.ltb_lt; simpl; lia).
  discriminate.
Qed.

Lemma kRest_some pos s c : kRest pos s c <> None -> forallb isDot s = true.
Proof.
  unfold kRest. destruct (greedy _ _ _ _ _) eqn:Hg.
  - intros _. eapply greedy_to_end; [|rewrite Hg; discriminate].
    intros pos' s' c'. cbv beta.
    destruct (pos <? pos')%nat; [|intros H; now contradiction H].
    destruct s'; [reflexivity | intros H; exfalso; now apply H].
  - destruct s; [reflexivity | intros H; exfalso; now apply H].
Qed.

Lemma kTail_dots pos s c : forallb isDot s = true -> kTail pos s c <> None.
Proof. intros H. apply greedy_fallback. now apply kRest_dots. Qed.

Lemma word_not_space a : JS.isWord a = true -> JS.isSpace a = false.
Proof.
  destruct a as [[] [] [] [] [] [] [] []]; vm_compute;
    first [reflexivity | discriminate].
Qed.

Lemma kWord_mono a s' pos c :
  JS.isWord a = true ->
  kWord pos (a :: s') c <> None -> kWord (S pos) s' c <> None.
Proof.
  intros Ha. unfold kWord, kTail. cbn [greedy].
  rewrite (word_not_space a Ha). intros H.
  apply kRest_some in H. cbn [forallb] in H.
  apply andb_true_iff in H as [_ H]. now apply kTail_dots.
Qed.

(** The captures of a match of the tail: those it was given, with the
    second group before them when it took part. *)
Lemma kTail_caps pos s c m :
  kTail pos s c = Some m ->
  m_input m = t
  /\ (m_caps m = c \/ exists a b, m_caps m = (2%nat, (a, b)) :: c).
Proof.
  unfold kTail. intros H.
  apply greedy_result in H as (pos1 & s1 & H). unfold kRest in H.
  destruct (greedy _ _ _ _ _) eqn:Hg.
  - injection H as ->. apply greedy_result in Hg as (pos2 & s2 & Hg).
    destruct (pos1 <? pos2)%nat; [|discriminate].
    destruct s2; [|discriminate]. injection Hg as <-. simpl. eauto.
  - destruct s1; [|discriminate]. injection H as <-. simpl. eauto.
Qed.

(** The two patterns read the same command word. *)
Lemma same_word m :
  exec Lexer.re_tilde t = Some m ->
  exists m',
    exec Diagnostics.re_tildeWord t = Some m'
    /\ group1 m' 1 = group1 m 1.
Proof.
  unfold Lexer.re_tilde, Diagnostics.re_tildeWord. cbn [seqs].
  rewrite !exec_bol.
  change (matchAt Lexer.re_tilde t 0 = Some m ->
          exists m', matchAt Diagnostics.re_tildeWord t 0 = Some m'
                     /\ group1 m' 1 = group1 m 1).
  rewrite matchAt_tilde, matchAt_tildeWord.
  destruct (JS.chars t) as [|a [|b s2]]; try discriminate.
  destruct (Ascii.eqb "~" a); [|discriminate].
  destruct (JS.isWord b); [|discriminate].
  rewrite (greedy_longest JS.isWord kWord kWord_mono).
  rewrite (greedy_longest JS.isWord kWordOnly) by (intros; discriminate).
  unfold kWord, kWordOnly. intros H. eexists. split; [reflexivity|].
  apply kTail_caps in H as (Hi & [Hc|(x & y & Hc)]);
    unfold group1, group; cbn [m_caps m_input]; rewrite Hc, Hi; reflexivity.
Qed.

(** A line that matches the pattern of the commands starts with [~]. *)
Lemma first_char m :
  exec Lexer.re_tilde t = Some m -> exists t', t = String "~" t'.
Proof.
  unfold Lexer.re_tilde. cbn [seqs]. rewrite exec_bol.
  change (matchAt Lexer.re_tilde t 0 = Some m -> exists t', t = String "~" t').
  rewrite matchAt_tilde. destruct t as [|a t']; [discriminate|].
  unfold JS.chars. cbn [list_ascii_of_string].
  destruct (list_ascii_of_string t'); [discriminate|].
  destruct (Ascii.eqb_spec "~" a) as [<-|]; [eauto | discriminate].
Qed.

End Tilde.
End TildeWord.

(** ** C8: a command word outside the whitelist *)

Module TildeCommands.
Import Diagnostics LexerFacts Surfaced TildeWord.

(** The state of the lexer when it comes to line [n]. *)
Definition stateBefore (text : string) (n : nat) : Lexer.Lexer :=
  fold_left Lexer.tokenizeLine (seq 0 n) (Lexer.new text).

Definition unknownCommand (cmd : string) (n : nat) (startIdx : Z) : ParseError :=
  mkError ("Unknown tilde command: ~" +:+ cmd +:+ ". Valid commands: "
           +:+ JS.join ", " TILDE_COMMANDS)
    (Lexer.makeRange n startIdx (startIdx + JS.len cmd + 1))
    sev_error "unknown-tilde-command".

Lemma divider_tilde t' : Regex.test Lexer.re_divider (String "~" t') = false.
Proof.
  unfold Regex.test, Lexer.re_divider. cbn [Regex.seqs].
  now rewrite RegexFacts.exec_bol.
Qed.

Lemma story_tilde t' : Regex.exec Lexer.re_story (String "~" t') = None.
Proof.
  unfold Lexer.re_story. cbn [Regex.seqs]. now rewrite RegexFacts.exec_bol.
Qed.

(** The lexer on a line of a command that is not in the whitelist. *)
Lemma tokenizeLine_unknown lx n m :
  let line := nth n (Lexer.lines lx) "" in
  let cmd := JS.toLowerCase (Regex.group1 m 1) in
  Lexer.inBlockComment lx = false ->
  opensBlockComment line = false ->
  Regex.exec Lexer.re_tilde (JS.trim line) = Some m ->
  JS.inList cmd TILDE_COMMANDS = false ->
  Lexer.errors (Lexer.tokenizeLine lx n)
  = Lexer.errors lx ++ [unknownCommand cmd n (JS.indexOf line "~" 0)].
Proof.
  cbv zeta. intros Hb Ho Hm Hc.
  destruct (first_char _ _ Hm) as [t' Ht].
  unfold Lexer.tokenizeLine. cbv zeta. rewrite Hb.
  unfold opensBlockComment in Ho. rewrite Ho.
  rewrite Ht in *. rewrite divider_tilde, story_tilde, Hm, Hc.
  reflexivity.
Qed.

Lemma lines_stateBefore text n :
  Lexer.lines (stateBefore text n) = Regex.split Lexer.re_newline text.
Proof.
  unfold stateBefore.
  destruct (extends_fold (seq 0 n) (Lexer.new text)) as (H & _). exact H.
Qed.

(** The diagnostics that line [n] adds are among those of the lexer. *)
Lemma line_errors_kept text n e :
  (n < length (Regex.split Lexer.re_newline text))%nat ->
  In e (Lexer.errors (Lexer.tokenizeLine (stateBefore text n) n)) ->
  In e (Lexer.r_errors (tokenize text)).
Proof.
  intros Hn He.
  assert (Hp : prefixOf (Lexer.errors (Lexer.tokenizeLines (Lexer.new text)))
                        (Lexer.r_errors (tokenize text))).
  { unfold tokenize, Lexer.tokenize. cbv zeta.
    destruct (Lexer.inBlockComment _); [destruct (Lexer.blockCommentStart _)|];
      simpl; first [apply prefixOf_refl | apply prefixOf_app]. }
  apply (prefixOf_In _ _ _ Hp).
  unfold Lexer.tokenizeLines. cbn [Lexer.new Lexer.lines].
  set (len := length (Regex.split Lexer.re_newline text)) in *.
  replace len with (n + (1 + (len - n - 1)))%nat by lia.
  rewrite !seq_app, !fold_left_app. cbn [seq fold_left].
  fold (stateBefore text n). rewrite Nat.add_0_l.
  destruct (extends_fold (seq (n + 1) (len - n - 1))
              (Lexer.tokenizeLine (stateBefore text n) n))
    as (_ & _ & (es & Hes & _) & _).
  rewrite Hes. apply in_or_app. now left.
Qed.

(** C8, as amended.  On a line that the lexer reads as a tilde command (the
    line is outside a block comment, opens none, and matches the pattern of
    the commands) and whose command word is not in the whitelist, the
    analysis emits the "unknown command" error, whether the word is in the
    table of typos or not; when the word has an entry in that table, the
    analysis emits the "did you mean" diagnostic as well, with severity
    Error and the same range.  No word of the table is in the whitelist. *)
Theorem unknown_command_and_typo (text : string) (n : nat)
    (m : Regex.MatchResult) :
  let lines := Regex.split Lexer.re_newline text in
  let line := nth n lines "" in
  let cmd := JS.toLowerCase (Regex.group1 m 1) in
  let startIdx := JS.indexOf line "~" 0 in
  (n < length lines)%nat ->
  Lexer.inBlockComment (stateBefore text n) = false ->
  opensBlockComment line = false ->
  Regex.exec Lexer.re_tilde (JS.trim line) = Some m ->
  JS.inList cmd TILDE_COMMANDS = false ->
  In (mkDiagnostic DiagnosticSeverity.Error
        (Lexer.makeRange n startIdx (startIdx + JS.len cmd + 1))
        ("Unknown tilde command: ~" +:+ cmd
         +:+ ". Valid commands: if, ifd, set, setif, call, callif, disabled, once")
        "exoscript" (Some "unknown-tilde-command"))
     (analyzeDiagnostics text)
  /\ (forall suggestion,
        typoLookup cmd = Some suggestion ->
        In (mkDiagnostic DiagnosticSeverity.Error
              (Lexer.makeRange n startIdx (startIdx + JS.len cmd + 1))
              ("Did you mean ~" +:+ suggestion +:+ "?")
              "exoscript" (Some "typo"))
           (analyzeDiagnostics text))
  /\ Forall (fun e => JS.inList (fst e) TILDE_COMMANDS = false
                      /\ typoLookup (fst e) = Some (snd e)) typoMap.
Proof.
  cbv zeta. intros Hn Hb Ho Hm Hc. split; [|split].
  - apply (lexer_error_surfaced text
             (unknownCommand (JS.toLowerCase (Regex.group1 m 1)) n
                (JS.indexOf (nth n (Regex.split Lexer.re_newline text) "") "~" 0))).
    apply (line_errors_kept text n); [exact Hn|].
    rewrite <- (lines_stateBefore text n) in Ho, Hm.
    rewrite (tokenizeLine_unknown _ n m Hb Ho Hm Hc).
    apply in_or_app. right. left. now rewrite lines_stateBefore.
  - intros suggestion Hs.
    apply (lint_surfaced text n); [exact Hn|].
    unfold validateLine. cbv zeta. apply in_or_app. left.
    destruct (same_word _ _ Hm) as (m' & Hm' & Hg).
    unfold checkTypo. rewrite Hm', Hg, Hs. now left.
  - repeat constructor.
Qed.

(** The match of the command pattern in the line [~iff age >= 10]. *)
Definition iffMatch : Regex.MatchResult :=
  Regex.mkMatch "~iff age >= 10" 0 14
    [(2%nat, (5%nat, 14%nat)); (1%nat, (1%nat, 4%nat))].

Example iffMatch_exec :
  Regex.exec Lexer.re_tilde "~iff age >= 10" = Some iffMatch.
Proof. reflexivity. Qed.

(** The theorem at line 1 of a test of the repository,
    [=== test / ~iff age >= 10 / Some text]. *)
Lemma unknown_command_and_typo_witness :
  let text := doc ["=== test"; "~iff age >= 10"; "Some text"] in
  In (mkDiagnostic DiagnosticSeverity.Error
        (mkRange (mkPosition 1 0) (mkPosition 1 4))
        "Unknown tilde command: ~iff. Valid commands: if, ifd, set, setif, call, callif, disabled, once"
        "exoscript" (Some "unknown-tilde-command"))
     (analyzeDiagnostics text)
  /\ In (mkDiagnostic DiagnosticSeverity.Error
           (mkRange (mkPosition 1 0) (mkPosition 1 4))
           "Did you mean ~if?" "exoscript" (Some "typo"))
        (analyzeDiagnostics text).
Proof.
  cbv zeta.
  destruct (unknown_command_and_typo
              (doc ["=== test"; "~iff age >= 10"; "Some text"]) 1 iffMatch)
    as (H1 & H2 & _); try reflexivity.
  - vm_compute. lia.
  - split; [exact H1 | exact (H2 "if" eq_refl)].
Defined.

(** The claim of the specification: where the lint suggests a spelling, no
    "unknown command" error is emitted for the line. *)
Definition typoReplacesUnknown : Prop :=
  forall text d d',
    In d (analyzeDiagnostics text) -> code d = Some "typo" ->
    In d' (analyzeDiagnostics text) ->
    line (start (range d')) = line (start (range d)) ->
    code d' <> Some "unknown-tilde-command".

(** The diagnostics of [=== test / ~iff age >= 10 / Some text]. *)
Example iff_diagnostics :
  map (fun d => (code d, message d, line (start (range d))))
      (analyzeDiagnostics (doc ["=== test"; "~iff age >= 10"; "Some text"]))
  = [(Some "unknown-tilde-command",
      "Unknown tilde command: ~iff. Valid commands: if, ifd, set, setif, call, callif, disabled, once",
      1);
     (Some "typo", "Did you mean ~if?", 1)].
Proof. vm_compute. reflexivity. Qed.

Definition iffUnknown : Diagnostic :=
  mkDiagnostic DiagnosticSeverity.Error
    (mkRange (mkPosition 1 0) (mkPosition 1 4))
    "Unknown tilde command: ~iff. Valid commands: if, ifd, set, setif, call, callif, disabled, once"
    "exoscript" (Some "unknown-tilde-command").

Definition iffTypo : Diagnostic :=
  mkDiagnostic DiagnosticSeverity.Error
    (mkRange (mkPosition 1 0) (mkPosition 1 4))
    "Did you mean ~if?" "exoscript" (Some "typo").

Example iff_analysis :
  analyzeDiagnostics (doc ["=== test"; "~iff age >= 10"; "Some text"])
  = [iffUnknown; iffTypo].
Proof. vm_compute. reflexivity. Qed.

(** For [~iff] both diagnostics are emitted, on the same line. *)
Lemma typo_and_unknown_both_emitted : ~ typoReplacesUnknown.
Proof.
  intros H.
  apply (H (doc ["=== test"; "~iff age >= 10"; "Some text"]) iffTypo iffUnknown);
    rewrite ?iff_analysis; simpl; auto.
Qed.

End TildeCommands.

(** ** The loops of the parser stop at the end of the tokens

    The two loops of the parser are given as much fuel as there are tokens.
    Each turn consumes a token, so the fuel is never what stops them. *)

Module ParserLoops.
Import Parser.

(** The tokens that are left. *)
Definition remaining (p : Parser) : nat := length (tokens p) - current p.

Lemma advance_not_at_end p :
  isAtEnd p = false ->
  tokens (advance p) = tokens p /\ current (advance p) = S (current p).
Proof. intros H. unfold advance. now rewrite H. Qed.

Lemma not_at_end_lt p : isAtEnd p = false -> (current p < length (tokens p))%nat.
Proof.
  unfold isAtEnd. intros H. apply orb_false_iff in H as [H _].
  apply Nat.leb_gt in H. exact H.
Qed.

Lemma parseStoryToken_consumes p cx token :
  isAtEnd p = false ->
  tokens (parseStoryToken p cx token).1 = tokens p
  /\ current (parseStoryToken p cx token).1 = S (current p).
Proof.
  intros H. destruct (advance_not_at_end p H) as [Ht Hc].
  unfold parseStoryToken, alloc. cbv zeta.
  repeat case_match; simplify_eq; simpl; auto.
Qed.

Lemma parseStoryLoop_progress fuel : forall p cx,
  tokens (parseStoryLoop fuel p cx).1 = tokens p
  /\ (current p <= current (parseStoryLoop fuel p cx).1)%nat.
Proof.
  induction fuel as [|fuel IH]; intros p cx; simpl; auto.
  destruct (isAtEnd p) eqn:He; auto.
  destruct (peek p) as [token|]; auto.
  destruct (isType token TokenType.STORY_HEADER); auto.
  destruct (isType token TokenType.EOF); auto.
  destruct (parseStoryToken_consumes p cx token He) as [Ht Hc].
  destruct (parseStoryToken p cx token) as [p' cx']. simpl in *.
  destruct (IH p' cx') as [Ht' Hc']. split; [congruence | lia].
Qed.

(** The loop of a story stops at the end of the tokens or before a story
    header. *)
Lemma parseStoryLoop_stops fuel : forall p cx,
  (remaining p <= fuel)%nat ->
  let p' := (parseStoryLoop fuel p cx).1 in
  isAtEnd p' = true
  \/ exists token, peek p' = Some token
                   /\ isType token TokenType.STORY_HEADER = true.
Proof.
  induction fuel as [|fuel IH]; intros p cx Hf; simpl.
  - left. unfold isAtEnd. unfold remaining in Hf.
    replace (length (tokens p) <=? current p)%nat with true
      by (symmetry; apply Nat.leb_le; lia). reflexivity.
  - destruct (isAtEnd p) eqn:He; [now left|].
    destruct (peek p) as [token|] eqn:Hp.
    + destruct (isType token TokenType.STORY_HEADER) eqn:Hh; [right; eauto|].
      destruct (isType token TokenType.EOF) eqn:Heof.
      * exfalso. pose proof (not_at_end_lt p He) as Hlt.
        unfold peek in Hp. unfold isAtEnd in He.
        destruct (tokens p !! current p) as [t|] eqn:Hl.
        -- injection Hp as ->. rewrite Heof in He.
           now rewrite orb_true_r in He.
        -- apply lookup_ge_None in Hl. lia.
      * destruct (parseStoryToken_consumes p cx token He) as [Ht Hc].
        destruct (parseStoryToken p cx token) as [p' cx']. simpl in *.
        apply IH. unfold remaining in *. rewrite Ht, Hc. lia.
    + exfalso. pose proof (not_at_end_lt p He) as Hlt.
      unfold peek in Hp.
      destruct (tokens p !! current p) as [t|] eqn:Hl; [discriminate|].
      apply lookup_ge_None in Hl. lia.
Qed.

Lemma parseStory_progress p :
  isAtEnd p = false ->
  tokens (parseStory p) = tokens p
  /\ (current p < current (parseStory p))%nat.
Proof.
  intros He. unfold parseStory. destruct (peek p) as [h|] eqn:Hp.
  - cbv zeta. destruct (advance_not_at_end p He) as [Ht Hc].
    destruct (parseStoryLoop_progress (length (tokens (advance p))) (advance p)
                (mkLocals (newStory h) None [])) as [Ht' Hc'].
    destruct (parseStoryLoop _ _ _) as [p' cx]. simpl in *.
    split; [congruence | lia].
  - exfalso. pose proof (not_at_end_lt p He) as Hlt. unfold peek in Hp.
    destruct (tokens p !! current p) as [t|] eqn:Hl; [discriminate|].
    apply lookup_ge_None in Hl. lia.
Qed.

(** The loop of [parse] stops at the end of the tokens. *)
Lemma parseLoop_reaches_end fuel : forall p,
  (remaining p <= fuel)%nat -> isAtEnd (parseLoop fuel p) = true.
Proof.
  induction fuel as [|fuel IH]; intros p Hf; simpl.
  - unfold isAtEnd. unfold remaining in Hf.
    replace (length (tokens p) <=? current p)%nat with true
      by (symmetry; apply Nat.leb_le; lia). reflexivity.
  - destruct (isAtEnd p) eqn:He; [exact He|].
    pose proof (not_at_end_lt p He) as Hlt.
    destruct (advance_not_at_end p He) as [Ht Hc].
    assert (Hadv : forall e, (remaining (advance (pushError p e)) <= fuel)%nat).
    { intros e. assert (He' : isAtEnd (pushError p e) = false) by exact He.
      destruct (advance_not_at_end _ He') as [Ht' Hc'].
      unfold remaining in *. rewrite Ht', Hc'. simpl. lia. }
    assert (Hadv0 : (remaining (advance p) <= fuel)%nat).
    { unfold remaining in *. rewrite Ht, Hc. lia. }
    destruct (peek p) as [token|] eqn:Hp.
    + repeat case_match; auto.
      * apply IH. destruct (parseStory_progress p He) as [Ht' Hc'].
        unfold remaining in *. rewrite Ht'. lia.
      * exfalso. unfold peek in Hp. unfold isAtEnd in He.
        destruct (tokens p !! current p) as [t|] eqn:Hl.
        -- injection Hp as ->.
           match goal with H : isType token TokenType.EOF = true |- _ =>
             rewrite H in He end.
           now rewrite orb_true_r in He.
        -- apply lookup_ge_None in Hl. lia.
    + exfalso. unfold peek in Hp.
      destruct (tokens p !! current p) as [t|] eqn:Hl; [discriminate|].
      apply lookup_ge_None in Hl. lia.
Qed.

(** In [parse] the loop is left with every token consumed. *)
Lemma parse_reaches_end text :
  let p := checkDisabled (Parser.new text) in
  isAtEnd (parseLoop (length (tokens p)) p) = true.
Proof.
  cbv zeta. apply parseLoop_reaches_end. unfold remaining. lia.
Qed.

End ParserLoops.

Module TokenLines.
Import LexerFacts.

(** A range that lies on line [n]. *)
Definition onLine (n : nat) (r : Range) : Prop :=
  line (start r) = Z.of_nat n /\ line (end_ r) = Z.of_nat n.

Definition isHeader (t : Token) : bool :=
  TokenType.eqb (t_type t) TokenType.STORY_HEADER.

Lemma onLine_makeRange n a b : onLine n (Lexer.makeRange n a b).
Proof. split; reflexivity. Qed.

Lemma tokens_validateParens message lx expr n off :
  Lexer.tokens (Lexer.validateParens message lx expr n off) = Lexer.tokens lx.
Proof.
  unfold Lexer.validateParens.
  destruct (Lexer.parenLoop _ _ _ _ _ _ _ _) as [[cnt found] errs].
  now destruct (0 <? cnt).
Qed.

Lemma tokens_validateTildeCommand lx cmd expr n startIdx :
  Lexer.tokens (Lexer.validateTildeCommand lx cmd expr n startIdx)
  = Lexer.tokens lx.
Proof.
  unfold Lexer.validateTildeCommand, Lexer.validateConditionExpression,
    Lexer.validateSetExpression.
  repeat case_match; rewrite ?tokens_validateParens; reflexivity.
Qed.

(** The tokens that line [n] adds. *)
Definition lineTokens (lx : Lexer.Lexer) (n : nat) : list Token :=
  skipn (length (Lexer.tokens lx)) (Lexer.tokens (Lexer.tokenizeLine lx n)).

Lemma tokenizeLine_tokens lx n :
  Lexer.tokens (Lexer.tokenizeLine lx n) = Lexer.tokens lx ++ lineTokens lx n.
Proof.
  unfold lineTokens.
  destruct (extends_tokenizeLine lx n) as (_ & (ts & -> & _) & _).
  now rewrite drop_app_length.
Qed.

Lemma lineTokens_shape lx n :
  Forall (fun t => onLine n (t_range t)) (lineTokens lx n)
  /\ (forall t, In t (lineTokens lx n) -> isHeader t = true ->
      lineTokens lx n = [t]).
Proof.
  unfold lineTokens, Lexer.tokenizeLine, Lexer.validateBracketExpressions,
    Lexer.tokenizeLineContent.
  cbv zeta.
  repeat case_match; rewrite ?tokens_validateTildeCommand; simpl;
    rewrite <- ?app_assoc, ?drop_app_length, ?drop_all; simpl.
  all: split; [repeat constructor|].
  all: intros t Hin Hh; simpl in Hin; intuition (subst; try discriminate; auto).
Qed.

Definition tokLine (t : Token) : Z := line (start (t_range t)).

(** The tokens come line after line, and a story header is the first token
    of its line. *)
Definition ordered (ts : list Token) : Prop :=
  forall i j ti tj,
    (i < j)%nat -> ts !! i = Some ti -> ts !! j = Some tj ->
    tokLine ti <= tokLine tj
    /\ (isHeader tj = true -> tokLine ti < tokLine tj).

Definition oneLine (t : Token) : Prop :=
  line (end_ (t_range t)) = line (start (t_range t)).

Lemma ordered_app ts ts' n :
  ordered ts ->
  Forall (fun t => tokLine t < Z.of_nat n) ts ->
  Forall (fun t => onLine n (t_range t)) ts' ->
  (forall t, In t ts' -> isHeader t = true -> ts' = [t]) ->
  ordered (ts ++ ts').
Proof.
  intros Ho Hlt Hn Hh i j ti tj Hij Hi Hj.
  destruct (decide (j < length ts)%nat) as [Hjl|Hjl].
  - rewrite lookup_app_l in Hi, Hj by lia. eauto.
  - rewrite lookup_app_r in Hj by lia.
    assert (Hj' : In tj ts') by (eapply list_elem_of_In, list_elem_of_lookup_2; eauto).
    pose proof (proj1 (List.Forall_forall _ _) Hn tj Hj') as [Hs _].
    destruct (decide (i < length ts)%nat) as [Hil|Hil].
    + rewrite lookup_app_l in Hi by lia.
      assert (Hi' : In ti ts) by (eapply list_elem_of_In, list_elem_of_lookup_2; eauto).
      pose proof (proj1 (List.Forall_forall _ _) Hlt ti Hi') as Hti.
      unfold tokLine in *. split; [lia | intros _; lia].
    + rewrite lookup_app_r in Hi by lia.
      assert (Hi' : In ti ts') by (eapply list_elem_of_In, list_elem_of_lookup_2; eauto).
      pose proof (proj1 (List.Forall_forall _ _) Hn ti Hi') as [Hsi _].
      unfold tokLine. split; [lia|]. intros Hhd.
      specialize (Hh tj Hj' Hhd). rewrite Hh in Hi, Hj.
      destruct (i - length ts)%nat eqn:E1; destruct (j - length ts)%nat eqn:E2;
        simpl in *; try discriminate; lia.
Qed.

(** The tokens before line [k]. *)
Definition before (k : nat) (lx : Lexer.Lexer) : Prop :=
  ordered (Lexer.tokens lx)
  /\ Forall oneLine (Lexer.tokens lx)
  /\ Forall (fun t => tokLine t < Z.of_nat k) (Lexer.tokens lx).

Lemma before_tokenizeLine k lx :
  before k lx -> before (S k) (Lexer.tokenizeLine lx k).
Proof.
  intros (Ho & H1 & Hlt).
  destruct (lineTokens_shape lx k) as [Hn Hh].
  unfold before. rewrite tokenizeLine_tokens. split; [|split].
  - eapply ordered_app; eauto.
  - apply Forall_app. split; auto.
    eapply Forall_impl; [exact Hn|]. intros t [Hs He]. unfold oneLine. congruence.
  - apply Forall_app. split.
    + eapply Forall_impl; [exact Hlt|]. simpl. intros; lia.
    + eapply Forall_impl; [exact Hn|]. intros t [Hs He]. unfold tokLine. lia.
Qed.

Lemma before_fold m : forall k lx,
  before k lx -> before (k + m) (fold_left Lexer.tokenizeLine (seq k m) lx).
Proof.
  induction m as [|m IH]; intros k lx H; simpl.
  - now rewrite Nat.add_0_r.
  - rewrite <- Nat.add_succ_comm. apply IH. now apply before_tokenizeLine.
Qed.

Lemma before_tokenizeLines text :
  before (length (Regex.split Lexer.re_newline text))
         (Lexer.tokenizeLines (Lexer.new text)).
Proof.
  unfold Lexer.tokenizeLines.
  apply (before_fold _ 0 (Lexer.new text)).
  split; [|split; constructor]. intros i j ti tj _ Hi. simpl in Hi. discriminate.
Qed.

Lemma tokenize_tokens_eq text :
  exists eof,
    Lexer.r_tokens (tokenize text)
    = Lexer.tokens (Lexer.tokenizeLines (Lexer.new text)) ++ [eof]
    /\ t_type eof = TokenType.EOF
    /\ oneLine eof
    /\ tokLine eof = Z.of_nat (length (Regex.split Lexer.re_newline text)) - 1.
Proof.
  unfold tokenize, Lexer.tokenize. cbv zeta.
  destruct (extends_tokenizeLines (Lexer.new text)) as (Hl & _).
  rewrite Hl. simpl.
  destruct (Lexer.inBlockComment _); [destruct (Lexer.blockCommentStart _)|];
    simpl; eexists; repeat split.
Qed.

Lemma ordered_tokenize text : 
  ordered (Lexer.r_tokens (tokenize text))
  /\ Forall oneLine (Lexer.r_tokens (tokenize text)).
Proof.
  destruct (tokenize_tokens_eq text) as (eof & -> & Hty & H1 & Hl).
  destruct (before_tokenizeLines text) as (Ho & Hone & Hlt).
  split; [|apply Forall_app; split; auto].
  intros i j ti tj Hij Hi Hj.
  set (ts := Lexer.tokens _) in *.
  destruct (decide (j < length ts)%nat) as [Hjl|Hjl].
  - rewrite lookup_app_l in Hi, Hj by lia. eauto.
  - rewrite lookup_app_r in Hj by lia.
    destruct (j - length ts)%nat eqn:E; simpl in Hj; [|discriminate].
    injection Hj as <-.
    rewrite lookup_app_l in Hi by lia.
    assert (Hi' : In ti ts) by (eapply list_elem_of_In, list_elem_of_lookup_2; eauto).
    pose proof (proj1 (List.Forall_forall _ _) Hlt ti Hi') as Hti. simpl in Hti.
    split; [lia|]. unfold isHeader. rewrite Hty. discriminate.
Qed.

(** X1.  The tokens of a document come in the order of the lines.  Every
    token lies on one line; a token never lies on an earlier line than the
    tokens before it; and a story header is the first token of its line: it
    lies on a later line than every token before it. *)
Theorem tokens_in_line_order (text : string) :
  let ts := Lexer.r_tokens (tokenize text) in
  Forall (fun t => line (end_ (t_range t)) = line (start (t_range t))) ts
  /\ (forall i j ti tj,
        (i < j)%nat -> ts !! i = Some ti -> ts !! j = Some tj ->
        line (start (t_range ti)) <= line (start (t_range tj))
        /\ (t_type tj = TokenType.STORY_HEADER ->
            line (start (t_range ti)) < line (start (t_range tj)))).
Proof.
  cbv zeta. destruct (ordered_tokenize text) as [Hord Hone]. split; [exact Hone|].
  intros i j ti tj Hij Hi Hj. destruct (Hord i j ti tj Hij Hi Hj) as [H1 H2].
  split; [exact H1|]. intros Hty. apply H2. unfold isHeader. now rewrite Hty.
Qed.

Lemma tokens_in_line_order_witness :
  let ts := Lexer.r_tokens (tokenize (doc ["/* a"; "b */ c"; "=== s"])) in
  exists ti tj,
    ts !! 2%nat = Some ti /\ ts !! 3%nat = Some tj
    /\ line (start (t_range ti)) < line (start (t_range tj)).
Proof.
  cbv zeta.
  destruct (tokens_in_line_order (doc ["/* a"; "b */ c"; "=== s"])) as [_ H].
  cbv zeta in H.
  destruct (Lexer.r_tokens (tokenize (doc ["/* a"; "b */ c"; "=== s"])) !! 2%nat)
    as [ti|] eqn:Hi; [|vm_compute in Hi; discriminate].
  destruct (Lexer.r_tokens (tokenize (doc ["/* a"; "b */ c"; "=== s"])) !! 3%nat)
    as [tj|] eqn:Hj; [|vm_compute in Hj; discriminate].
  exists ti, tj. split; [reflexivity|]. split; [reflexivity|].
  apply (H 2%nat 3%nat ti tj); [lia | exact Hi | exact Hj |].
  vm_compute in Hj. injection Hj as <-. reflexivity.
Defined.

End TokenLines.

Module ErrorTokens.
Import LexerFacts TokenLines.

(** The diagnostics that line [n] adds. *)
Definition lineErrors (lx : Lexer.Lexer) (n : nat) : list ParseError :=
  skipn (length (Lexer.errors lx)) (Lexer.errors (Lexer.tokenizeLine lx n)).

Lemma tokenizeLine_errors lx n :
  Lexer.errors (Lexer.tokenizeLine lx n) = Lexer.errors lx ++ lineErrors lx n.
Proof.
  unfold lineErrors.
  destruct (extends_tokenizeLine lx n) as (_ & _ & (es & -> & _) & _).
  now rewrite drop_app_length.
Qed.

(** The switch of [getTildeTokenType] knows every word of the whitelist. *)
Lemma recognized_type c :
  JS.inList c TILDE_COMMANDS = true -> Lexer.getTildeTokenType c <> TokenType.ERROR.
Proof.
  unfold JS.inList, TILDE_COMMANDS. cbn [existsb].
  rewrite !orb_true_iff.
  intros H; repeat destruct H as [H|H]; try discriminate;
    apply String.eqb_eq in H; subst c; vm_compute; discriminate.
Qed.

(** A token is backed by a diagnostic of severity [error] that starts where
    the token starts. *)
Definition backed (es : list ParseError) (t : Token) : Prop :=
  exists e, In e es /\ start (e_range e) = start (t_range t)
            /\ e_severity e = sev_error.

Lemma lineTokens_backed lx n t :
  In t (lineTokens lx n) -> t_type t = TokenType.ERROR ->
  backed (lineErrors lx n) t.
Proof.
  unfold lineTokens, lineErrors, Lexer.tokenizeLine,
    Lexer.validateBracketExpressions, Lexer.tokenizeLineContent.
  cbv zeta.
  repeat case_match; rewrite ?tokens_validateTildeCommand; simpl;
    rewrite <- ?app_assoc, ?drop_app_length, ?drop_all; simpl.
  all: intros Hin Hty; intuition (subst; try discriminate).
  all: try (eexists; split; [left; reflexivity | split; reflexivity]).
  all: exfalso; simpl in Hty; revert Hty; now apply recognized_type.
Qed.


Definition allBacked (lx : Lexer.Lexer) : Prop :=
  forall t, In t (Lexer.tokens lx) -> t_type t = TokenType.ERROR ->
            backed (Lexer.errors lx) t.

Lemma backed_more es es' t : backed es t -> backed (es ++ es') t.
Proof. intros (e & He & H). exists e. split; auto. apply in_or_app. now left. Qed.

Lemma allBacked_tokenizeLine lx n : allBacked lx -> allBacked (Lexer.tokenizeLine lx n).
Proof.
  intros H t. rewrite tokenizeLine_tokens, tokenizeLine_errors.
  intros Hin Hty. apply in_app_or in Hin as [Hin|Hin].
  - now apply backed_more, H.
  - destruct (lineTokens_backed lx n t Hin Hty) as (e & He & H').
    exists e. split; auto. apply in_or_app. now right.
Qed.

Lemma allBacked_fold l : forall lx,
  allBacked lx -> allBacked (fold_left Lexer.tokenizeLine l lx).
Proof.
  induction l as [|n l IH]; intros lx H; simpl; auto.
  apply IH. now apply allBacked_tokenizeLine.
Qed.

(** X3.  A line that the lexer turns into a token of type [ERROR] is never
    silent: the analysis of the document holds a diagnostic of severity
    Error that starts where the token starts. *)
Theorem error_token_has_diagnostic (text : string) (t : Token) :
  In t (Lexer.r_tokens (tokenize text)) ->
  t_type t = TokenType.ERROR ->
  exists d,
    In d (analyzeDiagnostics text)
    /\ severity d = DiagnosticSeverity.Error
    /\ start (range d) = start (t_range t).
Proof.
  intros Hin Hty.
  assert (Hb : backed (Lexer.r_errors (tokenize text)) t).
  { pose proof (allBacked_fold (seq 0 (length (Lexer.lines (Lexer.new text))))
                  (Lexer.new text)) as H.
    fold (Lexer.tokenizeLines (Lexer.new text)) in H.
    assert (H0 : allBacked (Lexer.new text)) by (intros t' []).
    specialize (H H0 t). revert Hin.
    unfold tokenize, Lexer.tokenize. cbv zeta.
    destruct (Lexer.inBlockComment _); [destruct (Lexer.blockCommentStart _)|];
      simpl; intros Hin; apply in_app_or in Hin as [Hin|[<-|[]]];
      try discriminate; try apply backed_more; auto. }
  destruct Hb as (e & He & Hs & Hsev).
  exists (Diagnostics.convertToDiagnostic e). split; [|split].
  - now apply Surfaced.lexer_error_surfaced.
  - simpl. now rewrite Hsev.
  - simpl. rewrite <- Hs. now destruct (start (e_range e)).
Qed.

Lemma error_token_has_diagnostic_witness :
  exists d,
    In d (analyzeDiagnostics "~iff x")
    /\ severity d = DiagnosticSeverity.Error
    /\ start (range d) = mkPosition 0 0.
Proof.
  apply (error_token_has_diagnostic "~iff x"
           (mkToken TokenType.ERROR "~iff x"
              (mkRange (mkPosition 0 0) (mkPosition 0 6)) None)).
  - vm_compute. left. reflexivity.
  - reflexivity.
Defined.

End ErrorTokens.

Module BlockComments.
Import LexerFacts TokenLines ErrorTokens TildeCommands.



Lemma chars_str l : JS.chars (JS.str l) = l.
Proof. apply list_ascii_of_string_of_list_ascii. Qed.

Lemma str_chars s : JS.str (JS.chars s) = s.
Proof. apply string_of_list_ascii_of_string. Qed.

Lemma dropSpaces_nil l : JS.dropSpaces l = [] -> forallb JS.isSpace l = true.
Proof.
  induction l as [|a l IH]; simpl; auto.
  destruct (JS.isSpace a); [auto | discriminate].
Qed.

Lemma dropSpaces_head l a l' : JS.dropSpaces l = a :: l' -> JS.isSpace a = false.
Proof.
  induction l as [|b l IH]; simpl; [discriminate|].
  destruct (JS.isSpace b) eqn:Hb; auto. intros [= -> ->]. exact Hb.
Qed.

(** A line that is empty once trimmed holds blanks only. *)
Lemma trim_empty s : JS.trim s = "" -> forallb JS.isSpace (JS.chars s) = true.
Proof.
  unfold JS.trim, JS.trimChars. intros H.
  apply (f_equal JS.chars) in H. rewrite chars_str in H. simpl in H.
  apply (f_equal (@rev ascii)) in H. rewrite rev_involutive in H. simpl in H.
  apply dropSpaces_nil in H.
  destruct (JS.dropSpaces (JS.chars s)) as [|a l'] eqn:E.
  - now apply dropSpaces_nil.
  - apply dropSpaces_head in E.
    rewrite List.forallb_forall in H.
    rewrite (H a) in E; [discriminate|].
    apply -> in_rev. now left.
Qed.

Lemma indexOfFrom_blank a p l : forall i,
  JS.isSpace a = false -> forallb JS.isSpace l = true ->
  JS.indexOfFrom (a :: p) l i = -1.
Proof.
  induction l as [|b l IH]; intros i Ha Hl; simpl; auto.
  simpl in Hl. apply andb_true_iff in Hl as [Hb Hl].
  destruct (Ascii.eqb_spec a b) as [->|]; [congruence|]. simpl. auto.
Qed.

Lemma blank_no_opener line :
  JS.trim line = "" -> JS.indexOf line "/*" 0 = -1.
Proof.
  intros H. apply trim_empty in H. unfold JS.indexOf.
  replace (Z.to_nat (Z.min (Z.max 0 0) (JS.len line))) with 0%nat
    by (unfold JS.len; lia).
  simpl. now apply indexOfFrom_blank.
Qed.

(** The codes of the diagnostics that a line can get, each with its
    severity. *)
Definition lineTable : list (string * Severity) :=
  [("invalid-story-header", sev_error); ("unknown-tilde-command", sev_error);
   ("empty-tilde-expression", sev_warning); ("unbalanced-parens", sev_error);
   ("missing-choice-id", sev_error)].

(** A diagnostic of line [n]. *)
Definition lineError (n : nat) (e : ParseError) : Prop :=
  onLine n (e_range e) /\ In (e_code e, e_severity e) lineTable.

Lemma parenLoop_lineErrors message n off l :
  forall i cnt found errs,
    exists es,
      (Lexer.parenLoop message n off l i cnt found errs).2 = errs ++ es
      /\ Forall (lineError n) es.
Proof.
  induction l as [|ch l IH]; intros i cnt found errs; simpl.
  - exists []. now rewrite app_nil_r.
  - destruct (_ && _).
    + destruct (IH (i + 1) 0 true
                  (errs ++ [mkError message
                              (Lexer.makeRange n (off + i) (off + i + 1))
                              sev_error "unbalanced-parens"]))
        as (es & Hes & Fes).
      eexists (_ :: es). rewrite Hes, <- app_assoc. split; [reflexivity|].
      constructor; auto. split; [apply onLine_makeRange | simpl; tauto].
    + apply IH.
Qed.

Lemma validateParens_lineErrors message lx expr n off :
  exists es,
    Lexer.errors (Lexer.validateParens message lx expr n off)
    = Lexer.errors lx ++ es
    /\ Forall (lineError n) es.
Proof.
  unfold Lexer.validateParens.
  destruct (parenLoop_lineErrors message n off (JS.chars (JS.trim expr)) 0 0
              false (Lexer.errors lx)) as (es & Hes & Fes).
  destruct (Lexer.parenLoop _ _ _ _ _ _ _ _) as [[cnt found] errs].
  simpl in Hes. subst errs. destruct (0 <? cnt); simpl.
  - exists (es ++ [Lexer.missingParen n off (JS.trim expr)]).
    rewrite app_assoc. split; auto. apply Forall_app. split; auto.
    constructor; auto. split; [apply onLine_makeRange | simpl; tauto].
  - eauto.
Qed.

Lemma validateTildeCommand_lineErrors lx cmd expr n startIdx :
  exists es,
    Lexer.errors (Lexer.validateTildeCommand lx cmd expr n startIdx)
    = Lexer.errors lx ++ es
    /\ Forall (lineError n) es.
Proof.
  assert (H0 : exists es, Lexer.errors lx = Lexer.errors lx ++ es
                          /\ Forall (lineError n) es).
  { exists []. now rewrite app_nil_r. }
  unfold Lexer.validateTildeCommand, Lexer.validateConditionExpression,
    Lexer.validateSetExpression.
  repeat case_match; auto using validateParens_lineErrors.
  - eexists [_]. split; [reflexivity|]. constructor; auto.
    split; [apply onLine_makeRange | simpl; tauto].
  - destruct (validateParens_lineErrors "Unbalanced parentheses: unexpected )"
                lx expr n (startIdx + JS.len cmd + 2)) as (es & Hes & Fes).
    destruct (validateParens_lineErrors "Unbalanced parentheses in set expression"
                (Lexer.validateParens "Unbalanced parentheses: unexpected )"
                   lx expr n (startIdx + JS.len cmd + 2))
                expr n (startIdx + JS.len cmd + 2)) as (es' & Hes' & Fes').
    exists (es ++ es'). rewrite Hes', Hes, <- app_assoc. split; auto.
    apply Forall_app. auto.
Qed.

Lemma state_validateParens message lx expr n off :
  Lexer.inBlockComment (Lexer.validateParens message lx expr n off)
  = Lexer.inBlockComment lx
  /\ Lexer.blockCommentStart (Lexer.validateParens message lx expr n off)
     = Lexer.blockCommentStart lx.
Proof.
  unfold Lexer.validateParens.
  destruct (Lexer.parenLoop _ _ _ _ _ _ _ _) as [[cnt found] errs].
  now destruct (0 <? cnt).
Qed.

Lemma state_validateTildeCommand lx cmd expr n startIdx :
  Lexer.inBlockComment (Lexer.validateTildeCommand lx cmd expr n startIdx)
  = Lexer.inBlockComment lx
  /\ Lexer.blockCommentStart (Lexer.validateTildeCommand lx cmd expr n startIdx)
     = Lexer.blockCommentStart lx.
Proof.
  unfold Lexer.validateTildeCommand, Lexer.validateConditionExpression,
    Lexer.validateSetExpression.
  repeat case_match; auto;
    repeat (match goal with
            | |- context [Lexer.validateParens ?m ?l ?e ?k ?o] =>
                destruct (state_validateParens m l e k o) as [-> ->]
            end); auto.
Qed.

(** The diagnostics of a line lie on the line and carry one of the codes of
    a line. *)
Lemma lineErrors_lineError lx n : Forall (lineError n) (lineErrors lx n).
Proof.
  unfold lineErrors, Lexer.tokenizeLine, Lexer.validateBracketExpressions,
    Lexer.tokenizeLineContent.
  cbv zeta.
  repeat case_match;
    try match goal with
    | |- context [Lexer.validateTildeCommand ?l ?c ?e ?k ?i] =>
        destruct (validateTildeCommand_lineErrors l c e k i) as (es & -> & Fes)
    end; simpl;
    rewrite <- ?app_assoc, ?drop_app_length, ?drop_all; simpl; auto.
  all: repeat constructor; simpl; tauto.
Qed.

(** What a line does to the block-comment state of the lexer. *)
Lemma tokenizeLine_comment_state lx n :
  let line := nth n (Lexer.lines lx) "" in
  let lx' := Lexer.tokenizeLine lx n in
  if Lexer.inBlockComment lx then
    if JS.indexOf line "*/" 0 =? -1 then
      Lexer.inBlockComment lx' = true
      /\ Lexer.blockCommentStart lx' = Lexer.blockCommentStart lx
    else Lexer.inBlockComment lx' = false
  else if opensBlockComment line then
    Lexer.inBlockComment lx' = true
    /\ Lexer.blockCommentStart lx'
       = Some (mkPosition (Z.of_nat n) (JS.indexOf line "/*" 0))
  else Lexer.inBlockComment lx' = false.
Proof.
  cbv zeta.
  destruct (Lexer.inBlockComment lx) eqn:Hb.
  - destruct (JS.indexOf (nth n (Lexer.lines lx) "") "*/" 0 =? -1) eqn:Hc;
      unfold Lexer.tokenizeLine; cbv zeta; rewrite Hb, Hc; cbv beta iota;
      change (negb true) with false; change (negb false) with true;
      cbv beta iota.
    + split; [exact Hb | reflexivity].
    + unfold Lexer.tokenizeLineContent. repeat case_match; reflexivity.
  - unfold Lexer.tokenizeLine. cbv zeta. rewrite Hb.
    destruct (String.eqb_spec (JS.trim (nth n (Lexer.lines lx) "")) "") as [He|He].
    + unfold opensBlockComment. rewrite (blank_no_opener _ He). simpl. exact Hb.
    + unfold opensBlockComment.
      destruct (negb _ && _); simpl; auto.
      unfold Lexer.validateBracketExpressions.
      repeat case_match; simpl; auto.
      all: match goal with
           | |- context [Lexer.validateTildeCommand ?l ?c ?e ?k ?i] =>
               destruct (state_validateTildeCommand l c e k i) as [-> _]
           end; auto.
Qed.


Lemma stateBefore_S text k :
  stateBefore text (S k) = Lexer.tokenizeLine (stateBefore text k) k.
Proof.
  unfold stateBefore.
  now rewrite seq_S, fold_left_app.
Qed.

Lemma stateBefore_end text :
  Lexer.tokenizeLines (Lexer.new text)
  = stateBefore text (length (Regex.split Lexer.re_newline text)).
Proof. reflexivity. Qed.

(** Line [n] of the text opens a block comment that no line closes. *)
Definition unclosedAt (text : string) (n : nat) : Prop :=
  let lines := Regex.split Lexer.re_newline text in
  (n < length lines)%nat
  /\ Lexer.inBlockComment (stateBefore text n) = false
  /\ opensBlockComment (nth n lines "") = true
  /\ forall m, (n < m < length lines)%nat ->
               JS.indexOf (nth m lines "") "*/" 0 = -1.

(** The diagnostic of the comment that line [n] opens: from the opener to
    the end of the last line. *)
Definition unclosedComment (text : string) (n : nat) : ParseError :=
  let lines := Regex.split Lexer.re_newline text in
  mkError "Unclosed block comment"
    (mkRange (mkPosition (Z.of_nat n) (JS.indexOf (nth n lines "") "/*" 0))
             (mkPosition (Z.of_nat (length lines) - 1)
                         (JS.len (nth (length lines - 1) lines ""))))
    sev_error "unclosed-comment".

(** Where the scan stands inside a block comment before line [k], the
    comment was opened by a line before [k] and is not closed since. *)
Lemma open_comment_origin text k :
  let lines := Regex.split Lexer.re_newline text in
  Lexer.inBlockComment (stateBefore text k) = true ->
  exists n,
    (n < k)%nat
    /\ Lexer.blockCommentStart (stateBefore text k)
       = Some (mkPosition (Z.of_nat n) (JS.indexOf (nth n lines "") "/*" 0))
    /\ Lexer.inBlockComment (stateBefore text n) = false
    /\ opensBlockComment (nth n lines "") = true
    /\ forall m, (n < m < k)%nat -> JS.indexOf (nth m lines "") "*/" 0 = -1.
Proof.
  cbv zeta. induction k as [|k IH]; [discriminate|].
  rewrite stateBefore_S.
  pose proof (tokenizeLine_comment_state (stateBefore text k) k) as H.
  cbv zeta in H. rewrite TildeCommands.lines_stateBefore in H.
  destruct (Lexer.inBlockComment (stateBefore text k)) eqn:Hb.
  - destruct (JS.indexOf _ "*/" 0 =? -1) eqn:Hc; [|congruence].
    destruct H as [_ Hs]. intros _.
    destruct (IH eq_refl) as (n & Hn & Hst & Hbn & Ho & Hm).
    exists n. rewrite Hs. repeat split; auto.
    intros m Hm'. destruct (decide (m = k)) as [->|]; [lia | apply Hm; lia].
  - destruct (opensBlockComment _) eqn:Ho; [|congruence].
    destruct H as [_ Hs]. intros _. exists k. repeat split; auto. lia.
Qed.

Lemma unclosed_stays text n :
  unclosedAt text n ->
  forall k, (n < k <= length (Regex.split Lexer.re_newline text))%nat ->
    Lexer.inBlockComment (stateBefore text k) = true
    /\ Lexer.blockCommentStart (stateBefore text k)
       = Some (mkPosition (Z.of_nat n)
                 (JS.indexOf (nth n (Regex.split Lexer.re_newline text) "") "/*" 0)).
Proof.
  intros (Hn & Hb & Ho & Hm). induction k as [|k IH]; [lia|]. intros Hk.
  rewrite stateBefore_S.
  pose proof (tokenizeLine_comment_state (stateBefore text k) k) as H.
  cbv zeta in H. rewrite TildeCommands.lines_stateBefore in H.
  destruct (decide (k = n)) as [->|Hne].
  - now rewrite Hb, Ho in H.
  - destruct IH as [IHb IHs]; [lia|]. rewrite IHb in H.
    rewrite (Hm k) in H by lia. simpl in H. destruct H as [H1 H2].
    split; congruence.
Qed.

Definition lineCode (e : ParseError) : Prop :=
  In (e_code e, e_severity e) lineTable.

Lemma fold_lineCodes l : forall lx,
  Forall lineCode (Lexer.errors lx) ->
  Forall lineCode (Lexer.errors (fold_left Lexer.tokenizeLine l lx)).
Proof.
  induction l as [|n l IH]; intros lx H; simpl; auto.
  apply IH. rewrite tokenizeLine_errors. apply Forall_app. split; auto.
  eapply Forall_impl; [apply lineErrors_lineError|]. now intros e [_ He].
Qed.

Lemma tokenizeLines_lineCodes text :
  Forall lineCode (Lexer.errors (Lexer.tokenizeLines (Lexer.new text))).
Proof. apply fold_lineCodes. constructor. Qed.

(** X2.  The diagnostic of a block comment that is never closed.  When a line
    opens a block comment that no later line closes, the lexer ends its
    diagnostics with "Unclosed block comment", from the opener to the end of
    the text, and gives this diagnostic only once; and it gives it in no
    other case. *)
Theorem unclosed_block_comment (text : string) :
  (forall n, unclosedAt text n ->
     exists es,
       Lexer.r_errors (tokenize text) = es ++ [unclosedComment text n]
       /\ Forall (fun e => e_code e <> "unclosed-comment") es)
  /\ (forall e, In e (Lexer.r_errors (tokenize text)) ->
        e_code e = "unclosed-comment" ->
        exists n, unclosedAt text n /\ e = unclosedComment text n).
Proof.
  pose proof (tokenizeLines_lineCodes text) as Hcodes.
  assert (Hno : Forall (fun e => e_code e <> "unclosed-comment")
                  (Lexer.errors (Lexer.tokenizeLines (Lexer.new text)))).
  { eapply Forall_impl; [exact Hcodes|]. intros e He Hc.
    unfold lineCode in He. rewrite Hc in He. simpl in He.
    intuition congruence. }
  assert (Hlines : Lexer.lines (Lexer.tokenizeLines (Lexer.new text))
                   = Regex.split Lexer.re_newline text).
  { rewrite stateBefore_end. apply TildeCommands.lines_stateBefore. }
  split.
  - intros n Hu. pose proof Hu as (Hn & _).
    destruct (unclosed_stays text n Hu
                (length (Regex.split Lexer.re_newline text))) as [Hb Hs]; [lia|].
    rewrite <- stateBefore_end in Hb, Hs.
    exists (Lexer.errors (Lexer.tokenizeLines (Lexer.new text))).
    split; auto. unfold tokenize, Lexer.tokenize. cbv zeta.
    rewrite Hb, Hs, Hlines. simpl. unfold unclosedComment.
    set (lines := Regex.split Lexer.re_newline text) in *.
    replace (Z.to_nat (Z.of_nat (length lines) - 1)) with (length lines - 1)%nat
      by lia.
    rewrite (nth_lookup lines (length lines - 1) "").
    destruct (lines !! (length lines - 1)%nat) eqn:E; [reflexivity|].
    apply lookup_ge_None in E. lia.
  - intros e Hin Hc. revert Hin. unfold tokenize, Lexer.tokenize. cbv zeta.
    destruct (Lexer.inBlockComment (Lexer.tokenizeLines (Lexer.new text))) eqn:Hb.
    + pose proof (open_comment_origin text
                    (length (Regex.split Lexer.re_newline text))) as Ho.
      cbv zeta in Ho. rewrite <- stateBefore_end in Ho.
      destruct (Ho Hb) as (n & Hn & Hs & Hbn & Hop & Hm).
      rewrite Hs, Hlines. simpl. intros Hin.
      apply in_app_or in Hin as [Hin|[<-|[]]].
      * exfalso. now apply (proj1 (List.Forall_forall _ _) Hno e Hin).
      * exists n. split; [repeat split; auto|].
        unfold unclosedComment.
        set (lines := Regex.split Lexer.re_newline text) in *.
        replace (Z.to_nat (Z.of_nat (length lines) - 1)) with (length lines - 1)%nat
          by lia.
        rewrite (nth_lookup lines (length lines - 1) "").
        destruct (lines !! (length lines - 1)%nat) eqn:E; [reflexivity|].
        apply lookup_ge_None in E. lia.
    + simpl. intros Hin. exfalso.
      now apply (proj1 (List.Forall_forall _ _) Hno e Hin).
Qed.

Lemma unclosed_block_comment_witness :
  Lexer.r_errors (tokenize (doc ["a"; "b /* c"; "d"]))
  = [mkError "Unclosed block comment"
       (mkRange (mkPosition 1 2) (mkPosition 2 1)) sev_error "unclosed-comment"].
Proof.
  destruct (unclosed_block_comment (doc ["a"; "b /* c"; "d"])) as [H _].
  destruct (H 1%nat) as (es & Hes & Hno).
  - split; [vm_compute; lia|]. split; [reflexivity|]. split; [reflexivity|].
    intros m Hm. vm_compute in Hm.
    assert (m = 2%nat) as -> by lia. reflexivity.
  - rewrite Hes. 
    assert (Hl : length (Lexer.r_errors (tokenize (doc ["a"; "b /* c"; "d"]))) = 1%nat)
      by reflexivity.
    rewrite Hes, length_app in Hl. simpl in Hl.
    destruct es; [reflexivity | simpl in Hl; lia].
Defined.

End BlockComments.

Module LineCount.
Import Regex.

Definition LF : ascii := "010".
Definition CR : ascii := "013".

(** The number of line feeds. *)
Fixpoint lineFeeds (l : list ascii) : nat :=
  match l with
  | [] => 0
  | a :: l' => if Ascii.eqb a LF then S (lineFeeds l') else lineFeeds l'
  end.

Lemma length_chars s : length (JS.chars s) = String.length s.
Proof.
  unfold JS.chars. induction s as [|a s IH]; simpl; auto.
Qed.

(** The separator at offset [q]: a line feed, or a carriage return and a
    line feed. *)
Lemma matchAt_newline input q :
  matchAt Lexer.re_newline input q
  = match skipn q (JS.chars input) with
    | a :: s' =>
        if Ascii.eqb CR a then
          match s' with
          | b :: _ => if Ascii.eqb LF b then Some (mkMatch input q (S (S q)) [])
                      else None
          | [] => None
          end
        else if Ascii.eqb LF a then Some (mkMatch input q (S q) []) else None
    | [] => None
    end.
Proof.
  unfold matchAt, Lexer.re_newline. cbn [seqs run].
  destruct (skipn q (JS.chars input)) as [|a s']; [reflexivity|].
  unfold Lit. cbn [run].
  destruct (Ascii.eqb_spec "013"%char a) as [<-|Hne].
  - replace (q <? S q)%nat with true by (symmetry; apply Nat.ltb_lt; lia).
    destruct s' as [|b s'']; [reflexivity|].
    unfold CR, LF. change (Ascii.eqb "013" "013") with true. cbv iota.
    destruct (Ascii.eqb "010" b); reflexivity.
  - unfold CR, LF. destruct (Ascii.eqb_spec "013"%char a); [contradiction|].
    reflexivity.
Qed.

Lemma skipn_cons {A : Type} (l : list A) q a s' :
  skipn q l = a :: s' -> skipn (S q) l = s' /\ (q < length l)%nat.
Proof.
  revert l. induction q as [|q IH]; intros l H.
  - rewrite drop_0 in H. subst l. simpl. split; [reflexivity | lia].
  - destruct l as [|x l]; [discriminate|]. simpl in H.
    destruct (IH l H) as [H1 H2]. simpl. split; [exact H1 | lia].
Qed.

Lemma splitLoop_length input fuel : forall p q,
  (p <= q <= String.length input)%nat ->
  (String.length input - q < fuel)%nat ->
  length (splitLoop Lexer.re_newline input p q fuel)
  = S (lineFeeds (skipn q (JS.chars input))).
Proof.
  induction fuel as [|fuel IH]; intros p q Hpq Hf; [lia|].
  cbn [splitLoop]. rewrite matchAt_newline.
  destruct (String.length input <=? q)%nat eqn:Hq.
  - apply Nat.leb_le in Hq. rewrite skipn_all2 by (rewrite length_chars; lia).
    reflexivity.
  - apply Nat.leb_gt in Hq.
    destruct (skipn q (JS.chars input)) as [|a s'] eqn:Hs.
    + apply (f_equal (@length ascii)) in Hs. rewrite length_skipn, length_chars in Hs.
      simpl in Hs. lia.
    + destruct (skipn_cons _ _ _ _ Hs) as [Hs' _].
      cbn [lineFeeds].
      destruct (Ascii.eqb_spec CR a) as [<-|Hcr].
      * change (Ascii.eqb CR LF) with false. cbv iota.
        destruct s' as [|b s''].
        -- rewrite IH by lia. now rewrite Hs'.
        -- destruct (skipn_cons _ _ _ _ Hs') as [Hs'' Hlt].
           rewrite length_chars in Hlt.
           destruct (Ascii.eqb_spec LF b) as [<-|Hlf].
           ++ cbn [m_end].
              replace (Nat.min (S (S q)) (String.length input)) with (S (S q)) by lia.
              replace (S (S q) =? p)%nat with false
                by (symmetry; apply Nat.eqb_neq; lia).
              cbn [length]. rewrite IH by lia. rewrite Hs''.
              cbn [lineFeeds]. now rewrite Ascii.eqb_refl.
           ++ rewrite IH by lia. rewrite Hs'. reflexivity.
      * rewrite (Ascii.eqb_sym a LF).
        destruct (Ascii.eqb_spec LF a) as [<-|Hlf].
        -- cbn [m_end].
           replace (Nat.min (S q) (String.length input)) with (S q) by lia.
           replace (S q =? p)%nat with false
             by (symmetry; apply Nat.eqb_neq; lia).
           cbn [length]. rewrite IH by lia. now rewrite Hs'.
        -- rewrite IH by lia. now rewrite Hs'.
Qed.

(** X4.  The lines of a text.  The lexer cuts the text into one more line than
    the text holds line feeds, whatever else it holds (a carriage return
    before a line feed goes with the separator). *)
Theorem lines_count (text : string) :
  length (Lexer.lines (Lexer.new text)) = S (lineFeeds (JS.chars text))
  /\ length (Lexer.r_lineTypes (tokenize text)) = S (lineFeeds (JS.chars text)).
Proof.
  assert (H : length (split Lexer.re_newline text) = S (lineFeeds (JS.chars text))).
  { unfold split. destruct (String.length text =? 0)%nat eqn:E.
    - apply Nat.eqb_eq in E. destruct text; [|discriminate]. reflexivity.
    - apply Nat.eqb_neq in E. rewrite splitLoop_length by lia. reflexivity. }
  split; [exact H|].
  unfold tokenize. now rewrite LineRecords.tokenize_lineTypes.
Qed.

End LineCount.

Module StoryLayout.
Import Parser TokenLines ParserLoops.

(** [headerToken.data?.storyId || 'unknown']. *)
Definition storyIdOf (t : Token) : string := s_id (newStory t).

Definition storyKey (s : StoryNode) : string * Range := (s_id s, s_headerRange s).
Definition headerKey (t : Token) : string * Range := (storyIdOf t, t_range t).

(** The story headers among the tokens that are consumed. *)
Definition headersBefore (p : Parser) : list Token :=
  List.filter isHeader (firstn (current p) (tokens p)).

Lemma id_kept p cx token :
  s_id (story (parseStoryToken p cx token).2) = s_id (story cx).
Proof.
  unfold parseStoryToken, alloc. cbv zeta.
  repeat case_match; simplify_eq; simpl; auto.
Qed.

Lemma id_kept_loop fuel : forall p cx,
  s_id (story (parseStoryLoop fuel p cx).2) = s_id (story cx).
Proof.
  induction fuel as [|fuel IH]; intros p cx; simpl; auto.
  destruct (isAtEnd p); auto.
  destruct (peek p) as [token|]; auto.
  destruct (isType token TokenType.STORY_HEADER); auto.
  destruct (isType token TokenType.EOF); auto.
  pose proof (id_kept p cx token) as H.
  destruct (parseStoryToken p cx token) as [p' cx']. rewrite IH. exact H.
Qed.

Lemma peek_not_at_end p token :
  isAtEnd p = false -> peek p = Some token -> tokens p !! current p = Some token.
Proof.
  intros He Hp. pose proof (not_at_end_lt p He) as Hlt. unfold peek in Hp.
  destruct (tokens p !! current p) as [t|] eqn:Hl; [congruence|].
  apply lookup_ge_None in Hl. lia.
Qed.

(** Consuming a token that is no story header. *)
Lemma headers_step (ts : list Token) c token :
  ts !! c = Some token -> isHeader token = false ->
  List.filter isHeader (firstn (S c) ts) = List.filter isHeader (firstn c ts).
Proof.
  intros Hl Hh. rewrite (take_S_r _ _ _ Hl), List.filter_app. simpl.
  rewrite Hh. now rewrite app_nil_r.
Qed.

Lemma headers_header (ts : list Token) c token :
  ts !! c = Some token -> isHeader token = true ->
  List.filter isHeader (firstn (S c) ts)
  = List.filter isHeader (firstn c ts) ++ [token].
Proof.
  intros Hl Hh. rewrite (take_S_r _ _ _ Hl), List.filter_app. simpl.
  now rewrite Hh.
Qed.

Lemma parseStoryLoop_headers fuel : forall p cx,
  headersBefore (parseStoryLoop fuel p cx).1 = headersBefore p.
Proof.
  induction fuel as [|fuel IH]; intros p cx; simpl; auto.
  destruct (isAtEnd p) eqn:He; auto.
  destruct (peek p) as [token|] eqn:Hp; auto.
  destruct (isType token TokenType.STORY_HEADER) eqn:Hh; auto.
  destruct (isType token TokenType.EOF); auto.
  destruct (parseStoryToken_consumes p cx token He) as [Ht Hc].
  destruct (parseStoryToken p cx token) as [p' cx']. simpl in *.
  rewrite IH. unfold headersBefore. rewrite Ht, Hc.
  eapply headers_step; eauto using peek_not_at_end.
Qed.

Definition lineS (s : StoryNode) : Z := line (start (s_range s)).
Definition lineE (s : StoryNode) : Z := line (end_ (s_range s)).

(** The story ends before the story [s'] starts. *)
Definition apart (s s' : StoryNode) : Prop := lineE s < lineS s'.

(** The story ends with a token that is consumed. *)
Definition closed (p : Parser) (s : StoryNode) : Prop :=
  lineS s <= lineE s
  /\ exists e te, (e < current p)%nat /\ tokens p !! e = Some te
                  /\ lineE s = tokLine te.

Definition layout (p : Parser) : Prop :=
  map storyKey (stories p) = map headerKey (headersBefore p)
  /\ Forall (closed p) (stories p)
  /\ StronglySorted apart (stories p).

Lemma closed_later p p' s :
  tokens p' = tokens p -> (current p <= current p')%nat ->
  closed p s -> closed p' s.
Proof.
  intros Ht Hc (H1 & e & te & He & Hl & H2). split; auto.
  exists e, te. rewrite Ht. repeat split; auto. lia.
Qed.

Lemma sorted_snoc (l : list StoryNode) s :
  StronglySorted apart l -> Forall (fun s' => apart s' s) l ->
  StronglySorted apart (l ++ [s]).
Proof.
  induction 1 as [|x l Hs IH Hx]; intros Hf; simpl.
  - repeat constructor.
  - inversion Hf; subst. constructor; auto.
    apply Forall_app. split; auto.
Qed.

Lemma layout_parseStory p h :
  ordered (tokens p) -> Forall oneLine (tokens p) ->
  isAtEnd p = false -> peek p = Some h -> isHeader h = true ->
  layout p -> layout (parseStory p).
Proof.
  intros Hord Hone He Hp Hh (Hk & Hcl & Hs).
  pose proof (peek_not_at_end p h He Hp) as Hl.
  destruct (advance_not_at_end p He) as [Ht Hc].
  unfold parseStory. rewrite Hp. cbv zeta.
  pose proof (parseStoryLoop_progress (length (tokens (advance p))) (advance p)
                (mkLocals (newStory h) None [])) as [Ht' Hc'].
  pose proof (parseStoryLoop_headers (length (tokens (advance p))) (advance p)
                (mkLocals (newStory h) None [])) as Hhd.
  pose proof (ChoiceIds.stories_parseStoryLoop (length (tokens (advance p)))
                (advance p) (mkLocals (newStory h) None [])) as Hst.
  pose proof (id_kept_loop (length (tokens (advance p))) (advance p)
                (mkLocals (newStory h) None [])) as Hid.
  pose proof (ChoiceIds.headerRange_kept_loop (length (tokens (advance p)))
                (advance p) (mkLocals (newStory h) None [])) as Hhr.
  destruct (parseStoryLoop _ _ _) as [p' cx]. simpl in *.
  rewrite ChoiceIds.stories_advance in Hst.
  assert (Hlen : (0 <? length (tokens p'))%nat = true).
  { apply Nat.ltb_lt. rewrite Ht', Ht. apply lookup_lt_Some in Hl. lia. }
  rewrite Hlen.
  set (lastToken := match current p' with
                    | O => h
                    | S n => match tokens p' !! n with Some t => t | None => h end
                    end).
  assert (Hlast : exists e, (current p <= e < current p')%nat
                            /\ tokens p !! e = Some lastToken).
  { unfold lastToken. destruct (current p') as [|n] eqn:E; [lia|].
    rewrite Ht', Ht.
    destruct (tokens p !! n) as [t|] eqn:En.
    - exists n. split; [lia | auto].
    - exists (current p). split; [lia | auto]. }
  destruct Hlast as (e & Hbe & Hle). clearbody lastToken.
  assert (Hhe : tokLine h <= tokLine lastToken).
  { destruct (decide (current p = e)) as [<-|Hne].
    - assert (lastToken = h) by congruence. subst. lia.
    - apply (Hord (current p) e h lastToken); auto. lia. }
  assert (Hone' : oneLine lastToken).
  { eapply (proj1 (List.Forall_forall _ _) Hone), list_elem_of_In,
      list_elem_of_lookup_2; eauto. }
  split; [|split]; simpl; rewrite Hst.
  - rewrite map_app, Hk.
    change (headersBefore (pushStory p' ?s)) with (headersBefore p').
    rewrite Hhd. unfold headersBefore. rewrite Ht, Hc.
    rewrite (headers_header _ _ _ Hl Hh), map_app. simpl.
    unfold storyKey, headerKey, storyIdOf. simpl. rewrite Hid, Hhr. reflexivity.
  - apply Forall_app. split.
    + eapply Forall_impl; [exact Hcl|]. intros s.
      apply closed_later; simpl; [congruence | lia].
    + constructor; [|constructor]. unfold closed, lineS, lineE. simpl.
      fold (tokLine h). rewrite Hone'. fold (tokLine lastToken).
      split; auto. exists e, lastToken. rewrite Ht', Ht. repeat split; auto. lia.
  - apply sorted_snoc; auto.
    eapply Forall_impl; [exact Hcl|]. intros s (H1 & e' & te & He' & Hl' & H2).
    unfold apart, lineS. simpl. fold (tokLine h). rewrite H2.
    apply (Hord e' (current p) te h); auto.
Qed.


Lemma layout_advance p token :
  isAtEnd p = false -> peek p = Some token -> isHeader token = false ->
  layout p -> layout (advance p).
Proof.
  intros He Hp Hh (Hk & Hcl & Hs).
  pose proof (peek_not_at_end p token He Hp) as Hl.
  destruct (advance_not_at_end p He) as [Ht Hc].
  split; [|split]; rewrite ChoiceIds.stories_advance; auto.
  - rewrite Hk. unfold headersBefore. rewrite Ht, Hc.
    now rewrite (headers_step _ _ _ Hl Hh).
  - eapply Forall_impl; [exact Hcl|]. intros s.
    apply closed_later; [congruence | lia].
Qed.

Lemma tokens_parseLoop fuel : forall p, tokens (parseLoop fuel p) = tokens p.
Proof.
  induction fuel as [|fuel IH]; intros p; simpl; auto.
  destruct (isAtEnd p) eqn:He; auto.
  destruct (peek p) as [token|]; auto.
  destruct (advance_not_at_end p He) as [Ht _].
  repeat case_match; auto; rewrite IH; auto.
  - now destruct (parseStory_progress p He).
  - assert (He' : isAtEnd (pushError p (misplacedDisabled token)) = false)
      by exact He.
    now destruct (advance_not_at_end _ He').
  - assert (He' : isAtEnd (pushError p (contentBeforeStory token)) = false)
      by exact He.
    now destruct (advance_not_at_end _ He').
Qed.

Lemma layout_parseLoop fuel : forall p,
  ordered (tokens p) -> Forall oneLine (tokens p) ->
  layout p -> layout (parseLoop fuel p).
Proof.
  induction fuel as [|fuel IH]; intros p Hord Hone Hl; simpl; auto.
  destruct (isAtEnd p) eqn:He; auto.
  destruct (peek p) as [token|] eqn:Hp; auto.
  destruct (advance_not_at_end p He) as [Ht _].
  destruct (isType token TokenType.STORY_HEADER) eqn:Hh.
  - destruct (parseStory_progress p He) as [Ht' _].
    apply IH; rewrite ?Ht'; auto. eapply layout_parseStory; eauto.
  - assert (Hadv : forall e, layout (advance (pushError p e))).
    { intros e. apply (layout_advance (pushError p e) token); auto. }
    assert (Htk : forall e, tokens (advance (pushError p e)) = tokens p).
    { intros e. assert (He' : isAtEnd (pushError p e) = false) by exact He.
      now destruct (advance_not_at_end _ He'). }
    pose proof (layout_advance p token He Hp Hh Hl) as Hadv0.
    repeat case_match; auto; apply IH; rewrite ?Htk, ?Ht; auto.
Qed.

(** When every token is consumed, the headers met are those of the list. *)
Lemma headers_at_end p toks eof :
  tokens p = toks ++ [eof] -> t_type eof = TokenType.EOF ->
  Forall LexerFacts.notEOF toks ->
  isAtEnd p = true ->
  headersBefore p = List.filter isHeader (tokens p).
Proof.
  intros Ht Heof Hn He. unfold headersBefore.
  assert (Hlast : List.filter isHeader (toks ++ [eof]) = List.filter isHeader toks).
  { rewrite List.filter_app. simpl. unfold isHeader. rewrite Heof. simpl.
    now rewrite app_nil_r. }
  unfold isAtEnd in He. apply orb_true_iff in He as [He|He].
  - apply Nat.leb_le in He. now rewrite firstn_all2 by lia.
  - destruct (tokens p !! current p) as [t|] eqn:Hl; [|discriminate].
    rewrite Ht in *. rewrite Hlast.
    destruct (decide (current p < length toks)%nat) as [Hc|Hc].
    + rewrite lookup_app_l in Hl by lia.
      apply list_elem_of_lookup_2, list_elem_of_In in Hl.
      apply (proj1 (List.Forall_forall _ _) Hn) in Hl.
      unfold isType in He. unfold LexerFacts.notEOF in Hl.
      destruct (t_type t); discriminate || contradiction.
    + apply lookup_lt_Some in Hl. rewrite length_app in Hl. simpl in Hl.
      assert (current p = length toks) as -> by lia.
      now rewrite take_app_length.
Qed.

Lemma layout_parse text :
  let p := parseLoop (length (tokens (checkDisabled (Parser.new text))))
             (checkDisabled (Parser.new text)) in
  layout p /\ tokens p = Lexer.r_tokens (tokenize text)
  /\ headersBefore p = List.filter isHeader (Lexer.r_tokens (tokenize text)).
Proof.
  cbv zeta. set (p0 := checkDisabled (Parser.new text)).
  assert (H0 : tokens p0 = Lexer.r_tokens (tokenize text)
               /\ stories p0 = [] /\ current p0 = 0%nat).
  { unfold p0, checkDisabled, Parser.new.
    now destruct (checkDisabledLoop _). }
  destruct H0 as (Ht0 & Hs0 & Hc0).
  destruct (ordered_tokenize text) as [Hord Hone].
  assert (Hl0 : layout p0).
  { unfold layout, headersBefore. rewrite Hs0, Hc0. simpl.
    repeat constructor. }
  pose proof (tokens_parseLoop (length (tokens p0)) p0) as Ht.
  split; [|split].
  - apply layout_parseLoop; rewrite ?Ht0; auto.
  - congruence.
  - destruct (LineRecords.tokenize_tokens (Lexer.new text) eq_refl)
      as (toks & eof & Htk & Heof & Hn).
    transitivity (List.filter isHeader (tokens (parseLoop (length (tokens p0)) p0)));
      [|congruence].
    apply (headers_at_end _ toks eof); auto.
    + rewrite Ht, Ht0. exact Htk.
    + apply parseLoop_reaches_end. unfold remaining. lia.
Qed.

Lemma stories_keys (text : string) :
  map storyKey (d_stories (document (parse text)))
  = map headerKey (List.filter isHeader (Lexer.r_tokens (tokenize text))).
Proof.
  destruct (layout_parse text) as ((Hk & _) & _ & Hh).
  unfold parse, Parser.parse. cbv zeta. simpl. rewrite Hk, Hh. reflexivity.
Qed.

(** X5.  One story for each story header, in the order of the headers, with
    the identifier and the range of its header. *)
Theorem stories_follow_headers (text : string) :
  map storyKey (d_stories (document (parse text)))
  = map headerKey (List.filter isHeader (Lexer.r_tokens (tokenize text))).
Proof. exact (stories_keys text). Qed.

Lemma lines_apart (text : string) :
  let stories := d_stories (document (parse text)) in
  Forall (fun s => lineS s <= lineE s) stories
  /\ (forall i j s s',
        (i < j)%nat -> stories !! i = Some s -> stories !! j = Some s' ->
        lineE s < lineS s').
Proof.
  destruct (layout_parse text) as ((_ & Hcl & Hs) & _).
  cbv zeta. unfold parse, Parser.parse. cbv zeta. simpl. split.
  - eapply Forall_impl; [exact Hcl|]. now intros s [H _].
  - set (l := stories _) in *. clearbody l. clear Hcl.
    induction Hs as [|x l Hs IH Hx]; intros i j s s' Hij Hi Hj.
    + discriminate.
    + destruct j as [|j]; [lia|]. simpl in Hj. destruct i as [|i].
      * injection Hi as <-.
        apply list_elem_of_lookup_2, list_elem_of_In in Hj.
        exact (proj1 (List.Forall_forall _ _) Hx s' Hj).
      * simpl in Hi. apply (IH i j); auto. lia.
Qed.

(** X6.  The lines of the stories of a document.  Each story ends on the
    line of its header or later, and before the line on which the next story
    starts: the stories lie one after the other and share no line. *)
Theorem story_lines_apart (text : string) :
  let stories := d_stories (document (parse text)) in
  Forall (fun s => line (start (s_range s)) <= line (end_ (s_range s))) stories
  /\ (forall i j s s',
        (i < j)%nat -> stories !! i = Some s -> stories !! j = Some s' ->
        line (end_ (s_range s)) < line (start (s_range s'))).
Proof. exact (lines_apart text). Qed.

Lemma story_lines_apart_witness :
  let stories :=
    d_stories (document (parse (doc ["=== a"; "* x"; ""; "=== b"; "* y"]))) in
  exists s s',
    stories !! 0%nat = Some s /\ stories !! 1%nat = Some s'
    /\ line (end_ (s_range s)) < line (start (s_range s')).
Proof.
  cbv zeta.
  destruct (story_lines_apart (doc ["=== a"; "* x"; ""; "=== b"; "* y"]))
    as [_ H].
  cbv zeta in H. eexists _, _.
  split; [vm_compute; reflexivity|]. split; [vm_compute; reflexivity|].
  apply (H 0%nat 1%nat); [lia | vm_compute; reflexivity | vm_compute; reflexivity].
Defined.

End StoryLayout.

Module ParserErrors.
Import Parser.

Lemma isDisabled_advance p : isDisabled (advance p) = isDisabled p.
Proof. unfold advance. now destruct (negb _). Qed.

Lemma isDisabled_parseStoryToken p cx token :
  isDisabled (parseStoryToken p cx token).1 = isDisabled p.
Proof.
  unfold parseStoryToken, alloc. cbv zeta.
  repeat case_match; simplify_eq; simpl; apply isDisabled_advance.
Qed.

Lemma isDisabled_parseStoryLoop fuel : forall p cx,
  isDisabled (parseStoryLoop fuel p cx).1 = isDisabled p.
Proof.
  induction fuel as [|fuel IH]; intros p cx; simpl; auto.
  destruct (isAtEnd p); auto.
  destruct (peek p) as [token|]; auto.
  destruct (isType token TokenType.STORY_HEADER); auto.
  destruct (isType token TokenType.EOF); auto.
  pose proof (isDisabled_parseStoryToken p cx token) as H.
  destruct (parseStoryToken p cx token) as [p' cx']. rewrite IH. exact H.
Qed.

Lemma isDisabled_parseStory p : isDisabled (parseStory p) = isDisabled p.
Proof.
  unfold parseStory. destruct (peek p) as [h|]; auto. cbv zeta.
  pose proof (isDisabled_parseStoryLoop (length (tokens (advance p))) (advance p)
                (mkLocals (newStory h) None [])) as H.
  destruct (parseStoryLoop _ _ _) as [p' cx]. simpl in *.
  now rewrite H, isDisabled_advance.
Qed.

Lemma isDisabled_parseLoop fuel : forall p,
  isDisabled (parseLoop fuel p) = isDisabled p.
Proof.
  induction fuel as [|fuel IH]; intros p; simpl; auto.
  destruct (isAtEnd p); auto.
  destruct (peek p) as [token|]; auto.
  repeat case_match; auto; rewrite IH, ?isDisabled_advance;
    auto using isDisabled_parseStory.
Qed.

(** Where the diagnostics of the parser come from: a property that holds of
    each diagnostic that the parser can make holds of all its diagnostics. *)
Section Origin.
Variable P : ParseError -> Prop.
Variable disabled : bool.
Hypothesis P_orphanedChoice : forall level token, P (orphanedChoice level token).
Hypothesis P_duplicate : forall c token, P (duplicateChoiceId c token).
Hypothesis P_orphanedJump : forall token, P (orphanedJump token).
Hypothesis P_misplaced : forall token, P (misplacedDisabled token).
Hypothesis P_unknown : forall target jump, P (unknownJumpTarget target jump).
Hypothesis P_content :
  disabled = false -> forall token, P (contentBeforeStory token).

Lemma parseStoryToken_origin p cx token :
  Forall P (errors p) -> Forall P (errors (parseStoryToken p cx token).1).
Proof.
  intros H. unfold parseStoryToken, alloc. cbv zeta.
  repeat case_match; simplify_eq; simpl; rewrite ChoiceIds.errors_advance;
    auto; apply Forall_app; split; auto.
Qed.

Lemma parseStoryLoop_origin fuel : forall p cx,
  Forall P (errors p) -> Forall P (errors (parseStoryLoop fuel p cx).1).
Proof.
  induction fuel as [|fuel IH]; intros p cx H; simpl; auto.
  destruct (isAtEnd p); auto.
  destruct (peek p) as [token|]; auto.
  destruct (isType token TokenType.STORY_HEADER); auto.
  destruct (isType token TokenType.EOF); auto.
  pose proof (parseStoryToken_origin p cx token H) as H'.
  destruct (parseStoryToken p cx token) as [p' cx']. now apply IH.
Qed.

Lemma parseStory_origin p :
  Forall P (errors p) -> Forall P (errors (parseStory p)).
Proof.
  intros H. unfold parseStory. destruct (peek p) as [h|]; auto. cbv zeta.
  pose proof (parseStoryLoop_origin (length (tokens (advance p))) (advance p)
                (mkLocals (newStory h) None [])) as H'.
  destruct (parseStoryLoop _ _ _) as [p' cx]. simpl in *.
  apply H'. now rewrite ChoiceIds.errors_advance.
Qed.

Lemma parseLoop_origin fuel : forall p,
  isDisabled p = disabled ->
  Forall P (errors p) -> Forall P (errors (parseLoop fuel p)).
Proof.
  induction fuel as [|fuel IH]; intros p Hd H; simpl; auto.
  destruct (isAtEnd p); auto.
  destruct (peek p) as [token|]; auto.
  repeat case_match; auto; apply IH;
    rewrite ?isDisabled_advance, ?isDisabled_parseStory,
      ?ChoiceIds.errors_advance;
    auto using parseStory_origin.
  - simpl. apply Forall_app. split; auto.
  - simpl. apply Forall_app. split; auto. constructor; auto.
    apply P_content.
    match goal with Hc : _ && _ && _ = true |- _ =>
      apply andb_true_iff in Hc as [Hc _];
      apply andb_true_iff in Hc as [_ Hc];
      apply negb_true_iff in Hc end.
    congruence.
Qed.

Lemma validateJump_origin story jump : Forall P (validateJump story [] jump).
Proof.
  unfold validateJump, checkTarget.
  repeat case_match; simpl; repeat constructor; auto.
Qed.

Lemma validateJumpTargets_origin p :
  Forall P (errors p) -> Forall P (errors (validateJumpTargets p)).
Proof.
  intros H. unfold validateJumpTargets. cbn [errors setErrors].
  rewrite (JumpResolution.fold_appending _ _
             (JumpResolution.validateJumpsInStory_jumps _)).
  apply Forall_app. split; auto.
  apply Forall_flat_map, Forall_forall. intros s _.
  apply Forall_flat_map, Forall_forall. intros j _.
  apply validateJump_origin.
Qed.

Lemma parse_origin text :
  d_isDisabled (document (parse text)) = disabled ->
  Forall P (Lexer.r_errors (tokenize text)) ->
  Forall P (r_errors (parse text)).
Proof.
  unfold parse, Parser.parse. cbv zeta. cbn [document r_errors d_isDisabled].
  set (p0 := checkDisabled (Parser.new text)).
  assert (H0 : errors p0 = Lexer.r_errors (tokenize text)).
  { unfold p0, checkDisabled, Parser.new. now destruct (checkDisabledLoop _). }
  intros Hd H. apply validateJumpTargets_origin.
  apply parseLoop_origin; [|now rewrite H0].
  revert Hd. unfold validateJumpTargets. simpl.
  now rewrite !isDisabled_parseLoop.
Qed.

End Origin.
End ParserErrors.

Module SeverityByCode.
Import Diagnostics.

(** The codes of the diagnostics of each stage, each code with the severity
    it comes with. *)
Definition lexerTable : list (string * Severity) :=
  BlockComments.lineTable ++ [("unclosed-comment", sev_error)].

Definition parserTable : list (string * Severity) :=
  [("orphaned-choice", sev_error); ("duplicate-choice-id", sev_error);
   ("orphaned-jump", sev_warning); ("misplaced-disabled", sev_warning);
   ("content-before-story", sev_warning); ("unknown-jump-target", sev_warning)].

Definition bracketTable : list (string * Severity) :=
  [("unmatched-endif", sev_error); ("orphaned-else", sev_error);
   ("unclosed-if", sev_error)].

Definition lintTable : list (option string * DiagnosticSeverity.t) :=
  [(Some "typo", DiagnosticSeverity.Error);
   (Some "unmatched-quote", DiagnosticSeverity.Hint);
   (Some "empty-choice", DiagnosticSeverity.Warning);
   (Some "missing-story-id", DiagnosticSeverity.Error);
   (Some "unknown-prefix", DiagnosticSeverity.Hint);
   (Some "spaced-operator", DiagnosticSeverity.Warning)].

Definition converted (e : string * Severity) : option string * DiagnosticSeverity.t :=
  (Some e.1, getSeverity e.2).

Definition severityTable : list (option string * DiagnosticSeverity.t) :=
  map converted (lexerTable ++ parserTable ++ bracketTable)
  ++ [(None, DiagnosticSeverity.Information)] ++ lintTable.

Definition coded (table : list (string * Severity)) (e : ParseError) : Prop :=
  In (e_code e, e_severity e) table.

Definition tabled (table : list (option string * DiagnosticSeverity.t))
    (d : Diagnostic) : Prop :=
  In (code d, severity d) table /\ source d = "exoscript".

Lemma lexer_coded text : Forall (coded lexerTable) (Lexer.r_errors (tokenize text)).
Proof.
  pose proof (BlockComments.tokenizeLines_lineCodes text) as H.
  assert (H' : Forall (coded lexerTable)
                 (Lexer.errors (Lexer.tokenizeLines (Lexer.new text)))).
  { eapply Forall_impl; [exact H|]. intros e He.
    apply in_or_app. now left. }
  unfold tokenize, Lexer.tokenize. cbv zeta.
  destruct (Lexer.inBlockComment _); [destruct (Lexer.blockCommentStart _)|];
    simpl; auto.
  apply Forall_app. split; auto. constructor; [|constructor].
  apply in_or_app. right. now left.
Qed.

Lemma parse_coded text :
  Forall (coded (lexerTable ++ parserTable)) (Parser.r_errors (parse text)).
Proof.
  apply (ParserErrors.parse_origin (coded (lexerTable ++ parserTable))
           (d_isDisabled (Parser.document (parse text)))); auto;
    try (intros; apply in_or_app; right; cbn; auto 10).
  eapply Forall_impl; [apply lexer_coded|]. intros e He.
  apply in_or_app. now left.
Qed.

Lemma onMatch_coded n st m :
  Forall (coded bracketTable) (Brackets.errors st) ->
  Forall (coded bracketTable) (Brackets.errors (Brackets.onMatch n st m)).
Proof.
  intros H. unfold Brackets.onMatch. repeat case_match; simpl; auto.
  - apply Forall_app. split; auto. constructor; [cbn; auto 10 | constructor].
  - apply Forall_app. split; auto. constructor; [cbn; auto 10 | constructor].
Qed.

Lemma onLine_coded lines st n :
  Forall (coded bracketTable) (Brackets.errors st) ->
  Forall (coded bracketTable) (Brackets.errors (Brackets.onLine lines st n)).
Proof.
  intros H. unfold Brackets.onLine.
  destruct (Brackets.stripComments _ _) as [[line inBlock]|]; auto.
  set (st0 := Brackets.mkState _ _ _).
  assert (H0 : Forall (coded bracketTable) (Brackets.errors st0)) by exact H.
  clearbody st0. revert st0 H0.
  induction (Brackets.execAll _ _ _ _) as [|m ms IH]; intros st0 H0; simpl; auto.
  apply IH. now apply onMatch_coded.
Qed.

Lemma brackets_coded text : Forall (coded bracketTable) (validateBrackets text).
Proof.
  unfold validateBrackets, Brackets.validateBrackets, Brackets.scan. cbv zeta.
  apply Forall_app. split.
  - set (lines := Regex.split Lexer.re_newline text).
    assert (H : forall l st, Forall (coded bracketTable) (Brackets.errors st) ->
              Forall (coded bracketTable)
                (Brackets.errors (fold_left (Brackets.onLine lines) l st))).
    { induction l as [|n l IH]; intros st Hst; simpl; auto.
      apply IH. now apply onLine_coded. }
    apply H. constructor.
  - apply Forall_forall. intros e He. apply list_elem_of_In in He.
    apply in_map_iff in He as (f & <- & _). unfold coded. simpl. tauto.
Qed.

Ltac diagnostics_tabled :=
  repeat case_match;
  repeat match goal with
         | |- Forall _ (_ :: _) =>
             constructor; [split; [cbn; auto 10 | reflexivity]|]
         | |- Forall _ [] => constructor
         end.

Lemma validateLine_tabled lines n : Forall (tabled lintTable) (validateLine lines n).
Proof.
  unfold validateLine. cbv zeta.
  repeat (apply Forall_app; split).
  - unfold checkTypo. diagnostics_tabled.
  - unfold checkQuotes. diagnostics_tabled.
  - unfold checkEmptyChoice. diagnostics_tabled.
  - unfold checkStoryId. diagnostics_tabled.
  - unfold checkPrefixes. destruct (tildeWordIn _ _); [|constructor].
    apply Forall_flat_map, Forall_forall. intros v _.
    unfold checkPrefix. diagnostics_tabled.
  - unfold checkOperators. destruct (tildeWordIn _ _); [|constructor].
    apply Forall_app; split; diagnostics_tabled.
Qed.

Lemma converted_tabled table es :
  Forall (coded table) es ->
  Forall (tabled (map converted table)) (map convertToDiagnostic es).
Proof.
  intros H. apply Forall_map. eapply Forall_impl; [exact H|].
  intros e He. split; [|reflexivity].
  apply (in_map converted) in He. exact He.
Qed.

Lemma tabled_incl t t' d : incl t t' -> tabled t d -> tabled t' d.
Proof. intros Hi [H1 H2]. split; auto. Qed.

(** Every diagnostic of the analysis is in the table. *)
Lemma analysis_tabled text :
  Forall (tabled severityTable) (analyzeDiagnostics text).
Proof.
  unfold analyzeDiagnostics, Diagnostics.analyzeDiagnostics,
    additionalValidation. cbv zeta.
  assert (Hp : Forall (tabled severityTable)
                 (map convertToDiagnostic (Parser.r_errors (parse text)))).
  { eapply Forall_impl; [apply converted_tabled, parse_coded|].
    intros d. apply tabled_incl. unfold severityTable.
    rewrite !map_app. intros x Hx. rewrite !in_app_iff in *. tauto. }
  repeat (apply Forall_app; split).
  - destruct (d_isDisabled _); auto.
    apply Forall_app. split; auto.
    constructor; [|constructor]. split; [|reflexivity].
    unfold severityTable. apply in_or_app. right. now left.
  - eapply Forall_impl; [apply converted_tabled, brackets_coded|].
    intros d. apply tabled_incl. unfold severityTable.
    rewrite !map_app. intros x Hx. rewrite !in_app_iff in *. tauto.
  - apply Forall_flat_map, Forall_forall. intros n _.
    eapply Forall_impl; [apply validateLine_tabled|].
    intros d. apply tabled_incl. unfold severityTable.
    intros x Hx. rewrite !in_app_iff in *. tauto.
Qed.

(** X7.  The severity of a diagnostic is settled by its code.  Every
    diagnostic that the analysis of a document gives has the source
    [exoscript] and one of the codes of the table, with the severity that
    the table gives to the code; the one diagnostic without code is the
    notice of a disabled file.  No code is listed twice. *)
Theorem severity_by_code (text : string) :
  Forall (tabled severityTable) (analyzeDiagnostics text)
  /\ NoDup (map fst severityTable).
Proof.
  split; [apply analysis_tabled|].
  apply NoDup_ListNoDup. vm_compute.
  repeat (constructor; [simpl; intuition discriminate|]). constructor.
Qed.

End SeverityByCode.

Module DisabledFile.
Import Diagnostics SeverityByCode LexerFacts BlockComments TildeCommands.

Lemma dropSpaces_keeps a l :
  In a l -> JS.isSpace a = false -> In a (JS.dropSpaces l).
Proof.
  induction l as [|b l IH]; simpl; auto.
  intros [->|Hin] Ha.
  - rewrite Ha. now left.
  - destruct (JS.isSpace b); [auto | now right].
Qed.

(** Trimming keeps every character that is no blank. *)
Lemma trim_keeps a s :
  In a (JS.chars s) -> JS.isSpace a = false -> In a (JS.chars (JS.trim s)).
Proof.
  intros Hin Ha. unfold JS.trim, JS.trimChars. rewrite chars_str.
  apply -> in_rev. apply dropSpaces_keeps; auto.
  apply -> in_rev. now apply dropSpaces_keeps.
Qed.

Lemma indexOfFrom_absent a p l : forall i,
  ~ In a l -> JS.indexOfFrom (a :: p) l i = -1.
Proof.
  induction l as [|b l IH]; intros i Hn; simpl; auto.
  destruct (Ascii.eqb_spec a b) as [->|]; [exfalso; apply Hn; now left|].
  simpl. apply IH. intros H. apply Hn. now right.
Qed.

(** A line without slash, once trimmed, opens no block comment. *)
Lemma no_slash_no_opener line :
  ~ In "/"%char (JS.chars (JS.trim line)) -> opensBlockComment line = false.
Proof.
  intros H. unfold opensBlockComment.
  replace (JS.indexOf line "/*" 0) with (-1); [reflexivity|].
  symmetry. unfold JS.indexOf.
  replace (Z.to_nat (Z.min (Z.max 0 0) (JS.len line))) with 0%nat
    by (unfold JS.len; lia).
  rewrite drop_0. apply indexOfFrom_absent. intros Hin. apply H.
  now apply trim_keeps.
Qed.

Definition noContentWarning (d : Diagnostic) : Prop :=
  code d <> Some "content-before-story".

Lemma disabled_no_content text :
  d_isDisabled (Parser.document (parse text)) = true ->
  Forall noContentWarning (analyzeDiagnostics text).
Proof.
  intros Hd.
  assert (Hp : Forall (fun e => e_code e <> "content-before-story")
                 (Parser.r_errors (parse text))).
  { apply (ParserErrors.parse_origin _ true); auto;
      try (intros; cbn; discriminate).
    eapply Forall_impl; [apply lexer_coded|]. intros e He Hc.
    unfold coded in He. rewrite Hc in He. cbn in He.
    intuition congruence. }
  unfold analyzeDiagnostics, Diagnostics.analyzeDiagnostics,
    additionalValidation. cbv zeta. rewrite Hd.
  repeat (apply Forall_app; split).
  - apply Forall_map. eapply Forall_impl; [exact Hp|].
    intros e He. unfold noContentWarning. simpl. congruence.
  - constructor; [discriminate | constructor].
  - apply Forall_map. eapply Forall_impl; [apply brackets_coded|].
    intros e He. unfold coded in He. unfold noContentWarning. simpl.
    intros [= Hc]. rewrite Hc in He. cbn in He. intuition congruence.
  - apply Forall_flat_map, Forall_forall. intros n _.
    eapply Forall_impl; [apply validateLine_tabled|].
    intros d [He _]. unfold noContentWarning. intros Hc.
    rewrite Hc in He. cbn in He. intuition congruence.
Qed.

Lemma disabled_notice text :
  d_isDisabled (Parser.document (parse text)) = true ->
  In disabledInfo (analyzeDiagnostics text).
Proof.
  intros Hd.
  unfold analyzeDiagnostics, Diagnostics.analyzeDiagnostics,
    additionalValidation. cbv zeta. rewrite Hd.
  rewrite !in_app_iff. left. left. right. now left.
Qed.

(** The token of a first line that reads [~disabled]. *)
Definition disabledToken (line : string) : Token :=
  mkToken TokenType.TILDE_DISABLED "~disabled"
    (Lexer.makeRange 0 (JS.indexOf line "~" 0) (JS.len line))
    (Some (mkData None None None None None None (Some ""))).

Lemma first_line_disabled text :
  let line := nth 0 (Regex.split Lexer.re_newline text) "" in
  JS.trim line = "~disabled" ->
  exists ts, Lexer.r_tokens (tokenize text) = disabledToken line :: ts.
Proof.
  cbv zeta. intros Ht.
  set (lines := Regex.split Lexer.re_newline text) in *.
  destruct lines as [|l0 rest] eqn:El; [discriminate|].
  assert (H0 : Lexer.tokens (Lexer.tokenizeLine (Lexer.new text) 0)
               = [disabledToken l0]).
  { unfold Lexer.tokenizeLine. cbv zeta. cbn [Lexer.new Lexer.lines Lexer.inBlockComment].
    fold lines. rewrite El. cbn [nth]. simpl in Ht.
    pose proof (no_slash_no_opener l0) as Ho. rewrite Ht in Ho.
    unfold opensBlockComment in Ho. rewrite Ho by (vm_compute; intuition discriminate).
    rewrite Ht. closed_tests. cbv iota.
    set (m := Regex.mkMatch _ _ _ _).
    replace (JS.toLowerCase (Regex.group1 m 1)) with "disabled" by reflexivity.
    replace (Regex.group m 2) with (@None string) by reflexivity.
    change (JS.inList "disabled" TILDE_COMMANDS) with true.
    change (Lexer.getTildeTokenType "disabled") with TokenType.TILDE_DISABLED.
    cbn [andb negb].
    rewrite TokenLines.tokens_validateTildeCommand. reflexivity. }
  unfold tokenize, Lexer.tokenize, Lexer.tokenizeLines. cbv zeta.
  cbn [Lexer.new Lexer.lines]. fold lines. rewrite El.
  cbn [length seq fold_left].
  destruct (extends_fold (seq 1 (length rest))
              (Lexer.tokenizeLine (Lexer.new text) 0))
    as (_ & (ts & Hts & _) & _).
  rewrite H0 in Hts.
  destruct (Lexer.inBlockComment _); [destruct (Lexer.blockCommentStart _)|];
    simpl; rewrite Hts; simpl; eauto.
Qed.

Lemma first_token_disables text t ts :
  Lexer.r_tokens (tokenize text) = t :: ts ->
  t_type t = TokenType.TILDE_DISABLED ->
  d_isDisabled (Parser.document (parse text)) = true.
Proof.
  intros Ht Hty. unfold parse, Parser.parse. cbv zeta.
  cbn [Parser.document d_isDisabled].
  unfold Parser.validateJumpTargets. cbn [Parser.isDisabled Parser.setErrors].
  rewrite ParserErrors.isDisabled_parseLoop.
  unfold Parser.checkDisabled, Parser.new. cbn [Parser.tokens].
  rewrite Ht. cbn [firstn Parser.checkDisabledLoop].
  unfold Parser.checkDisabledStep, Parser.isType. rewrite Hty. reflexivity.
Qed.

(** X8.  A file whose first line reads [~disabled] is disabled.  The analysis
    gives the notice "This file is disabled with ~disabled", and text before
    the first story header is not reported. *)
Theorem disabled_first_line (text : string) :
  JS.trim (nth 0 (Regex.split Lexer.re_newline text) "") = "~disabled" ->
  d_isDisabled (Parser.document (parse text)) = true
  /\ In disabledInfo (analyzeDiagnostics text)
  /\ Forall noContentWarning (analyzeDiagnostics text).
Proof.
  intros Ht. destruct (first_line_disabled text Ht) as (ts & Hts).
  pose proof (first_token_disables text _ ts Hts eq_refl) as Hd.
  auto using disabled_notice, disabled_no_content.
Qed.

Lemma disabled_first_line_witness :
  In disabledInfo (analyzeDiagnostics (doc [" ~disabled"; "words"; "=== s"])).
Proof.
  apply (disabled_first_line (doc [" ~disabled"; "words"; "=== s"])).
  reflexivity.
Defined.

(** Without the first line the text before the header is reported. *)
Example content_before_story_reported :
  map code (analyzeDiagnostics (doc ["words"; "=== s"]))
  = [Some "content-before-story"].
Proof. reflexivity. Qed.

End DisabledFile.

Module TildeNodes.
Import LexerFacts TokenLines.

(** The types of the tokens of the recognized commands. *)
Definition isTilde (ty : TokenType.t) : bool :=
  match ty with
  | TokenType.TILDE_IF | TokenType.TILDE_IFD | TokenType.TILDE_SET
  | TokenType.TILDE_SETIF | TokenType.TILDE_CALL | TokenType.TILDE_CALLIF
  | TokenType.TILDE_DISABLED | TokenType.TILDE_ONCE => true
  | _ => false
  end.

(** What the parser reads in a command token is what the lexer saw. *)
Definition agrees (t : Token) : Prop :=
  let node := Parser.parseTildeCommand t in
  In (tc_command node) TILDE_COMMANDS
  /\ Lexer.getTildeTokenType (tc_command node) = t_type t
  /\ Parser.dataField condition t = Some (tc_expression node)
  /\ tc_range node = t_range t.

Lemma orElse_nonempty s d : s <> "" -> JS.orElse s d = s.
Proof.
  intros H. unfold JS.orElse. destruct (String.eqb_spec s ""); congruence.
Qed.

Lemma recognized_agrees trimmed m r expression :
  Regex.exec Lexer.re_tilde trimmed = Some m ->
  JS.inList (JS.toLowerCase (Regex.group1 m 1)) TILDE_COMMANDS = true ->
  expression = match Regex.group m 2 with
               | Some e => JS.orElse e ""
               | None => ""
               end ->
  agrees (mkToken (Lexer.getTildeTokenType (JS.toLowerCase (Regex.group1 m 1)))
            trimmed r
            (Some (mkData None None None None None None (Some expression)))).
Proof.
  intros Hm Hin ->. unfold agrees, Parser.parseTildeCommand, Parser.re_tilde.
  cbv zeta. cbn [t_value t_range t_type tc_command tc_expression tc_range].
  rewrite Hm. unfold Regex.group1 in *.
  destruct (Regex.group m 1) as [c|].
  - assert (Hne : JS.toLowerCase c <> "").
    { intros E. rewrite E in Hin. discriminate. }
    rewrite (orElse_nonempty _ _ Hne).
    repeat split; auto. now apply JumpResolution.inList_In.
  - discriminate.
Qed.

Lemma lineTokens_agree lx n t :
  In t (lineTokens lx n) -> isTilde (t_type t) = true -> agrees t.
Proof.
  unfold lineTokens, Lexer.tokenizeLine, Lexer.validateBracketExpressions,
    Lexer.tokenizeLineContent.
  cbv zeta.
  repeat case_match; rewrite ?tokens_validateTildeCommand; simpl;
    rewrite <- ?app_assoc, ?drop_app_length, ?drop_all; simpl.
  all: intros Hin Hty; intuition (subst; try discriminate).
  all: eapply recognized_agrees; eauto;
    match goal with H : Regex.group _ 2 = _ |- _ => now rewrite H end.
Qed.

(** X9.  The command nodes of the parser agree with the tokens of the lexer.
    For every token of a recognized command in the tokens of a document, the
    node that [parseTildeCommand] makes names a command of the whitelist
    (never [unknown]), the command that the type of the token stands for,
    and carries the expression that the lexer recorded in the token. *)
Theorem command_nodes_agree (text : string) :
  Forall (fun t => isTilde (t_type t) = true -> agrees t)
         (Lexer.r_tokens (tokenize text)).
Proof.
  assert (H : forall l lx,
            Forall (fun t => isTilde (t_type t) = true -> agrees t)
                   (Lexer.tokens lx) ->
            Forall (fun t => isTilde (t_type t) = true -> agrees t)
                   (Lexer.tokens (fold_left Lexer.tokenizeLine l lx))).
  { induction l as [|n l IH]; intros lx Hlx; simpl; auto.
    apply IH. rewrite tokenizeLine_tokens. apply Forall_app. split; auto.
    apply Forall_forall. intros t Ht. apply list_elem_of_In in Ht.
    now apply (lineTokens_agree lx n). }
  specialize (H (seq 0 (length (Lexer.lines (Lexer.new text)))) (Lexer.new text)).
  fold (Lexer.tokenizeLines (Lexer.new text)) in H.
  unfold tokenize, Lexer.tokenize. cbv zeta.
  destruct (Lexer.inBlockComment _); [destruct (Lexer.blockCommentStart _)|];
    simpl; apply Forall_app; split; try (apply H; constructor);
    constructor; try constructor; discriminate.
Qed.

Lemma command_nodes_agree_witness :
  agrees (mkToken TokenType.TILDE_SETIF "~SetIf a ? b = 1"
            (mkRange (mkPosition 0 1) (mkPosition 0 17))
            (Some (mkData None None None None None None (Some "a ? b = 1")))).
Proof.
  pose proof (command_nodes_agree " ~SetIf a ? b = 1") as H.
  apply List.Forall_inv in H. apply H. reflexivity.
Defined.

(** The node of that token. *)
Example setif_node :
  Parser.parseTildeCommand
    (mkToken TokenType.TILDE_SETIF "~SetIf a ? b = 1"
       (mkRange (mkPosition 0 1) (mkPosition 0 17))
       (Some (mkData None None None None None None (Some "a ? b = 1"))))
  = mkTilde "setif" "a ? b = 1" (mkRange (mkPosition 0 1) (mkPosition 0 17)).
Proof. reflexivity. Qed.

End TildeNodes.

Module Quotes.
Import Regex Diagnostics.

(** The number of quotation marks of a line. *)
Fixpoint marks (l : list ascii) : nat :=
  match l with
  | [] => 0
  | a :: l' => if Ascii.eqb "034" a then S (marks l') else marks l'
  end.

Definition quotes (line : string) : nat := marks (JS.chars line).

Lemma matchAt_quote input pos :
  matchAt re_quote input pos
  = match skipn pos (JS.chars input) with
    | a :: _ => if Ascii.eqb "034" a then Some (mkMatch input pos (S pos) [])
                else None
    | [] => None
    end.
Proof. reflexivity. Qed.

(** The first quotation mark at offset [pos] or later. *)
Lemma searchFrom_quote input fuel : forall pos,
  (pos + fuel = String.length input)%nat ->
  match searchFrom re_quote input pos fuel with
  | None => marks (skipn pos (JS.chars input)) = 0%nat
  | Some m =>
      (pos < m_end m <= String.length input)%nat
      /\ marks (skipn pos (JS.chars input))
         = S (marks (skipn (m_end m) (JS.chars input)))
  end.
Proof.
  induction fuel as [|fuel IH]; intros pos Hf; cbn [searchFrom];
    rewrite matchAt_quote.
  - rewrite skipn_all2 by (rewrite LineCount.length_chars; lia). reflexivity.
  - destruct (skipn pos (JS.chars input)) as [|a s'] eqn:Hs.
    + apply (f_equal (@length ascii)) in Hs.
      rewrite length_skipn, LineCount.length_chars in Hs. simpl in Hs. lia.
    + destruct (LineCount.skipn_cons _ _ _ _ Hs) as [Hs' _].
      cbn [marks]. destruct (Ascii.eqb "034" a).
      * cbn [m_end]. rewrite Hs'. split; [lia | reflexivity].
      * specialize (IH (S pos)). rewrite Hs' in IH.
        destruct (searchFrom re_quote input (S pos) fuel) as [m|].
        -- destruct IH as [H1 H2]; [lia|]. split; [lia | exact H2].
        -- apply IH. lia.
Qed.

Lemma execAll_quote input fuel : forall pos,
  (pos <= String.length input)%nat ->
  (String.length input - pos < fuel)%nat ->
  length (Brackets.execAll re_quote input pos fuel)
  = marks (skipn pos (JS.chars input)).
Proof.
  induction fuel as [|fuel IH]; intros pos Hp Hf; [lia|].
  cbn [Brackets.execAll]. unfold execFrom.
  replace (pos <=? String.length input)%nat with true
    by (symmetry; apply Nat.leb_le; lia).
  pose proof (searchFrom_quote input (String.length input - pos) pos) as H.
  destruct (searchFrom re_quote input pos (String.length input - pos)) as [m|].
  - destruct H as [[H1 H2] H3]; [lia|].
    replace (pos <? m_end m)%nat with true by (symmetry; apply Nat.ltb_lt; lia).
    cbn [length]. rewrite IH by lia. now rewrite H3.
  - symmetry. apply H. lia.
Qed.

Definition unmatchedQuote (lineNum : nat) (line : string) : Diagnostic :=
  mkDiagnostic DiagnosticSeverity.Hint (lineRange lineNum 0 (JS.len line))
    "Unmatched quote - intentional if dialogue continues" "exoscript"
    (Some "unmatched-quote").

(** X10.  The hint of an unmatched quote.  A line gets the hint exactly when it
    holds an odd number of quotation marks, and the hint spans the line; the
    analysis of a document gives it for each of its lines that does. *)
Theorem unmatched_quote_hint :
  (forall lineNum line,
     checkQuotes lineNum line
     = if Nat.odd (quotes line) then [unmatchedQuote lineNum line] else [])
  /\ (forall text lineNum,
        let lines := split Lexer.re_newline text in
        (lineNum < length lines)%nat ->
        Nat.odd (quotes (nth lineNum lines "")) = true ->
        In (unmatchedQuote lineNum (nth lineNum lines ""))
           (analyzeDiagnostics text)).
Proof.
  assert (H : forall lineNum line,
            checkQuotes lineNum line
            = if Nat.odd (quotes line) then [unmatchedQuote lineNum line] else []).
  { intros lineNum line. unfold checkQuotes. cbv zeta.
    rewrite execAll_quote by lia. rewrite drop_0. unfold quotes.
    generalize (marks (JS.chars line)). intros q.
    rewrite <- Nat.negb_even.
    destruct (Nat.eqb_spec (q mod 2) 0) as [E|E].
    - apply Nat.Div0.mod_divides in E as [k ->].
      replace (Nat.even (2 * k)) with true; [reflexivity|].
      symmetry. apply Nat.even_spec. now exists k.
    - destruct (Nat.even q) eqn:Ev; [|reflexivity].
      apply Nat.even_spec in Ev as [k ->]. exfalso. apply E.
      rewrite Nat.mul_comm. apply Nat.Div0.mod_mul. }
  split; [exact H|].
  cbv zeta. intros text lineNum Hn Hodd.
  apply (Surfaced.lint_surfaced text lineNum); auto.
  unfold validateLine. cbv zeta. rewrite !in_app_iff. right. left.
  rewrite H, Hodd. now left.
Qed.

(** A line with one quotation mark, character 34. *)
Definition oneMark : string := "He said " +:+ String "034" "hi".

Lemma unmatched_quote_hint_witness :
  In (unmatchedQuote 1 oneMark) (analyzeDiagnostics (doc ["=== s"; oneMark])).
Proof.
  destruct unmatched_quote_hint as [_ H].
  apply (H (doc ["=== s"; oneMark]) 1%nat); [vm_compute; lia | reflexivity].
Defined.

End Quotes.

Module BareHeader.
Import Diagnostics LexerFacts BlockComments DisabledFile TildeCommands.

Definition invalidHeader (n : nat) (line : string) : Diagnostic :=
  mkDiagnostic DiagnosticSeverity.Error
    (Lexer.makeRange n (JS.indexOf line "===" 0) (JS.len line))
    "Invalid story header. Expected: === storyID" "exoscript"
    (Some "invalid-story-header").

Definition missingStoryId (n : nat) (line : string) : Diagnostic :=
  mkDiagnostic DiagnosticSeverity.Error
    (Lexer.makeRange n (JS.indexOf line "===" 0) (JS.indexOf line "===" 0 + 3))
    "Story header requires an ID: === storyID" "exoscript"
    (Some "missing-story-id").

(** X11.  A story header without identifier is reported twice.  For a line that
    reads [===] once trimmed, outside a block comment, the analysis holds the
    error of the lexer, from the marker to the end of the line, and the error
    of the lint, on the marker. *)
Theorem bare_header_reported_twice (text : string) (n : nat) :
  let lines := Regex.split Lexer.re_newline text in
  let line := nth n lines "" in
  (n < length lines)%nat ->
  Lexer.inBlockComment (stateBefore text n) = false ->
  JS.trim line = "===" ->
  In (invalidHeader n line) (analyzeDiagnostics text)
  /\ In (missingStoryId n line) (analyzeDiagnostics text).
Proof.
  cbv zeta. intros Hn Hb Ht. split.
  - change (invalidHeader n (nth n (Regex.split Lexer.re_newline text) ""))
      with (convertToDiagnostic
              (mkError "Invalid story header. Expected: === storyID"
                 (Lexer.makeRange n
                    (JS.indexOf (nth n (Regex.split Lexer.re_newline text) "")
                       "===" 0)
                    (JS.len (nth n (Regex.split Lexer.re_newline text) "")))
                 sev_error "invalid-story-header")).
    apply Surfaced.lexer_error_surfaced.
    apply (TildeCommands.line_errors_kept text n); auto.
    unfold Lexer.tokenizeLine. cbv zeta.
    fold (stateBefore text n). rewrite Hb.
    rewrite TildeCommands.lines_stateBefore, Ht.
    pose proof (no_slash_no_opener
                  (nth n (Regex.split Lexer.re_newline text) "")) as Ho.
    rewrite Ht in Ho. unfold opensBlockComment in Ho.
    rewrite Ho by (vm_compute; intuition discriminate).
    closed_tests. cbn. apply in_or_app. right. now left.
  - apply (Surfaced.lint_surfaced text n); auto.
    unfold validateLine. cbv zeta. rewrite !in_app_iff.
    right. right. right. left. unfold checkStoryId. rewrite Ht.
    now left.
Qed.

Lemma bare_header_reported_twice_witness :
  In (invalidHeader 1 " ===") (analyzeDiagnostics (doc ["=== a"; " ==="]))
  /\ In (missingStoryId 1 " ===") (analyzeDiagnostics (doc ["=== a"; " ==="])).
Proof.
  apply (bare_header_reported_twice (doc ["=== a"; " ==="]) 1);
    [vm_compute; lia | reflexivity | reflexivity].
Defined.

End BareHeader.

Module FoldingFacts.
Import Folding.

(** A range that can be folded: it ends after the line it starts on. *)
Definition foldable (r : FoldingRange) : Prop := startLine r < endLine r.

Lemma fold_foldable {B : Type} (f : list FoldingRange -> B -> list FoldingRange) :
  (forall ranges x, Forall foldable ranges -> Forall foldable (f ranges x)) ->
  forall l ranges, Forall foldable ranges -> Forall foldable (fold_left f l ranges).
Proof.
  intros Hf l. induction l as [|x l IH]; intros ranges H; simpl; auto.
Qed.

Ltac push_foldable :=
  apply Forall_app; split;
  [assumption | constructor; [unfold foldable; simpl; lia | constructor]].

Lemma addChoiceFoldingRanges_foldable h fuel : forall ranges choice,
  Forall foldable ranges ->
  Forall foldable (addChoiceFoldingRanges fuel h ranges choice).
Proof.
  induction fuel as [|fuel IH]; intros ranges choice H; simpl; auto.
  destruct (h !! choice) as [c|]; auto.
  destruct (0 <? length (c_children c))%nat; auto.
  apply (fold_foldable (addChoiceFoldingRanges fuel h)); [exact IH|].
  destruct (Z.gtb_spec (fold_left (lastLine h) (c_children c)
                          (line (end_ (c_range c))))
              (line (start (c_range c)))); auto.
  push_foldable.
Qed.

Lemma storyRanges_foldable h ranges story :
  Forall foldable ranges -> Forall foldable (storyRanges h ranges story).
Proof.
  intros H. unfold storyRanges.
  apply (fold_foldable (addChoiceFoldingRanges (length h) h));
    [intros; now apply addChoiceFoldingRanges_foldable|].
  destruct (Z.gtb_spec (line (end_ (s_range story)))
              (line (start (s_range story)))); auto.
  push_foldable.
Qed.

Lemma commentLine_foldable lines st i :
  Forall foldable (cs_ranges st) ->
  Forall foldable (cs_ranges (commentLine lines st i)).
Proof.
  intros H. unfold commentLine. repeat case_match; simpl; auto.
  match goal with E : (_ <? _)%nat = true |- _ => apply Nat.ltb_lt in E end.
  push_foldable.
Qed.

Lemma bracketMatch_foldable n st m :
  Forall foldable (bs_ranges st) ->
  Forall foldable (bs_ranges (bracketMatch n st m)).
Proof.
  intros H. unfold bracketMatch. repeat case_match; simpl; auto.
  match goal with E : (_ <? _)%nat = true |- _ => apply Nat.ltb_lt in E end.
  push_foldable.
Qed.

Lemma bracketLine_foldable lines st n :
  Forall foldable (bs_ranges st) ->
  Forall foldable (bs_ranges (bracketLine lines st n)).
Proof.
  intros H. unfold bracketLine.
  destruct (Brackets.stripComments _ _) as [[line inBlock]|]; auto.
  set (st0 := mkBracketState _ _ _).
  assert (H0 : Forall foldable (bs_ranges st0)) by exact H.
  clearbody st0. revert st0 H0.
  induction (Brackets.execAll _ _ _ _) as [|m ms IH]; intros st0 H0; simpl; auto.
  apply IH. now apply bracketMatch_foldable.
Qed.

(** X12.  A folding range is never empty.  Whatever the text and the parse
    result are, every range that [getFoldingRanges] gives ends on a line
    after the line it starts on. *)
Theorem folding_ranges_foldable (text : string) (parseResult : Parser.ParserResult) :
  Forall foldable (getFoldingRanges text parseResult).
Proof.
  unfold getFoldingRanges, addBracketBlockRanges, bracketScan,
    addBlockCommentRanges. cbv zeta.
  set (lines := Regex.split Lexer.re_newline text).
  set (r1 := fold_left (storyRanges _) _ []).
  assert (H1 : Forall foldable r1).
  { apply fold_foldable; [intros; now apply storyRanges_foldable | constructor]. }
  clearbody r1.
  set (cs := fold_left (commentLine lines) _ _).
  assert (H2 : Forall foldable (cs_ranges cs)).
  { unfold cs. generalize (seq 0 (length lines)).
    assert (H0 : Forall foldable (cs_ranges (mkCommentState false 0 r1)))
      by exact H1.
    revert H0. generalize (mkCommentState false 0 r1).
    intros st H0 l. revert st H0.
    induction l as [|i l IH]; intros st H0; simpl; auto.
    apply IH. now apply commentLine_foldable. }
  clearbody cs.
  generalize (seq 0 (length lines)).
  assert (H0 : Forall foldable (bs_ranges (mkBracketState [] false (cs_ranges cs))))
    by exact H2.
  revert H0. generalize (mkBracketState [] false (cs_ranges cs)).
  intros st H0 l. revert st H0.
  induction l as [|i l IH]; intros st H0; simpl; auto.
  apply IH. now apply bracketLine_foldable.
Qed.

End FoldingFacts.

Module CommentFolds.
Import Folding LexerFacts TokenLines BlockComments TildeCommands.

Definition isBlockStart (t : Token) : bool :=
  TokenType.eqb (t_type t) TokenType.COMMENT_BLOCK_START.

Definition isBlockEnd (t : Token) : bool :=
  TokenType.eqb (t_type t) TokenType.COMMENT_BLOCK_END.

(** The lines of the tokens that open a block comment, and of those that
    close one. *)
Definition openers (ts : list Token) : list Z :=
  map tokLine (List.filter isBlockStart ts).

Definition closers (ts : list Token) : list Z :=
  map tokLine (List.filter isBlockEnd ts).

Lemma getTildeTokenType_no_comment c :
  isBlockStart (mkToken (Lexer.getTildeTokenType c) "" (Lexer.makeRange 0 0 0) None)
  = false
  /\ isBlockEnd (mkToken (Lexer.getTildeTokenType c) "" (Lexer.makeRange 0 0 0) None)
     = false.
Proof.
  unfold isBlockStart, isBlockEnd, Lexer.getTildeTokenType. simpl.
  repeat case_match; split; reflexivity.
Qed.

(** The comment tokens that a line adds. *)
Lemma lineTokens_comment lx n :
  let line := nth n (Lexer.lines lx) "" in
  openers (lineTokens lx n)
  = (if negb (Lexer.inBlockComment lx) && opensBlockComment line
     then [Z.of_nat n] else [])
  /\ closers (lineTokens lx n)
     = (if Lexer.inBlockComment lx && negb (JS.indexOf line "*/" 0 =? -1)
        then [Z.of_nat n] else []).
Proof.
  cbv zeta. unfold lineTokens, Lexer.tokenizeLine. cbv zeta.
  destruct (Lexer.inBlockComment lx) eqn:Hb; cbv beta iota.
  - destruct (JS.indexOf (nth n (Lexer.lines lx) "") "*/" 0 =? -1);
      change (negb true) with false; change (negb false) with true;
      change (false && opensBlockComment (nth n (Lexer.lines lx) "")) with false;
      change (true && true) with true; cbv beta iota.
    + simpl. rewrite drop_all. split; reflexivity.
    + unfold Lexer.tokenizeLineContent.
      repeat case_match; simpl; rewrite <- ?app_assoc, drop_app_length;
        split; reflexivity.
  - destruct (String.eqb_spec (JS.trim (nth n (Lexer.lines lx) "")) "") as [He|He].
    + unfold opensBlockComment. rewrite (blank_no_opener _ He). simpl.
      rewrite drop_all. split; reflexivity.
    + unfold opensBlockComment.
      destruct (negb _ && _); simpl.
      * rewrite drop_app_length. split; reflexivity.
      * unfold Lexer.validateBracketExpressions.
        repeat case_match; rewrite ?tokens_validateTildeCommand; simpl;
          rewrite <- ?app_assoc, ?drop_app_length, ?drop_all;
          try (split; reflexivity).
        all: destruct (getTildeTokenType_no_comment
                         (JS.toLowerCase (Regex.group1 m 1))) as [Hs1 Hs2].
        all: unfold openers, closers, isBlockStart, isBlockEnd in *; simpl in *.
        all: rewrite Hs1, Hs2; split; reflexivity.
Qed.

(** The state of the pass over the comments when it comes to line [k]. *)
Definition commentsBefore (lines : list string) (k : nat) : CommentState :=
  fold_left (commentLine lines) (seq 0 k) (mkCommentState false 0 []).

Lemma commentsBefore_S lines k :
  commentsBefore lines (S k) = commentLine lines (commentsBefore lines k) k.
Proof. unfold commentsBefore. now rewrite seq_S, fold_left_app. Qed.

Definition commentKind (r : FoldingRange) : Prop :=
  kind r = FoldingRangeKind.Comment.

(** The pass of the folding ranges over the comments goes along with the
    lexer. *)
Lemma comments_follow_lexer text k :
  let lines := Regex.split Lexer.re_newline text in
  let cs := commentsBefore lines k in
  let lx := stateBefore text k in
  cs_inBlockComment cs = Lexer.inBlockComment lx
  /\ map endLine (cs_ranges cs) = closers (Lexer.tokens lx)
  /\ map startLine (cs_ranges cs)
     ++ (if cs_inBlockComment cs then [Z.of_nat (cs_blockStart cs)] else [])
     = openers (Lexer.tokens lx)
  /\ (cs_inBlockComment cs = true -> (cs_blockStart cs < k)%nat)
  /\ Forall commentKind (cs_ranges cs).
Proof.
  cbv zeta. induction k as [|k (IH1 & IH2 & IH3 & IH4 & IH5)].
  - repeat split; auto; discriminate.
  - rewrite commentsBefore_S, stateBefore_S.
    set (cs := commentsBefore _ k) in *. set (lx := stateBefore text k) in *.
    pose proof (tokenizeLine_comment_state lx k) as Hst.
    pose proof (lineTokens_comment lx k) as [Hop Hcl].
    cbv zeta in Hst, Hop, Hcl.
    assert (Hlines : Lexer.lines lx = Regex.split Lexer.re_newline text)
      by apply TildeCommands.lines_stateBefore.
    rewrite Hlines in Hst, Hop, Hcl.
    rewrite tokenizeLine_tokens. unfold openers, closers in *.
    rewrite !List.filter_app, !map_app, Hop, Hcl, <- IH2, <- IH3.
    unfold commentLine. rewrite IH1.
    unfold opensBlockComment in *.
    set (line := nth k (Regex.split Lexer.re_newline text) "") in *.
    destruct (Lexer.inBlockComment lx) eqn:Hb; simpl in *.
    + specialize (IH4 IH1).
      destruct (JS.indexOf line "*/" 0 =? -1) eqn:Hc; simpl in *.
      * destruct Hst as [Hst _]. rewrite Hst, IH1, !app_nil_r.
        repeat split; auto.
      * rewrite Hst. replace (cs_blockStart cs <? k)%nat with true
          by (symmetry; apply Nat.ltb_lt; lia).
        simpl. rewrite !map_app, !app_nil_r. simpl.
        repeat split; auto; try discriminate.
        apply Forall_app. split; auto. repeat constructor.
    + destruct (negb (JS.indexOf line "/*" 0 =? -1)) eqn:Hs; simpl in *.
      * destruct (JS.indexOf line "*/" (JS.indexOf line "/*" 0 + 2) =? -1) eqn:He;
          simpl in *.
        -- destruct Hst as [Hst _]. rewrite Hst, !app_nil_r.
           repeat split; auto.
        -- rewrite Hst, IH1, !app_nil_r. repeat split; auto; discriminate.
      * rewrite Hst, IH1, !app_nil_r. repeat split; auto; discriminate.
Qed.

(** X13.  The folds of the block comments.  The ranges that
    [addBlockCommentRanges] gives are of the kind [Comment]; there is one for
    each token [COMMENT_BLOCK_END] of the lexer, in order, from the line of
    the token [COMMENT_BLOCK_START] that opened the comment to the line of
    the token that closes it; a comment that is never closed gets none. *)
Theorem comment_folds_follow_tokens (text : string) :
  let folds := addBlockCommentRanges (Regex.split Lexer.re_newline text) [] in
  let toks := Lexer.r_tokens (tokenize text) in
  Forall commentKind folds
  /\ map endLine folds = closers toks
  /\ exists pending,
       openers toks = map startLine folds ++ pending
       /\ (length pending <= 1)%nat.
Proof.
  cbv zeta.
  destruct (comments_follow_lexer text
              (length (Regex.split Lexer.re_newline text)))
    as (H1 & H2 & H3 & _ & H5).
  cbv zeta in *. rewrite <- stateBefore_end in *.
  destruct (tokenize_tokens_eq text) as (eof & -> & Hty & _).
  unfold openers, closers in *. rewrite !List.filter_app, !map_app.
  unfold isBlockStart, isBlockEnd. simpl. rewrite Hty. simpl.
  rewrite !app_nil_r.
  change (addBlockCommentRanges (Regex.split Lexer.re_newline text) [])
    with (cs_ranges (commentsBefore (Regex.split Lexer.re_newline text)
                       (length (Regex.split Lexer.re_newline text)))).
  repeat split; auto.
  eexists. split; [symmetry; exact H3|].
  destruct (cs_inBlockComment _); simpl; lia.
Qed.

(** Two comments, of which the second is not closed. *)
Example comment_folds_example :
  addBlockCommentRanges ["a /* b"; "c"; "d */ e"; "/* f"; "g"] []
  = [mkFoldingRange 0 2 FoldingRangeKind.Comment].
Proof. reflexivity. Qed.

End CommentFolds.

Module StoryIds.
Import Parser TokenLines ParserLoops StoryLayout.

(** The identifiers of a story are defined inside the story, each under its
    own name. *)
Definition idsWithin (s : StoryNode) : Prop :=
  forall k ci, s_choiceIds s !! k = Some ci ->
    ci_id ci = k /\ lineS s <= line (start (ci_range ci)) <= lineE s.

(** Inside the story that the token at index [h] opens: every identifier of
    the map was made from a token of the story that is consumed. *)
Definition tracked (h : nat) (p : Parser) (cx : StoryLocals) : Prop :=
  forall k ci, s_choiceIds (story cx) !! k = Some ci ->
    ci_id ci = k
    /\ exists e te, (h <= e < current p)%nat /\ tokens p !! e = Some te
                    /\ ci_range ci = t_range te.

Lemma choiceIds_step p cx token :
  s_choiceIds (story (parseStoryToken p cx token).2) = s_choiceIds (story cx)
  \/ s_choiceIds (story (parseStoryToken p cx token).2)
     = <[ci_id (parseChoiceId token) := parseChoiceId token]>
         (s_choiceIds (story cx)).
Proof.
  unfold parseStoryToken, alloc. cbv zeta.
  repeat case_match; simplify_eq; simpl; auto.
Qed.

Lemma tracked_token h p cx token :
  isAtEnd p = false -> tokens p !! current p = Some token ->
  (h <= current p)%nat ->
  tracked h p cx ->
  tracked h (parseStoryToken p cx token).1 (parseStoryToken p cx token).2.
Proof.
  intros He Hl Hh Ht k ci.
  destruct (parseStoryToken_consumes p cx token He) as [Htk Hc].
  rewrite Htk, Hc.
  destruct (choiceIds_step p cx token) as [->| ->].
  - intros Hk. destruct (Ht k ci Hk) as (H1 & e & te & He' & Hte & Hr).
    split; auto. exists e, te. repeat split; auto; lia.
  - intros Hk. destruct (decide (ci_id (parseChoiceId token) = k)) as [<-|Hne].
    + rewrite lookup_insert_eq in Hk. injection Hk as <-. split; auto.
      exists (current p), token. repeat split; auto; lia.
    + rewrite lookup_insert_ne in Hk by assumption.
      destruct (Ht k ci Hk) as (H1 & e & te & He' & Hte & Hr).
      split; auto. exists e, te. repeat split; auto; lia.
Qed.

Lemma tracked_loop h fuel : forall p cx,
  (h <= current p)%nat -> tracked h p cx ->
  tracked h (parseStoryLoop fuel p cx).1 (parseStoryLoop fuel p cx).2.
Proof.
  induction fuel as [|fuel IH]; intros p cx Hh Ht; simpl; auto.
  destruct (isAtEnd p) eqn:He; auto.
  destruct (peek p) as [token|] eqn:Hp; auto.
  destruct (isType token TokenType.STORY_HEADER); auto.
  destruct (isType token TokenType.EOF); auto.
  pose proof (tracked_token h p cx token He (peek_not_at_end p token He Hp) Hh Ht)
    as Ht'.
  destruct (parseStoryToken_consumes p cx token He) as [_ Hc].
  destruct (parseStoryToken p cx token) as [p' cx']. simpl in *.
  apply IH; auto. lia.
Qed.

Lemma current_bound_loop fuel : forall p cx,
  (current p <= length (tokens p))%nat ->
  (current (parseStoryLoop fuel p cx).1
   <= length (tokens (parseStoryLoop fuel p cx).1))%nat.
Proof.
  induction fuel as [|fuel IH]; intros p cx H; simpl; auto.
  destruct (isAtEnd p) eqn:He; auto.
  destruct (peek p) as [token|] eqn:Hp; auto.
  destruct (isType token TokenType.STORY_HEADER); auto.
  destruct (isType token TokenType.EOF); auto.
  destruct (parseStoryToken_consumes p cx token He) as [Ht Hc].
  pose proof (not_at_end_lt p He) as Hlt.
  destruct (parseStoryToken p cx token) as [p' cx']. simpl in *.
  apply IH. rewrite Ht, Hc. lia.
Qed.

Lemma idsWithin_parseStory p h :
  ordered (tokens p) -> Forall oneLine (tokens p) ->
  isAtEnd p = false -> peek p = Some h ->
  Forall idsWithin (stories p) -> Forall idsWithin (stories (parseStory p)).
Proof.
  intros Hord Hone He Hp Hs.
  pose proof (peek_not_at_end p h He Hp) as Hl.
  pose proof (not_at_end_lt p He) as Hlt.
  destruct (advance_not_at_end p He) as [Ht Hc].
  unfold parseStory. rewrite Hp. cbv zeta.
  set (p1 := advance p) in *.
  set (cx0 := mkLocals (newStory h) None []).
  assert (H0 : tracked (current p) p1 cx0).
  { intros k ci Hk. unfold cx0 in Hk. simpl in Hk.
    destruct (decide (k = "start")) as [->|Hne].
    - rewrite lookup_insert_eq in Hk. injection Hk as <-. split; auto.
      exists (current p), h. rewrite Ht, Hc. repeat split; auto.
    - rewrite lookup_insert_ne in Hk by congruence.
      rewrite lookup_empty in Hk. discriminate. }
  assert (Hle : (current p <= current p1)%nat) by (rewrite Hc; lia).
  assert (Hle' : (current p1 <= length (tokens p1))%nat)
    by (rewrite Hc, Ht; lia).
  pose proof (tracked_loop (current p) (length (tokens p1)) p1 cx0 Hle H0) as Htr.
  pose proof (parseStoryLoop_progress (length (tokens p1)) p1 cx0) as [Ht' Hc'].
  pose proof (current_bound_loop (length (tokens p1)) p1 cx0 Hle') as Hb.
  pose proof (ChoiceIds.stories_parseStoryLoop (length (tokens p1)) p1 cx0) as Hst.
  destruct (parseStoryLoop _ _ _) as [p' cx]. simpl in *.
  unfold p1 in Hst. rewrite ChoiceIds.stories_advance in Hst. rewrite Hst.
  apply Forall_app. split; auto. constructor; [|constructor].
  assert (Hlen : (0 <? length (tokens p'))%nat = true)
    by (apply Nat.ltb_lt; lia).
  rewrite Hlen.
  destruct (current p') as [|n] eqn:En; [lia|].
  destruct (tokens p' !! n) as [lastToken|] eqn:Eln;
    [|apply lookup_ge_None in Eln; lia].
  assert (Hone' : forall i t, tokens p !! i = Some t -> oneLine t).
  { intros i t Hi.
    eapply (proj1 (List.Forall_forall _ _) Hone), list_elem_of_In,
      list_elem_of_lookup_2; eauto. }
  assert (Hmono : forall i j ti tj,
            (i <= j)%nat -> tokens p !! i = Some ti -> tokens p !! j = Some tj ->
            tokLine ti <= tokLine tj).
  { intros i j ti tj Hij Hi Hj. destruct (decide (i = j)) as [->|Hne].
    - assert (ti = tj) by congruence. subst. lia.
    - apply (Hord i j ti tj); auto. lia. }
  rewrite Ht', Ht in Eln.
  intros k ci Hk. simpl in Hk.
  destruct (Htr k ci Hk) as (Hid & e & te & Hbe & Hte & Hr).
  rewrite Ht', Ht in Hte.
  split; auto. unfold lineS, lineE. simpl. rewrite Hr.
  fold (tokLine h). fold (tokLine te).
  rewrite (Hone' n lastToken Eln). fold (tokLine lastToken).
  split.
  - apply (Hmono (current p) e); auto. lia.
  - apply (Hmono e n); auto. lia.
Qed.

Lemma idsWithin_parseLoop fuel : forall p,
  ordered (tokens p) -> Forall oneLine (tokens p) ->
  Forall idsWithin (stories p) -> Forall idsWithin (stories (parseLoop fuel p)).
Proof.
  induction fuel as [|fuel IH]; intros p Hord Hone Hs; simpl; auto.
  destruct (isAtEnd p) eqn:He; auto.
  destruct (peek p) as [token|] eqn:Hp; auto.
  destruct (advance_not_at_end p He) as [Ht _].
  destruct (isType token TokenType.STORY_HEADER) eqn:Hh.
  - destruct (parseStory_progress p He) as [Ht' _].
    apply IH; rewrite ?Ht'; auto. eapply idsWithin_parseStory; eauto.
  - assert (Htk : forall e, tokens (advance (pushError p e)) = tokens p).
    { intros e. assert (He' : isAtEnd (pushError p e) = false) by exact He.
      now destruct (advance_not_at_end _ He'). }
    repeat case_match; auto; apply IH;
      rewrite ?Htk, ?Ht, ?ChoiceIds.stories_advance; auto.
Qed.

Lemma idsWithin_parse text : Forall idsWithin (d_stories (document (parse text))).
Proof.
  unfold parse, Parser.parse. cbv zeta. simpl.
  set (p0 := checkDisabled (Parser.new text)).
  assert (H0 : tokens p0 = Lexer.r_tokens (tokenize text) /\ stories p0 = []).
  { unfold p0, checkDisabled, Parser.new. now destruct (checkDisabledLoop _). }
  destruct H0 as [Ht0 Hs0].
  destruct (ordered_tokenize text) as [Hord Hone].
  apply idsWithin_parseLoop; rewrite ?Ht0, ?Hs0; auto.
Qed.

(** X15.  The identifiers of a story are defined inside the story.  In a
    parsed document every entry of the map of identifiers of a story is
    filed under the name that its node carries, and its range lies on a line
    of the story ([start] lies on the line of the header). *)
Theorem story_ids_within_story (text : string) :
  Forall (fun s =>
            forall k ci, s_choiceIds s !! k = Some ci ->
              ci_id ci = k
              /\ line (start (s_range s)) <= line (start (ci_range ci))
                 <= line (end_ (s_range s)))
         (d_stories (document (parse text))).
Proof. exact (idsWithin_parse text). Qed.

Lemma story_ids_within_story_witness :
  exists s ci,
    d_stories (document (parse (doc ["=== s"; "* A"; "= here"; "text"])))
      !! 0%nat = Some s
    /\ s_choiceIds s !! "here" = Some ci
    /\ ci_id ci = "here"
    /\ line (start (s_range s)) <= line (start (ci_range ci))
       <= line (end_ (s_range s)).
Proof.
  pose proof (story_ids_within_story (doc ["=== s"; "* A"; "= here"; "text"]))
    as H.
  destruct (d_stories (document (parse (doc ["=== s"; "* A"; "= here"; "text"]))))
    as [|s l] eqn:E; [vm_compute in E; discriminate|].
  apply List.Forall_inv in H.
  assert (E1 : exists ci, s_choiceIds s !! "here" = Some ci).
  { vm_compute in E. injection E as <- _. eexists. vm_compute. reflexivity. }
  destruct E1 as [ci Hci]. exists s, ci.
  split; [reflexivity|]. split; [exact Hci|]. apply (H _ _ Hci).
Defined.

End StoryIds.

Module ServerFacts.
Import Server StoryLayout StoryIds.

Definition holds (n : Z) (s : StoryNode) : Prop := lineS s <= n <= lineE s.

Lemma holds_test n s :
  (line (start (s_range s)) <=? n) && (n <=? line (end_ (s_range s))) = true
  <-> holds n s.
Proof.
  unfold holds, lineS, lineE. rewrite andb_true_iff, !Z.leb_le. tauto.
Qed.

Lemma findStory_spec (text : string) (n : Z) :
  let stories := d_stories (Parser.document (parse text)) in
  (forall s, findStoryAtLine (parse text) n = Some s <-> In s stories /\ holds n s)
  /\ (findStoryAtLine (parse text) n = None
      <-> Forall (fun s => ~ holds n s) stories).
Proof.
  cbv zeta. unfold findStoryAtLine.
  destruct (lines_apart text) as [_ Hap]. cbv zeta in Hap.
  set (stories := d_stories _) in *. split.
  - intros s. split.
    + intros H. apply find_some in H as [Hin Ht]. split; auto.
      now apply holds_test.
    + intros [Hin Hh].
      destruct (List.find _ stories) as [s0|] eqn:Hf.
      * apply find_some in Hf as [Hin0 Ht0]. apply holds_test in Ht0.
        apply list_elem_of_In, list_elem_of_lookup_1 in Hin as [i Hi].
        apply list_elem_of_In, list_elem_of_lookup_1 in Hin0 as [j Hj].
        unfold holds in *.
        destruct (Nat.lt_trichotomy i j) as [Hlt|[->|Hlt]].
        -- pose proof (Hap i j s s0 Hlt Hi Hj). lia.
        -- congruence.
        -- pose proof (Hap j i s0 s Hlt Hj Hi). lia.
      * exfalso. apply (find_none _ _ Hf) in Hin.
        apply holds_test in Hh. congruence.
  - split.
    + intros Hf. apply Forall_forall. intros s Hin Hh.
      apply list_elem_of_In in Hin. apply (find_none _ _ Hf) in Hin.
      apply holds_test in Hh. congruence.
    + intros Hall. destruct (List.find _ stories) as [s0|] eqn:Hf; auto.
      apply find_some in Hf as [Hin0 Ht0]. apply holds_test in Ht0.
      exfalso. revert Ht0. apply (proj1 (List.Forall_forall _ _) Hall s0 Hin0).
Qed.


(** X14.  The story of a line.  In a parsed document [findStoryAtLine]
    answers a story exactly when the story is one of the document and its
    lines hold the line, and no two stories hold the same line; it answers
    [null] exactly when no story holds the line. *)
Theorem findStoryAtLine_exact (text : string) (n : Z) :
  let stories := d_stories (Parser.document (parse text)) in
  (forall s, findStoryAtLine (parse text) n = Some s <-> In s stories /\ holds n s)
  /\ (findStoryAtLine (parse text) n = None
      <-> Forall (fun s => ~ holds n s) stories).
Proof. exact (findStory_spec text n). Qed.

Lemma findStoryAtLine_exact_witness :
  exists s,
    findStoryAtLine (parse (doc ["=== a"; "* x"; "=== b"; "* y"])) 3 = Some s
    /\ s_id s = "b".
Proof.
  destruct (findStoryAtLine_exact (doc ["=== a"; "* x"; "=== b"; "* y"]) 3)
    as [H _].
  cbv zeta in H.
  destruct (d_stories (Parser.document (parse (doc ["=== a"; "* x"; "=== b"; "* y"]))))
    as [|s0 [|s1 l]] eqn:E; try (vm_compute in E; discriminate).
  exists s1. 
  assert (E1 : s_id s1 = "b" /\ holds 3 s1).
  { vm_compute in E. injection E as _ <- _. unfold holds. vm_compute.
    repeat split; discriminate. }
  destruct E1 as [E1 E2]. split; [|exact E1].
  apply H. split; [right; now left | exact E2].
Defined.


Lemma convertRange_id r : Diagnostics.convertRange r = r.
Proof. now destruct r as [[a b] [c d]]. Qed.

(** X16.  Go-to-definition stays inside the story.  When the handler answers a
    location for a position of a document, the cursor is on a line of a
    story of the document, the line is a jump whose target is an identifier
    of that story, and the location is the range at which the story defines
    the identifier: a line of the same story, in the same document. *)
Theorem definition_in_story (text documentUri : string) (position : Position)
    (loc : Location) :
  definition (mkTextDocument documentUri text) (parse text) position = Some loc ->
  exists s ci m,
    findStoryAtLine (parse text) (line position) = Some s
    /\ Regex.exec re_jumpTarget
         (trimStart (lineAt (Regex.split Lexer.re_newline text) (line position)))
       = Some m
    /\ ci_id ci = Regex.group1 m 1
    /\ s_choiceIds s !! ci_id ci = Some ci
    /\ loc = mkLocation documentUri (ci_range ci)
    /\ holds (line position) s
    /\ holds (line (start (ci_range ci))) s.
Proof.
  unfold definition. cbv zeta. cbn [getText uri].
  destruct (Regex.exec re_jumpTarget _) as [m|] eqn:Hm; [|discriminate].
  destruct (_ && _); [|discriminate].
  destruct (findStoryAtLine (parse text) (line position)) as [s|] eqn:Hf;
    [|discriminate].
  destruct (s_choiceIds s !! Regex.group1 m 1) as [ci|] eqn:Hc; [|discriminate].
  intros [= <-]. rewrite convertRange_id.
  destruct (findStory_spec text (line position)) as [Hex _].
  apply Hex in Hf as Hs. destruct Hs as [Hin Hh].
  pose proof (proj1 (List.Forall_forall _ _) (idsWithin_parse text) s Hin) as Hids.
  destruct (Hids _ _ Hc) as [Hid Hl].
  exists s, ci, m. rewrite Hid.
  split; [reflexivity|]. split; [reflexivity|]. split; [reflexivity|].
  split; [exact Hc|]. split; [reflexivity|]. split; [exact Hh | exact Hl].
Qed.

Lemma definition_in_story_witness :
  exists s ci,
    findStoryAtLine (parse (doc ["=== s"; "* A"; "= here"; "> here"])) 3 = Some s
    /\ s_choiceIds s !! ci_id ci = Some ci
    /\ ci_range ci = mkRange (mkPosition 2 0) (mkPosition 2 6).
Proof.
  destruct (definition_in_story (doc ["=== s"; "* A"; "= here"; "> here"])
              "file:///a.exo" (mkPosition 3 4)
              (mkLocation "file:///a.exo"
                 (mkRange (mkPosition 2 0) (mkPosition 2 6))))
    as (s & ci & m & H1 & _ & _ & H2 & H3 & _).
  - vm_compute. reflexivity.
  - exists s, ci. injection H3 as <-. auto.
Defined.

End ServerFacts.

Module CacheFacts.
Import Server ServerLife.

(** Every entry of the cache is the parse result of the document that the
    manager holds under the URI, and the manager holds each document under
    its own URI. *)
Definition coherent (st : State) : Prop :=
  (forall u d, documents st !! u = Some d -> uri d = u)
  /\ (forall u r, documentParseCache st !! u = Some r ->
        exists d, documents st !! u = Some d /\ r = parse (getText d)).

Lemma coherent_step st ev : coherent st -> coherent (step st ev).
Proof.
  intros [Hk Hc]. destruct ev as [d|d|u]; unfold coherent;
    cbn [step documents documentParseCache].
  - split.
    + intros u d' Hl. destruct (decide (uri d = u)) as [<-|Hne].
      * rewrite lookup_insert_eq in Hl. congruence.
      * rewrite lookup_insert_ne in Hl by assumption. eauto.
    + intros u r Hl. unfold onDidChangeContent in Hl.
      destruct (decide (uri d = u)) as [<-|Hne].
      * rewrite lookup_delete_eq in Hl. discriminate.
      * rewrite lookup_delete_ne in Hl by assumption.
        rewrite lookup_insert_ne by assumption. eauto.
  - split.
    + intros u d' Hl. destruct (decide (uri d = u)) as [<-|Hne].
      * rewrite lookup_delete_eq in Hl. discriminate.
      * rewrite lookup_delete_ne in Hl by assumption. eauto.
    + intros u r Hl. unfold onDidClose in Hl.
      destruct (decide (uri d = u)) as [<-|Hne].
      * rewrite lookup_delete_eq in Hl. discriminate.
      * rewrite lookup_delete_ne in Hl by assumption.
        rewrite lookup_delete_ne by assumption. eauto.
  - destruct (documents st !! u) as [d|] eqn:Hd; [|split; auto].
    split; [exact Hk|]. cbn [documents documentParseCache].
    intros u' r. unfold getParseResult.
    destruct (documentParseCache st !! uri d) eqn:Hl; cbn [snd]; [apply Hc|].
    rewrite (Hk u d Hd).
    destruct (decide (u = u')) as [<-|Hne].
    + rewrite lookup_insert_eq. intros [= <-]. eauto.
    + rewrite lookup_insert_ne by assumption. apply Hc.
Qed.

Lemma coherent_run events : coherent (run events).
Proof.
  unfold run.
  assert (H : forall st, coherent st -> coherent (fold_left step events st)).
  { induction events as [|ev events IH]; intros st Hst; simpl; auto.
    apply IH. now apply coherent_step. }
  apply H. unfold initial.
  split; intros u x Hl; cbn [documents documentParseCache] in Hl;
    rewrite lookup_empty in Hl; discriminate.
Qed.

(** X17.  The parse cache is never stale.  After any sequence of changes,
    closings and requests, what [getParseResult] answers for a document that
    the manager holds is the parse result of the text that the document has
    now. *)
Theorem cache_never_stale (events : list Event) (document : TextDocument) :
  documents (run events) !! uri document = Some document ->
  (getParseResult (documentParseCache (run events)) document).1
  = parse (getText document).
Proof.
  intros Hd. destruct (coherent_run events) as [_ Hc].
  unfold getParseResult.
  destruct (documentParseCache (run events) !! uri document) as [r|] eqn:Hl;
    [|reflexivity].
  destruct (Hc _ _ Hl) as (d & Hd' & ->). simpl. congruence.
Qed.

Definition firstText : TextDocument := mkTextDocument "file:///a.exo" "=== a".
Definition secondText : TextDocument :=
  mkTextDocument "file:///a.exo" (doc ["=== a"; "* x"]).

Lemma cache_never_stale_witness :
  (getParseResult
     (documentParseCache
        (run [DidChangeContent firstText; Request "file:///a.exo";
              DidChangeContent secondText]))
     secondText).1
  = parse (doc ["=== a"; "* x"]).
Proof.
  apply (cache_never_stale
           [DidChangeContent firstText; Request "file:///a.exo";
            DidChangeContent secondText] secondText).
  reflexivity.
Defined.

End CacheFacts.

Module ChoiceTree.
Import Parser HeapShape.

(** The places of the tree at which a choice hangs: the roots of the
    stories and the children of the choices. *)
Definition rootsOf (stories : list StoryNode) : list ref :=
  flat_map s_choices stories.

Definition childrenOf (h : list ChoiceNode) : list ref :=
  flat_map c_children h.

(** The choices that are placed, while a story is read. *)
Definition placed (p : Parser) (cx : StoryLocals) : list ref :=
  rootsOf (stories p) ++ s_choices (story cx) ++ childrenOf (heap p).

Lemma childrenOf_alter f r h :
  (forall c, c_children (f c) = c_children c) ->
  childrenOf (alter f r h) = childrenOf h.
Proof.
  intros Hf. unfold childrenOf. revert r.
  induction h as [|c h IH]; intros r; [reflexivity|].
  destruct r as [|r].
  - change (alter f 0%nat (c :: h)) with (f c :: h). simpl. now rewrite Hf.
  - change (alter f (S r) (c :: h)) with (c :: alter f r h). simpl.
    now rewrite IH.
Qed.

Lemma childrenOf_alloc h c :
  c_children c = [] -> childrenOf (h ++ [c]) = childrenOf h.
Proof.
  intros Hc. unfold childrenOf. rewrite flat_map_app. simpl.
  now rewrite Hc, !app_nil_r.
Qed.

Lemma childrenOf_child r parent h :
  (parent < length h)%nat ->
  childrenOf (alter (pushChildC r) parent h) ≡ₚ childrenOf h ++ [r].
Proof.
  unfold childrenOf. revert parent.
  induction h as [|c h IH]; intros parent Hp; simpl in Hp; [lia|].
  destruct parent as [|parent].
  - change (alter (pushChildC r) 0%nat (c :: h)) with (pushChildC r c :: h).
    simpl. rewrite <- !app_assoc.
    apply Permutation_app_head, Permutation_app_comm.
  - change (alter (pushChildC r) (S parent) (c :: h))
      with (c :: alter (pushChildC r) parent h).
    simpl. rewrite <- app_assoc. apply Permutation_app_head. apply IH. lia.
Qed.


Lemma stories_alloc_update p cx token :
  stories (parseStoryToken p cx token).1 = stories p.
Proof. apply ChoiceIds.stories_parseStoryToken. Qed.

Definition complete (p : Parser) (cx : StoryLocals) : Prop :=
  placed p cx ≡ₚ seq 0 (length (heap p)).

Lemma placed_root (roots sc ch : list ref) n :
  roots ++ sc ++ ch ≡ₚ seq 0 n ->
  roots ++ (sc ++ [n]) ++ ch ≡ₚ seq 0 (n + 1).
Proof.
  intros H. rewrite Nat.add_1_r, seq_S. simpl. rewrite <- H.
  rewrite <- !app_assoc. do 2 apply Permutation_app_head.
  apply Permutation_app_comm.
Qed.

Lemma placed_child (roots sc ch ch' : list ref) n :
  roots ++ sc ++ ch ≡ₚ seq 0 n ->
  ch' ≡ₚ ch ++ [n] ->
  roots ++ sc ++ ch' ≡ₚ seq 0 (n + 1).
Proof.
  intros H H'. rewrite Nat.add_1_r, seq_S. simpl. rewrite <- H, H'.
  now rewrite !app_assoc.
Qed.

Lemma placed_token p cx token :
  shaped p cx -> complete p cx ->
  complete (parseStoryToken p cx token).1 (parseStoryToken p cx token).2.
Proof.
  intros [Hw Hs] Hc. unfold complete, placed in *.
  rewrite stories_alloc_update.
  unfold parseStoryToken, alloc, update. cbv zeta.
  repeat case_match; simplify_eq; cbn [fst snd heap setHeap story setStory
    pushError setErrors s_choices pushRequirementS pushMutationS pushChoiceS
    setChoiceIdS];
    rewrite ?heap_advance, ?length_alter.
  all: try (rewrite childrenOf_alter by (intros []; reflexivity); exact Hc).
  all: try exact Hc.
  all: rewrite length_app; cbn [length].
  all: try (rewrite childrenOf_alloc by reflexivity; now apply placed_root).
  (* a nested choice with a parent *)
  match goal with H : popWhile _ _ = _ |- _ => rename H into Hp end.
  pose proof (stackOk_popWhile _ _ (levelOf token) Hs) as Hs'.
  rewrite Hp in Hs'. inversion Hs' as [|? ? Hr Hrest]. subst.
  eapply placed_child; [exact Hc|].
  rewrite childrenOf_child by (rewrite length_app; simpl; lia).
  now rewrite childrenOf_alloc.
Qed.

Lemma complete_loop fuel : forall p cx,
  shaped p cx -> complete p cx ->
  complete (parseStoryLoop fuel p cx).1 (parseStoryLoop fuel p cx).2.
Proof.
  induction fuel as [|fuel IH]; intros p cx Hs Hc; simpl; auto.
  destruct (isAtEnd p); auto.
  destruct (peek p) as [token|]; auto.
  destruct (isType token TokenType.STORY_HEADER); auto.
  destruct (isType token TokenType.EOF); auto.
  pose proof (shaped_token p cx token Hs) as Hs'.
  pose proof (placed_token p cx token Hs Hc) as Hc'.
  destruct (parseStoryToken p cx token) as [p' cx']. now apply IH.
Qed.

(** Between the stories every choice is placed. *)
Definition settled (p : Parser) : Prop :=
  wellFormed (heap p)
  /\ rootsOf (stories p) ++ childrenOf (heap p) ≡ₚ seq 0 (length (heap p)).

Lemma settled_parseStory p : settled p -> settled (parseStory p).
Proof.
  intros [Hw Hc]. unfold parseStory. destruct (peek p) as [h|]; [|now split].
  cbv zeta.
  assert (Hs0 : shaped (advance p) (mkLocals (newStory h) None [])).
  { split; [now rewrite heap_advance | constructor]. }
  assert (Hc0 : complete (advance p) (mkLocals (newStory h) None [])).
  { unfold complete, placed. simpl.
    now rewrite heap_advance, ChoiceIds.stories_advance. }
  pose proof (shaped_loop (length (tokens (advance p))) (advance p) _ Hs0) as Hs.
  pose proof (complete_loop (length (tokens (advance p))) (advance p) _ Hs0 Hc0)
    as Hc'.
  destruct (parseStoryLoop _ _ _) as [p' cx]. simpl in *.
  destruct Hs as [Hw' _]. split; [exact Hw'|].
  unfold complete, placed in Hc'. unfold rootsOf in *. simpl.
  rewrite flat_map_app. simpl. rewrite app_nil_r.
  destruct (0 <? length (tokens p'))%nat; simpl; now rewrite <- app_assoc.
Qed.

Lemma settled_parseLoop fuel : forall p, settled p -> settled (parseLoop fuel p).
Proof.
  induction fuel as [|fuel IH]; intros p H; simpl; auto.
  destruct (isAtEnd p); auto.
  destruct (peek p) as [token|]; auto.
  assert (Ha : settled (advance p)).
  { destruct H as [Hw Hc]. split; rewrite ?heap_advance, ?ChoiceIds.stories_advance; auto. }
  assert (Ha' : forall e, settled (advance (pushError p e))).
  { intros e. destruct H as [Hw Hc].
    split; rewrite ?heap_advance, ?ChoiceIds.stories_advance; auto. }
  repeat case_match; auto; apply IH; auto using settled_parseStory.
Qed.

(** X18.  No choice is lost and none is placed twice.  In a parsed document
    every choice node that the parser has made hangs at exactly one place:
    among the roots of one story or among the children of one choice; and a
    child is always a choice made after its parent, so the choices of a
    document form a forest. *)
Theorem choices_placed_once (text : string) :
  let d := document (parse text) in
  flat_map s_choices (d_stories d) ++ flat_map c_children (d_heap d)
  ≡ₚ seq 0 (length (d_heap d))
  /\ (forall r c r', d_heap d !! r = Some c -> In r' (c_children c) ->
        (r < r' < length (d_heap d))%nat).
Proof.
  cbv zeta. unfold parse, Parser.parse. cbv zeta. simpl.
  assert (H : settled (parseLoop (length (tokens (checkDisabled (Parser.new text))))
                         (checkDisabled (Parser.new text)))).
  { apply settled_parseLoop. unfold checkDisabled, Parser.new.
    destruct (checkDisabledLoop _);
      (split; [simpl; intros r c Hc; rewrite lookup_nil in Hc; discriminate
              | reflexivity]). }
  destruct H as [Hw Hc]. split; [exact Hc|].
  intros r c r' Hl Hin. exact (Hw r c Hl r' Hin).
Qed.

Lemma choices_placed_once_witness :
  let d := document (parse (doc ["=== t"; "* A"; "*** C"; "**= h"; "* B"])) in
  flat_map s_choices (d_stories d) ++ flat_map c_children (d_heap d)
  ≡ₚ [0; 1; 2; 3]%nat.
Proof.
  cbv zeta.
  destruct (choices_placed_once (doc ["=== t"; "* A"; "*** C"; "**= h"; "* B"]))
    as [H _].
  exact H.
Defined.

End ChoiceTree.

Module ChoiceCount.
Import Parser HeapShape TokenLines ParserLoops StoryLayout.

(** A token for which the parser makes a choice node: a choice line, or the
    marker of a hidden choice. *)
Definition makesChoice (t : Token) : bool :=
  isType t TokenType.CHOICE
  || (isType t TokenType.CHOICE_ID && ci_isHidden (parseChoiceId t)).

(** The tokens from the first story header on. *)
Fixpoint fromFirstHeader (ts : list Token) : list Token :=
  match ts with
  | [] => []
  | t :: ts' => if isHeader t then ts else fromFirstHeader ts'
  end.

Definition choiceTokens (ts : list Token) : list Token :=
  List.filter makesChoice (fromFirstHeader ts).

Lemma fromFirstHeader_snoc ts t :
  fromFirstHeader (ts ++ [t])
  = if existsb isHeader ts then fromFirstHeader ts ++ [t]
    else if isHeader t then [t] else [].
Proof.
  induction ts as [|a ts IH]; simpl; [reflexivity|].
  destruct (isHeader a); simpl; auto.
Qed.

Lemma fromFirstHeader_none ts :
  existsb isHeader ts = false <-> fromFirstHeader ts = [].
Proof.
  induction ts as [|a ts IH]; simpl; [tauto|].
  destruct (isHeader a); simpl; [split; discriminate | exact IH].
Qed.

Lemma heap_token p cx token :
  length (heap (parseStoryToken p cx token).1)
  = (length (heap p) + if makesChoice token then 1 else 0)%nat.
Proof.
  unfold makesChoice, isType, parseStoryToken, alloc, update. cbv zeta.
  destruct (t_type token) eqn:Hty; cbn [TokenType.eqb orb andb];
    repeat case_match; simplify_eq; cbn [fst heap setHeap pushError setErrors];
    rewrite ?length_alter, ?length_app, ?heap_advance; simpl; lia.
Qed.

(** The choices made so far are those of the tokens consumed. *)
Definition counted (p : Parser) : Prop :=
  length (heap p) = length (choiceTokens (firstn (current p) (tokens p))).

Lemma counted_token p cx token :
  isAtEnd p = false -> peek p = Some token -> isHeader token = false ->
  existsb isHeader (firstn (current p) (tokens p)) = true ->
  counted p ->
  counted (parseStoryToken p cx token).1
  /\ existsb isHeader (firstn (current (parseStoryToken p cx token).1)
                         (tokens (parseStoryToken p cx token).1)) = true.
Proof.
  intros He Hp Hh Hex Hc. unfold counted in *.
  pose proof (peek_not_at_end p token He Hp) as Hl.
  destruct (parseStoryToken_consumes p cx token He) as [Ht Hcur].
  rewrite Ht, Hcur, (take_S_r _ _ _ Hl), heap_token, Hc.
  unfold choiceTokens. rewrite fromFirstHeader_snoc, Hex.
  rewrite List.filter_app, length_app, existsb_app, Hex. simpl.
  destruct (makesChoice token); simpl; split; auto.
Qed.

Lemma counted_loop fuel : forall p cx,
  existsb isHeader (firstn (current p) (tokens p)) = true ->
  counted p -> counted (parseStoryLoop fuel p cx).1.
Proof.
  induction fuel as [|fuel IH]; intros p cx Hex Hc; simpl; auto.
  destruct (isAtEnd p) eqn:He; auto.
  destruct (peek p) as [token|] eqn:Hp; auto.
  destruct (isType token TokenType.STORY_HEADER) eqn:Hh; auto.
  destruct (isType token TokenType.EOF); auto.
  destruct (counted_token p cx token He Hp Hh Hex Hc) as [Hc' Hex'].
  destruct (parseStoryToken p cx token) as [p' cx']. now apply IH.
Qed.

(** Between the stories: the choices are counted, no choice is made before
    the first header, and after a story comes a header or the end. *)
Definition between (p : Parser) : Prop :=
  counted p
  /\ (stories p = [] -> existsb isHeader (firstn (current p) (tokens p)) = false)
  /\ (stories p <> [] ->
      isAtEnd p = true
      \/ exists token, peek p = Some token /\ isHeader token = true).

Lemma between_parseStory p h :
  isAtEnd p = false -> peek p = Some h -> isHeader h = true ->
  between p -> between (parseStory p).
Proof.
  intros He Hp Hh (Hc & H0 & H1).
  pose proof (peek_not_at_end p h He Hp) as Hl.
  destruct (advance_not_at_end p He) as [Ht Hcur].
  assert (Hex : existsb isHeader (firstn (current (advance p)) (tokens (advance p)))
                = true).
  { rewrite Ht, Hcur, (take_S_r _ _ _ Hl), existsb_app. simpl.
    rewrite Hh. now rewrite orb_true_r. }
  assert (Hmk : makesChoice h = false).
  { unfold makesChoice, isType. unfold isHeader in Hh.
    destruct (t_type h); try discriminate. reflexivity. }
  assert (Hc1 : counted (advance p)).
  { unfold counted in *. rewrite heap_advance, Ht, Hcur, (take_S_r _ _ _ Hl), Hc.
    unfold choiceTokens. rewrite fromFirstHeader_snoc, Hh.
    destruct (existsb isHeader (firstn (current p) (tokens p))) eqn:E.
    - rewrite List.filter_app, length_app. simpl. rewrite Hmk. simpl. lia.
    - apply fromFirstHeader_none in E. rewrite E. simpl. now rewrite Hmk. }
  unfold parseStory. rewrite Hp. cbv zeta.
  pose proof (counted_loop (length (tokens (advance p))) (advance p)
                (mkLocals (newStory h) None []) Hex Hc1) as Hc'.
  pose proof (parseStoryLoop_stops (length (tokens (advance p))) (advance p)
                (mkLocals (newStory h) None [])) as Hstop.
  cbv zeta in Hstop.
  destruct (parseStoryLoop _ _ _) as [p' cx]. simpl in *.
  split; [exact Hc'|]. split.
  - intros E. cbn [stories pushStory] in E. destruct (stories p'); discriminate.
  - intros _. apply Hstop. unfold remaining. lia.
Qed.

Lemma between_advance p token :
  isAtEnd p = false -> peek p = Some token -> isHeader token = false ->
  between p -> between (advance p).
Proof.
  intros He Hp Hh (Hc & H0 & H1).
  pose proof (peek_not_at_end p token He Hp) as Hl.
  destruct (advance_not_at_end p He) as [Ht Hcur].
  destruct (stories p) as [|s l] eqn:Es.
  - specialize (H0 eq_refl).
    assert (Hex : existsb isHeader (firstn (S (current p)) (tokens p)) = false).
    { rewrite (take_S_r _ _ _ Hl), existsb_app, H0. simpl. now rewrite Hh. }
    split; [|split]; rewrite ?ChoiceIds.stories_advance, ?Es, ?Ht, ?Hcur; auto;
      try congruence.
    unfold counted in *. rewrite heap_advance, Ht, Hcur, Hc.
    apply fromFirstHeader_none in H0, Hex.
    unfold choiceTokens. now rewrite H0, Hex.
  - exfalso. destruct H1 as [H1|(t & Ht' & Hh')]; [discriminate| |].
    + congruence.
    + congruence.
Qed.

Lemma between_parseLoop fuel : forall p, between p -> between (parseLoop fuel p).
Proof.
  induction fuel as [|fuel IH]; intros p H; simpl; auto.
  destruct (isAtEnd p) eqn:He; auto.
  destruct (peek p) as [token|] eqn:Hp; auto.
  destruct (isType token TokenType.STORY_HEADER) eqn:Hh.
  - apply IH. eapply between_parseStory; eauto.
  - assert (Ha' : forall e, between (advance (pushError p e))).
    { intros e. apply (between_advance (pushError p e) token); auto. }
    pose proof (between_advance p token He Hp Hh H) as Ha.
    repeat case_match; auto; apply IH; auto.
Qed.

(** X19.  One choice node for each choice line of a story.  The parser makes
    as many choice nodes as the tokens hold choice lines and markers of
    hidden choices from the first story header on; what stands before the
    first header makes none. *)
Theorem one_node_per_choice_line (text : string) :
  length (d_heap (document (parse text)))
  = length (choiceTokens (Lexer.r_tokens (tokenize text))).
Proof.
  unfold parse, Parser.parse. cbv zeta. cbn [document d_heap].
  unfold validateJumpTargets. cbn [heap setErrors].
  set (p0 := checkDisabled (Parser.new text)).
  assert (H0 : tokens p0 = Lexer.r_tokens (tokenize text)
               /\ stories p0 = [] /\ current p0 = 0%nat /\ heap p0 = []).
  { unfold p0, checkDisabled, Parser.new. now destruct (checkDisabledLoop _). }
  destruct H0 as (Ht0 & Hs0 & Hc0 & Hh0).
  assert (Hb : between p0).
  { unfold between, counted. rewrite Hc0, Hh0, Hs0. simpl.
    split; [reflexivity|]. split; [reflexivity | congruence]. }
  apply (between_parseLoop (length (tokens p0))) in Hb.
  destruct Hb as (Hc & _).
  pose proof (tokens_parseLoop (length (tokens p0)) p0) as Ht.
  pose proof (parseLoop_reaches_end (length (tokens p0)) p0) as He.
  set (p := parseLoop (length (tokens p0)) p0) in *.
  unfold counted in Hc. rewrite Hc, Ht, Ht0.
  destruct (LineRecords.tokenize_tokens (Lexer.new text) eq_refl)
    as (toks & eof & Htk & Heof & Hn).
  fold (tokenize text) in Htk. rewrite Htk.
  assert (Hlast : choiceTokens (toks ++ [eof]) = choiceTokens toks).
  { unfold choiceTokens. rewrite fromFirstHeader_snoc.
    unfold isHeader at 2. rewrite Heof. simpl.
    destruct (existsb isHeader toks) eqn:E.
    - rewrite List.filter_app. simpl. unfold makesChoice, isType.
      rewrite Heof. simpl. now rewrite app_nil_r.
    - apply fromFirstHeader_none in E. now rewrite E. }
  specialize (He ltac:(unfold remaining; lia)).
  unfold isAtEnd in He. apply orb_true_iff in He as [He|He].
  - apply Nat.leb_le in He. rewrite Ht, Ht0, Htk in He.
    now rewrite firstn_all2 by lia.
  - destruct (tokens p !! current p) as [t|] eqn:Hl; [|discriminate].
    rewrite Ht, Ht0, Htk in Hl. rewrite Hlast.
    destruct (decide (current p < length toks)%nat) as [Hlt|Hge].
    + rewrite lookup_app_l in Hl by lia.
      apply list_elem_of_lookup_2, list_elem_of_In in Hl.
      apply (proj1 (List.Forall_forall _ _) Hn) in Hl.
      unfold isType in He. unfold LexerFacts.notEOF in Hl.
      destruct (t_type t); discriminate || contradiction.
    + apply lookup_lt_Some in Hl. rewrite length_app in Hl. simpl in Hl.
      assert (current p = length toks) as -> by lia.
      now rewrite take_app_length.
Qed.

(** A choice line before the first header makes no node. *)
Example choice_before_header :
  length (d_heap (document (parse (doc ["* early"; "=== s"; "* A"; "**= h"]))))
  = 2%nat.
Proof. reflexivity. Qed.

End ChoiceCount.

(** ** The word under the cursor *)

Module WordRanges.
Import Regex RegexFacts Hover.

Definition wordChar (a : ascii) : bool := JS.isWord a || Ascii.eqb a "_".

(** Is there a word character at offset [i] of the line? *)
Definition wordCharAt (line : string) (i : Z) : bool :=
  (0 <=? i)
  && match JS.chars line !! Z.to_nat i with
     | Some a => JS.isWord a
     | None => false
     end.

Lemma wordChar_isWord a : wordChar a = JS.isWord a.
Proof.
  unfold wordChar. destruct (Ascii.eqb_spec a "_") as [->|_];
    [reflexivity | apply orb_false_r].
Qed.

(** The same on offsets that are natural numbers. *)
Definition wc (l : list ascii) (i : nat) : bool :=
  match l !! i with Some a => wordChar a | None => false end.

Lemma wordCharAt_wc line (i : nat) :
  wordCharAt line (Z.of_nat i) = wc (JS.chars line) i.
Proof.
  unfold wordCharAt, wc. rewrite Nat2Z.id.
  replace (0 <=? Z.of_nat i) with true by (symmetry; apply Z.leb_le; lia).
  simpl. destruct (_ !! i); [now rewrite wordChar_isWord | reflexivity].
Qed.

Lemma runLength_le p s : (runLength p s <= length s)%nat.
Proof. induction s as [|a s IH]; simpl; [lia|]. destruct (p a); lia. Qed.

Lemma runLength_all p s : forall j,
  (j < runLength p s)%nat -> exists a, s !! j = Some a /\ p a = true.
Proof.
  induction s as [|a s IH]; intros j; simpl; [lia|].
  destruct (p a) eqn:Hp; [|lia]. destruct j as [|j]; simpl; eauto.
  intros Hj. apply IH. lia.
Qed.

Lemma runLength_stop p s :
  match s !! runLength p s with Some a => p a = false | None => True end.
Proof.
  induction s as [|a s IH]; simpl; [exact I|].
  destruct (p a) eqn:Hp; simpl; auto.
Qed.

Lemma matchAt_word line pos :
  matchAt wordRegex line pos
  = let n := runLength wordChar (skipn pos (JS.chars line)) in
    if (0 <? n)%nat then Some (mkMatch line pos (pos + n) []) else None.
Proof.
  unfold matchAt, wordRegex, Plus. cbn [run].
  destruct (skipn pos (JS.chars line)) as [|a s'] eqn:Hs; [reflexivity|].
  cbn [runLength]. fold (wordChar a). destruct (wordChar a); [|reflexivity].
  cbv zeta. change (0 <? S _)%nat with true. cbv iota.
  rewrite (starLoop_chr wordChar) by (reflexivity || lia).
  rewrite greedy_longest by (intros; discriminate).
  now rewrite Nat.add_succ_r.
Qed.

(** A word starts at offset [i] exactly when there is a word character. *)
Lemma matchAt_word_wc line pos :
  let l := JS.chars line in
  match matchAt wordRegex line pos with
  | Some m =>
      m_index m = pos /\ (pos < m_end m <= length l)%nat
      /\ (forall i, (pos <= i < m_end m)%nat -> wc l i = true)
      /\ wc l (m_end m) = false
  | None => wc l pos = false
  end.
Proof.
  cbv zeta. rewrite matchAt_word. cbv zeta.
  set (s := skipn pos (JS.chars line)).
  pose proof (runLength_le wordChar s) as Hle.
  pose proof (runLength_all wordChar s) as Hall.
  pose proof (runLength_stop wordChar s) as Hstop.
  assert (Hlen : length s = (length (JS.chars line) - pos)%nat)
    by apply length_skipn.
  assert (Hlook : forall j, s !! j = JS.chars line !! (pos + j)%nat)
    by (intros j; apply lookup_drop).
  destruct (0 <? runLength wordChar s)%nat eqn:Hn.
  - apply Nat.ltb_lt in Hn. cbn [m_index m_end].
    split; [reflexivity|]. split; [lia|]. split.
    + intros i Hi. destruct (Hall (i - pos)%nat) as (a & Ha & Hp); [lia|].
      rewrite Hlook in Ha. replace (pos + (i - pos))%nat with i in Ha by lia.
      unfold wc. now rewrite Ha.
    + unfold wc. rewrite <- Hlook. destruct (s !! _); auto.
  - apply Nat.ltb_ge in Hn. assert (H0 : runLength wordChar s = 0%nat) by lia.
    rewrite H0 in Hstop. unfold wc.
    rewrite Hlook, Nat.add_0_r in Hstop. destruct (_ !! pos); auto.
Qed.

(** The leftmost match at offset [pos] or later. *)
Lemma searchFrom_first r input fuel : forall pos,
  match searchFrom r input pos fuel with
  | Some m =>
      exists q, (pos <= q <= pos + fuel)%nat /\ matchAt r input q = Some m
                /\ forall i, (pos <= i < q)%nat -> matchAt r input i = None
  | None => forall i, (pos <= i <= pos + fuel)%nat -> matchAt r input i = None
  end.
Proof.
  induction fuel as [|fuel IH]; intros pos; cbn [searchFrom];
    destruct (matchAt r input pos) as [m|] eqn:Hm.
  - exists pos. split; [lia|]. split; [exact Hm | intros; lia].
  - intros i Hi. now replace i with pos by lia.
  - exists pos. split; [lia|]. split; [exact Hm | intros; lia].
  - specialize (IH (S pos)).
    destruct (searchFrom r input (S pos) fuel) as [m|].
    + destruct IH as (q & Hq & Hmq & Hnone). exists q.
      split; [lia|]. split; [exact Hmq|].
      intros i Hi. destruct (decide (i = pos)) as [->|]; [exact Hm|].
      apply Hnone. lia.
    + intros i Hi. destruct (decide (i = pos)) as [->|]; [exact Hm|].
      apply IH. lia.
Qed.

(** A word of the line: a run of word characters that cannot be extended. *)
Definition isWordOf (l : list ascii) (m : MatchResult) : Prop :=
  (m_index m < m_end m <= length l)%nat
  /\ (forall i, (m_index m <= i < m_end m)%nat -> wc l i = true)
  /\ wc l (m_end m) = false
  /\ (m_index m = 0%nat \/ wc l (m_index m - 1) = false).

(** The matches of the loop are the words of the line. *)
Lemma execAll_words line fuel : forall lastIndex,
  let l := JS.chars line in
  (lastIndex <= length l)%nat ->
  (length l - lastIndex < fuel)%nat ->
  lastIndex = 0%nat \/ wc l lastIndex = false ->
  let ms := Brackets.execAll wordRegex line lastIndex fuel in
  Forall (isWordOf l) ms
  /\ forall i, (lastIndex <= i)%nat -> wc l i = true ->
       exists m, In m ms /\ (m_index m <= i < m_end m)%nat.
Proof.
  cbv zeta. induction fuel as [|fuel IH]; intros lastIndex Hl Hf H0; [lia|].
  cbn [Brackets.execAll]. unfold execFrom.
  rewrite <- LineCount.length_chars.
  replace (lastIndex <=? length (JS.chars line))%nat with true
    by (symmetry; apply Nat.leb_le; lia).
  pose proof (searchFrom_first wordRegex line
                (length (JS.chars line) - lastIndex) lastIndex) as Hs.
  destruct (searchFrom wordRegex line lastIndex _) as [m|].
  - destruct Hs as (q & Hq & Hm & Hnone).
    pose proof (matchAt_word_wc line q) as Hw. cbv zeta in Hw.
    rewrite Hm in Hw. destruct Hw as (Hi & He & Hall & Hstop).
    replace (lastIndex <? m_end m)%nat with true
      by (symmetry; apply Nat.ltb_lt; lia).
    destruct (IH (m_end m)) as [IH1 IH2]; [lia | lia | now right |].
    split.
    + constructor; [|exact IH1]. unfold isWordOf. rewrite Hi.
      split; [lia|]. split; [exact Hall|]. split; [exact Hstop|].
      destruct (decide (q = lastIndex)) as [->|Hne].
      * destruct H0 as [->|H0]; [now left|].
        rewrite Hall in H0 by lia. discriminate.
      * right. pose proof (matchAt_word_wc line (q - 1)) as Hw'.
        cbv zeta in Hw'. rewrite Hnone in Hw' by lia. exact Hw'.
    + intros i Hil Hwc. destruct (decide (i < q)%nat) as [Hlt|Hge].
      * pose proof (matchAt_word_wc line i) as Hw'.
        cbv zeta in Hw'. rewrite Hnone in Hw' by lia. congruence.
      * destruct (decide (i < m_end m)%nat) as [Hlt|Hge'].
        -- exists m. split; [now left | lia].
        -- destruct (IH2 i) as (m' & Hin & Hm'); [lia | exact Hwc |].
           exists m'. split; [now right | exact Hm'].
  - split; [constructor|]. intros i Hil Hwc. exfalso.
    destruct (decide (i <= length (JS.chars line))%nat) as [Hle|Hgt].
    + pose proof (matchAt_word_wc line i) as Hw'.
      cbv zeta in Hw'. rewrite Hs in Hw' by lia. congruence.
    + unfold wc in Hwc. rewrite lookup_ge_None_2 in Hwc by lia. discriminate.
Qed.

Lemma words_of_line line :
  let l := JS.chars line in
  let ms := Brackets.execAll wordRegex line 0 (S (String.length line)) in
  Forall (isWordOf l) ms
  /\ forall i, wc l i = true ->
       exists m, In m ms /\ (m_index m <= i < m_end m)%nat.
Proof.
  cbv zeta.
  destruct (execAll_words line (S (String.length line)) 0) as [H1 H2].
  - lia.
  - rewrite LineCount.length_chars. lia.
  - now left.
  - split; [exact H1|]. intros i. apply H2. lia.
Qed.

Lemma wordCharAt_nonneg line i : wordCharAt line i = true -> 0 <= i.
Proof.
  unfold wordCharAt. intros H. apply andb_true_iff in H as [H _].
  now apply Z.leb_le.
Qed.

Lemma wordCharAt_before line (n : nat) :
  n = 0%nat \/ wc (JS.chars line) (n - 1) = false ->
  wordCharAt line (Z.of_nat n - 1) = false.
Proof.
  intros [->|H]; [reflexivity|].
  destruct n as [|n]; [reflexivity|].
  replace (Z.of_nat (S n) - 1) with (Z.of_nat n) by lia.
  rewrite wordCharAt_wc. now replace (S n - 1)%nat with n in H by lia.
Qed.

(** The word that the loop answers. *)
Lemma getWordRange_found line character r :
  getWordRangeAtPosition line character = Some r ->
  exists m, isWordOf (JS.chars line) m
            /\ r = mkWordRange (Z.of_nat (m_index m)) (Z.of_nat (m_end m))
            /\ Z.of_nat (m_index m) <= character <= Z.of_nat (m_end m).
Proof.
  unfold getWordRangeAtPosition.
  destruct (List.find _ _) as [m|] eqn:Hf; [|discriminate].
  intros [= <-]. apply find_some in Hf as [Hin Hc].
  apply andb_true_iff in Hc as [H1 H2].
  apply Z.leb_le in H1. apply Z.leb_le in H2.
  destruct (words_of_line line) as [Hall _]. cbv zeta in Hall.
  exists m. split; [|split; [reflexivity | lia]].
  exact (proj1 (List.Forall_forall _ _) Hall m Hin).
Qed.

(** X20.  The word under the cursor.  The range that hover works with holds
    the position (its end included), is not empty, consists of word
    characters, and is a whole word: there is no word character just before
    it or just after it. *)
Theorem word_range_is_whole_word (line : string) (character : Z)
    (r : WordRange) :
  getWordRangeAtPosition line character = Some r ->
  0 <= w_start r < w_end r /\ w_end r <= JS.len line
  /\ w_start r <= character <= w_end r
  /\ (forall i, w_start r <= i < w_end r -> wordCharAt line i = true)
  /\ wordCharAt line (w_start r - 1) = false
  /\ wordCharAt line (w_end r) = false.
Proof.
  intros H. destruct (getWordRange_found _ _ _ H)
    as (m & (Hlen & Hall & Hstop & Hleft) & -> & Hc).
  cbn [w_start w_end]. unfold JS.len. rewrite <- LineCount.length_chars.
  split; [lia|]. split; [lia|]. split; [exact Hc|]. split; [|split].
  - intros i Hi. replace i with (Z.of_nat (Z.to_nat i)) by lia.
    rewrite wordCharAt_wc. apply Hall. lia.
  - now apply wordCharAt_before.
  - now rewrite wordCharAt_wc.
Qed.

Lemma word_range_is_whole_word_witness :
  getWordRangeAtPosition "ab cd" 5 = Some (mkWordRange 3 5)
  /\ wordCharAt "ab cd" (3 - 1) = false.
Proof.
  split; [reflexivity|].
  apply (word_range_is_whole_word "ab cd" 5 (mkWordRange 3 5)). reflexivity.
Defined.

(** X21.  Hover finds a word exactly when the position touches one: when the
    character at the position or the character before it is a word
    character. *)
Theorem word_range_iff_touching (line : string) (character : Z) :
  is_Some (getWordRangeAtPosition line character)
  <-> wordCharAt line character = true
      \/ wordCharAt line (character - 1) = true.
Proof.
  split.
  - intros [r H]. destruct (getWordRange_found _ _ _ H)
      as (m & (Hlen & Hall & Hstop & Hleft) & -> & Hc).
    destruct (decide (character < Z.of_nat (m_end m))) as [Hlt|Hge].
    + left. replace character with (Z.of_nat (Z.to_nat character)) by lia.
      rewrite wordCharAt_wc. apply Hall. lia.
    + right. replace (character - 1) with (Z.of_nat (m_end m - 1)) by lia.
      rewrite wordCharAt_wc. apply Hall. lia.
  - intros H.
    assert (exists i : nat, wc (JS.chars line) i = true
                            /\ Z.of_nat i <= character <= Z.of_nat i + 1)
      as (i & Hi & Hc).
    { destruct H as [H|H]; pose proof (wordCharAt_nonneg _ _ H) as H0.
      - exists (Z.to_nat character). rewrite <- wordCharAt_wc.
        rewrite Z2Nat.id by lia. split; [exact H | lia].
      - exists (Z.to_nat (character - 1)). rewrite <- wordCharAt_wc.
        rewrite Z2Nat.id by lia. split; [exact H | lia]. }
    destruct (words_of_line line) as [_ Hcover]. cbv zeta in Hcover.
    destruct (Hcover i Hi) as (m & Hin & Hm).
    unfold getWordRangeAtPosition.
    destruct (List.find _ _) as [m'|] eqn:Hf; [eexists; reflexivity|].
    exfalso. pose proof (find_none _ _ Hf m Hin) as Hn. cbv beta in Hn.
    apply andb_false_iff in Hn as [Hn|Hn]; apply Z.leb_gt in Hn; lia.
Qed.

End WordRanges.

(** ** The bracket validator counts the blocks *)

Module BracketCounts.
Import Regex Brackets BracketFacts.

(** The bracketed expressions of the lines, in the order of the scan:
    those of each line once its comments are cut out, [inBlock] telling
    whether the first line starts inside a block comment. *)
Fixpoint matchesOf (lines : list string) (inBlock : bool) : list MatchResult :=
  match lines with
  | [] => []
  | line :: rest =>
      match stripComments inBlock line with
      | None => matchesOf rest inBlock
      | Some (l, b) =>
          execAll bracketRegex l 0 (S (String.length l)) ++ matchesOf rest b
      end
  end.

(** The number of blocks open after the expressions [ms], when [d] are open
    before: an opening keyword opens one, a closing keyword closes one if
    there is one. *)
Fixpoint depthAfter (d : nat) (ms : list MatchResult) : nat :=
  match ms with
  | [] => d
  | m :: ms' =>
      if isOpening (content m) then depthAfter (S d) ms'
      else if isClosing (content m) then depthAfter (Nat.pred d) ms'
      else depthAfter d ms'
  end.

(** The closing keywords met with no block open. *)
Fixpoint strayCloses (d : nat) (ms : list MatchResult) : nat :=
  match ms with
  | [] => 0
  | m :: ms' =>
      if isOpening (content m) then strayCloses (S d) ms'
      else if isClosing (content m)
           then ((if (d =? 0)%nat then 1 else 0) + strayCloses (Nat.pred d) ms')%nat
      else strayCloses d ms'
  end.

(** The middle keywords met with no block open. *)
Fixpoint strayMiddles (d : nat) (ms : list MatchResult) : nat :=
  match ms with
  | [] => 0
  | m :: ms' =>
      if isOpening (content m) then strayMiddles (S d) ms'
      else if isClosing (content m) then strayMiddles (Nat.pred d) ms'
      else if isMiddle (content m)
           then ((if (d =? 0)%nat then 1 else 0) + strayMiddles d ms')%nat
      else strayMiddles d ms'
  end.

(** The number of diagnostics with the code [c]. *)
Definition countCode (c : string) (es : list ParseError) : nat :=
  length (List.filter (fun e => String.eqb (e_code e) c) es).

Lemma countCode_app c es es' :
  countCode c (es ++ es') = (countCode c es + countCode c es')%nat.
Proof. unfold countCode. now rewrite List.filter_app, length_app. Qed.

Lemma depthAfter_app ms ms' : forall d,
  depthAfter d (ms ++ ms') = depthAfter (depthAfter d ms) ms'.
Proof.
  induction ms as [|m ms IH]; intros d; cbn [app depthAfter]; auto.
  destruct (isOpening _); [|destruct (isClosing _)]; apply IH.
Qed.

Lemma strayCloses_app ms ms' : forall d,
  strayCloses d (ms ++ ms')
  = (strayCloses d ms + strayCloses (depthAfter d ms) ms')%nat.
Proof.
  induction ms as [|m ms IH]; intros d;
    cbn [app depthAfter strayCloses]; auto.
  destruct (isOpening _); [|destruct (isClosing _)]; rewrite IH; lia.
Qed.

Lemma strayMiddles_app ms ms' : forall d,
  strayMiddles d (ms ++ ms')
  = (strayMiddles d ms + strayMiddles (depthAfter d ms) ms')%nat.
Proof.
  induction ms as [|m ms IH]; intros d;
    cbn [app depthAfter strayMiddles]; auto.
  destruct (isOpening _); [|destruct (isClosing _); [|destruct (isMiddle _)]];
    rewrite IH; lia.
Qed.

(** What the validator has counted when it comes to a bracket: the stack
    holds the open blocks, and the diagnostics the stray keywords. *)
Definition counts (st : State) (d closes middles : nat) : Prop :=
  length (stack st) = d
  /\ countCode "unmatched-endif" (errors st) = closes
  /\ countCode "orphaned-else" (errors st) = middles
  /\ length (errors st) = (closes + middles)%nat.

Lemma length_removelast {A : Type} (l : list A) :
  length (removelast l) = Nat.pred (length l).
Proof.
  induction l as [|a l IH]; [reflexivity|].
  destruct l; [reflexivity|]. simpl in *. now rewrite IH.
Qed.

Lemma countCode_one c e :
  countCode c [e] = if String.eqb (e_code e) c then 1%nat else 0%nat.
Proof. unfold countCode. simpl. now destruct (String.eqb _ _). Qed.

Lemma counts_onMatch n st m d c k :
  counts st d c k ->
  counts (onMatch n st m) (depthAfter d [m])
         (c + strayCloses d [m]) (k + strayMiddles d [m]).
Proof.
  intros (Hd & Hc & Hk & Hl). unfold counts.
  cbn [depthAfter strayCloses strayMiddles].
  destruct (isOpening (content m)) eqn:Ho.
  - rewrite (onMatch_opening n st m Ho). cbn [stack errors].
    rewrite length_app. cbn [length]. repeat split; lia.
  - destruct (isClosing (content m)) eqn:Hcl.
    + rewrite (onMatch_closing n st m Hcl).
      destruct (stack st) as [|f fs] eqn:Hs; cbn [length] in Hd; subst d;
        cbn [stack errors Nat.eqb Nat.pred].
      * rewrite !countCode_app, length_app, !countCode_one.
        cbn [length unmatchedEndif e_code].
        change (String.eqb "unmatched-endif" "unmatched-endif") with true.
        change (String.eqb "unmatched-endif" "orphaned-else") with false.
        repeat split; lia.
      * rewrite length_removelast. cbn [length Nat.pred]. repeat split; lia.
    + destruct (isMiddle (content m)) eqn:Hm.
      * rewrite (onMatch_middle n st m Hm).
        destruct (stack st) as [|f fs] eqn:Hs; cbn [length] in Hd; subst d;
          cbn [stack errors Nat.eqb].
        -- rewrite !countCode_app, length_app, !countCode_one.
           cbn [length orphanedElse e_code].
           change (String.eqb "orphaned-else" "unmatched-endif") with false.
           change (String.eqb "orphaned-else" "orphaned-else") with true.
           repeat split; lia.
        -- rewrite Hs. cbn [length]. repeat split; lia.
      * unfold onMatch. cbv zeta. fold (content m). rewrite Ho, Hcl, Hm.
        repeat split; lia.
Qed.

Lemma inBlockComment_onMatch n st m :
  inBlockComment (onMatch n st m) = inBlockComment st.
Proof. unfold onMatch. cbv zeta. repeat case_match; reflexivity. Qed.

Lemma counts_matches n ms : forall st d c k,
  counts st d c k ->
  counts (fold_left (onMatch n) ms st) (depthAfter d ms)
         (c + strayCloses d ms) (k + strayMiddles d ms)
  /\ inBlockComment (fold_left (onMatch n) ms st) = inBlockComment st.
Proof.
  induction ms as [|m ms IH]; intros st d c k H.
  - simpl. rewrite !Nat.add_0_r. auto.
  - cbn [fold_left].
    destruct (IH _ _ _ _ (counts_onMatch n st m d c k H)) as [H1 H2].
    change (m :: ms) with ([m] ++ ms).
    rewrite depthAfter_app, strayCloses_app, strayMiddles_app.
    rewrite !Nat.add_assoc. split; [exact H1|].
    now rewrite H2, inBlockComment_onMatch.
Qed.

Lemma counts_lines lines rest : forall n st d c k,
  skipn n lines = rest ->
  counts st d c k ->
  let ms := matchesOf rest (inBlockComment st) in
  counts (fold_left (onLine lines) (seq n (length rest)) st) (depthAfter d ms)
         (c + strayCloses d ms) (k + strayMiddles d ms).
Proof.
  induction rest as [|line rest IH]; intros n st d c k Hs H; cbv zeta.
  - simpl. now rewrite !Nat.add_0_r.
  - cbn [length seq fold_left matchesOf].
    destruct (LineCount.skipn_cons _ _ _ _ Hs) as [Hs' Hlt].
    assert (Hn : nth n lines "" = line).
    { rewrite <- (firstn_skipn n lines) at 1. rewrite Hs.
      assert (Hlen : length (firstn n lines) = n)
        by (rewrite length_firstn; lia).
      rewrite app_nth2 by lia. now rewrite Hlen, Nat.sub_diag. }
    unfold onLine at 2. cbv zeta. rewrite Hn.
    destruct (stripComments (inBlockComment st) line) as [[l b]|].
    + set (st0 := mkState (errors st) (stack st) b).
      assert (H0 : counts st0 d c k) by exact H.
      destruct (counts_matches n (execAll bracketRegex l 0 (S (String.length l)))
                  st0 d c k H0) as [H1 H2].
      pose proof (IH (S n) _ _ _ _ Hs' H1) as H3. cbv zeta in H3.
      rewrite H2 in H3. cbn [inBlockComment st0] in H3.
      rewrite depthAfter_app, strayCloses_app, strayMiddles_app.
      rewrite !Nat.add_assoc. exact H3.
    + exact (IH (S n) st d c k Hs' H).
Qed.

Lemma depthAfter_opens ms : forall d,
  Forall (fun m => isOpening (content m) = true
                   \/ isClosing (content m) = false) ms ->
  depthAfter d ms
  = (d + length (List.filter (fun m => isOpening (content m)) ms))%nat.
Proof.
  induction ms as [|m ms IH]; intros d H; simpl; [lia|].
  apply List.Forall_cons_iff in H as [Hm H].
  destruct (isOpening (content m)) eqn:Ho; simpl.
  - rewrite IH by exact H. lia.
  - destruct Hm as [Hm|Hm]; [discriminate|]. rewrite Hm. now apply IH.
Qed.

Lemma countCode_unclosed c fs :
  c <> "unclosed-if" -> countCode c (map unclosedIf fs) = 0%nat.
Proof.
  intros Hne. induction fs as [|f fs IH]; [reflexivity|].
  unfold countCode in *. cbn [map List.filter].
  change (e_code (unclosedIf f)) with "unclosed-if".
  destruct (String.eqb_spec "unclosed-if" c) as [<-|_];
    [now contradiction Hne | exact IH].
Qed.

(** X22.  The numbers of the diagnostics of the bracket validator.  For every
    document, with [ms] the bracketed expressions of its lines outside the
    comments: there are as many "unclosed" errors as blocks are left open at
    the end, as many unmatched-close errors as closing keywords are met with
    no block open, as many "outside of [if] block" errors as middle keywords
    are met with no block open, and no other diagnostic.  So a document in
    which no block is closed gets one "unclosed" error per opening
    keyword. *)
Theorem bracket_counts (text : string) :
  let ms := matchesOf (Regex.split Lexer.re_newline text) false in
  let es := validateBrackets text in
  countCode "unclosed-if" es = depthAfter 0 ms
  /\ countCode "unmatched-endif" es = strayCloses 0 ms
  /\ countCode "orphaned-else" es = strayMiddles 0 ms
  /\ length es = (depthAfter 0 ms + strayCloses 0 ms + strayMiddles 0 ms)%nat
  /\ (Forall (fun m => isOpening (content m) = true
                       \/ isClosing (content m) = false) ms ->
      countCode "unclosed-if" es
      = length (List.filter (fun m => isOpening (content m)) ms)).
Proof.
  cbv zeta.
  assert (H0 : counts (mkState [] [] false) 0 0 0) by (repeat split).
  pose proof (counts_lines (Regex.split Lexer.re_newline text)
                (Regex.split Lexer.re_newline text) 0 (mkState [] [] false)
                0 0 0 eq_refl H0) as H.
  cbv zeta in H. cbn [inBlockComment] in H.
  change (fold_left _ _ _) with (scan text) in H.
  set (lines := Regex.split Lexer.re_newline text) in *.
  destruct H as (Hd & Hc & Hk & Hl).
  assert (Hu : countCode "unclosed-if" (validateBrackets text)
               = depthAfter 0 (matchesOf lines false)).
  { unfold validateBrackets, Brackets.validateBrackets. cbv zeta.
    rewrite countCode_app. unfold countCode.
    change (fun e => String.eqb (e_code e) "unclosed-if") with isUnclosed.
    rewrite (filter_scanned _ (scanned_scan text)).
    now rewrite filter_unclosed, length_map. }
  pose proof (fun c H => countCode_unclosed c (stack (scan text)) H) as Hm.
  split; [exact Hu|]. split; [|split; [|split]].
  - unfold validateBrackets, Brackets.validateBrackets. cbv zeta.
    rewrite countCode_app, Hm by discriminate. lia.
  - unfold validateBrackets, Brackets.validateBrackets. cbv zeta.
    rewrite countCode_app, Hm by discriminate. lia.
  - unfold validateBrackets, Brackets.validateBrackets. cbv zeta.
    rewrite length_app, length_map. lia.
  - intros Hall. rewrite Hu. now rewrite depthAfter_opens.
Qed.

(** Three blocks opened on three lines, one of them inside a comment, and
    one closed. *)
Example bracket_counts_example :
  let text := doc ["[if a]"; "// [if b]"; "[if c] x [endif] [else]"; "[end]";
                   "[endif]"] in
  map e_code (validateBrackets text) = ["unmatched-endif"]
  /\ length (matchesOf (Regex.split Lexer.re_newline text) false) = 6%nat.
Proof. vm_compute. split; reflexivity. Qed.

End BracketCounts.

(** ** The shape of a command line

    A line that holds a command reads: blanks, [~], the command word,
    blanks, the expression, blanks. *)

Module CommandLines.
Import Regex RegexFacts TildeWord LexerFacts.

(** Does [l] start, or end, with a blank? *)
Definition startsBlank (l : list ascii) : bool :=
  match l with a :: _ => JS.isSpace a | [] => false end.

Definition endsBlank (l : list ascii) : bool := startsBlank (rev l).

Definition startsWord (l : list ascii) : bool :=
  match l with a :: _ => JS.isWord a | [] => false end.

(** [line] is [lead ~word blanks expr trail]: the word is the longest run of
    word characters after the [~], the expression starts and ends with a
    character that is not a blank and holds no line terminator, and without
    expression the blanks after the word count as [trail]. *)
Record commandLine (line : string) (lead word blanks expr trail : list ascii)
    : Prop := mkCommandLine {
  cl_chars : JS.chars line = lead ++ "~"%char :: word ++ blanks ++ expr ++ trail;
  cl_lead : forallb JS.isSpace lead = true;
  cl_word : word <> [] /\ forallb JS.isWord word = true;
  cl_blanks : forallb JS.isSpace blanks = true;
  cl_longest : startsWord (blanks ++ expr) = false;
  cl_expr : startsBlank expr = false /\ endsBlank expr = false
            /\ forallb isDot expr = true;
  cl_none : expr = [] -> blanks = [];
  cl_trail : forallb JS.isSpace trail = true
}.

Lemma dropSpaces_blanks sp l :
  forallb JS.isSpace sp = true -> JS.dropSpaces (sp ++ l) = JS.dropSpaces l.
Proof.
  induction sp as [|a sp IH]; simpl; auto.
  intros H. apply andb_true_iff in H as [-> H]. auto.
Qed.

Lemma dropSpaces_tight l : startsBlank l = false -> JS.dropSpaces l = l.
Proof. destruct l as [|a l]; simpl; [auto | now intros ->]. Qed.

Lemma dropSpaces_all sp : forallb JS.isSpace sp = true -> JS.dropSpaces sp = [].
Proof.
  intros H. rewrite <- (app_nil_r sp). now rewrite dropSpaces_blanks.
Qed.

Lemma forallb_rev' {A : Type} (p : A -> bool) l :
  forallb p l = true -> forallb p (rev l) = true.
Proof.
  rewrite !List.forallb_forall. intros H x Hx. apply H. now apply in_rev.
Qed.

(** What [trim] leaves of a text between blanks. *)
Lemma trimChars_core lead core trail :
  forallb JS.isSpace lead = true -> forallb JS.isSpace trail = true ->
  startsBlank core = false -> endsBlank core = false ->
  JS.trimChars (lead ++ core ++ trail) = core.
Proof.
  intros Hl Ht Hs He. unfold JS.trimChars.
  rewrite dropSpaces_blanks by exact Hl.
  destruct core as [|a core].
  - simpl. rewrite (dropSpaces_all trail Ht). reflexivity.
  - rewrite (dropSpaces_tight ((a :: core) ++ trail)) by exact Hs.
    rewrite rev_app_distr, dropSpaces_blanks by now apply forallb_rev'.
    rewrite (dropSpaces_tight (rev (a :: core))) by exact He.
    apply rev_involutive.
Qed.

Lemma word_not_blank a : JS.isWord a = true -> JS.isSpace a = false.
Proof. apply word_not_space. Qed.

Lemma endsBlank_app l l' : l' <> [] -> endsBlank (l ++ l') = endsBlank l'.
Proof.
  intros H. unfold endsBlank. rewrite rev_app_distr.
  destruct (rev l') as [|z r] eqn:Hr; [|reflexivity].
  apply (f_equal (@rev ascii)) in Hr. rewrite rev_involutive in Hr.
  now contradiction H.
Qed.

Lemma endsBlank_word word :
  word <> [] -> forallb JS.isWord word = true -> endsBlank word = false.
Proof.
  intros Hn Hw. unfold endsBlank. apply forallb_rev' in Hw.
  destruct (rev word) as [|z r] eqn:Hr.
  - apply (f_equal (@rev ascii)) in Hr. rewrite rev_involutive in Hr.
    now contradiction Hn.
  - simpl in *. apply andb_true_iff in Hw as [Hz _]. now apply word_not_blank.
Qed.

Lemma runLength_app p w rest :
  forallb p w = true ->
  match rest with a :: _ => p a | [] => false end = false ->
  runLength p (w ++ rest) = length w.
Proof.
  intros Hw Hr. induction w as [|a w IH]; simpl in *.
  - destruct rest as [|a rest]; simpl in *; [reflexivity | now rewrite Hr].
  - apply andb_true_iff in Hw as [-> Hw]. now rewrite IH.
Qed.

Lemma runLength_all_of p w : forallb p w = true -> runLength p w = length w.
Proof.
  intros H. rewrite <- (app_nil_r w) at 1. now apply runLength_app.
Qed.

Section Matching.
Variable t : string.

(** The expression and the end of the line. *)
Lemma kRest_expr pos expr c :
  forallb isDot expr = true ->
  kRest t pos expr c
  = Some (mkMatch t 0 (pos + length expr)%nat
            (match expr with
             | [] => c
             | _ :: _ => (2%nat, (pos, pos + length expr)%nat) :: c
             end)).
Proof.
  intros Hd. unfold kRest.
  rewrite greedy_longest.
  - rewrite (runLength_all_of _ _ Hd), drop_all.
    destruct expr as [|a expr']; cbn [length].
    + rewrite Nat.add_0_r, Nat.ltb_irrefl. reflexivity.
    + replace (pos <? pos + S (length expr'))%nat with true
        by (symmetry; apply Nat.ltb_lt; lia).
      reflexivity.
  - intros a s' pos' c' _ H. exfalso. apply H. now destruct (pos <? pos')%nat.
Qed.

Lemma kRest_mono a s' pos c :
  JS.isSpace a = true ->
  kRest t pos (a :: s') c <> None -> kRest t (S pos) s' c <> None.
Proof.
  intros _ H. apply kRest_some in H. simpl in H.
  apply andb_true_iff in H as [_ H]. now apply kRest_dots.
Qed.

(** The blanks, the expression and the end of the line. *)
Lemma kTail_blanks pos blanks expr c :
  forallb JS.isSpace blanks = true ->
  startsBlank expr = false ->
  kTail t pos (blanks ++ expr) c = kRest t (pos + length blanks)%nat expr c.
Proof.
  intros Hb Hs. unfold kTail.
  rewrite (greedy_longest JS.isSpace (kRest t) (kRest_mono)).
  rewrite (runLength_app JS.isSpace blanks expr Hb)
    by (destruct expr; auto).
  now rewrite drop_app_length.
Qed.

End Matching.

Lemma length_str l : String.length (JS.str l) = length l.
Proof. now rewrite <- LineCount.length_chars, BlockComments.chars_str. Qed.

Lemma len_str l : JS.len (JS.str l) = Z.of_nat (length l).
Proof. unfold JS.len. now rewrite length_str. Qed.

Lemma len_toLowerCase s : JS.len (JS.toLowerCase s) = JS.len s.
Proof.
  unfold JS.toLowerCase. rewrite len_str, length_map.
  unfold JS.len. now rewrite LineCount.length_chars.
Qed.

(** The part of a text between two offsets. *)
Lemma substring_mid pre mid post :
  JS.substring (JS.str (pre ++ mid ++ post)) (Z.of_nat (length pre))
    (Z.of_nat (length pre + length mid))
  = JS.str mid.
Proof.
  unfold JS.substring. cbv zeta. rewrite len_str, BlockComments.chars_str.
  rewrite !length_app.
  replace (Z.to_nat (Z.min (Z.max (Z.of_nat (length pre)) 0) _))
    with (length pre) by lia.
  replace (Z.to_nat (Z.min (Z.max (Z.of_nat (length pre + length mid)) 0) _))
    with (length pre + length mid)%nat by lia.
  rewrite Nat.min_l, Nat.max_r by lia.
  rewrite drop_app_length.
  replace (length pre + length mid - length pre)%nat with (length mid) by lia.
  now rewrite take_app_length.
Qed.

Lemma blank_not_tilde a : JS.isSpace a = true -> Ascii.eqb "~" a = false.
Proof.
  intros H. destruct (Ascii.eqb_spec "~" a) as [<-|]; [discriminate | reflexivity].
Qed.

(** The first [~] of a line comes after its leading blanks. *)
Lemma indexOfFrom_tilde lead rest : forall i,
  forallb JS.isSpace lead = true ->
  JS.indexOfFrom ["~"%char] (lead ++ "~"%char :: rest) i
  = i + Z.of_nat (length lead).
Proof.
  induction lead as [|a lead IH]; intros i H;
    cbn [JS.indexOfFrom JS.isPrefix app length forallb] in *.
  - rewrite Ascii.eqb_refl. simpl. lia.
  - apply andb_true_iff in H as [Ha H]. rewrite (blank_not_tilde a Ha).
    cbn [andb]. rewrite IH by exact H. lia.
Qed.

Section Shape.
Variables (line : string) (lead word blanks expr trail : list ascii).
Hypothesis shape : commandLine line lead word blanks expr trail.

(** The line once trimmed. *)
Definition core : list ascii := "~"%char :: word ++ blanks ++ expr.

Lemma trim_commandLine : JS.trim line = JS.str core.
Proof.
  destruct shape as [Hc Hl [Hn Hw] Hb Hlong (Hs & He & Hd) Hnone Ht].
  unfold JS.trim. f_equal. rewrite Hc.
  change (lead ++ "~"%char :: word ++ blanks ++ expr ++ trail)
    with (lead ++ ("~"%char :: word ++ (blanks ++ expr ++ trail))).
  replace ("~"%char :: word ++ blanks ++ expr ++ trail)
    with (core ++ trail)
    by (unfold core; simpl; now rewrite <- !app_assoc).
  apply trimChars_core; auto.
  unfold core. change ("~"%char :: word ++ blanks ++ expr)
    with (["~"%char] ++ (word ++ blanks ++ expr)).
  rewrite endsBlank_app by (destruct word; [now contradiction Hn | discriminate]).
  destruct expr as [|e expr'] eqn:Hx.
  - rewrite (Hnone eq_refl), !app_nil_r. now apply endsBlank_word.
  - rewrite app_assoc, endsBlank_app by discriminate. exact He.
Qed.

(** The match of the pattern of the commands in the trimmed line. *)
Definition tildeMatch : MatchResult :=
  mkMatch (JS.str core) 0 (length core)
    (match expr with
     | [] => []
     | _ :: _ =>
         [(2%nat, (1 + length word + length blanks, length core)%nat)]
     end ++ [(1%nat, (1, 1 + length word)%nat)]).

Lemma exec_commandLine :
  exec Lexer.re_tilde (JS.trim line) = Some tildeMatch.
Proof.
  rewrite trim_commandLine.
  destruct shape as [Hc Hl [Hn Hw] Hb Hlong (Hs & He & Hd) Hnone Ht].
  unfold Lexer.re_tilde. cbn [seqs]. rewrite exec_bol.
  change (matchAt Lexer.re_tilde (JS.str core) 0 = Some tildeMatch).
  rewrite matchAt_tilde, BlockComments.chars_str. unfold core at 1.
  destruct word as [|b w'] eqn:Hword; [now contradiction Hn|].
  simpl in Hw. apply andb_true_iff in Hw as [Hb0 Hw].
  cbn [app]. change (Ascii.eqb "~" "~") with true. cbv iota. rewrite Hb0.
  rewrite (greedy_longest JS.isWord (kWord (JS.str core))
             (kWord_mono (JS.str core))).
  rewrite (runLength_app JS.isWord w' (blanks ++ expr) Hw) by exact Hlong.
  rewrite drop_app_length. unfold kWord.
  rewrite kTail_blanks, kRest_expr by auto.
  unfold tildeMatch, core. rewrite Hword.
  replace (length ("~"%char :: (b :: w') ++ blanks ++ expr))
    with (2 + length w' + length blanks + length expr)%nat
    by (cbn [length app]; rewrite !length_app; lia).
  replace (1 + length (b :: w'))%nat with (2 + length w')%nat
    by (cbn [length]; lia).
  destruct expr; reflexivity.
Qed.

Lemma indexOf_commandLine : JS.indexOf line "~" 0 = Z.of_nat (length lead).
Proof.
  destruct shape as [Hc Hl _ _ _ _ _ _].
  unfold JS.indexOf. cbv zeta.
  replace (Z.to_nat (Z.min (Z.max 0 0) (JS.len line))) with 0%nat
    by (unfold JS.len; lia).
  rewrite drop_0, Hc. change (JS.chars "~") with ["~"%char].
  now rewrite indexOfFrom_tilde.
Qed.

Lemma group1_commandLine : group1 tildeMatch 1 = JS.str word.
Proof.
  unfold group1, group, tildeMatch. cbn [m_caps m_input].
  assert (H : JS.substring (JS.str core) (Z.of_nat 1) (Z.of_nat (1 + length word))
              = JS.str word).
  { unfold core.
    exact (substring_mid ["~"%char] word (blanks ++ expr)). }
  destruct expr; cbn [app List.find fst Nat.eqb]; exact H.
Qed.

Lemma group2_commandLine :
  group tildeMatch 2
  = match expr with [] => None | _ :: _ => Some (JS.str expr) end.
Proof.
  unfold group, tildeMatch. cbn [m_caps m_input].
  destruct expr as [|e expr'] eqn:Hx; [reflexivity|].
  cbn [app List.find fst Nat.eqb]. f_equal. rewrite <- Hx.
  unfold core.
  replace ("~"%char :: word ++ blanks ++ expr)
    with (("~"%char :: word ++ blanks) ++ expr ++ [])
    by (simpl; now rewrite app_nil_r, <- app_assoc).
  replace (1 + length word + length blanks)%nat
    with (length ("~"%char :: word ++ blanks))
    by (simpl; now rewrite length_app).
  replace (length (("~"%char :: word ++ blanks) ++ expr ++ []))
    with (length ("~"%char :: word ++ blanks) + length expr)%nat
    by (rewrite !length_app; simpl; lia).
  apply substring_mid.
Qed.

Lemma trim_expr : JS.trim (JS.str expr) = JS.str expr.
Proof.
  destruct shape as [_ _ _ _ _ (Hs & He & _) _ _].
  unfold JS.trim. rewrite BlockComments.chars_str. f_equal.
  rewrite <- (app_nil_r expr) at 1.
  now apply (trimChars_core [] expr []).
Qed.

End Shape.

(** The token of a recognized command. *)
Definition commandToken (n : nat) (line : string)
    (lead word blanks expr : list ascii) : Token :=
  mkToken (Lexer.getTildeTokenType (JS.toLowerCase (JS.str word)))
    (JS.str (core word blanks expr))
    (Lexer.makeRange n (Z.of_nat (length lead)) (JS.len line))
    (Some (mkData None None None None None None (Some (JS.str expr)))).

(** The lexer on the line of a recognized command: the token, the line type
    and the validation of the command. *)
Lemma tokenizeLine_command lx n lead word blanks expr trail :
  let line := nth n (Lexer.lines lx) "" in
  let cmd := JS.toLowerCase (JS.str word) in
  Lexer.inBlockComment lx = false ->
  opensBlockComment line = false ->
  commandLine line lead word blanks expr trail ->
  JS.inList cmd TILDE_COMMANDS = true ->
  Lexer.tokenizeLine lx n
  = Lexer.validateTildeCommand
      (Lexer.pushLineType
         (Lexer.pushToken lx (commandToken n line lead word blanks expr))
         LineType.TILDE_COMMAND)
      cmd (JS.str expr) n (Z.of_nat (length lead)).
Proof.
  cbv zeta. intros Hb Ho Hs Hc.
  unfold Lexer.tokenizeLine. cbv zeta. rewrite Hb.
  unfold opensBlockComment in Ho. rewrite Ho.
  rewrite (exec_commandLine _ _ _ _ _ _ Hs).
  rewrite (indexOf_commandLine _ _ _ _ _ _ Hs).
  rewrite (group1_commandLine _ _ _ _ _ _ Hs), Hc.
  rewrite (group2_commandLine _ _ _ _ _ _ Hs).
  rewrite (trim_commandLine _ _ _ _ _ _ Hs).
  change (JS.str (core word blanks expr))
    with (String "~" (JS.str (word ++ blanks ++ expr))).
  rewrite TildeCommands.divider_tilde, TildeCommands.story_tilde.
  unfold commandToken.
  change (JS.str (core word blanks expr))
    with (String "~" (JS.str (word ++ blanks ++ expr))).
  destruct expr; reflexivity.
Qed.

End CommandLines.

(** ** The diagnostics of the lexer, line by line *)

Module LineDiagnostics.
Import LexerFacts TokenLines ErrorTokens BlockComments TildeCommands.

(** Does the diagnostic start on line [n]? *)
Definition atLine (n : nat) (e : ParseError) : bool :=
  line (start (e_range e)) =? Z.of_nat n.

Lemma filter_all {A : Type} (p : A -> bool) l :
  Forall (fun x => p x = true) l -> List.filter p l = l.
Proof.
  induction 1 as [|x l Hx _ IH]; [reflexivity|]. simpl. now rewrite Hx, IH.
Qed.

Lemma filter_none {A : Type} (p : A -> bool) l :
  Forall (fun x => p x = false) l -> List.filter p l = [].
Proof.
  induction 1 as [|x l Hx _ IH]; [reflexivity|]. simpl. now rewrite Hx.
Qed.

Lemma lineErrors_atLine lx i n :
  Forall (fun e => atLine n e = bool_decide (i = n)) (lineErrors lx i).
Proof.
  eapply Forall_impl; [apply lineErrors_lineError|].
  intros e [[Hs _] _]. unfold atLine. rewrite Hs.
  destruct (decide (i = n)) as [->|Hne].
  - rewrite bool_decide_eq_true_2 by reflexivity. apply Z.eqb_refl.
  - rewrite bool_decide_eq_false_2 by exact Hne. apply Z.eqb_neq. lia.
Qed.

(** Among the diagnostics of the lines before line [k], those of line [n]. *)
Lemma filter_atLine_before text n : forall k,
  List.filter (atLine n) (Lexer.errors (stateBefore text k))
  = if (n <? k)%nat then lineErrors (stateBefore text n) n else [].
Proof.
  induction k as [|k IH]; [reflexivity|].
  rewrite stateBefore_S, tokenizeLine_errors, List.filter_app, IH.
  pose proof (lineErrors_atLine (stateBefore text k) k n) as H.
  destruct (decide (k = n)) as [->|Hne].
  - replace (n <? n)%nat with false by (symmetry; apply Nat.ltb_ge; lia).
    replace (n <? S n)%nat with true by (symmetry; apply Nat.ltb_lt; lia).
    simpl. apply filter_all.
    eapply Forall_impl; [exact H|]. intros e ->. now apply bool_decide_eq_true_2.
  - rewrite (filter_none (atLine n) (lineErrors (stateBefore text k) k)).
    + rewrite app_nil_r.
      destruct (n <? k)%nat eqn:E1, (n <? S k)%nat eqn:E2; auto;
        [apply Nat.ltb_lt in E1; apply Nat.ltb_ge in E2; lia
        |apply Nat.ltb_ge in E1; apply Nat.ltb_lt in E2; lia].
    + eapply Forall_impl; [exact H|]. intros e ->.
      now apply bool_decide_eq_false_2.
Qed.

(** The diagnostics of the lexer: those of the lines, and the one of a
    block comment left open. *)
Lemma tokenize_errors_eq text :
  exists eof,
    Lexer.r_errors (tokenize text)
    = Lexer.errors (stateBefore text (length (Regex.split Lexer.re_newline text)))
      ++ eof
    /\ Forall (fun e => e_code e = "unclosed-comment") eof.
Proof.
  rewrite <- stateBefore_end. unfold tokenize, Lexer.tokenize. cbv zeta.
  destruct (Lexer.inBlockComment _); [destruct (Lexer.blockCommentStart _)|];
    simpl.
  - eexists [_]. split; [reflexivity|]. now repeat constructor.
  - exists []. now rewrite app_nil_r.
  - exists []. now rewrite app_nil_r.
Qed.

(** The diagnostics with code [c] that the lexer gives on line [n]. *)
Definition codedAt (c : string) (n : nat) (e : ParseError) : bool :=
  String.eqb (e_code e) c && atLine n e.

Lemma filter_codedAt text c n :
  (n < length (Regex.split Lexer.re_newline text))%nat ->
  c <> "unclosed-comment" ->
  List.filter (codedAt c n) (Lexer.r_errors (tokenize text))
  = List.filter (fun e => String.eqb (e_code e) c)
      (lineErrors (stateBefore text n) n).
Proof.
  intros Hn Hc. destruct (tokenize_errors_eq text) as (eof & -> & Heof).
  rewrite List.filter_app.
  rewrite (filter_none (codedAt c n) eof).
  - rewrite app_nil_r.
    pose proof (filter_atLine_before text n
                  (length (Regex.split Lexer.re_newline text))) as H.
    replace (n <? _)%nat with true in H by (symmetry; apply Nat.ltb_lt; lia).
    rewrite <- H. clear H.
    induction (Lexer.errors _) as [|e es IH]; [reflexivity|].
    unfold codedAt in *. simpl.
    destruct (atLine n e) eqn:Ea, (String.eqb (e_code e) c) eqn:Ec; simpl;
      rewrite ?Ec, ?IH; reflexivity.
  - eapply Forall_impl; [exact Heof|]. intros e He. unfold codedAt.
    rewrite He. destruct (String.eqb_spec "unclosed-comment" c) as [<-|];
      [now contradiction Hc | reflexivity].
Qed.

End LineDiagnostics.

(** ** C2: the parentheses of the expression of a command *)

Module ParensInLine.
Import LexerFacts CommandLines LineDiagnostics Parens.
Import TokenLines ErrorTokens BlockComments TildeCommands.

(** The text of the diagnostic for a closing parenthesis without a partner:
    [validateConditionExpression] has one, [validateSetExpression] another. *)
Definition parenMessage (cmd : string) : string :=
  if String.eqb cmd "if" || String.eqb cmd "ifd"
  then "Unbalanced parentheses: unexpected )"
  else "Unbalanced parentheses in set expression".

(** The diagnostics on the parentheses that the lexer gives on line [n]. *)
Definition reported (text : string) (n : nat) : list ParseError :=
  List.filter (codedAt "unbalanced-parens" n) (Lexer.r_errors (tokenize text)).

Lemma validateTildeCommand_parens lx cmd expression n startIdx :
  In cmd ["if"; "ifd"; "set"; "setif"] ->
  String.eqb (JS.trim expression) "" = false ->
  Lexer.validateTildeCommand lx cmd expression n startIdx
  = Lexer.validateParens (parenMessage cmd) lx expression n
      (startIdx + JS.len cmd + 2).
Proof.
  intros Hc He. unfold Lexer.validateTildeCommand. rewrite He.
  simpl in Hc. destruct Hc as [<-|[<-|[<-|[<-|[]]]]]; reflexivity.
Qed.

(** Where some prefix holds more closing than opening parentheses, there is
    a first closing parenthesis without a partner. *)
Lemma first_offending l : forall c,
  0 <= c -> neverNegative c l = false ->
  exists pre rest,
    l = pre ++ ")"%char :: rest
    /\ neverNegative c pre = true /\ c + balance pre = 0.
Proof.
  induction l as [|ch l IH]; intros c Hc H; simpl in H; [discriminate|].
  destruct (0 <=? c + delta ch) eqn:Hd.
  - apply Z.leb_le in Hd. simpl in H.
    destruct (IH _ Hd H) as (pre & rest & -> & Hn & Hb).
    exists (ch :: pre), rest. simpl. split; [reflexivity|]. split; [|lia].
    rewrite Hn. replace (0 <=? c + delta ch) with true; [reflexivity|].
    symmetry. apply Z.leb_le. lia.
  - apply Z.leb_gt in Hd. exists [], l. unfold delta in Hd.
    destruct (Ascii.eqb ch "("), (Ascii.eqb_spec ch ")") as [->|];
      simpl; try lia.
    split; [reflexivity|]. split; [reflexivity | lia].
Qed.

(** The diagnostics that the line of [~if], [~ifd], [~set] or [~setif] with
    an expression adds. *)
Lemma lineErrors_parens lx n lead word blanks expr trail :
  let line := nth n (Lexer.lines lx) "" in
  let cmd := JS.toLowerCase (JS.str word) in
  let off := Z.of_nat (length lead + length word + 2) in
  Lexer.inBlockComment lx = false ->
  opensBlockComment line = false ->
  commandLine line lead word blanks expr trail ->
  expr <> [] ->
  In cmd ["if"; "ifd"; "set"; "setif"] ->
  exists lx1,
    Lexer.errors lx1 = Lexer.errors lx
    /\ Lexer.tokenizeLine lx n
       = Lexer.validateParens (parenMessage cmd) lx1 (JS.str expr) n off.
Proof.
  cbv zeta. intros Hb Ho Hs Hx Hc.
  rewrite (tokenizeLine_command lx n lead word blanks expr trail Hb Ho Hs).
  - eexists. split; cycle 1.
    + rewrite validateTildeCommand_parens.
      * rewrite len_toLowerCase, len_str.
        replace (Z.of_nat (length lead) + Z.of_nat (length word) + 2)
          with (Z.of_nat (length lead + length word + 2)) by lia.
        reflexivity.
      * exact Hc.
      * rewrite (trim_expr _ _ _ _ _ _ Hs).
        destruct expr; [now contradiction Hx | reflexivity].
    + reflexivity.
  - simpl in Hc. destruct Hc as [<-|[<-|[<-|[<-|[]]]]]; reflexivity.
Qed.

(** The diagnostics on the parentheses of a line are those that the
    validator of its expression appends. *)
Lemma reported_appended text n lead word blanks expr trail es :
  let lines := Regex.split Lexer.re_newline text in
  let line := nth n lines "" in
  let cmd := JS.toLowerCase (JS.str word) in
  let off := Z.of_nat (length lead + length word + 2) in
  (n < length lines)%nat ->
  Lexer.inBlockComment (stateBefore text n) = false ->
  opensBlockComment line = false ->
  commandLine line lead word blanks expr trail ->
  expr <> [] ->
  In cmd ["if"; "ifd"; "set"; "setif"] ->
  (forall lx1,
     Lexer.errors (Lexer.validateParens (parenMessage cmd) lx1 (JS.str expr) n off)
     = Lexer.errors lx1 ++ es) ->
  Forall (fun e => e_code e = "unbalanced-parens") es ->
  reported text n = es.
Proof.
  cbv zeta. intros Hn Hb Ho Hs Hx Hc Hes Hcodes.
  unfold reported. rewrite filter_codedAt by (auto; discriminate).
  rewrite <- (TildeCommands.lines_stateBefore text n) in Ho, Hs.
  destruct (lineErrors_parens _ n lead word blanks expr trail Hb Ho Hs Hx Hc)
    as (lx1 & H1 & Ht).
  unfold lineErrors. rewrite Ht, Hes, H1, drop_app_length.
  apply filter_all. eapply Forall_impl; [exact Hcodes|].
  intros e ->. reflexivity.
Qed.

(** C2, as amended.  On a line [~if], [~ifd], [~set] or [~setif] with an
    expression, outside the comments, the diagnostics of the lexer on the
    parentheses of the line are these.  When no prefix of the expression
    holds more closing than opening parentheses and the counts are equal,
    there is none.  When none does and openings are left, there is one
    "missing )" error.  When some prefix does, there is a first closing
    parenthesis without a partner; it is reported, and no other closing
    parenthesis is; the counter starts again at zero after it, and the
    "missing )" error follows exactly when the characters after it hold more
    opening than closing parentheses.  The columns of these diagnostics are
    counted from [off], the column of [~] plus the length of the command
    word plus 2: the error of a parenthesis is at [off] plus its index in
    the expression, and "missing )" goes from [off] over the length of the
    expression.  When one blank separates the command word from the
    expression, [off] is the column of the expression, so that the first
    error lies on its parenthesis and the second spans the expression. *)
Theorem parens_of_command_line (text : string) (n : nat)
    (lead word blanks expr trail : list ascii) :
  let lines := Regex.split Lexer.re_newline text in
  let line := nth n lines "" in
  let cmd := JS.toLowerCase (JS.str word) in
  let off := Z.of_nat (length lead + length word + 2) in
  (n < length lines)%nat ->
  Lexer.inBlockComment (stateBefore text n) = false ->
  opensBlockComment line = false ->
  commandLine line lead word blanks expr trail ->
  expr <> [] ->
  In cmd ["if"; "ifd"; "set"; "setif"] ->
  off = JS.indexOf line "~" 0 + JS.len cmd + 2
  /\ (neverNegative 0 expr = true -> balance expr = 0 ->
      reported text n = [])
  /\ (neverNegative 0 expr = true -> 0 < balance expr ->
      reported text n = [Lexer.missingParen n off (JS.str expr)])
  /\ (forall pre rest,
        expr = pre ++ ")"%char :: rest ->
        neverNegative 0 pre = true -> balance pre = 0 ->
        reported text n
        = unexpectedParen (parenMessage cmd) n off (length pre)
          :: (if 0 <? balance rest
              then [Lexer.missingParen n off (JS.str expr)] else []))
  /\ (neverNegative 0 expr = false ->
      exists pre rest,
        expr = pre ++ ")"%char :: rest
        /\ neverNegative 0 pre = true /\ balance pre = 0)
  /\ (length blanks = 1%nat ->
      forall i a,
        expr !! i = Some a ->
        JS.chars line !! (Z.to_nat off + i)%nat = Some a).
Proof.
  cbv zeta. intros Hn Hb Ho Hs Hx Hc.
  pose proof (reported_appended text n lead word blanks expr trail) as Hr.
  cbv zeta in Hr.
  pose proof (fun es => Hr es Hn Hb Ho Hs Hx Hc) as Hr'. clear Hr.
  assert (Hv : forall lx1,
            let lx' := Lexer.validateParens
                         (parenMessage (JS.toLowerCase (JS.str word))) lx1
                         (JS.str expr) n
                         (Z.of_nat (length lead + length word + 2)) in
            (neverNegative 0 expr = true -> balance expr = 0 ->
             Lexer.errors lx' = Lexer.errors lx1)
            /\ (neverNegative 0 expr = true -> 0 < balance expr ->
                Lexer.errors lx'
                = Lexer.errors lx1
                  ++ [Lexer.missingParen n
                        (Z.of_nat (length lead + length word + 2))
                        (JS.str expr)])
            /\ (forall pre rest,
                  expr = pre ++ ")"%char :: rest ->
                  neverNegative 0 pre = true -> balance pre = 0 ->
                  Lexer.errors lx'
                  = Lexer.errors lx1
                    ++ unexpectedParen
                         (parenMessage (JS.toLowerCase (JS.str word))) n
                         (Z.of_nat (length lead + length word + 2))
                         (length pre)
                       :: (if 0 <? balance rest
                           then [Lexer.missingParen n
                                   (Z.of_nat (length lead + length word + 2))
                                   (JS.str expr)]
                           else []))).
  { intros lx1.
    pose proof (validateParens_errors
                  (parenMessage (JS.toLowerCase (JS.str word))) lx1
                  (JS.str expr) n
                  (Z.of_nat (length lead + length word + 2))) as H.
    cbv zeta in H. rewrite (trim_expr _ _ _ _ _ _ Hs) in H.
    rewrite BlockComments.chars_str in H. exact H. }
  split; [|split; [|split; [|split; [|split]]]].
  - rewrite (indexOf_commandLine _ _ _ _ _ _ Hs), len_toLowerCase, len_str. lia.
  - intros H1 H2. apply Hr'; [|constructor].
    intros lx1. destruct (Hv lx1) as (H & _). rewrite H by assumption.
    now rewrite app_nil_r.
  - intros H1 H2. apply Hr'; [|repeat constructor].
    intros lx1. destruct (Hv lx1) as (_ & H & _). now apply H.
  - intros pre rest Hl H1 H2. apply Hr'.
    + intros lx1. destruct (Hv lx1) as (_ & _ & H). now apply H.
    + destruct (0 <? balance rest); repeat constructor.
  - intros H. destruct (first_offending expr 0) as (pre & rest & H1 & H2 & H3);
      [lia | exact H |]. exists pre, rest. repeat split; auto; lia.
  - intros Hone i a Hi. destruct Hs as [Hchars _ _ _ _ _ _ _].
    rewrite Hchars, cons_middle, app_assoc.
    assert (Hl : length (lead ++ ["~"%char]) = (length lead + 1)%nat)
      by (rewrite length_app; reflexivity).
    rewrite lookup_app_r by lia.
    rewrite lookup_app_r by lia.
    rewrite lookup_app_r by lia.
    rewrite Hl.
    replace (Z.to_nat (Z.of_nat (length lead + length word + 2)) + i
             - (length lead + 1) - length word - length blanks)%nat
      with i by lia.
    apply lookup_app_l_Some. exact Hi.
Qed.

(** The theorem at the document [~if (a)) (b]: the third parenthesis is
    reported at its column, 7, and the opening one that follows is still
    caught. *)
Lemma parens_of_command_line_witness :
  reported "~if (a)) (b" 0
  = [unexpectedParen "Unbalanced parentheses: unexpected )" 0 4 3;
     Lexer.missingParen 0 4 "(a)) (b"].
Proof.
  destruct (parens_of_command_line "~if (a)) (b" 0 [] (JS.chars "if")
              (JS.chars " ") (JS.chars "(a)) (b") [])
    as (_ & _ & _ & H & _).
  - vm_compute. lia.
  - reflexivity.
  - reflexivity.
  - constructor; try reflexivity; repeat split; try reflexivity; discriminate.
  - discriminate.
  - simpl. auto.
  - apply (H (JS.chars "(a)") (JS.chars " (b")); reflexivity.
Defined.

(** The claim of the specification for what follows the first offending
    parenthesis: when the rest of the expression is not balanced either,
    that later problem is caught too, by a second diagnostic. *)
Definition laterProblemsCaught : Prop :=
  forall text n lead word blanks pre rest trail,
    let lines := Regex.split Lexer.re_newline text in
    let line := nth n lines "" in
    (n < length lines)%nat ->
    Lexer.inBlockComment (stateBefore text n) = false ->
    opensBlockComment line = false ->
    commandLine line lead word blanks (pre ++ ")"%char :: rest) trail ->
    In (JS.toLowerCase (JS.str word)) ["if"; "ifd"; "set"; "setif"] ->
    neverNegative 0 pre = true -> balance pre = 0 ->
    neverNegative 0 rest = false \/ balance rest <> 0 ->
    (2 <= length (reported text n))%nat.

(** The diagnostics of the document [~if ))(]. *)
Example one_paren_reported :
  reported "~if ))(" 0
  = [unexpectedParen "Unbalanced parentheses: unexpected )" 0 4 0].
Proof. vm_compute. reflexivity. Qed.

(** In the document [~if ))(] the second closing parenthesis and the opening
    one after it are both left without a partner, and the first closing
    parenthesis is all that is reported. *)
Lemma later_problems_not_caught : ~ laterProblemsCaught.
Proof.
  intros H.
  assert (Hl : (2 <= length (reported "~if ))(" 0))%nat).
  { apply (H "~if ))(" 0%nat [] (JS.chars "if") (JS.chars " ") []
             (JS.chars ")(") []).
    - vm_compute. lia.
    - reflexivity.
    - reflexivity.
    - constructor; try reflexivity; repeat split; try reflexivity; discriminate.
    - simpl. auto.
    - reflexivity.
    - reflexivity.
    - left. reflexivity. }
  rewrite one_paren_reported in Hl. simpl in Hl. lia.
Qed.

(** With two blanks after the command word the columns are one short: in
    [~if  a)] the parenthesis stands in column 6 and is reported in
    column 5. *)
Example parens_after_two_blanks :
  map e_range (reported "~if  a)" 0) = [Lexer.makeRange 0 5 6]
  /\ JS.indexOf "~if  a)" ")" 0 = 6.
Proof. vm_compute. split; reflexivity. Qed.

End ParensInLine.

(** ** C9: the severity of the structural diagnostics *)

Module StructuralSeverity.
Import Diagnostics LexerFacts Surfaced CommandLines SeverityByCode.
Import BlockComments TildeCommands.

(** The codes of the structural diagnostics other than the one of a missing
    expression: malformed story header (from the lexer and from the lint),
    unknown and misspelled command, unbalanced parentheses, unclosed block
    comment. *)
Definition structuralCodes : list string :=
  ["invalid-story-header"; "missing-story-id"; "unknown-tilde-command";
   "typo"; "unbalanced-parens"; "unclosed-comment"].

(** The diagnostic of a recognized command without its expression, as the
    analysis gives it. *)
Definition missingExpression (cmd : string) (n : nat) (startIdx : Z)
    : Diagnostic :=
  mkDiagnostic DiagnosticSeverity.Warning
    (Lexer.makeRange n startIdx (startIdx + JS.len cmd + 1))
    ("~" +:+ cmd +:+ " requires a condition or expression")
    "exoscript" (Some "empty-tilde-expression").

Lemma code_in_table text d c :
  In d (analyzeDiagnostics text) -> code d = Some c ->
  In (Some c, severity d) severityTable.
Proof.
  intros Hd Hc. pose proof (analysis_tabled text) as H.
  apply (proj1 (List.Forall_forall _ _) H) in Hd as [Hd _].
  now rewrite Hc in Hd.
Qed.

Ltac table_cases d H :=
  revert H; generalize (severity d); intros s H; vm_compute in H;
  repeat (destruct H as [H|H];
          [first [discriminate H | injection H as <-; reflexivity]|]);
  contradiction.

(** The lexer on the line of a command that lacks its expression. *)
Lemma tokenizeLine_missing lx n lead word trail :
  let line := nth n (Lexer.lines lx) "" in
  let cmd := JS.toLowerCase (JS.str word) in
  Lexer.inBlockComment lx = false ->
  opensBlockComment line = false ->
  commandLine line lead word [] [] trail ->
  In cmd ["if"; "ifd"; "setif"; "callif"] ->
  Lexer.errors (Lexer.tokenizeLine lx n)
  = Lexer.errors lx
    ++ [Severities.emptyExpression cmd n (Z.of_nat (length lead))].
Proof.
  cbv zeta. intros Hb Ho Hs Hc.
  rewrite (tokenizeLine_command lx n lead word [] [] trail Hb Ho Hs).
  - rewrite Severities.validateTildeCommand_empty; [reflexivity| |reflexivity].
    simpl in Hc. destruct Hc as [<-|[<-|[<-|[<-|[]]]]]; reflexivity.
  - simpl in Hc. destruct Hc as [<-|[<-|[<-|[<-|[]]]]]; reflexivity.
Qed.

(** C9, as amended.  In the result of the analysis of any document, every
    structural diagnostic (malformed story header, unknown or misspelled
    command, unbalanced parentheses, unclosed block comment) has severity
    Error, and every diagnostic of a missing expression has severity
    Warning.  The latter is given on each line, outside the comments, that
    holds [~if], [~ifd], [~setif] or [~callif] and nothing else: the
    analysis surfaces it with severity Warning, on the command word. *)
Theorem structural_diagnostics_severity (text : string) :
  (forall d c,
     In d (analyzeDiagnostics text) -> code d = Some c ->
     In c structuralCodes -> severity d = DiagnosticSeverity.Error)
  /\ (forall d,
        In d (analyzeDiagnostics text) ->
        code d = Some "empty-tilde-expression" ->
        severity d = DiagnosticSeverity.Warning)
  /\ (forall n lead word trail,
        let lines := Regex.split Lexer.re_newline text in
        let line := nth n lines "" in
        let cmd := JS.toLowerCase (JS.str word) in
        (n < length lines)%nat ->
        Lexer.inBlockComment (stateBefore text n) = false ->
        opensBlockComment line = false ->
        commandLine line lead word [] [] trail ->
        In cmd ["if"; "ifd"; "setif"; "callif"] ->
        In (missingExpression cmd n (Z.of_nat (length lead)))
           (analyzeDiagnostics text)).
Proof.
  split; [|split].
  - intros d c Hd Hc Hs. pose proof (code_in_table text d c Hd Hc) as H.
    simpl in Hs.
    destruct Hs as [<-|[<-|[<-|[<-|[<-|[<-|[]]]]]]]; table_cases d H.
  - intros d Hd Hc. pose proof (code_in_table text d _ Hd Hc) as H.
    table_cases d H.
  - cbv zeta. intros n lead word trail Hn Hb Ho Hs Hc.
    apply (lexer_error_surfaced text
             (Severities.emptyExpression (JS.toLowerCase (JS.str word)) n
                (Z.of_nat (length lead)))).
    apply (TildeCommands.line_errors_kept text n); [exact Hn|].
    rewrite <- (TildeCommands.lines_stateBefore text n) in Ho, Hs.
    rewrite (tokenizeLine_missing _ n lead word trail Hb Ho Hs Hc).
    apply in_or_app. right. now left.
Qed.

(** The theorem at line 1 of the document [=== t / ~ifd]. *)
Lemma structural_diagnostics_severity_witness :
  In (missingExpression "ifd" 1 0) (analyzeDiagnostics (doc ["=== t"; "~ifd"])).
Proof.
  destruct (structural_diagnostics_severity (doc ["=== t"; "~ifd"]))
    as (_ & _ & H).
  apply (H 1%nat [] (JS.chars "ifd") []).
  - vm_compute. lia.
  - reflexivity.
  - reflexivity.
  - constructor; try reflexivity; repeat split; try reflexivity; discriminate.
  - simpl. auto.
Defined.

End StructuralSeverity.

(** ** The lines that define an identifier *)

Module IdLines.
Import Regex RegexFacts LexerFacts TokenLines ErrorTokens BlockComments
  TildeCommands ChoiceCount.

(** A line that matches the pattern of a bare identifier starts with [=]. *)
Lemma first_char_choiceId t m :
  exec Lexer.re_choiceId t = Some m -> exists t', t = String "=" t'.
Proof.
  unfold Lexer.re_choiceId. cbn [seqs]. rewrite exec_bol.
  destruct t as [|a t']; [discriminate|].
  unfold matchAt. cbn [run JS.chars list_ascii_of_string skipn Nat.eqb].
  unfold Lit at 1. cbn [run].
  destruct (Ascii.eqb_spec "=" a) as [<-|]; [eauto | discriminate].
Qed.

(** A line that matches the pattern of the choices starts with a star. *)
Lemma first_char_choice t m :
  exec Lexer.re_choice t = Some m -> exists t', t = String "*" t'.
Proof.
  unfold Lexer.re_choice. cbn [seqs]. rewrite exec_bol.
  destruct t as [|a t']; [discriminate|].
  unfold matchAt. cbn [run JS.chars list_ascii_of_string skipn Nat.eqb].
  unfold Plus, Lit at 1. cbn [run].
  destruct (Ascii.eqb_spec "*" a) as [<-|]; [eauto | discriminate].
Qed.

(** The tests of [tokenizeLine] that come before the choices fail on a line
    that starts with a star. *)
Lemma star_fails t' :
  JS.startsWith (String "*" t') "//" = false
  /\ test Lexer.re_divider (String "*" t') = false
  /\ exec Lexer.re_story (String "*" t') = None
  /\ JS.startsWith (String "*" t') "===" = false
  /\ exec Lexer.re_tilde (String "*" t') = None
  /\ exec Lexer.re_jump (String "*" t') = None
  /\ JS.startsWith (String "*" t') "==" = false.
Proof.
  unfold test, Lexer.re_divider, Lexer.re_story, Lexer.re_tilde, Lexer.re_jump.
  cbn [seqs]. rewrite !exec_bol. repeat split; reflexivity.
Qed.

(** And those before the bare identifiers fail on a line that starts with
    one [=], not two. *)
Lemma equals_fails t' :
  JS.startsWith (String "=" t') "==" = false ->
  JS.startsWith (String "=" t') "//" = false
  /\ test Lexer.re_divider (String "=" t') = false
  /\ exec Lexer.re_story (String "=" t') = None
  /\ JS.startsWith (String "=" t') "===" = false
  /\ exec Lexer.re_tilde (String "=" t') = None
  /\ exec Lexer.re_jump (String "=" t') = None.
Proof.
  intros H.
  unfold test, Lexer.re_divider, Lexer.re_story, Lexer.re_tilde, Lexer.re_jump.
  cbn [seqs]. rewrite !exec_bol.
  destruct t' as [|b t'']; [repeat split; reflexivity|].
  assert (Hb : Ascii.eqb "=" b = false).
  { unfold JS.startsWith in H.
    cbn [JS.chars list_ascii_of_string JS.isPrefix] in H.
    change (Ascii.eqb "=" "=") with true in H. cbn [andb] in H.
    destruct (Ascii.eqb "=" b); [discriminate | reflexivity]. }
  unfold JS.startsWith, matchAt.
  cbn [JS.chars list_ascii_of_string JS.isPrefix skipn run Str seqs map Lit
       Nat.eqb].
  change (Ascii.eqb "=" "=") with true. cbn [andb]. rewrite !Hb.
  repeat split; reflexivity.
Qed.

(** The token of a line that holds an identifier alone. *)
Definition bareToken (n : nat) (line : string) (m : MatchResult) : Token :=
  mkToken TokenType.CHOICE_ID (JS.trim line)
    (Lexer.makeRange n (JS.indexOf line "=" 0) (JS.len line))
    (Some (mkData None None None (Some (group1 m 1)) None (Some false) None)).

(** The token of a hidden choice with its identifier. *)
Definition hiddenToken (n : nat) (line : string) (m mi : MatchResult) : Token :=
  mkToken TokenType.CHOICE_ID (JS.trim line)
    (Lexer.makeRange n (JS.indexOf line "*" 0) (JS.len line))
    (Some (mkData (Some (JS.len (group1 m 1))) None None
             (Some (group1 mi 1)) None (Some true) None)).

Lemma lineTokens_bare lx n m :
  let line := nth n (Lexer.lines lx) "" in
  Lexer.inBlockComment lx = false ->
  opensBlockComment line = false ->
  JS.startsWith (JS.trim line) "==" = false ->
  exec Lexer.re_choiceId (JS.trim line) = Some m ->
  lineTokens lx n = [bareToken n line m].
Proof.
  cbv zeta. intros Hb Ho He Hm.
  destruct (first_char_choiceId _ _ Hm) as [t' Ht].
  unfold lineTokens, Lexer.tokenizeLine, bareToken. cbv zeta. rewrite Hb.
  unfold opensBlockComment in Ho. rewrite Ho.
  rewrite Ht in *.
  destruct (equals_fails t' He) as (H1 & H2 & H3 & H4 & H5 & H6).
  rewrite H1, H2, H3, H4, H5, H6, He, Hm.
  cbn [String.eqb Ascii.eqb Bool.eqb negb andb Lexer.tokens Lexer.pushToken
       Lexer.pushLineType].
  now rewrite drop_app_length.
Qed.

Lemma lineTokens_hidden lx n m mi :
  let line := nth n (Lexer.lines lx) "" in
  Lexer.inBlockComment lx = false ->
  opensBlockComment line = false ->
  exec Lexer.re_choice (JS.trim line) = Some m ->
  group1 m 2 = "=" ->
  exec Lexer.re_id (JS.trim (group1 m 3)) = Some mi ->
  lineTokens lx n = [hiddenToken n line m mi].
Proof.
  cbv zeta. intros Hb Ho Hm Hg Hi.
  destruct (first_char_choice _ _ Hm) as [t' Ht].
  unfold lineTokens, Lexer.tokenizeLine, hiddenToken. cbv zeta. rewrite Hb.
  unfold opensBlockComment in Ho. rewrite Ho.
  rewrite Ht in *.
  destruct (star_fails t') as (H1 & H2 & H3 & H4 & H5 & H6 & H7).
  rewrite H1, H2, H3, H4, H5, H6, H7, Hm, Hg, Hi.
  cbn [String.eqb Ascii.eqb Bool.eqb negb andb Lexer.tokens Lexer.pushToken
       Lexer.pushLineType].
  destruct (exec Lexer.re_choiceId (String "*" t')) as [x|] eqn:Hx.
  - destruct (first_char_choiceId _ _ Hx) as [t'' Hbad]. discriminate.
  - cbn [Lexer.tokens Lexer.pushToken Lexer.pushLineType].
    now rewrite drop_app_length.
Qed.

(** The tokens of the lines from line [n] on come after those of the lines
    before. *)
Lemma tokens_of_line text n :
  (n < length (Regex.split Lexer.re_newline text))%nat ->
  exists post,
    Lexer.r_tokens (tokenize text)
    = Lexer.tokens (stateBefore text n)
      ++ lineTokens (stateBefore text n) n ++ post.
Proof.
  intros Hn. destruct (tokenize_tokens_eq text) as (eof & -> & _).
  rewrite stateBefore_end.
  set (len := length (Regex.split Lexer.re_newline text)) in *.
  assert (Hf : stateBefore text len
               = fold_left Lexer.tokenizeLine (seq (S n) (len - S n))
                   (stateBefore text (S n))).
  { unfold stateBefore at 1.
    replace len with (S n + (len - S n))%nat at 1 by lia.
    now rewrite seq_app, fold_left_app. }
  destruct (extends_fold (seq (S n) (len - S n)) (stateBefore text (S n)))
    as (_ & (ts & Hts & _) & _).
  rewrite Hf, Hts, stateBefore_S, tokenizeLine_tokens.
  exists (ts ++ [eof]). now rewrite <- !app_assoc.
Qed.

Lemma fromFirstHeader_app ts ts' :
  existsb isHeader ts = true ->
  fromFirstHeader (ts ++ ts') = fromFirstHeader ts ++ ts'.
Proof.
  induction ts as [|a ts IH]; simpl; [discriminate|].
  destruct (isHeader a); simpl; auto.
Qed.

(** A token of a line that comes after a story header is a token of a
    story. *)
Lemma line_token_in_story text n t :
  (n < length (Regex.split Lexer.re_newline text))%nat ->
  existsb isHeader (Lexer.tokens (stateBefore text n)) = true ->
  In t (lineTokens (stateBefore text n) n) ->
  In t (fromFirstHeader (Lexer.r_tokens (tokenize text))).
Proof.
  intros Hn Hh Hin. destruct (tokens_of_line text n Hn) as (post & ->).
  rewrite fromFirstHeader_app by exact Hh.
  apply in_or_app. right. apply in_or_app. now left.
Qed.

End IdLines.

(** ** C10: the identifier [start] is taken from the first line of a story *)

Module StartDefinitions.
Import Parser ChoiceIds TokenLines ParserLoops StoryLayout ChoiceCount Surfaced.

(** A token that defines the identifier [start]. *)
Definition definesStart (t : Token) : bool :=
  isType t TokenType.CHOICE_ID && String.eqb (ci_id (parseChoiceId t)) "start".

Definition duplicateStart (r : Range) : ParseError :=
  mkError "Duplicate choice ID: start" r sev_error "duplicate-choice-id".

(** The definitions of [start] among the tokens of the stories. *)
Definition startDefinitions (ts : list Token) : list Token :=
  List.filter definesStart (fromFirstHeader ts).

(** Each definition of [start] consumed so far has its diagnostic. *)
Definition flagged (p : Parser) : Prop :=
  Forall (fun t => In (duplicateStart (t_range t)) (errors p))
         (startDefinitions (firstn (current p) (tokens p))).

Lemma flagged_more p p' :
  tokens p' = tokens p -> current p' = current p ->
  prefixOf (errors p) (errors p') -> flagged p -> flagged p'.
Proof.
  unfold flagged. intros -> -> Hp H.
  eapply Forall_impl; [exact H|]. intros t Ht.
  now apply (prefixOf_In _ _ _ Hp).
Qed.

Lemma flagged_token h p cx token :
  isAtEnd p = false -> peek p = Some token -> isHeader token = false ->
  existsb isHeader (firstn (current p) (tokens p)) = true ->
  storyState h cx -> flagged p ->
  flagged (parseStoryToken p cx token).1
  /\ existsb isHeader (firstn (current (parseStoryToken p cx token).1)
                         (tokens (parseStoryToken p cx token).1)) = true.
Proof.
  intros He Hp Hh Hex Hs Hf. unfold flagged in *.
  pose proof (peek_not_at_end p token He Hp) as Hl.
  destruct (parseStoryToken_consumes p cx token He) as [Ht Hcur].
  pose proof (errors_parseStoryToken p cx token) as Hpre.
  rewrite Ht, Hcur, (take_S_r _ _ _ Hl).
  unfold startDefinitions in *.
  rewrite fromFirstHeader_snoc, Hex, List.filter_app, existsb_app, Hex.
  split; [|reflexivity].
  apply Forall_app. split.
  - eapply Forall_impl; [exact Hf|]. intros t Hin.
    now apply (prefixOf_In _ _ _ Hpre).
  - simpl. destruct (definesStart token) eqn:Hd; [|constructor].
    constructor; [|constructor].
    unfold definesStart in Hd. apply andb_true_iff in Hd as [Hty Hid].
    apply String.eqb_eq in Hid.
    assert (Hty' : t_type token = TokenType.CHOICE_ID).
    { unfold isType in Hty. destruct (t_type token); try discriminate.
      reflexivity. }
    pose proof (choiceId_token p cx token Hty') as H. cbv zeta in H.
    rewrite Hid in H. unfold has in H.
    rewrite (proj1 (storyState_start h cx Hs)) in H.
    destruct H as [_ H]. rewrite H. apply in_or_app. right. left.
    unfold duplicateChoiceId, duplicateStart. now rewrite Hid.
Qed.

Lemma flagged_loop h fuel : forall p cx,
  existsb isHeader (firstn (current p) (tokens p)) = true ->
  storyState h cx -> flagged p -> flagged (parseStoryLoop fuel p cx).1.
Proof.
  induction fuel as [|fuel IH]; intros p cx Hex Hs Hf; simpl; auto.
  destruct (isAtEnd p) eqn:He; auto.
  destruct (peek p) as [token|] eqn:Hp; auto.
  destruct (isType token TokenType.STORY_HEADER) eqn:Hh; auto.
  destruct (isType token TokenType.EOF); auto.
  destruct (flagged_token h p cx token He Hp Hh Hex Hs Hf) as [Hf' Hex'].
  pose proof (state_token h p cx token Hs) as Hs'.
  destruct (parseStoryToken p cx token) as [p' cx']. now apply (IH p' cx').
Qed.

(** Between the stories: the definitions of [start] are flagged, there is
    none before the first header, and after a story comes a header or the
    end. *)
Definition watched (p : Parser) : Prop :=
  flagged p
  /\ (stories p = [] -> existsb isHeader (firstn (current p) (tokens p)) = false)
  /\ (stories p <> [] ->
      isAtEnd p = true
      \/ exists token, peek p = Some token /\ isHeader token = true).

Lemma definesStart_header h : isHeader h = true -> definesStart h = false.
Proof.
  unfold isHeader, definesStart, isType.
  destruct (t_type h); try discriminate. reflexivity.
Qed.

Lemma watched_parseStory p h :
  isAtEnd p = false -> peek p = Some h -> isHeader h = true ->
  watched p -> watched (parseStory p).
Proof.
  intros He Hp Hh (Hf & H0 & H1).
  pose proof (peek_not_at_end p h He Hp) as Hl.
  destruct (advance_not_at_end p He) as [Ht Hcur].
  assert (Hex : existsb isHeader (firstn (current (advance p)) (tokens (advance p)))
                = true).
  { rewrite Ht, Hcur, (take_S_r _ _ _ Hl), existsb_app. simpl.
    rewrite Hh. now rewrite orb_true_r. }
  assert (Hf1 : flagged (advance p)).
  { unfold flagged, startDefinitions in *.
    rewrite errors_advance, Ht, Hcur, (take_S_r _ _ _ Hl).
    rewrite fromFirstHeader_snoc, Hh.
    destruct (existsb isHeader (firstn (current p) (tokens p))) eqn:E.
    - rewrite List.filter_app. apply Forall_app. split; [exact Hf|].
      simpl. rewrite (definesStart_header h Hh). constructor.
    - simpl. rewrite (definesStart_header h Hh). constructor. }
  unfold parseStory. rewrite Hp. cbv zeta.
  pose proof (flagged_loop h (length (tokens (advance p))) (advance p)
                (mkLocals (newStory h) None []) Hex (state_new h) Hf1) as Hf'.
  pose proof (parseStoryLoop_stops (length (tokens (advance p))) (advance p)
                (mkLocals (newStory h) None [])) as Hstop.
  cbv zeta in Hstop.
  destruct (parseStoryLoop _ _ _) as [p' cx]. simpl in *.
  split; [exact Hf'|]. split.
  - intros E. cbn [stories pushStory] in E. destruct (stories p'); discriminate.
  - intros _. apply Hstop. unfold remaining. lia.
Qed.

Lemma watched_advance p token e :
  isAtEnd p = false -> peek p = Some token -> isHeader token = false ->
  watched p -> watched (advance p) /\ watched (advance (pushError p e)).
Proof.
  intros He Hp Hh (Hf & H0 & H1).
  pose proof (peek_not_at_end p token He Hp) as Hl.
  destruct (advance_not_at_end p He) as [Ht Hcur].
  assert (He' : isAtEnd (pushError p e) = false) by exact He.
  destruct (advance_not_at_end _ He') as [Ht' Hcur'].
  destruct (stories p) as [|s l] eqn:Es.
  - specialize (H0 eq_refl).
    assert (Hex : existsb isHeader (firstn (S (current p)) (tokens p)) = false).
    { rewrite (take_S_r _ _ _ Hl), existsb_app, H0. simpl. now rewrite Hh. }
    pose proof (proj1 (fromFirstHeader_none _) Hex) as Hnone.
    split; (split; [|split]);
      rewrite ?stories_advance; cbn [stories pushError setErrors];
      rewrite ?Es, ?Ht, ?Hcur, ?Ht', ?Hcur'; cbn [tokens current pushError setErrors];
      auto; try congruence.
    + unfold flagged, startDefinitions. rewrite Ht, Hcur, Hnone. constructor.
    + unfold flagged, startDefinitions. rewrite Ht', Hcur'.
      cbn [tokens current pushError setErrors]. rewrite Hnone. constructor.
  - exfalso. destruct H1 as [H1|(t & Ht0 & Hh')]; [discriminate| |]; congruence.
Qed.

Lemma watched_parseLoop fuel : forall p, watched p -> watched (parseLoop fuel p).
Proof.
  induction fuel as [|fuel IH]; intros p H; simpl; auto.
  destruct (isAtEnd p) eqn:He; auto.
  destruct (peek p) as [token|] eqn:Hp; auto.
  destruct (isType token TokenType.STORY_HEADER) eqn:Hh.
  - apply IH. eapply watched_parseStory; eauto.
  - assert (Ha : forall e, watched (advance p) /\ watched (advance (pushError p e))).
    { intros e. now apply (watched_advance p token e). }
    pose proof (proj1 (Ha (mkError "" (t_range token) sev_error ""))) as Ha0.
    repeat case_match; auto; apply IH; auto; apply Ha.
Qed.

(** Every definition of [start] inside a story is reported by the parser. *)
Lemma start_flagged text t :
  In t (startDefinitions (Lexer.r_tokens (tokenize text))) ->
  In (duplicateStart (t_range t)) (r_errors (parse text)).
Proof.
  intros Hin. unfold parse, Parser.parse. cbv zeta. cbn [r_errors].
  set (p0 := checkDisabled (Parser.new text)).
  assert (H0 : tokens p0 = Lexer.r_tokens (tokenize text)
               /\ stories p0 = [] /\ current p0 = 0%nat).
  { unfold p0, checkDisabled, Parser.new. now destruct (checkDisabledLoop _). }
  destruct H0 as (Ht0 & Hs0 & Hc0).
  assert (Hw : watched p0).
  { unfold watched, flagged. rewrite Hc0, Hs0. simpl.
    split; [constructor|]. split; [reflexivity | congruence]. }
  apply (watched_parseLoop (length (tokens p0))) in Hw.
  destruct Hw as (Hf & _).
  pose proof (tokens_parseLoop (length (tokens p0)) p0) as Ht.
  pose proof (parseLoop_reaches_end (length (tokens p0)) p0) as He.
  set (p := parseLoop (length (tokens p0)) p0) in *.
  assert (Hp : prefixOf (errors p) (errors (validateJumpTargets p))).
  { unfold validateJumpTargets. cbn [errors setErrors].
    rewrite (JumpResolution.fold_appending _ _
               (JumpResolution.validateJumpsInStory_jumps _)).
    apply prefixOf_app. }
  apply (prefixOf_In _ _ _ Hp).
  unfold flagged in Hf. rewrite Ht, Ht0 in Hf.
  destruct (LineRecords.tokenize_tokens (Lexer.new text) eq_refl)
    as (toks & eof & Htk & Heof & Hn).
  fold (tokenize text) in Htk. rewrite Htk in *.
  assert (Hlast : startDefinitions (toks ++ [eof]) = startDefinitions toks).
  { unfold startDefinitions. rewrite fromFirstHeader_snoc.
    unfold isHeader at 2. rewrite Heof. simpl.
    destruct (existsb isHeader toks) eqn:E.
    - rewrite List.filter_app. simpl. unfold definesStart, isType.
      rewrite Heof. simpl. now rewrite app_nil_r.
    - apply fromFirstHeader_none in E. now rewrite E. }
  rewrite Hlast in Hin.
  specialize (He ltac:(unfold remaining; lia)).
  assert (Hall : startDefinitions (firstn (current p) (toks ++ [eof]))
                 = startDefinitions toks).
  { unfold isAtEnd in He. apply orb_true_iff in He as [He|He].
    - apply Nat.leb_le in He. rewrite Ht, Ht0 in He.
      rewrite firstn_all2 by lia. exact Hlast.
    - destruct (tokens p !! current p) as [t'|] eqn:Hl; [|discriminate].
      rewrite Ht, Ht0 in Hl.
      destruct (decide (current p < length toks)%nat) as [Hlt|Hge].
      + rewrite lookup_app_l in Hl by lia.
        apply list_elem_of_lookup_2, list_elem_of_In in Hl.
        apply (proj1 (List.Forall_forall _ _) Hn) in Hl.
        unfold isType in He. unfold LexerFacts.notEOF in Hl.
        destruct (t_type t'); discriminate || contradiction.
      + apply lookup_lt_Some in Hl. rewrite length_app in Hl. simpl in Hl.
        assert (current p = length toks) as -> by lia.
        now rewrite take_app_length. }
  rewrite Hall in Hf.
  exact (proj1 (List.Forall_forall _ _) Hf t Hin).
Qed.

(** The diagnostics of the parser are in the result of the analysis. *)
Lemma parser_error_surfaced text e :
  In e (r_errors (parse text)) ->
  In (Diagnostics.convertToDiagnostic e) (analyzeDiagnostics text).
Proof.
  intros He. unfold analyzeDiagnostics, Diagnostics.analyzeDiagnostics.
  cbv zeta. unfold Diagnostics.additionalValidation. cbv zeta.
  apply in_or_app. left.
  apply (in_map Diagnostics.convertToDiagnostic) in He.
  destruct (d_isDisabled _); repeat (apply in_or_app; left); exact He.
Qed.

(** The diagnostic of a definition of [start], as the analysis gives it. *)
Definition startTaken (r : Range) : Diagnostic :=
  mkDiagnostic DiagnosticSeverity.Error r "Duplicate choice ID: start"
    "exoscript" (Some "duplicate-choice-id").

Lemma startTaken_converted r :
  Diagnostics.convertToDiagnostic (duplicateStart r) = startTaken r.
Proof. now destruct r as [[a b] [c d]]. Qed.

Lemma start_token_reported text t :
  In t (fromFirstHeader (Lexer.r_tokens (tokenize text))) ->
  t_type t = TokenType.CHOICE_ID ->
  dataField choiceId t = Some "start" ->
  In (startTaken (t_range t)) (analyzeDiagnostics text).
Proof.
  intros Hin Hty Hid. rewrite <- startTaken_converted.
  apply parser_error_surfaced, start_flagged.
  unfold startDefinitions. apply filter_In. split; [exact Hin|].
  unfold definesStart, isType, parseChoiceId. now rewrite Hty, Hid.
Qed.

(** Each story goes with its header and holds under [start] the entry made
    from that header. *)
Definition seededFrom (s : StoryNode) (h : Token) : Prop :=
  s_headerRange s = t_range h
  /\ s_choiceIds s !! "start" = Some (mkChoiceId "start" (t_range h) true).

Lemma stories_seeded text :
  Forall2 seededFrom (d_stories (document (parse text)))
    (List.filter isHeader (Lexer.r_tokens (tokenize text))).
Proof.
  pose proof (stories_keys text) as Hk.
  pose proof (parse_startSeeded text) as Hs.
  revert Hk Hs.
  generalize (List.filter isHeader (Lexer.r_tokens (tokenize text))).
  generalize (d_stories (document (parse text))).
  induction l as [|s l IH]; intros [|h hs] Hk Hs; try discriminate.
  - constructor.
  - cbn [map] in Hk. unfold storyKey at 1, headerKey at 1 in Hk.
    injection Hk as _ Hr Hk. apply List.Forall_cons_iff in Hs as [Hs1 Hs2].
    constructor; [|now apply IH].
    unfold startSeeded in Hs1. split; [exact Hr | now rewrite <- Hr].
Qed.

(** C10.  In every parsed document each story goes with its header and,
    when the jumps are resolved, still holds under [start] the entry made
    from that header: no definition has taken its place.  Every token that
    defines the identifier [start] inside a story, be it the only one,
    gives a "Duplicate choice ID: start" diagnostic of severity Error on
    its own range in the result of the analysis.  Such are, after a story
    header and outside the comments, the token of a line that holds
    [= start] alone and the token of a hidden choice [*= start], with any
    number of stars and of blanks. *)
Theorem start_is_taken (text : string) :
  Forall2 seededFrom (d_stories (document (parse text)))
    (List.filter isHeader (Lexer.r_tokens (tokenize text)))
  /\ (forall t,
        In t (fromFirstHeader (Lexer.r_tokens (tokenize text))) ->
        t_type t = TokenType.CHOICE_ID ->
        dataField choiceId t = Some "start" ->
        In (startTaken (t_range t)) (analyzeDiagnostics text))
  /\ (forall n m,
        let lines := Regex.split Lexer.re_newline text in
        let line := nth n lines "" in
        (n < length lines)%nat ->
        Lexer.inBlockComment (TildeCommands.stateBefore text n) = false ->
        LexerFacts.opensBlockComment line = false ->
        existsb isHeader (Lexer.tokens (TildeCommands.stateBefore text n))
        = true ->
        JS.startsWith (JS.trim line) "==" = false ->
        Regex.exec Lexer.re_choiceId (JS.trim line) = Some m ->
        Regex.group1 m 1 = "start" ->
        In (startTaken
              (Lexer.makeRange n (JS.indexOf line "=" 0) (JS.len line)))
           (analyzeDiagnostics text))
  /\ (forall n m mi,
        let lines := Regex.split Lexer.re_newline text in
        let line := nth n lines "" in
        (n < length lines)%nat ->
        Lexer.inBlockComment (TildeCommands.stateBefore text n) = false ->
        LexerFacts.opensBlockComment line = false ->
        existsb isHeader (Lexer.tokens (TildeCommands.stateBefore text n))
        = true ->
        Regex.exec Lexer.re_choice (JS.trim line) = Some m ->
        Regex.group1 m 2 = "=" ->
        Regex.exec Lexer.re_id (JS.trim (Regex.group1 m 3)) = Some mi ->
        Regex.group1 mi 1 = "start" ->
        In (startTaken
              (Lexer.makeRange n (JS.indexOf line "*" 0) (JS.len line)))
           (analyzeDiagnostics text)).
Proof.
  split; [apply stories_seeded|]. split; [apply start_token_reported|].
  split.
  - cbv zeta. intros n m Hn Hb Ho Hh He Hm Hg.
    rewrite <- (TildeCommands.lines_stateBefore text n) in Ho, He, Hm.
    pose proof (IdLines.lineTokens_bare _ n m Hb Ho He Hm) as Hl.
    cbv zeta in Hl. rewrite TildeCommands.lines_stateBefore in Hl.
    apply (start_token_reported text
             (IdLines.bareToken n
                (nth n (Regex.split Lexer.re_newline text) "") m)).
    + apply (IdLines.line_token_in_story text n); auto.
      rewrite Hl. now left.
    + reflexivity.
    + unfold IdLines.bareToken, dataField. simpl. now rewrite Hg.
  - cbv zeta. intros n m mi Hn Hb Ho Hh Hm Hg Hi Hgi.
    rewrite <- (TildeCommands.lines_stateBefore text n) in Ho, Hm.
    pose proof (IdLines.lineTokens_hidden _ n m mi Hb Ho Hm Hg Hi) as Hl.
    cbv zeta in Hl. rewrite TildeCommands.lines_stateBefore in Hl.
    apply (start_token_reported text
             (IdLines.hiddenToken n
                (nth n (Regex.split Lexer.re_newline text) "") m mi)).
    + apply (IdLines.line_token_in_story text n); auto.
      rewrite Hl. now left.
    + reflexivity.
    + unfold IdLines.hiddenToken, dataField. simpl. now rewrite Hgi.
Qed.

(** The matches of the patterns in the lines [ =  start] and [**=  start ]. *)
Definition bareMatch : Regex.MatchResult :=
  Regex.mkMatch "=  start" 0 8 [(1%nat, (3%nat, 8%nat))].

Definition hiddenMatch : Regex.MatchResult :=
  Regex.mkMatch "**=  start" 0 10
    [(3%nat, (5%nat, 10%nat)); (2%nat, (2%nat, 3%nat)); (1%nat, (0%nat, 2%nat))].

Definition idMatch : Regex.MatchResult :=
  Regex.mkMatch "start" 0 5 [(1%nat, (0%nat, 5%nat))].

(** The theorem at the document [=== t /  =  start / **=  start ], whose only
    definitions of identifiers are the two of [start]. *)
Lemma start_is_taken_witness :
  let text := doc ["=== t"; " =  start"; "**=  start "] in
  In (startTaken (mkRange (mkPosition 1 1) (mkPosition 1 9)))
     (analyzeDiagnostics text)
  /\ In (startTaken (mkRange (mkPosition 2 0) (mkPosition 2 11)))
        (analyzeDiagnostics text).
Proof.
  cbv zeta.
  destruct (start_is_taken (doc ["=== t"; " =  start"; "**=  start "]))
    as (_ & _ & H1 & H2).
  split.
  - apply (H1 1%nat bareMatch); try reflexivity. vm_compute. lia.
  - apply (H2 2%nat hiddenMatch idMatch); try reflexivity. vm_compute. lia.
Defined.

(** The diagnostics of that document. *)
Example start_lines_analysis :
  analyzeDiagnostics (doc ["=== t"; " =  start"; "**=  start "])
  = [startTaken (mkRange (mkPosition 1 1) (mkPosition 1 9));
     startTaken (mkRange (mkPosition 2 0) (mkPosition 2 11))].
Proof. vm_compute. reflexivity. Qed.

End StartDefinitions.
